(** * uhttpd: utility functions and static file handler

    A shallow embedding of [uhttpd-utils.c] and [uhttpd-file.c] and the
    properties of the request-servicing core that follow from the code:
    the URL codec, the Base64 decoder, the chunk encoder, lexical path
    canonicalisation, the path resolver and its jail, realm matching,
    the conditional-request engine and the MIME lookup.

    Conventions.  A C [char] is an [ascii]; a C string is the list of its
    bytes before the terminating NUL; a C [int] is a [Z].  Fixed-size
    buffers appear through the truncation the code applies when it fills
    them; where the code writes into a buffer it has filled before (the
    array [path_phys], the value of a header) the model keeps the bytes
    of the array, those behind the terminator too.  The operating system
    (file system, clock, password database, socket) is an explicit
    argument of the functions that consult it. *)

From Stdlib Require Import ZArith List Ascii Bool Lia Arith.
From Stdlib Require String.
Import ListNotations String.StringSyntax.

Bind Scope string_scope with String.string.
Open Scope char_scope.
Open Scope Z_scope.

(* ================================================================== *)
(** * Part I: definitions                                              *)
(* ================================================================== *)

(** ** Bytes and C strings *)

Definition bytes := list ascii.

Definition code (c : ascii) : Z := Z.of_N (N_of_ascii c).
Definition chr (z : Z) : ascii := ascii_of_N (Z.to_N (z mod 256)).

Definition NUL : ascii := zero.

Definition lit (s : String.string) : bytes :=
  String.list_ascii_of_string s.

Definition len (s : bytes) : Z := Z.of_nat (List.length s).

Definition byte_eqb (a b : ascii) : bool := Ascii.eqb a b.

Fixpoint bytes_eqb (a b : bytes) : bool :=
  match a, b with
  | [], [] => true
  | x :: a', y :: b' => byte_eqb x y && bytes_eqb a' b'
  | _, _ => false
  end.

(** The C string held in a byte array: everything before the first NUL. *)
Fixpoint cstr (b : bytes) : bytes :=
  match b with
  | [] => []
  | c :: r => if byte_eqb c NUL then [] else c :: cstr r
  end.

(** [b[i] = c], within the array. *)
Fixpoint poke (i : nat) (c : ascii) (b : bytes) : bytes :=
  match b, i with
  | [], _ => []
  | _ :: r, O => c :: r
  | x :: r, S i' => x :: poke i' c r
  end.

Definition CR : ascii := chr 13.
Definition LF : ascii := chr 10.
Definition CRLF : bytes := [CR; LF].

(** <ctype.h>, "C" locale. *)
Definition in_range (lo hi c : ascii) : bool :=
  (code lo <=? code c) && (code c <=? code hi).

Definition isdigit (c : ascii) : bool := in_range "0" "9" c.
Definition isupper (c : ascii) : bool := in_range "A" "Z" c.
Definition islower (c : ascii) : bool := in_range "a" "z" c.
Definition isalnum (c : ascii) : bool := isdigit c || isupper c || islower c.
Definition isxdigit (c : ascii) : bool :=
  isdigit c || in_range "A" "F" c || in_range "a" "f" c.
Definition tolower (c : ascii) : ascii :=
  if isupper c then chr (code c + 32) else c.

(** [strcasecmp(a, b) == 0] *)
Fixpoint strcaseeq (a b : bytes) : bool :=
  match a, b with
  | [], [] => true
  | x :: a', y :: b' => byte_eqb (tolower x) (tolower y) && strcaseeq a' b'
  | _, _ => false
  end.

(** [strncmp(a, b, n) == 0] and [strncasecmp(a, b, n) == 0]: the first
    [n] bytes agree, a string that ends earlier ending both. *)
Fixpoint strneq (n : nat) (a b : bytes) : bool :=
  match n with
  | O => true
  | S n' =>
      match a, b with
      | [], [] => true
      | x :: a', y :: b' => byte_eqb x y && strneq n' a' b'
      | _, _ => false
      end
  end.

Fixpoint strncaseeq (n : nat) (a b : bytes) : bool :=
  match n with
  | O => true
  | S n' =>
      match a, b with
      | [], [] => true
      | x :: a', y :: b' =>
          byte_eqb (tolower x) (tolower y) && strncaseeq n' a' b'
      | _, _ => false
      end
  end.

(** ** URL codec: [uh_urldecode], [uh_urlencode] *)

Module Url.

(** The [hex(x)] macro of [uh_urldecode]. *)
Definition hex (x : Z) : Z :=
  if x <=? code "9" then x - code "0"
  else if x <=? code "F" then x - code "A" + 10
  else x - code "a" + 10.

(** The loop of [uh_urldecode]: [src] is what is left of the source from
    index [i] on, [len] the output cursor, [buf] the bytes written so
    far.  The result is the return value and the bytes written. *)
Fixpoint urldecode_loop (blen : Z) (src : bytes) (len : Z) (buf : bytes)
  : Z * bytes :=
  match src with
  | [] => (len, buf)
  | c :: rest =>
      if len <? blen then
        if byte_eqb c "%" then
          match rest with
          | h1 :: h2 :: rest' =>
              if isxdigit h1 && isxdigit h2 then
                urldecode_loop blen rest' (len + 1)
                  (buf ++ [chr (16 * hex (code h1) + hex (code h2))])
              else (-2, buf)
          | _ => (-2, buf)
          end
        else urldecode_loop blen rest (len + 1) (buf ++ [c])
      else (-1, buf)
  end.

(** [uh_urldecode(buf, blen, src, slen)], [src] being the [slen] source
    bytes. *)
Definition uh_urldecode (blen : Z) (src : bytes) : Z * bytes :=
  urldecode_loop blen src 0 [].

(** [const char hex[] = "0123456789abcdef"] *)
Definition hexdigits : bytes := lit "0123456789abcdef".

Definition hexdigit (n : Z) : ascii := nth (Z.to_nat n) hexdigits NUL.

Definition unreserved (c : ascii) : bool :=
  isalnum c || byte_eqb c "-" || byte_eqb c "_" || byte_eqb c "."
  || byte_eqb c "~".

(** What the encoder writes for one source byte. *)
Definition encode_byte (c : ascii) : bytes :=
  if unreserved c then [c]
  else ["%"; hexdigit (Z.land (Z.shiftr (code c) 4) 15);
        hexdigit (Z.land (code c) 15)].

Fixpoint urlencode_loop (blen : Z) (src : bytes) (len : Z) (buf : bytes)
  : Z * bytes :=
  match src with
  | [] => (len, buf)
  | c :: rest =>
      if len <? blen then
        if unreserved c then
          urlencode_loop blen rest (len + 1) (buf ++ [c])
        else if len + 3 <=? blen then
          urlencode_loop blen rest (len + 3)
            (buf ++ ["%"; hexdigit (Z.land (Z.shiftr (code c) 4) 15);
                     hexdigit (Z.land (code c) 15)])
        else (-1, buf)
      else (-1, buf)
  end.

Definition uh_urlencode (blen : Z) (src : bytes) : Z * bytes :=
  urlencode_loop blen src 0 [].

(** The characters the specification allows in encoder output. *)
Definition encoded_char (c : ascii) : bool :=
  isalnum c || byte_eqb c "-" || byte_eqb c "_" || byte_eqb c "."
  || byte_eqb c "~" || byte_eqb c "%".

Definition lower_hex (c : ascii) : bool :=
  isdigit c || in_range "a" "f" c.

(** Every ["%"] is followed by two lowercase hexadecimal digits. *)
Fixpoint escapes_lower (s : bytes) : bool :=
  match s with
  | [] => true
  | c :: r =>
      if byte_eqb c "%" then
        match r with
        | h1 :: h2 :: r' => lower_hex h1 && lower_hex h2 && escapes_lower r'
        | _ => false
        end
      else escapes_lower r
  end.

End Url.

(** ** Base64: [uh_b64decode] *)

Module B64.

(** The sextet of a recognised character; [None] is the [continue]. *)
Definition b64_value (c : ascii) : option Z :=
  let cin := code c in
  if (code "0" <=? cin) && (cin <=? code "9") then Some (cin - code "0" + 52)
  else if (code "A" <=? cin) && (cin <=? code "Z") then Some (cin - code "A")
  else if (code "a" <=? cin) && (cin <=? code "z") then
    Some (cin - code "a" + 26)
  else if cin =? code "+" then Some 62
  else if cin =? code "/" then Some 63
  else if cin =? code "=" then Some 0
  else None.

Definition recognised (c : ascii) : bool :=
  match b64_value c with Some _ => true | None => false end.

(** [unsigned int] arithmetic. *)
Definition u32 (z : Z) : Z := z mod 2 ^ 32.

(** The loop of [uh_b64decode]: [src] is the source from index [i] on,
    the end of the list standing for the terminating NUL. *)
Fixpoint b64_loop (blen slen : Z) (src : bytes) (i cout len : Z)
  (buf : bytes) : Z * bytes :=
  match src with
  | [] => (len, buf)
  | c :: rest =>
      if (i <=? slen) && negb (byte_eqb c NUL) then
        match b64_value c with
        | None => b64_loop blen slen rest (i + 1) cout len buf
        | Some cin =>
            let cout' := u32 (Z.lor (Z.shiftl cout 6) cin) in
            if i mod 4 =? 3 then
              if len + 3 <? blen then
                b64_loop blen slen rest (i + 1) cout' (len + 3)
                  (buf ++ [chr (Z.shiftr cout' 16); chr (Z.shiftr cout' 8);
                           chr cout'])
              else (len, buf)
            else b64_loop blen slen rest (i + 1) cout' len buf
        end
      else (len, buf)
  end.

(** [uh_b64decode(buf, blen, src, slen)]: return value and bytes written,
    the terminating NUL included. *)
Definition uh_b64decode (blen : Z) (src : bytes) (slen : Z) : Z * bytes :=
  let '(len, buf) := b64_loop blen slen src 0 0 0 [] in
  (len + 1, buf ++ [NUL]).

End B64.

(** ** Requests, configuration and the connection *)

(** Modelled from the spec: the declarations of [uhttpd.h], which is not
    among the sources.  "HTTP method (enum: GET, HEAD, POST, other), HTTP
    version (enum: 0.9, 1.0, 1.1)"; the configuration fields the two
    files read; the [http_versions] table as the status lines of the
    specification spell it. *)
Inductive http_method :=
| UH_HTTP_MSG_GET | UH_HTTP_MSG_HEAD | UH_HTTP_MSG_POST | UH_HTTP_MSG_OTHER.

Inductive http_version :=
| UH_HTTP_VER_0_9 | UH_HTTP_VER_1_0 | UH_HTTP_VER_1_1.

Definition http_versions (v : http_version) : bytes :=
  match v with
  | UH_HTTP_VER_0_9 => lit "HTTP/0.9"
  | UH_HTTP_VER_1_0 => lit "HTTP/1.0"
  | UH_HTTP_VER_1_1 => lit "HTTP/1.1"
  end.

(** [req->version > UH_HTTP_VER_1_0] *)
Definition after_1_0 (v : http_version) : bool :=
  match v with UH_HTTP_VER_1_1 => true | _ => false end.

Definition method_eqb (a b : http_method) : bool :=
  match a, b with
  | UH_HTTP_MSG_GET, UH_HTTP_MSG_GET
  | UH_HTTP_MSG_HEAD, UH_HTTP_MSG_HEAD
  | UH_HTTP_MSG_POST, UH_HTTP_MSG_POST
  | UH_HTTP_MSG_OTHER, UH_HTTP_MSG_OTHER => true
  | _, _ => false
  end.

Record auth_realm := {
  realm_path : bytes;
  realm_user : bytes;
  realm_pass : bytes
}.

Record config := {
  docroot : bytes;
  realm : bytes;
  network_timeout : Z;
  no_symlinks : bool;
  no_dirlists : bool
}.

(** [headers] is the array of alternating names and values, up to the
    first NULL name. *)
Record http_request := {
  method : http_method;
  version : http_version;
  headers : list (bytes * bytes);
  req_realm : option auth_realm
}.

(** What one call of the write hook does. *)
Inductive wr_event :=
| WrAll                  (* takes all it is given *)
| WrSome (n : nat)       (* takes [n] bytes, at most what it is given *)
| WrEINTR                (* fails with EINTR *)
| WrEAGAIN (ready : bool)(* fails with EAGAIN; what the wait then says *)
| WrError.               (* fails otherwise *)

(** The connection: the configuration of its listener, the request read
    from it, the bytes delivered to the peer so far and what the coming
    writes will do. *)
Record client := {
  conf : config;
  request : http_request;
  tx : bytes;
  net : list wr_event
}.

Definition with_io (cl : client) (t : bytes) (n : list wr_event) : client :=
  {| conf := conf cl; request := request cl; tx := t; net := n |}.

Definition with_request (cl : client) (r : http_request) : client :=
  {| conf := conf cl; request := r; tx := tx cl; net := net cl |}.

(** ** I/O primitives: [__uh_raw_send], [uh_tcp_send] and the senders *)

Module Net.

(** A computation on the connection. *)
Definition io (A : Type) := client -> A * client.

Definition ret {A} (a : A) : io A := fun cl => (a, cl).

(** [ensure_ret(x); k] *)
Definition ensure_ret (x : io Z) (k : io Z) : io Z :=
  fun cl => let '(rv, cl') := x cl in if rv <? 0 then (-1, cl') else k cl'.

Notation "'ensure_ret!' x ;; k" := (ensure_ret x k)
  (at level 10, x at level 10, k at level 200).

Definition take (n : Z) (b : bytes) : bytes := firstn (Z.to_nat n) b.
Definition drop (n : Z) (b : bytes) : bytes := skipn (Z.to_nat n) b.

(** The loop of [__uh_raw_send], one turn per call of the write hook; a
    connection with no event left is dead ([-1]). *)
Fixpoint raw_send (script : list wr_event) (buf : bytes) (len sec : Z)
  (sent : bytes) : Z * (bytes * list wr_event) :=
  match script with
  | [] => (-1, (sent, []))
  | ev :: script' =>
      match ev with
      | WrEINTR => raw_send script' buf len sec sent
      | WrEAGAIN ready =>
          if 0 <? sec then
            if ready then raw_send script' buf len sec sent
            else (-1, (sent, script'))
          else (-1, (sent, script'))
      | WrError => (-1, (sent, script'))
      | WrAll | WrSome _ =>
          let rv := match ev with
                    | WrSome n => Z.min (Z.of_nat n) len
                    | _ => len
                    end in
          if rv <? 0 then (-1, (sent, script'))
          else if rv =? 0 then (0, (sent, script'))
          else if rv <? len then
            raw_send script' (drop rv buf) (len - rv) sec
              (sent ++ take rv buf)
          else (rv, (sent ++ take rv buf, script'))
      end
  end.

(** [uh_tcp_send(cl, buf, len)], through the plain or the TLS write
    hook.  [buf] holds the bytes at the pointer; where the code passes a
    [len] beyond them, what lies behind them in memory is not
    modelled. *)
Definition uh_tcp_send (buf : bytes) (len : Z) : io Z :=
  fun cl =>
    let '(rv, (sent, script)) :=
      raw_send (net cl) buf len (network_timeout (conf cl)) (tx cl) in
    (rv, with_io cl sent script).

(** [printf] conversions [%X] and [%x] of an [unsigned int]. *)
Fixpoint hex_digits (table : bytes) (fuel : nat) (n : Z) (acc : bytes)
  : bytes :=
  match fuel with
  | O => acc
  | S fuel' =>
      let acc' := nth (Z.to_nat (n mod 16)) table NUL :: acc in
      if n / 16 =? 0 then acc' else hex_digits table fuel' (n / 16) acc'
  end.

Definition fmt_X (n : Z) : bytes :=
  hex_digits (lit "0123456789ABCDEF") 8 (n mod 2 ^ 32) [].
Definition fmt_x (n : Z) : bytes :=
  hex_digits (lit "0123456789abcdef") 8 (n mod 2 ^ 32) [].

(** [printf] conversions [%i] and [%03i] of an [int]: the digits of the
    magnitude, after the sign, with zeros before them up to the width
    of three that [%03i] asks for at least. *)
Fixpoint dec_digits (fuel : nat) (n : Z) (acc : bytes) : bytes :=
  match fuel with
  | O => acc
  | S fuel' =>
      let acc' := chr (48 + n mod 10) :: acc in
      if n / 10 =? 0 then acc' else dec_digits fuel' (n / 10) acc'
  end.

Definition int32 (z : Z) : Z := (z + 2 ^ 31) mod 2 ^ 32 - 2 ^ 31.

Definition fmt_i (n : Z) : bytes :=
  let v := int32 n in
  if v <? 0 then "-" :: dec_digits 10 (- v) [] else dec_digits 10 v [].

Definition zero_pad (width : nat) (digits : bytes) : bytes :=
  repeat "0"%char (width - List.length digits) ++ digits.

Definition fmt_03i (n : Z) : bytes :=
  let v := int32 n in
  if v <? 0 then "-" :: zero_pad 2 (dec_digits 10 (- v) [])
  else zero_pad 3 (dec_digits 10 v []).

(** [snprintf(buf, size, ...)] of the text [s]: the array contents (what
    fits and the NUL) and the return value (the length of [s]). *)
Definition snprintf (size : nat) (s : bytes) : bytes * Z :=
  (match size with
   | O => []
   | S m => firstn m s ++ [NUL]
   end, len s).

(** [uh_http_sendc(cl, data, len)].  [chunk] has eight bytes; the bytes
    of it that [snprintf] did not write are not modelled. *)
Definition uh_http_sendc (data : bytes) (len0 : Z) : io Z :=
  let len := if len0 =? -1 then len (cstr data) else len0 in
  if 0 <? len then
    let '(chunk, clen) := snprintf 8 (fmt_X len ++ CRLF) in
    ensure_ret! uh_tcp_send chunk clen ;;
    ensure_ret! uh_tcp_send data len ;;
    ensure_ret! uh_tcp_send CRLF 2 ;;
    ret 0
  else
    ensure_ret! uh_tcp_send (lit "0" ++ CRLF ++ CRLF) 5 ;;
    ret 0.

Section Limits.

(** The size of the message buffers, [UH_LIMIT_MSGHEAD] of [uhttpd.h]. *)
Variable UH_LIMIT_MSGHEAD : nat.

(** [uh_http_sendf(cl, req, fmt, ...)], [text] being what the format
    expands to and [req] the version of the request, if one is given. *)
Definition uh_http_sendf (req : option http_version) (text : bytes)
  : io Z :=
  let '(buffer, len) := snprintf UH_LIMIT_MSGHEAD text in
  match req with
  | Some v =>
      if after_1_0 v then ensure_ret! uh_http_sendc buffer len ;; ret 0
      else if 0 <? len then ensure_ret! uh_tcp_send buffer len ;; ret 0
      else ret 0
  | None =>
      if 0 <? len then ensure_ret! uh_tcp_send buffer len ;; ret 0
      else ret 0
  end.

(** [uh_http_send(cl, req, buf, len)] *)
Definition uh_http_send (req : option http_version) (buf : bytes)
  (len0 : Z) : io Z :=
  let len := if len0 <? 0 then len (cstr buf) else len0 in
  match req with
  | Some v =>
      if after_1_0 v then ensure_ret! uh_http_sendc buf len ;; ret 0
      else if 0 <? len then ensure_ret! uh_tcp_send buf len ;; ret 0
      else ret 0
  | None =>
      if 0 <? len then ensure_ret! uh_tcp_send buf len ;; ret 0
      else ret 0
  end.

(** [uh_http_sendhf(cl, code, summary, fmt, ...)], [text] being what
    the format expands to. *)
Definition uh_http_sendhf (code : Z) (summary text : bytes) : io Z :=
  let '(head, hlen) :=
    snprintf UH_LIMIT_MSGHEAD
      (lit "HTTP/1.1 " ++ fmt_03i code ++ lit " " ++ summary ++ CRLF
       ++ lit "Connection: close" ++ CRLF
       ++ lit "Content-Type: text/plain" ++ CRLF
       ++ lit "Transfer-Encoding: chunked" ++ CRLF ++ CRLF) in
  ensure_ret! uh_tcp_send head hlen ;;
  let '(body, blen) := snprintf UH_LIMIT_MSGHEAD text in
  ensure_ret! uh_http_sendc body blen ;;
  ensure_ret! uh_http_sendc [] 0 ;;
  ret 0.

End Limits.

(** A reference decoder for the chunked transfer coding (RFC 2616,
    3.6.1, without extensions and trailers), to read back what the
    encoder sends. *)
Definition hexval (c : ascii) : option Z :=
  if isdigit c then Some (code c - code "0")
  else if in_range "A" "F" c then Some (code c - code "A" + 10)
  else if in_range "a" "f" c then Some (code c - code "a" + 10)
  else None.

(** The chunk-size line: hexadecimal digits up to CR LF. *)
Fixpoint read_size (s : bytes) (acc : option Z) : option (Z * bytes) :=
  match s with
  | [] => None
  | c :: r =>
      match hexval c with
      | Some d =>
          read_size r (Some (16 * match acc with Some a => a | None => 0 end
                             + d))
      | None =>
          match acc, r with
          | Some n, c' :: r' =>
              if byte_eqb c CR && byte_eqb c' LF then Some (n, r') else None
          | _, _ => None
          end
      end
  end.

Fixpoint dechunk (fuel : nat) (s : bytes) : option bytes :=
  match fuel with
  | O => None
  | S fuel' =>
      match read_size s None with
      | None => None
      | Some (n, r) =>
          if n =? 0 then
            if bytes_eqb r CRLF then Some [] else None
          else if len r <? n + 2 then None
          else if bytes_eqb (take 2 (drop n r)) CRLF then
            match dechunk fuel' (drop (n + 2) r) with
            | Some d => Some (take n r ++ d)
            | None => None
            end
          else None
      end
  end.

End Net.

(** A sequence of sends followed by the terminator, the way the file
    pump of [uh_file_request] issues them. *)
Module Stream.
Import Net.

Fixpoint send_chunks (ps : list bytes) : io Z :=
  match ps with
  | [] => uh_http_sendc [] 0
  | p :: ps' => ensure_ret! uh_http_sendc p (len p) ;; send_chunks ps'
  end.

(** The framing the specification describes for one payload. *)
Definition frame (p : bytes) : bytes := fmt_X (len p) ++ CRLF ++ p ++ CRLF.

Definition terminator : bytes := lit "0" ++ CRLF ++ CRLF.

(** The value of a string of hexadecimal digits, read after [a]. *)
Definition hexnum (ds : bytes) (a : Z) : Z :=
  fold_left (fun a c => 16 * a + match hexval c with
                                 | Some d => d
                                 | None => 0
                                 end) ds a.

End Stream.

(** ** The file system *)

(** The fields of [struct stat] the code reads. *)
Record stat_t := {
  st_mode : Z;
  st_ino : Z;
  st_size : Z;
  st_mtime : Z
}.

(** <sys/stat.h> *)
Definition S_IFREG : Z := 32768.  (* 0100000 *)
Definition S_IFDIR : Z := 16384.  (* 0040000 *)
Definition S_IROTH : Z := 4.
Definition S_IXOTH : Z := 1.

(** [mode & bit], as a C condition. *)
Definition has_bit (mode bit : Z) : bool := negb (Z.land mode bit =? 0).

(** What the system calls answer: [stat] ([None] is failure),
    [realpath], [getcwd], [open] (the descriptor, or [-1]) and the
    contents [read] then delivers, one piece per call. *)
Record filesystem := {
  fs_stat : bytes -> option stat_t;
  fs_realpath : bytes -> option bytes;
  fs_getcwd : option bytes;
  fs_open : bytes -> Z;
  fs_read : bytes -> list bytes
}.

(** ** Path resolver: [canonpath], [uh_realpath], [uh_path_lookup] *)

Module Path.
Import Net.

Section Limits.

(** [PATH_MAX] of <limits.h> and [UH_LIMIT_MSGHEAD] of [uhttpd.h]. *)
Variable PATH_MAX : nat.
Variable UH_LIMIT_MSGHEAD : nat.
Variable fs : filesystem.

(** "collapse /x/../": [path_res] steps back until it has passed a
    slash or reached the start, so the output, kept last byte first,
    loses its last segment and the slash before it. *)
Fixpoint pop_segment (res : bytes) : bytes :=
  match res with
  | [] => []
  | c :: r => if byte_eqb c "/" then r else pop_segment r
  end.

(** The normalising loop of [canonpath]: [cpy] is what is left of
    [path_copy] from index [i] on, [res] the output so far, last byte
    first; [limit] is [PATH_MAX - 2]. *)
Fixpoint normalize (limit i : nat) (cpy res : bytes) : bytes :=
  match cpy with
  | [] => res
  | c :: t1 =>
      if (i <? limit)%nat then
        if byte_eqb c "/" then
          match t1 with
          | [] => normalize limit (i + 1) t1 (c :: res)
          | c1 :: t2 =>
              if byte_eqb c1 "/" then normalize limit (i + 1) t1 res
              else if byte_eqb c1 "." then
                match t2 with
                | [] => res
                | c2 :: t3 =>
                    if byte_eqb c2 "/" then normalize limit (i + 2) t2 res
                    else if byte_eqb c2 "."
                            && match t3 with
                               | [] => true
                               | c3 :: _ => byte_eqb c3 "/"
                               end
                    then normalize limit (i + 3) t3 (pop_segment res)
                    else normalize limit (i + 1) t1 (c :: res)
                end
              else normalize limit (i + 1) t1 (c :: res)
          end
        else normalize limit (i + 1) t1 (c :: res)
      else res
  end.

(** "remove trailing slash if not root /" *)
Definition finish (res : bytes) : bytes :=
  match res with
  | [] => ["/"]
  | c :: r =>
      if (1 <? List.length res)%nat && byte_eqb c "/" then r else res
  end.

(** "relative -> absolute": the contents of [path_copy], or [None] when
    [getcwd] fails. *)
Definition path_copy (path : bytes) : option bytes :=
  match path with
  | c :: _ =>
      if byte_eqb c "/" then Some (firstn (PATH_MAX - 1) path)
      else
        match fs_getcwd fs with
        | Some cwd =>
            if (PATH_MAX <=? List.length (cstr cwd))%nat then None
            else Some (firstn (PATH_MAX - 1) (cstr cwd ++ "/" :: path))
        | None => None
        end
  | [] =>
      match fs_getcwd fs with
      | Some cwd =>
          if (PATH_MAX <=? List.length (cstr cwd))%nat then None
          else Some (firstn (PATH_MAX - 1) (cstr cwd ++ ["/"]))
      | None => None
      end
  end.

(** The lexical part of [canonpath]. *)
Definition canon_lex (copy : bytes) : bytes :=
  rev (finish (normalize (PATH_MAX - 2) 0 copy [])).

(** "test access" *)
Definition readable (p : bytes) : bool :=
  match fs_stat fs p with
  | Some s => has_bit (st_mode s) S_IROTH
  | None => false
  end.

(** [canonpath(path, path_resolved)]: the contents of [path_resolved]
    afterwards ([old] are its contents before) and whether the result is
    not NULL. *)
Definition canonpath (path old : bytes) : bytes * bool :=
  match path_copy (cstr path) with
  | None => (old, false)
  | Some copy => (canon_lex copy, readable (canon_lex copy))
  end.

(** [uh_realpath(path, resolved_path)] *)
Definition uh_realpath (path old : bytes) : bytes * bool :=
  match fs_realpath fs (cstr path) with
  | Some res =>
      if (PATH_MAX <=? List.length (cstr res))%nat then (old, false)
      else (cstr res, true)
  | None => (old, false)
  end.

(** *** The two functions on the array

    [canonpath] and [uh_realpath] above give the string that the call
    leaves in [path_resolved].  The caller [uh_path_lookup] goes on to
    write into the array, so what the call leaves behind the terminator
    counts too: the following definitions keep all [PATH_MAX] bytes of
    the array.  While the loop runs, [res] holds the bytes before
    [path_res], last byte first, and [behind] the bytes from [path_res]
    on: a byte written takes the place of the first of them, and where
    [path_res] steps back the bytes it passes stay in the array. *)

(** "collapse /x/../" *)
Fixpoint pop_array (res behind : bytes) : bytes * bytes :=
  match res with
  | [] => ([], behind)
  | c :: r =>
      if byte_eqb c "/" then (r, c :: behind) else pop_array r (c :: behind)
  end.

Fixpoint normalize_array (limit i : nat) (cpy res behind : bytes)
  : bytes * bytes :=
  match cpy with
  | [] => (res, behind)
  | c :: t1 =>
      if (i <? limit)%nat then
        if byte_eqb c "/" then
          match t1 with
          | [] => normalize_array limit (i + 1) t1 (c :: res) (tl behind)
          | c1 :: t2 =>
              if byte_eqb c1 "/"
              then normalize_array limit (i + 1) t1 res behind
              else if byte_eqb c1 "." then
                match t2 with
                | [] => (res, behind)
                | c2 :: t3 =>
                    if byte_eqb c2 "/"
                    then normalize_array limit (i + 2) t2 res behind
                    else if byte_eqb c2 "."
                            && match t3 with
                               | [] => true
                               | c3 :: _ => byte_eqb c3 "/"
                               end
                    then
                      let '(res', behind') := pop_array res behind in
                      normalize_array limit (i + 3) t3 res' behind'
                    else
                      normalize_array limit (i + 1) t1 (c :: res) (tl behind)
                end
              else normalize_array limit (i + 1) t1 (c :: res) (tl behind)
          end
        else normalize_array limit (i + 1) t1 (c :: res) (tl behind)
      else (res, behind)
  end.

(** "remove trailing slash if not root /" *)
Definition finish_array (res behind : bytes) : bytes * bytes :=
  match res with
  | [] => (["/"], tl behind)
  | c :: r =>
      if (1 <? List.length res)%nat && byte_eqb c "/" then (r, c :: behind)
      else (res, behind)
  end.

(** [canonpath(path, path_resolved)]: the bytes of the array
    [path_resolved] afterwards ([old] are those before) and whether the
    result is not NULL. *)
Definition canonpath_array (path old : bytes) : bytes * bool :=
  match path_copy (cstr path) with
  | None => (old, false)
  | Some copy =>
      let '(res, behind) := normalize_array (PATH_MAX - 2) 0 copy [] old in
      let '(res, behind) := finish_array res behind in
      let path_resolved := rev res ++ NUL :: tl behind in
      (path_resolved, readable (cstr path_resolved))
  end.

(** [uh_realpath(path, resolved_path)]: [strncpy] fills the array with
    NUL after the string. *)
Definition uh_realpath_array (path old : bytes) : bytes * bool :=
  match fs_realpath fs (cstr path) with
  | Some res =>
      if (PATH_MAX <=? List.length (cstr res))%nat then (old, false)
      else
        (cstr res ++ repeat NUL (PATH_MAX - List.length (cstr res)), true)
  | None => (old, false)
  end.

(** [uh_index_add(filename)] on the list [uh_index_files]; [None] is a
    NULL [filename], [room] whether [malloc] succeeds. *)
Definition uh_index_add (room : bool) (filename : option bytes)
  (uh_index_files : list bytes) : list bytes :=
  match filename with
  | Some f => if room then f :: uh_index_files else uh_index_files
  | None => uh_index_files
  end.

(** [struct path_info], as returned: [uh_path_lookup] returns NULL
    unless [phys], and with it [root], [name] and [stat], are set. *)
Record path_info := {
  root : bytes;
  phys : bytes;
  name : bytes;
  info : option bytes;
  query : option bytes;
  redirected : bool;
  stat : stat_t
}.

(** [strchr(url, '?')]: what precedes the first ['?'] and what follows
    it. *)
Fixpoint split_query (url : bytes) : option (bytes * bytes) :=
  match url with
  | [] => None
  | c :: r =>
      if byte_eqb c "?" then Some ([], r)
      else match split_query r with
           | Some (a, b) => Some (c :: a, b)
           | None => None
           end
  end.

(** The first part of [uh_path_lookup]: the query string and the
    contents of [buffer], the document root followed by the decoded
    path; [None] is "bad URL". *)
Definition decode_url (docroot url : bytes)
  : option (bytes * option bytes) :=
  let buffer := firstn (UH_LIMIT_MSGHEAD - 1) docroot in
  let blen := Z.of_nat UH_LIMIT_MSGHEAD - len docroot - 1 in
  match split_query url with
  | Some (path, q) =>
      let query := match q with [] => None | _ => Some q end in
      match path with
      | [] => Some (buffer, query)
      | _ =>
          let '(rv, dec) := Url.uh_urldecode blen path in
          if rv <? 0 then None else Some (cstr (buffer ++ dec), query)
      end
  | None =>
      let '(rv, dec) := Url.uh_urldecode blen url in
      if rv <? 0 then None else Some (cstr (buffer ++ dec), None)
  end.

(** "create canon path": [k] is [i + 1]; the result is the bytes of
    the array [path_phys] and the string in [path_info] after the
    loop. *)
Fixpoint canon_walk (no_sym : bool) (buffer : bytes) (k : nat)
  (path_phys path_info : bytes) : bytes * bytes :=
  match k with
  | O => (path_phys, path_info)
  | S i =>
      if (i =? List.length buffer)%nat || byte_eqb (nth i buffer NUL) "/"
      then
        let candidate := firstn (Nat.min (i + 1) (PATH_MAX - 1)) buffer in
        let '(path_phys', found) :=
          if no_sym then uh_realpath_array candidate path_phys
          else canonpath_array candidate path_phys in
        if found then (path_phys', firstn (PATH_MAX - 1) (skipn i buffer))
        else canon_walk no_sym buffer i path_phys' candidate
      else canon_walk no_sym buffer i path_phys path_info
  end.

(** "check whether found path is within docroot", [path_phys] being
    the string in the array *)
Definition within_docroot (docroot path_phys : bytes) : bool :=
  strneq (List.length docroot) path_phys docroot
  && (byte_eqb (nth (List.length docroot) path_phys NUL) NUL
      || byte_eqb (nth (List.length docroot) path_phys NUL) "/").

(** "try to locate index file": [buffer] holds the directory,
    [path_phys] and [st] are replaced by the first index file whose
    [stat] succeeds with [S_IFREG] set. *)
Fixpoint try_index (uh_index_files : list bytes) (buffer path_phys : bytes)
  (st : stat_t) : bytes * stat_t :=
  match uh_index_files with
  | [] => (path_phys, st)
  | idx :: rest =>
      let candidate :=
        buffer
        ++ firstn (UH_LIMIT_MSGHEAD - List.length buffer - 1) (cstr idx) in
      match fs_stat fs candidate with
      | Some s =>
          if has_bit (st_mode s) S_IFREG then (firstn PATH_MAX candidate, s)
          else try_index rest buffer path_phys st
      | None => try_index rest buffer path_phys st
      end
  end.

(** "ensure trailing slash", on the array: the slash is written over
    the terminator, and the string then runs on to the next NUL of the
    array.  (Of an empty string the code reads the byte before the
    array; the model takes it not to be a slash.  A string that fills
    the array up to its last byte loses its terminator; what the code
    then reads behind the array is not modelled.) *)
Definition ensure_slash (path_phys : bytes) : bytes :=
  if byte_eqb (last (cstr path_phys) NUL) "/" then path_phys
  else poke (List.length (cstr path_phys)) "/" path_phys.

Definition redirect_text (name : bytes) (query : option bytes) : bytes :=
  lit "HTTP/1.1 302 Found" ++ CRLF
  ++ lit "Location: " ++ name
  ++ match query with Some q => lit "?" ++ q | None => [] end ++ CRLF
  ++ lit "Connection: close" ++ CRLF ++ CRLF.

(** [uh_path_lookup(cl, url)], [uh_index_files] being the list of index
    files; [None] is NULL.  [path_phys] is the array, which [memset]
    has filled with NUL; the fields of the result are the strings at
    the pointers it holds. *)
Definition uh_path_lookup (uh_index_files : list bytes)
  (url : option bytes) : io (option path_info) :=
  fun cl =>
    let docroot := cstr (docroot (conf cl)) in
    match url with
    | None => (None, cl)
    | Some url =>
        match decode_url docroot (cstr url) with
        | None => (None, cl)
        | Some (buffer, query) =>
            let slash := byte_eqb (last buffer NUL) "/" in
            let '(path_phys, path_info) :=
              canon_walk (no_symlinks (conf cl)) buffer
                (S (List.length buffer)) (repeat NUL PATH_MAX) [] in
            if negb (within_docroot docroot (cstr path_phys)) then (None, cl)
            else
              match fs_stat fs (cstr path_phys) with
              | None => (None, cl)
              | Some st =>
                  if has_bit (st_mode st) S_IFREG then
                    (Some {| root := docroot;
                             phys := cstr path_phys;
                             name :=
                               skipn (List.length docroot) (cstr path_phys);
                             info := match path_info with
                                     | [] => None
                                     | _ => Some path_info
                                     end;
                             query := query;
                             redirected := false;
                             stat := st |}, cl)
                  else if has_bit (st_mode st) S_IFDIR
                          && (List.length path_info =? 0)%nat then
                    let path_phys := ensure_slash path_phys in
                    let buffer :=
                      cstr (firstn (UH_LIMIT_MSGHEAD - 1) path_phys) in
                    if negb slash then
                      let '(_, cl') :=
                        uh_http_sendf UH_LIMIT_MSGHEAD None
                          (redirect_text
                             (skipn (List.length docroot) (cstr path_phys))
                             query)
                          cl in
                      (Some {| root := docroot;
                               phys := cstr path_phys;
                               name :=
                                 skipn (List.length docroot) (cstr path_phys);
                               info := None;
                               query := query;
                               redirected := true;
                               stat := st |}, cl')
                    else
                      let '(path_phys, st) :=
                        try_index uh_index_files buffer (cstr path_phys) st in
                      (Some {| root := docroot;
                               phys := path_phys;
                               name := skipn (List.length docroot) path_phys;
                               info := None;
                               query := query;
                               redirected := false;
                               stat := st |}, cl)
                  else (None, cl)
              end
        end
    end.

End Limits.

End Path.

(** ** Authentication: [uh_auth_add], [uh_auth_check] *)

Module Auth.
Import Net.

Section Env.

(** The sizes of the arrays of [struct auth_realm] and the size of the
    message buffers ([uhttpd.h]); whether the build has [HAVE_SHADOW];
    the password databases ([Some None] is an entry whose hash is NULL)
    and [crypt]. *)
Variable REALM_PATH_SIZE REALM_USER_SIZE REALM_PASS_SIZE : nat.
Variable UH_LIMIT_MSGHEAD : nat.
Variable HAVE_SHADOW : bool.
Variable getspnam : bytes -> option (option bytes).
Variable getpwnam : bytes -> option (option bytes).
Variable crypt : bytes -> bytes -> bytes.

(** The verifier a [$p$name] password refers to; empty when none. *)
Definition system_pass (account : bytes) : bytes :=
  match (if HAVE_SHADOW then getspnam account else None) with
  | Some (Some sp_pwdp) => firstn (REALM_PASS_SIZE - 1) (cstr sp_pwdp)
  | _ =>
      match getpwnam account with
      | Some (Some pw_passwd) =>
          match cstr pw_passwd with
          | [] => []
          | c :: _ =>
              if byte_eqb c "!" then []
              else firstn (REALM_PASS_SIZE - 1) (cstr pw_passwd)
          end
      | _ => []
      end
  end.

(** [uh_auth_add(path, user, pass)] on the list [uh_realms]; [room] is
    whether [malloc] succeeds. *)
Definition uh_auth_add (room : bool) (path user pass : bytes)
  (uh_realms : list auth_realm) : option auth_realm * list auth_realm :=
  if room then
    let pass := cstr pass in
    let new :=
      {| realm_path := firstn (REALM_PATH_SIZE - 1) (cstr path);
         realm_user := firstn (REALM_USER_SIZE - 1) (cstr user);
         realm_pass :=
           if (3 <? List.length pass)%nat && strneq 3 pass (lit "$p$")
           then system_pass (skipn 3 pass)
           else firstn (REALM_PASS_SIZE - 1) pass |} in
    match realm_pass new with
    | [] => (None, uh_realms)
    | _ => (Some new, new :: uh_realms)
    end
  else (None, uh_realms).

(** [(plen >= rlen) && !strncasecmp(pi->name, realm->path, rlen)] *)
Definition covers (name : bytes) (r : auth_realm) : bool :=
  (List.length (realm_path r) <=? List.length name)%nat
  && strncaseeq (List.length (realm_path r)) name (realm_path r).

(** "check whether at least one realm covers the requested url": the
    scan of the list, stopping at the first realm that covers. *)
Fixpoint first_covering (name : bytes) (uh_realms : list auth_realm)
  : option auth_realm :=
  match uh_realms with
  | [] => None
  | r :: rest => if covers name r then Some r else first_covering name rest
  end.

(** "try to get client auth info": the value of the first header that is
    [Authorization] with a [Basic] value. *)
Fixpoint basic_header (hs : list (bytes * bytes)) : option bytes :=
  match hs with
  | [] => None
  | (n, v) :: rest =>
      if strcaseeq n (lit "Authorization")
         && (6 <? List.length v)%nat && strncaseeq 6 v (lit "Basic ")
      then Some v
      else basic_header rest
  end.

(** [strchr(buffer, ':')], the colon replaced by NUL. *)
Fixpoint split_colon (b : bytes) : option (bytes * bytes) :=
  match b with
  | [] => None
  | c :: r =>
      if byte_eqb c ":" then Some ([], r)
      else match split_colon r with
           | Some (u, p) => Some (c :: u, p)
           | None => None
           end
  end.

Definition credentials (hs : list (bytes * bytes)) : option (bytes * bytes) :=
  match basic_header hs with
  | Some v =>
      split_colon
        (cstr (snd (B64.uh_b64decode (Z.of_nat UH_LIMIT_MSGHEAD - 1)
                      (skipn 6 v) (len v - 6))))
  | None => None
  end.

(** "find matching realm" *)
Fixpoint realm_of_user (name user : bytes) (uh_realms : list auth_realm)
  : option auth_realm :=
  match uh_realms with
  | [] => None
  | r :: rest =>
      if covers name r && bytes_eqb user (realm_user r) then Some r
      else realm_of_user name user rest
  end.

Definition challenge (v : http_version) (realm_name : bytes) : bytes :=
  http_versions v ++ lit " 401 Authorization Required" ++ CRLF
  ++ lit "WWW-Authenticate: Basic realm=" ++ [chr 34] ++ realm_name
  ++ [chr 34]
  ++ CRLF
  ++ lit "Content-Type: text/plain" ++ CRLF
  ++ lit "Content-Length: 23" ++ CRLF ++ CRLF
  ++ lit "Authorization Required" ++ [LF].

Definition set_realm (r : auth_realm) (cl : client) : client :=
  with_request cl
    {| method := method (request cl); version := version (request cl);
       headers := headers (request cl); req_realm := Some r |}.

(** [uh_auth_check(cl, req, pi)], [req] being the request of [cl] and
    [name] being [pi->name]. *)
Definition uh_auth_check (uh_realms : list auth_realm) (name : bytes)
  : io Z :=
  fun cl =>
    match first_covering name uh_realms with
    | None => (1, cl)
    | Some covering =>
        let cl := set_realm covering cl in
        let deny (cl : client) :=
          let '(_, cl') :=
            uh_http_sendf UH_LIMIT_MSGHEAD None
              (challenge (version (request cl)) (cstr (realm (conf cl))))
              cl in
          (0, cl') in
        match credentials (headers (request cl)) with
        | Some (user, pass) =>
            match realm_of_user name user uh_realms with
            | Some matching =>
                let cl := set_realm matching cl in
                if bytes_eqb pass (realm_pass matching)
                   || bytes_eqb (cstr (crypt pass (realm_pass matching)))
                        (realm_pass matching)
                then (1, cl)
                else deny cl
            | None => deny cl
            end
        | None => deny cl
        end
    end.

End Env.

End Auth.

(** ** Static file handler: [uhttpd-file.c] *)

Module File.
Import Net Path.

(** [ensure_out(x); k], for a function that returns [false] at [out]. *)
Definition ensure_out (x : io Z) (k : io bool) : io bool :=
  fun cl => let '(rv, cl') := x cl in if rv <? 0 then (false, cl') else k cl'.

Notation "'ensure_out!' x ;; k" := (ensure_out x k)
  (at level 10, x at level 10, k at level 200).

Section Env.

(** [PATH_MAX] and [UH_LIMIT_MSGHEAD]; the file system; the table
    [uh_mime_types] of [uhttpd-mimetypes.h], up to its NULL entry; the C
    library: [gmtime] and [strftime] with the format of the code,
    [strptime] and [timegm], [time(NULL)], [scandir] with [alphasort]
    (the names in order, [None] on failure) and the conversion
    [%.02f] of a size in kilobytes. *)
Variable PATH_MAX : nat.
Variable UH_LIMIT_MSGHEAD : nat.
Variable fs : filesystem.
Variable uh_mime_types : list (bytes * bytes).
Variable strftime_gmt : Z -> bytes.
Variable strptime_gm : bytes -> option Z.
Variable now : Z.
Variable scandir : bytes -> option (list bytes).
Variable fmt_kbyte : Z -> bytes.

Definition sendf := uh_http_sendf UH_LIMIT_MSGHEAD.
Definition send := uh_http_send.

(** The inner loop of [uh_file_mime_lookup]: [k] is the index of [e]
    plus one. *)
Fixpoint mime_scan (path extn : bytes) (k : nat) : bool :=
  match k with
  | O => false
  | S e =>
      if (byte_eqb (nth e path NUL) "." || byte_eqb (nth e path NUL) "/")
         && strcaseeq (skipn (S e) path) extn
      then true
      else mime_scan path extn e
  end.

Fixpoint mime_lookup (table : list (bytes * bytes)) (path : bytes) : bytes :=
  match table with
  | [] => lit "application/octet-stream"
  | (extn, mime) :: m =>
      if mime_scan path extn (List.length path) then mime
      else mime_lookup m path
  end.

Definition uh_file_mime_lookup (path : bytes) : bytes :=
  mime_lookup uh_mime_types path.

Definition uh_file_mktag (s : stat_t) : bytes :=
  [chr 34] ++ fmt_x (st_ino s) ++ lit "-" ++ fmt_x (st_size s) ++ lit "-"
  ++ fmt_x (st_mtime s) ++ [chr 34].

Definition uh_file_date2unix (date : bytes) : Z :=
  match strptime_gm date with
  | Some t => t
  | None => 0
  end.

(** [str] has 128 bytes. *)
Definition uh_file_unix2date (ts : Z) : bytes :=
  firstn 127 (cstr (strftime_gmt ts)).

Fixpoint header_lookup (hs : list (bytes * bytes)) (name : bytes)
  : option bytes :=
  match hs with
  | [] => None
  | (n, v) :: rest =>
      if strcaseeq n name then Some v else header_lookup rest name
  end.

Definition uh_file_header_lookup (cl : client) (name : bytes)
  : option bytes :=
  header_lookup (headers (request cl)) name.

Definition uh_file_response_ok_hdrs (s : option stat_t) : io Z :=
  ensure_ret! sendf None (lit "Connection: close" ++ CRLF) ;;
  match s with
  | Some st =>
      ensure_ret! sendf None (lit "ETag: " ++ uh_file_mktag st ++ CRLF) ;;
      ensure_ret! sendf None
        (lit "Last-Modified: " ++ uh_file_unix2date (st_mtime st) ++ CRLF) ;;
      sendf None (lit "Date: " ++ uh_file_unix2date now ++ CRLF)
  | None => sendf None (lit "Date: " ++ uh_file_unix2date now ++ CRLF)
  end.

Definition uh_file_response_200 (s : option stat_t) : io Z :=
  fun cl =>
    (ensure_ret! sendf None
       (http_versions (version (request cl)) ++ lit " 200 OK" ++ CRLF) ;;
     uh_file_response_ok_hdrs s) cl.

Definition uh_file_response_304 (s : option stat_t) : io Z :=
  fun cl =>
    (ensure_ret! sendf None
       (http_versions (version (request cl)) ++ lit " 304 Not Modified"
        ++ CRLF) ;;
     uh_file_response_ok_hdrs s) cl.

Definition uh_file_response_412 : io Z :=
  fun cl =>
    sendf None
      (http_versions (version (request cl)) ++ lit " 412 Precondition Failed"
       ++ CRLF ++ lit "Connection: close" ++ CRLF) cl.

(** [hdr[i] = 0] *)
Fixpoint put_nul (i : nat) (hdr : bytes) : bytes :=
  match hdr, i with
  | [], _ => []
  | _ :: r, O => NUL :: r
  | c :: r, S i' => c :: put_nul i' r
  end.

(** [!strcmp(p, "*") || !strcmp(p, tag)], [p] being [&hdr[p]] *)
Definition token_matches (hdr : bytes) (p : nat) (tag : bytes) : bool :=
  bytes_eqb (cstr (skipn p hdr)) (lit "*")
  || bytes_eqb (cstr (skipn p hdr)) tag.

(** The token loop of [uh_file_if_match] and [uh_file_if_none_match]:
    [hdr] is the header value as the loop has rewritten it so far, and
    the result is whether the loop has left at a matching token, with
    the header value as the loop leaves it.  [fuel] bounds the turns;
    [i] grows at each. *)
Fixpoint token_loop (fuel : nat) (hdr : bytes) (i p : nat) (tag : bytes)
  : bool * bytes :=
  match fuel with
  | O => (false, hdr)
  | S fuel' =>
      if (i <? List.length (cstr hdr))%nat then
        if byte_eqb (nth i hdr NUL) " " || byte_eqb (nth i hdr NUL) ","
        then token_loop fuel' (put_nul i hdr) (i + 2) (i + 1) tag
        else if token_matches hdr p tag then (true, hdr)
        else token_loop fuel' hdr (i + 1) p tag
      else (false, hdr)
  end.

Definition some_token_matches (hdr tag : bytes) : bool :=
  fst (token_loop (S (List.length hdr)) hdr 0 0 tag).

(** The stored value [hdr] of a header after the loop: the loop reads
    and writes before the terminator, what follows it stays. *)
Definition tokens_left (hdr tag : bytes) : bytes :=
  snd (token_loop (S (List.length (cstr hdr))) (cstr hdr) 0 0 tag)
  ++ skipn (List.length (cstr hdr)) hdr.

(** The headers with [value] put where [uh_file_header_lookup] finds the
    value of the header [name]. *)
Fixpoint header_store (hs : list (bytes * bytes)) (name value : bytes)
  : list (bytes * bytes) :=
  match hs with
  | [] => []
  | (n, v) :: rest =>
      if strcaseeq n name then (n, value) :: rest
      else (n, v) :: header_store rest name value
  end.

Definition store_header (name value : bytes) (req : http_request)
  : http_request :=
  {| method := method req; version := version req;
     headers := header_store (headers req) name value;
     req_realm := req_realm req |}.

(** The precondition checks return [*ok], or [-1] when the response
    could not be sent, and set [*ok]: the result is the pair of the
    return value and of [*ok].  The loop of the two token checks writes
    into the header value of the request, which the client keeps. *)
Definition emit (response : io Z) : io (Z * Z) :=
  fun cl =>
    let '(rv, cl') := response cl in
    if rv <? 0 then ((-1, 0), cl') else ((0, 0), cl').

Definition pass : io (Z * Z) := fun cl => ((1, 1), cl).

Definition uh_file_if_match (s : stat_t) : io (Z * Z) :=
  fun cl =>
    match uh_file_header_lookup cl (lit "If-Match") with
    | Some hdr =>
        let tag := uh_file_mktag s in
        let cl' :=
          with_request cl
            (store_header (lit "If-Match") (tokens_left hdr tag)
               (request cl)) in
        if some_token_matches (cstr hdr) tag then pass cl'
        else emit uh_file_response_412 cl'
    | None => pass cl
    end.

Definition uh_file_if_modified_since (s : stat_t) : io (Z * Z) :=
  fun cl =>
    match uh_file_header_lookup cl (lit "If-Modified-Since") with
    | Some hdr =>
        if st_mtime s <=? uh_file_date2unix (cstr hdr)
        then emit (uh_file_response_304 (Some s)) cl
        else pass cl
    | None => pass cl
    end.

Definition uh_file_if_none_match (s : stat_t) : io (Z * Z) :=
  fun cl =>
    match uh_file_header_lookup cl (lit "If-None-Match") with
    | Some hdr =>
        let tag := uh_file_mktag s in
        let cl' :=
          with_request cl
            (store_header (lit "If-None-Match") (tokens_left hdr tag)
               (request cl)) in
        if some_token_matches (cstr hdr) tag then
          match method (request cl) with
          | UH_HTTP_MSG_GET | UH_HTTP_MSG_HEAD =>
              emit (uh_file_response_304 (Some s)) cl'
          | _ => emit uh_file_response_412 cl'
          end
        else pass cl'
    | None => pass cl
    end.

Definition uh_file_if_range (s : stat_t) : io (Z * Z) :=
  fun cl =>
    match uh_file_header_lookup cl (lit "If-Range") with
    | Some _ => emit uh_file_response_412 cl
    | None => pass cl
    end.

Definition uh_file_if_unmodified_since (s : stat_t) : io (Z * Z) :=
  fun cl =>
    match uh_file_header_lookup cl (lit "If-Unmodified-Since") with
    | Some hdr =>
        if uh_file_date2unix (cstr hdr) <=? st_mtime s
        then emit uh_file_response_412 cl
        else pass cl
    | None => pass cl
    end.

(** [if (ok) ensure_out(check(cl, &pi->stat, &ok));] followed by [k]:
    the result is [None] at [out] and the final [ok] otherwise. *)
Definition precondition (check : io (Z * Z)) (ok : Z)
  (k : Z -> io (option Z)) : io (option Z) :=
  fun cl =>
    if ok =? 0 then k ok cl
    else
      let '((rv, ok'), cl') := check cl in
      if rv <? 0 then (None, cl') else k ok' cl'.

(** "test preconditions" *)
Definition preconditions (s : stat_t) : io (option Z) :=
  precondition (uh_file_if_modified_since s) 1 (fun ok =>
  precondition (uh_file_if_match s) ok (fun ok =>
  precondition (uh_file_if_range s) ok (fun ok =>
  precondition (uh_file_if_unmodified_since s) ok (fun ok =>
  precondition (uh_file_if_none_match s) ok (fun ok =>
  fun cl => (Some ok, cl)))))).

(** [scandir] with [uh_file_scandir_filter_dir] *)
Definition entries (dir : bytes) : list bytes :=
  match scandir dir with
  | Some names => filter (fun n => negb (bytes_eqb (cstr n) (lit "."))) names
  | None => []
  end.

Definition dir_item (name d_name : bytes) (s : stat_t) : bytes :=
  lit "<li><strong><a href='" ++ name ++ d_name ++ lit "'>" ++ d_name
  ++ lit "</a>/</strong><br /><small>modified: "
  ++ uh_file_unix2date (st_mtime s)
  ++ lit "<br />directory - " ++ fmt_kbyte (st_size s)
  ++ lit " kbyte<br /><br /></small></li>".

Definition file_item (name d_name filename : bytes) (s : stat_t) : bytes :=
  lit "<li><strong><a href='" ++ name ++ d_name ++ lit "'>" ++ d_name
  ++ lit "</a></strong><br /><small>modified: "
  ++ uh_file_unix2date (st_mtime s)
  ++ lit "<br />" ++ uh_file_mime_lookup filename ++ lit " - "
  ++ fmt_kbyte (st_size s)
  ++ lit " kbyte<br /><br /></small></li>".

(** [filename] with the entry name printed at [pathptr]. *)
Definition entry_path (dir d_name : bytes) : bytes :=
  let filename := firstn (PATH_MAX - 1) dir in
  filename ++ firstn (PATH_MAX - List.length filename - 1) (cstr d_name).

(** "list subdirs" and "list files" *)
Fixpoint list_entries (subdirs : bool) (v : http_version) (pi : path_info)
  (files : list bytes) (k : io bool) : io bool :=
  match files with
  | [] => k
  | d_name :: rest =>
      let filename := entry_path (phys pi) d_name in
      match fs_stat fs filename with
      | Some s =>
          if subdirs then
            if has_bit (st_mode s) S_IFDIR && has_bit (st_mode s) S_IXOTH
            then ensure_out! sendf (Some v)
                               (dir_item (name pi) (cstr d_name) s) ;;
                 list_entries subdirs v pi rest k
            else list_entries subdirs v pi rest k
          else
            if negb (has_bit (st_mode s) S_IFDIR)
               && has_bit (st_mode s) S_IROTH
            then ensure_out! sendf (Some v)
                               (file_item (name pi) (cstr d_name) filename s) ;;
                 list_entries subdirs v pi rest k
            else list_entries subdirs v pi rest k
      | None => list_entries subdirs v pi rest k
      end
  end.

(** [uh_file_dirlist(cl, pi)]; the result is not used. *)
Definition uh_file_dirlist (pi : path_info) : io bool :=
  fun cl =>
    let v := version (request cl) in
    let files := entries (phys pi) in
    (ensure_out! sendf (Some v)
       (lit "<html><head><title>Index of " ++ name pi
        ++ lit "</title></head><body><h1>Index of " ++ name pi
        ++ lit "</h1><hr /><ol>") ;;
     list_entries true v pi files
       (list_entries false v pi files
          (ensure_out! sendf (Some v) (lit "</ol><hr /></body></html>") ;;
           ensure_out! sendf (Some v) [] ;;
           ret false))) cl.

(** "pump file data": one send per piece that [read] delivers. *)
Fixpoint pump (v : http_version) (pieces : list bytes) (k : io bool)
  : io bool :=
  match pieces with
  | [] => k
  | piece :: rest =>
      let buf := firstn UH_LIMIT_MSGHEAD piece in
      if 0 <? len buf then
        ensure_out! send (Some v) buf (len buf) ;; pump v rest k
      else k
  end.

(** [uh_file_request(cl, pi)] *)
Definition uh_file_request (pi : path_info) : io bool :=
  fun cl =>
    let req := request cl in
    if has_bit (st_mode (stat pi)) S_IFREG && (0 <? fs_open fs (phys pi))
    then
      match preconditions (stat pi) cl with
      | (None, cl') => (false, cl')
      | (Some ok, cl') =>
          if 0 <? ok then
            (ensure_out! uh_file_response_200 (Some (stat pi)) ;;
             ensure_out! sendf None
               (lit "Content-Type: " ++ uh_file_mime_lookup (name pi)
                ++ CRLF) ;;
             ensure_out! sendf None
               (lit "Content-Length: " ++ fmt_i (st_size (stat pi))
                ++ CRLF) ;;
             let body :=
               ensure_out! send None CRLF (-1) ;;
               if method_eqb (method req) UH_HTTP_MSG_HEAD then ret false
               else
                 pump (version req) (fs_read fs (phys pi))
                   (ensure_out! send (Some (version req)) [] 0 ;;
                    ret false) in
             if after_1_0 (version req)
                && negb (method_eqb (method req) UH_HTTP_MSG_HEAD)
             then ensure_out! send None
                    (lit "Transfer-Encoding: chunked" ++ CRLF) (-1) ;;
                  body
             else body) cl'
          else
            (ensure_out! send None CRLF (-1) ;; ret false) cl'
      end
    else if has_bit (st_mode (stat pi)) S_IFDIR
            && negb (no_dirlists (conf cl))
    then
      (ensure_out! uh_file_response_200 None ;;
       let content :=
         ensure_out! send None
           (lit "Content-Type: text/html" ++ CRLF ++ CRLF) (-1) ;;
         fun cl => (false, snd (uh_file_dirlist pi cl)) in
       if after_1_0 (version req)
       then ensure_out! send None
              (lit "Transfer-Encoding: chunked" ++ CRLF) (-1) ;;
            content
       else content) cl
    else
      (ensure_out! uh_http_sendhf UH_LIMIT_MSGHEAD 403 (lit "Forbidden")
                     (lit "Access to this resource is forbidden") ;;
       ret false) cl.

End Env.

(** The rule the specification words for the MIME lookup: the text after
    the last ['.'] or ['/'] of the path, looked up in the table without
    regard to case. *)
Module SpecMime.

(** The text after the last ['.'] or ['/'], if there is one. *)
Fixpoint last_extension (path : bytes) : option bytes :=
  match path with
  | [] => None
  | c :: r =>
      match last_extension r with
      | Some e => Some e
      | None =>
          if byte_eqb c "." || byte_eqb c "/" then Some r else None
      end
  end.

Fixpoint assoc_nocase (table : list (bytes * bytes)) (e : bytes)
  : option bytes :=
  match table with
  | [] => None
  | (extn, mime) :: m =>
      if strcaseeq e extn then Some mime else assoc_nocase m e
  end.

Definition mime_by_last_extension (table : list (bytes * bytes))
  (path : bytes) : bytes :=
  match last_extension path with
  | Some e =>
      match assoc_nocase table e with
      | Some mime => mime
      | None => lit "application/octet-stream"
      end
  | None => lit "application/octet-stream"
  end.

(** The other reading of the same words, "first match scanning the path
    right-to-left": the rightmost ['.'] or ['/'] after which the text
    is in the table decides. *)
Fixpoint rightmost_match (table : list (bytes * bytes)) (path : bytes)
  : option bytes :=
  match path with
  | [] => None
  | c :: r =>
      match rightmost_match table r with
      | Some mime => Some mime
      | None =>
          if byte_eqb c "." || byte_eqb c "/" then assoc_nocase table r
          else None
      end
  end.

Definition mime_by_rightmost_match (table : list (bytes * bytes))
  (path : bytes) : bytes :=
  match rightmost_match table path with
  | Some mime => mime
  | None => lit "application/octet-stream"
  end.

End SpecMime.

End File.

(** Vocabulary of the statements about the MIME lookup. *)
Module MimeRule.

Definition is_anchor (c : ascii) : bool := byte_eqb c "." || byte_eqb c "/".

(** [extn] is, up to case, all that follows some ['.'] or ['/'] of
    [path]. *)
Definition anchored (path extn : bytes) : Prop :=
  exists pre c suf,
    path = pre ++ c :: suf /\ is_anchor c = true
    /\ strcaseeq suf extn = true.

(** No extension of the table contains ['.'] or ['/']. *)
Definition plain_extensions (table : list (bytes * bytes)) : Prop :=
  Forall (fun e => forallb (fun c => negb (is_anchor c)) (fst e) = true)
    table.

End MimeRule.

(** ** Fixtures of the examples *)

Module Fixtures.
Import Net.

Definition alice_realms : list auth_realm :=
  [ {| realm_path := lit "/a"; realm_user := lit "bob";
       realm_pass := lit "y" |};
    {| realm_path := lit "/a/b"; realm_user := lit "alice";
       realm_pass := lit "x" |} ].

Definition plain_client : client :=
  {| conf := {| docroot := lit "/srv/www"; realm := lit "Protected Area";
                network_timeout := 30; no_symlinks := false;
                no_dirlists := false |};
     request := {| method := UH_HTTP_MSG_GET; version := UH_HTTP_VER_1_1;
                   headers := [(lit "Host", lit "example")];
                   req_realm := None |};
     tx := []; net := [WrAll] |}.

End Fixtures.

(** Vocabulary of the statements about canonicalisation: a path as the
    list of its segments, and what "collapse [//], drop [/./], collapse
    [/x/..]" does to that list. *)
Module PathRule.

(** A segment has no slash. *)
Definition plain (seg : bytes) : bool :=
  forallb (fun c => negb (byte_eqb c "/")) seg.

Definition is_dot (seg : bytes) : bool := bytes_eqb seg ["."].
Definition is_dotdot (seg : bytes) : bool := bytes_eqb seg ["."; "."].
Definition is_empty (seg : bytes) : bool :=
  match seg with [] => true | _ => false end.

(** The path made of the segments, a slash before each. *)
Definition render (segs : list bytes) : bytes :=
  flat_map (fun s => "/" :: s) segs.

(** The segments of what follows the leading slash of a path. *)
Fixpoint split_slash (s : bytes) : list bytes :=
  match s with
  | [] => [[]]
  | c :: r =>
      if byte_eqb c "/" then [] :: split_slash r
      else match split_slash r with
           | seg :: rest => (c :: seg) :: rest
           | [] => [[c]]
           end
  end.

(** The segments kept, last one first: empty segments and [.] are
    dropped and [..] drops the segment before it. *)
Fixpoint resolve (segs stack : list bytes) : list bytes :=
  match segs with
  | [] => stack
  | seg :: rest =>
      if is_empty seg || is_dot seg then resolve rest stack
      else if is_dotdot seg then resolve rest (tl stack)
      else resolve rest (seg :: stack)
  end.

(** The output of the normaliser for a stack of segments, last byte
    first. *)
Definition output (stack : list bytes) : bytes :=
  flat_map (fun s => rev s ++ ["/"]) stack.

(** The path ends with a slash. *)
Definition trailing (segs : list bytes) : bool :=
  match segs with
  | [] => false
  | _ => is_empty (last segs [])
  end.

(** A segment that the normaliser keeps. *)
Definition kept (seg : bytes) : bool :=
  plain seg && negb (is_empty seg) && negb (is_dot seg)
  && negb (is_dotdot seg).

(** The canonical form of the path made of the segments. *)
Definition canonical (segs : list bytes) : bytes :=
  match resolve segs [] with
  | [] => ["/"]
  | stack => render (rev stack)
  end.

Definition no_nul (b : bytes) : Prop := Forall (fun c => c <> NUL) b.

(** The path of a directory, with a slash at its end. *)
Definition with_slash (p : bytes) : bytes :=
  if byte_eqb (last p NUL) "/" then p else p ++ ["/"].

(** The path has a [/..] somewhere. *)
Fixpoint has_dotdot (p : bytes) : bool :=
  match p with
  | [] => false
  | c :: t =>
      (byte_eqb c "/"
       && match t with
          | c1 :: c2 :: _ => byte_eqb c1 "." && byte_eqb c2 "."
          | _ => false
          end)
      || has_dotdot t
  end.

(** <sys/stat.h>: the type of the file. *)
Definition S_IFMT : Z := 61440.  (* 0170000 *)

Definition is_regular (s : stat_t) : bool :=
  Z.land (st_mode s) S_IFMT =? S_IFREG.

Definition is_directory (s : stat_t) : bool :=
  Z.land (st_mode s) S_IFMT =? S_IFDIR.

(** The index file [f] of the directory [dir] is there and is a regular
    file. *)
Definition regular_file_at (fs : filesystem) (dir f : bytes) : bool :=
  match fs_stat fs (dir ++ cstr f) with
  | Some s => is_regular s
  | None => false
  end.

(** What is at the path, if anything, is a regular file or has a type
    without the bit of [S_IFREG]: it is not a socket. *)
Definition no_socket_at (fs : filesystem) (p : bytes) : Prop :=
  match fs_stat fs p with
  | Some s => has_bit (st_mode s) S_IFREG = is_regular s
  | None => True
  end.

(** The index file [f] of the directory [dir] is there and its mode has
    [S_IFREG]. *)
Definition regular_at (fs : filesystem) (dir f : bytes) : bool :=
  match fs_stat fs (dir ++ cstr f) with
  | Some s => has_bit (st_mode s) S_IFREG
  | None => false
  end.

Definition stat_at (fs : filesystem) (p : bytes) (default : stat_t)
  : stat_t :=
  match fs_stat fs p with
  | Some s => s
  | None => default
  end.

(** The list [uh_index_files] after [uh_index_add] has been called with
    each of [names], in their order. *)
Definition index_files_after (names : list bytes) : list bytes :=
  fold_left (fun l f => Path.uh_index_add true (Some f) l) names [].

(** The byte test of the jail: [phys] begins with [root], and unless
    [root] itself ends with a slash the byte of [phys] after it is a
    slash or the end of the string.  (It is a test of bytes: a path
    with a [..] after the root passes it.) *)
Definition jailed (root phys : bytes) : Prop :=
  (exists r, phys = root ++ r)
  /\ (last root NUL <> "/"%char ->
      nth (List.length root) phys NUL = NUL
      \/ nth (List.length root) phys NUL = "/"%char).

(** What follows the root, when the root does not end with a slash. *)
Definition slash_first (root r : bytes) : Prop :=
  last root NUL <> "/"%char ->
  exists h t, r = h :: t /\ (h = NUL \/ h = "/"%char).

(** What can follow a segment: nothing, or a slash and more. *)
Definition follows (rest : bytes) : Prop :=
  rest = [] \/ exists r, rest = "/" :: r.

(** [getcwd] gives an absolute path. *)
Definition absolute_cwd (fs : filesystem) : Prop :=
  match fs_getcwd fs with
  | Some cwd => exists r, cstr cwd = "/" :: r
  | None => True
  end.

(** A path of [PATH_MAX - 1] bytes whose last segment starts with two
    dots: [/aa], 2044 times [/a], and [/..x]. *)
Definition long_path : bytes :=
  lit "/aa" ++ List.concat (repeat (lit "/a") 2044) ++ lit "/..x".

End PathRule.

Module Files.

Definition directory : stat_t :=
  {| st_mode := 16877; st_ino := 2; st_size := 4096; st_mtime := 1000 |}.

Definition regular : stat_t :=
  {| st_mode := 33188; st_ino := 26; st_size := 512; st_mtime := 2000 |}.

(** Every path is a world-readable directory. *)
Definition all_directories : filesystem :=
  {| fs_stat := fun _ => Some directory;
     fs_realpath := fun p => Some p;
     fs_getcwd := Some (lit "/");
     fs_open := fun _ => -1;
     fs_read := fun _ => [] |}.

(** A file system with a directory [/srv/www/dir/] and a regular file
    [/srv/www/index.html]. *)
Definition small_site : filesystem :=
  {| fs_stat := fun p =>
       if bytes_eqb p (lit "/srv/www/dir/") then Some directory
       else if bytes_eqb p (lit "/srv/www/index.html") then Some regular
       else None;
     fs_realpath := fun p => Some p;
     fs_getcwd := Some (lit "/");
     fs_open := fun _ => 3;
     fs_read := fun _ => [lit "<html></html>"] |}.

(** A document root [/srv/www] with a directory [dir] that holds
    [index.html] and [default.htm]; and a file [/index.html] beside
    the root directory. *)
Definition site : filesystem :=
  {| fs_stat := fun p =>
       if bytes_eqb p (lit "/") || bytes_eqb p (lit "/srv/www")
          || bytes_eqb p (lit "/srv/www/dir")
       then Some directory
       else if bytes_eqb p (lit "/srv/www/dir/index.html")
               || bytes_eqb p (lit "/srv/www/dir/default.htm")
               || bytes_eqb p (lit "/index.html")
       then Some regular
       else None;
     fs_realpath := fun p => Some p;
     fs_getcwd := Some (lit "/");
     fs_open := fun _ => 3;
     fs_read := fun _ => [lit "<html></html>"] |}.

Definition date_text (ts : Z) : bytes :=
  if ts =? 2000 then lit "Thu, 01 Jan 1970 00:33:20 GMT"
  else lit "Tue, 18 Aug 2020 12:34:56 GMT".

(** A request for [/index.html] that carries the current entity tag in
    [If-None-Match] and a date in [If-Modified-Since]. *)
Definition conditional_get : client :=
  {| conf := {| docroot := lit "/srv/www"; realm := lit "Protected Area";
                network_timeout := 30; no_symlinks := false;
                no_dirlists := false |};
     request := {| method := UH_HTTP_MSG_GET; version := UH_HTTP_VER_1_0;
                   headers :=
                     [(lit "If-None-Match",
                       [chr 34] ++ lit "1a-200-7d0" ++ [chr 34]);
                      (lit "If-Modified-Since",
                       lit "Tue, 18 Aug 2020 12:00:00 GMT")];
                   req_realm := None |};
     tx := []; net := repeat WrAll 6 |}.

Definition index_html : Path.path_info :=
  {| Path.root := lit "/srv/www"; Path.phys := lit "/srv/www/index.html";
     Path.name := lit "/index.html"; Path.info := None;
     Path.query := None; Path.redirected := false;
     Path.stat := regular |}.

(** A request for the directory [/dir/]. *)
Definition plain_get : client :=
  {| conf := {| docroot := lit "/srv/www"; realm := lit "Protected Area";
                network_timeout := 30; no_symlinks := false;
                no_dirlists := false |};
     request := {| method := UH_HTTP_MSG_GET; version := UH_HTTP_VER_1_0;
                   headers := []; req_realm := None |};
     tx := []; net := repeat WrAll 16 |}.

Definition dir_listing : Path.path_info :=
  {| Path.root := lit "/srv/www"; Path.phys := lit "/srv/www/dir/";
     Path.name := lit "/dir/"; Path.info := None;
     Path.query := None; Path.redirected := false;
     Path.stat := directory |}.

(** A request of the given method and version, without headers. *)
Definition bare_request (m : http_method) (v : http_version) : client :=
  {| conf := {| docroot := lit "/srv/www"; realm := lit "Protected Area";
                network_timeout := 30; no_symlinks := false;
                no_dirlists := false |};
     request := {| method := m; version := v; headers := [];
                   req_realm := None |};
     tx := []; net := repeat WrAll 16 |}.

(** A document root [/srv/www/example.org/pub]; the directory above it
    has another inode. *)
Definition parent_directory : stat_t :=
  {| st_mode := 16877; st_ino := 7; st_size := 4096; st_mtime := 500 |}.

Definition pub_site : filesystem :=
  {| fs_stat := fun p =>
       if bytes_eqb p (lit "/srv/www/example.org/pub") then Some directory
       else if bytes_eqb p (lit "/srv/www/example.org/pub/..")
            || bytes_eqb p (lit "/srv/www/example.org")
       then Some parent_directory
       else None;
     fs_realpath := fun p => Some p;
     fs_getcwd := Some (lit "/");
     fs_open := fun _ => 3;
     fs_read := fun _ => [] |}.

Definition pub_get : client :=
  {| conf := {| docroot := lit "/srv/www/example.org/pub";
                realm := lit "Protected Area";
                network_timeout := 30; no_symlinks := false;
                no_dirlists := false |};
     request := {| method := UH_HTTP_MSG_GET; version := UH_HTTP_VER_1_0;
                   headers := []; req_realm := None |};
     tx := []; net := repeat WrAll 16 |}.

(** A URL of 4071 bytes that fills the buffers of 4096 bytes with the
    document root before it: [/], 2033 times [/.], and [/..x]. *)
Definition filling_url : bytes :=
  lit "/" ++ List.concat (repeat (lit "/.") 2033) ++ lit "/..x".

(** The same request for a server whose document root is [/]. *)
Definition root_get : client :=
  {| conf := {| docroot := lit "/"; realm := lit "Protected Area";
                network_timeout := 30; no_symlinks := false;
                no_dirlists := false |};
     request := {| method := UH_HTTP_MSG_GET; version := UH_HTTP_VER_1_0;
                   headers := []; req_realm := None |};
     tx := []; net := repeat WrAll 16 |}.

End Files.

(** Vocabulary of the statements about the responses: a response head
    as the list of its lines, and the conditional headers in the order
    of their evaluation. *)
Module FileRule.
Import File.

(** The bytes of a list of lines, each ended by CR LF. *)
Definition block (lines : list bytes) : bytes :=
  flat_map (fun l => l ++ CRLF) lines.

Fixpoint starts_with (pre s : bytes) : bool :=
  match pre, s with
  | [], _ => true
  | a :: pre', b :: s' => byte_eqb a b && starts_with pre' s'
  | _ :: _, [] => false
  end.

(** A line after the status line is the header [name]. *)
Definition has_header (name : bytes) (lines : list bytes) : bool :=
  existsb (starts_with (name ++ lit ": ")) (tl lines).

Inductive conditional :=
| If_Modified_Since | If_Match | If_Range | If_Unmodified_Since
| If_None_Match.

Definition evaluation_order : list conditional :=
  [If_Modified_Since; If_Match; If_Range; If_Unmodified_Since;
   If_None_Match].

(** Every write takes all it is given, [n] times at least. *)
Definition reliable (n : nat) (cl : client) : Prop :=
  exists rest, net cl = repeat WrAll n ++ rest.

Section Env.

Variable strftime_gmt : Z -> bytes.
Variable strptime_gm : bytes -> option Z.
Variable now : Z.

Definition ok_lines (s : option stat_t) : list bytes :=
  lit "Connection: close"
  :: match s with
     | Some st =>
         [lit "ETag: " ++ uh_file_mktag st;
          lit "Last-Modified: "
          ++ uh_file_unix2date strftime_gmt (st_mtime st)]
     | None => []
     end
  ++ [lit "Date: " ++ uh_file_unix2date strftime_gmt now].

Definition lines_200 (v : http_version) (s : option stat_t) : list bytes :=
  (http_versions v ++ lit " 200 OK") :: ok_lines s.

Definition lines_304 (v : http_version) (st : stat_t) : list bytes :=
  (http_versions v ++ lit " 304 Not Modified") :: ok_lines (Some st).

Definition lines_412 (v : http_version) : list bytes :=
  [http_versions v ++ lit " 412 Precondition Failed";
   lit "Connection: close"].

(** The condition under which a conditional header fails the request. *)
Definition fails (s : stat_t) (req : http_request) (c : conditional)
  : bool :=
  match c with
  | If_Modified_Since =>
      match header_lookup (headers req) (lit "If-Modified-Since") with
      | Some hdr => st_mtime s <=? uh_file_date2unix strptime_gm (cstr hdr)
      | None => false
      end
  | If_Match =>
      match header_lookup (headers req) (lit "If-Match") with
      | Some hdr => negb (some_token_matches (cstr hdr) (uh_file_mktag s))
      | None => false
      end
  | If_Range =>
      match header_lookup (headers req) (lit "If-Range") with
      | Some _ => true
      | None => false
      end
  | If_Unmodified_Since =>
      match header_lookup (headers req) (lit "If-Unmodified-Since") with
      | Some hdr => uh_file_date2unix strptime_gm (cstr hdr) <=? st_mtime s
      | None => false
      end
  | If_None_Match =>
      match header_lookup (headers req) (lit "If-None-Match") with
      | Some hdr => some_token_matches (cstr hdr) (uh_file_mktag s)
      | None => false
      end
  end.

(** The request as the check of a conditional header leaves it: the
    two checks of entity tags leave the value of their header as their
    loop has rewritten it. *)
Definition after_check (s : stat_t) (req : http_request) (c : conditional)
  : http_request :=
  let reread name :=
    match header_lookup (headers req) name with
    | Some hdr =>
        store_header name (tokens_left hdr (uh_file_mktag s)) req
    | None => req
    end in
  match c with
  | If_Match => reread (lit "If-Match")
  | If_None_Match => reread (lit "If-None-Match")
  | _ => req
  end.

Definition after_checks (s : stat_t) (req : http_request)
  (cs : list conditional) : http_request :=
  fold_left (after_check s) cs req.

(** The checks that have run when [c] is the first that fails. *)
Definition through (c : conditional) : list conditional :=
  match c with
  | If_Modified_Since => [If_Modified_Since]
  | If_Match => [If_Modified_Since; If_Match]
  | If_Range => [If_Modified_Since; If_Match; If_Range]
  | If_Unmodified_Since =>
      [If_Modified_Since; If_Match; If_Range; If_Unmodified_Since]
  | If_None_Match => evaluation_order
  end.

(** The response to a failed conditional header. *)
Definition failure_lines (s : stat_t) (req : http_request)
  (c : conditional) : list bytes :=
  match c with
  | If_Modified_Since => lines_304 (version req) s
  | If_None_Match =>
      match method req with
      | UH_HTTP_MSG_GET | UH_HTTP_MSG_HEAD => lines_304 (version req) s
      | _ => lines_412 (version req)
      end
  | _ => lines_412 (version req)
  end.

(** The function that evaluates a conditional header, and the number
    of writes its failure response takes. *)
Variable UH_LIMIT_MSGHEAD : nat.

Definition check_of (c : conditional) (s : stat_t) : Net.io (Z * Z) :=
  match c with
  | If_Modified_Since =>
      uh_file_if_modified_since UH_LIMIT_MSGHEAD strftime_gmt strptime_gm
        now s
  | If_Match => uh_file_if_match UH_LIMIT_MSGHEAD s
  | If_Range => uh_file_if_range UH_LIMIT_MSGHEAD s
  | If_Unmodified_Since =>
      uh_file_if_unmodified_since UH_LIMIT_MSGHEAD strptime_gm s
  | If_None_Match =>
      uh_file_if_none_match UH_LIMIT_MSGHEAD strftime_gmt now s
  end.

Definition failure_writes (req : http_request) (c : conditional) : nat :=
  match c with
  | If_Modified_Since => 5
  | If_None_Match =>
      match method req with
      | UH_HTTP_MSG_GET | UH_HTTP_MSG_HEAD => 5
      | _ => 1
      end
  | _ => 1
  end.

End Env.

(** [needle] occurs in [s]. *)
Fixpoint contains (needle s : bytes) : bool :=
  starts_with needle s
  || match s with
     | [] => false
     | _ :: s' => contains needle s'
     end.

(** A computation only adds to what has been sent. *)
Definition appends {A} (x : Net.io A) : Prop :=
  forall cl, exists more, tx (snd (x cl)) = tx cl ++ more.

End FileRule.

Module UrlRule.

(** Every ['%'] is followed by two hexadecimal digits. *)
Fixpoint well_escaped (s : bytes) : bool :=
  match s with
  | [] => true
  | c :: r =>
      if byte_eqb c "%" then
        match r with
        | h1 :: h2 :: r' => isxdigit h1 && isxdigit h2 && well_escaped r'
        | _ => false
        end
      else well_escaped r
  end.

(** [spells text s]: [text] writes the bytes of [s] one after the other,
    each as itself (['%'] apart) or as ['%'] and its two hexadecimal
    digits, capital or small. *)
Inductive spells : bytes -> bytes -> Prop :=
| spells_nil : spells [] []
| spells_plain (c : ascii) (text s : bytes) :
    c <> "%" -> spells text s -> spells (c :: text) (c :: s)
| spells_escape (c h1 h2 : ascii) (text s : bytes) :
    Net.hexval h1 = Some (code c / 16) ->
    Net.hexval h2 = Some (code c mod 16) ->
    spells text s -> spells ("%" :: h1 :: h2 :: text) (c :: s).

End UrlRule.

(** The Base64 alphabet and an encoder after RFC 4648, section 4, to
    state what the decoder does with a well-formed source. *)
Module B64Rule.

Definition alphabet : bytes :=
  lit "ABCDEFGHIJKLMNOPQRSTUVWXYZabcdefghijklmnopqrstuvwxyz0123456789+/".

Definition b64_char (v : Z) : ascii := nth (Z.to_nat v) alphabet NUL.

(** Three bytes give four characters; a last group of one or two bytes
    is written with its missing bits zero and padded with ['=']. *)
Fixpoint b64_encode (s : bytes) : bytes :=
  match s with
  | [] => []
  | [a] =>
      [b64_char (code a / 4); b64_char (code a mod 4 * 16); "="; "="]
  | [a; b] =>
      [b64_char (code a / 4); b64_char (code a mod 4 * 16 + code b / 16);
       b64_char (code b mod 16 * 4); "="]
  | a :: b :: c :: r =>
      b64_char (code a / 4)
      :: b64_char (code a mod 4 * 16 + code b / 16)
      :: b64_char (code b mod 16 * 4 + code c / 64)
      :: b64_char (code c mod 64) :: b64_encode r
  end.

(** The number of ['='] at the end of the encoding. *)
Definition padding (s : bytes) : nat := ((3 - List.length s mod 3) mod 3)%nat.

End B64Rule.

(** Vocabulary of the statements about the senders. *)
Module SendRule.
Import Net.

(** The head that [uh_http_sendhf] formats. *)
Definition plain_head (code : Z) (summary : bytes) : bytes :=
  lit "HTTP/1.1 " ++ fmt_03i code ++ lit " " ++ summary ++ CRLF
  ++ lit "Connection: close" ++ CRLF
  ++ lit "Content-Type: text/plain" ++ CRLF
  ++ lit "Transfer-Encoding: chunked" ++ CRLF ++ CRLF.


End SendRule.

(** Vocabulary of the statements about the entity-tag headers. *)
Module TagRule.

(** The characters at which the token loop cuts the header value. *)
Definition is_separator (c : ascii) : bool :=
  byte_eqb c " " || byte_eqb c ",".

(** The value is one tag by itself: it is not empty, does not begin
    with a separator, and is [*] or the tag. *)
Definition whole_value_matches (hdr tag : bytes) : bool :=
  match hdr with
  | [] => false
  | c :: _ =>
      negb (is_separator c)
      && (bytes_eqb hdr (lit "*") || bytes_eqb hdr tag)
  end.

(** The stored value of a header with a NUL in the place of its first
    blank or comma. *)
Fixpoint cut (hdr : bytes) : bytes :=
  match hdr with
  | [] => []
  | c :: r =>
      if byte_eqb c NUL then hdr
      else if is_separator c then NUL :: r
      else c :: cut r
  end.

End TagRule.

(** Vocabulary of the statements about the response to a file request:
    the lines of its head, its body and the writes the body takes. *)
Module ServeRule.
Import Net Stream File FileRule.

Definition is_head (req : http_request) : bool :=
  method_eqb (method req) UH_HTTP_MSG_HEAD.

(** "if request was HTTP 1.1 we'll respond chunked" *)
Definition chunked (req : http_request) : bool :=
  after_1_0 (version req) && negb (is_head req).

Section Env.

Variable strftime_gmt : Z -> bytes.
Variable now : Z.

Definition file_head (mime : bytes) (req : http_request) (st : stat_t)
  : list bytes :=
  lines_200 strftime_gmt now (version req) (Some st)
  ++ [lit "Content-Type: " ++ mime;
      lit "Content-Length: " ++ fmt_i (st_size st)]
  ++ (if chunked req then [lit "Transfer-Encoding: chunked"] else []).

(** The head of a directory listing. *)
Definition dir_head (req : http_request) : list bytes :=
  lines_200 strftime_gmt now (version req) None
  ++ (if after_1_0 (version req) then [lit "Transfer-Encoding: chunked"]
      else [])
  ++ [lit "Content-Type: text/html"].

End Env.

(** The body for the pieces that [read] delivers: nothing for [HEAD],
    one chunk for each piece and the last chunk for HTTP/1.1, the pieces
    as they are otherwise. *)
Definition file_body (req : http_request) (pieces : list bytes) : bytes :=
  if is_head req then []
  else if after_1_0 (version req) then flat_map frame pieces ++ terminator
  else concat pieces.

Definition body_writes (req : http_request) (pieces : list bytes) : nat :=
  if is_head req then 0
  else if after_1_0 (version req) then 3 * List.length pieces + 1
  else List.length pieces.

(** A piece is what one [read] into [buf] gives, and its length fits the
    size line of a chunk. *)
Definition piece_ok (UH_LIMIT_MSGHEAD : nat) (p : bytes) : Prop :=
  0 < len p <= Z.of_nat UH_LIMIT_MSGHEAD /\ len p < 1048576.

End ServeRule.

(** Vocabulary of the statements about the credentials. *)
Module AuthRule.

Definition no_colon (s : bytes) : bool :=
  forallb (fun c => negb (byte_eqb c ":")) s.

(** The value of an [Authorization] header for a user and a password. *)
Definition basic_value (user pass : bytes) : bytes :=
  lit "Basic " ++ B64Rule.b64_encode (user ++ ":" :: pass).

(** The account that a [$p$] password names has no verifier that can be
    used: the shadow database, when the build reads it, has no entry for
    it or one without a hash, and the password database has no entry,
    one without a hash, or one whose hash is empty or begins with
    ['!']. *)
Definition no_verifier (HAVE_SHADOW : bool)
  (getspnam getpwnam : bytes -> option (option bytes)) (account : bytes)
  : Prop :=
  (HAVE_SHADOW = true ->
   getspnam account = None \/ getspnam account = Some None)
  /\ match getpwnam account with
     | Some (Some h) => cstr h = [] \/ exists r, cstr h = "!" :: r
     | _ => True
     end.

(** The realm is one that the credentials of [user] can open: it covers
    the name and its user is [user]. *)
Definition opens (name user : bytes) (r : auth_realm) : bool :=
  Auth.covers name r && bytes_eqb user (realm_user r).

(** The password is the verifier of the realm, or [crypt] of the
    password with the verifier as its setting is the verifier. *)
Definition pass_ok (crypt : bytes -> bytes -> bytes) (pass : bytes)
  (r : auth_realm) : bool :=
  bytes_eqb pass (realm_pass r)
  || bytes_eqb (cstr (crypt pass (realm_pass r))) (realm_pass r).

End AuthRule.

(** ** Substring search: [strfind] *)

Module Str.

(** The inner loop of [strfind], entered with [match] set: the result
    is whether [match] is still set when the loop leaves.  [turns]
    bounds the turns; [j] grows at each and the loop leaves when it
    reaches [ndlen]. *)
Fixpoint strfind_compare (haystack needle : bytes) (hslen ndlen i : Z)
  (turns : nat) (j : Z) : bool :=
  match turns with
  | O => true
  | S turns' =>
      if (j <? ndlen) && (i + j <? hslen) then
        if byte_eqb (nth (Z.to_nat (i + j)) haystack NUL)
             (nth (Z.to_nat j) needle NUL)
        then strfind_compare haystack needle hslen ndlen i turns' (j + 1)
        else false
      else true
  end.

(** The outer loop, from index [i]. *)
Fixpoint strfind_scan (haystack needle : bytes) (hslen ndlen : Z)
  (turns : nat) (i : Z) : option Z :=
  match turns with
  | O => None
  | S turns' =>
      if i <? hslen then
        if byte_eqb (nth (Z.to_nat i) haystack NUL) (nth 0 needle NUL) then
          if ((ndlen =? 1) || (i + ndlen <=? hslen))
             && strfind_compare haystack needle hslen ndlen i
                  (Z.to_nat ndlen) 1
          then Some i
          else strfind_scan haystack needle hslen ndlen turns' (i + 1)
        else strfind_scan haystack needle hslen ndlen turns' (i + 1)
      else None
  end.

(** [strfind(haystack, hslen, needle, ndlen)]: the index in [haystack]
    of the byte the result points to, [None] being NULL.  [haystack]
    and [needle] hold the bytes at the two pointers. *)
Definition strfind (haystack : bytes) (hslen : Z) (needle : bytes)
  (ndlen : Z) : option Z :=
  strfind_scan haystack needle hslen ndlen (Z.to_nat hslen) 0.

(** The first [ndlen] bytes of [needle] stand at index [i] of the first
    [hslen] bytes of [haystack]. *)
Definition occurs_at (haystack : bytes) (hslen : Z) (needle : bytes)
  (ndlen i : Z) : Prop :=
  0 <= i /\ i + ndlen <= hslen
  /\ firstn (Z.to_nat ndlen) (skipn (Z.to_nat i) haystack)
     = firstn (Z.to_nat ndlen) needle.

End Str.

(** ** Socket addresses: [sa_port], [sa_strport], [sa_rfc1918] *)

Module Sockaddr.

(** The address families of the sockets of the server. *)
Inductive sa_family := AF_INET | AF_INET6.

(** [struct sockaddr_in] and [struct sockaddr_in6] as the code reads
    them through its casts: the family; the port, two bytes in network
    order that stand at the same place in both; the bytes of the
    address in network order, four of them for [AF_INET]. *)
Record sockaddr := {
  sin_family : sa_family;
  sin_port : ascii * ascii;
  sin_addr : bytes
}.

(** [ntohs] of the stored port. *)
Definition ntohs (p : ascii * ascii) : Z := 256 * code (fst p) + code (snd p).

Definition sa_port (sa : sockaddr) : Z := ntohs (sin_port sa).

(** [static char str[6]] after [snprintf(str, sizeof(str), "%i", ...)] *)
Definition sa_strport (sa : sockaddr) : bytes :=
  fst (Net.snprintf 6 (Net.fmt_i (sa_port sa))).

(** [htonl(v4->sin_addr.s_addr)]: the number whose most significant
    byte is the first byte of the address. *)
Definition htonl_s_addr (sa : sockaddr) : Z :=
  16777216 * code (nth 0 (sin_addr sa) NUL)
  + 65536 * code (nth 1 (sin_addr sa) NUL)
  + 256 * code (nth 2 (sin_addr sa) NUL)
  + code (nth 3 (sin_addr sa) NUL).

Definition sa_rfc1918 (sa : sockaddr) : Z :=
  let a := htonl_s_addr sa in
  match sin_family sa with
  | AF_INET =>
      if ((0x0A000000 <=? a) && (a <=? 0x0AFFFFFF))
         || ((0xAC100000 <=? a) && (a <=? 0xAC1FFFFF))
         || ((0xC0A80000 <=? a) && (a <=? 0xC0A8FFFF))
      then 1 else 0
  | AF_INET6 => 0
  end.

(** The value of a string of decimal digits. *)
Definition decnum (ds : bytes) : Z :=
  fold_left (fun a c => 10 * a + (code c - code "0")) ds 0.

End Sockaddr.

(** ** Listeners, clients and their descriptors: [uh_listener_add],
    [uh_client_add], [uh_client_remove], [uh_ufd_add], [uh_ufd_remove]

    The two lists are kept as the nodes they link, head first, each
    with the address [malloc] gave it: [uh_client_remove] finds its
    node by address, and a client points to its listener.  What the
    functions ask of the event loop and of the system is recorded, in
    order, in a trace. *)

Module Registry.

(** The address of an object of the heap. *)
Abbreviation ptr := nat (only parsing).

(** [struct uloop_fd]: the descriptor and the handler, [None] being
    NULL. *)
Record uloop_fd := {
  fd : Z;
  cb : option nat
}.

(** The calls made: [uloop_fd_add(u, ev)] and [uloop_fd_delete(u)] by
    the descriptor of [u], [close], [uloop_timeout_cancel] of the
    timeout of a client, [uloop_process_delete] by the process id, and
    [free]. *)
Inductive call :=
| uloop_fd_add (u : Z) (ev : Z)
| uloop_fd_delete (u : Z)
| close (d : Z)
| uloop_timeout_cancel (cl : ptr)
| uloop_process_delete (pid : Z)
| free (p : ptr).

(** [uh_ufd_add(u, h, ev)]: the descriptor afterwards and the calls. *)
Definition uh_ufd_add (u : uloop_fd) (h : option nat) (ev : Z)
  : uloop_fd * list call :=
  match h with
  | Some _ => ({| fd := fd u; cb := h |}, [uloop_fd_add (fd u) ev])
  | None => (u, [])
  end.

(** [uh_ufd_remove(u)] *)
Definition uh_ufd_remove (u : uloop_fd) : uloop_fd * list call :=
  let '(u1, calls1) :=
    match cb u with
    | Some _ => ({| fd := fd u; cb := None |}, [uloop_fd_delete (fd u)])
    | None => (u, [])
    end in
  if -1 <? fd u1 then ({| fd := -1; cb := cb u1 |}, calls1 ++ [close (fd u1)])
  else (u1, calls1).

(** [struct listener] and [struct client], the fields the functions of
    this file touch; [None] is an address that [memset] has left zero
    and [getsockname] has not filled. *)
Record listener := {
  listener_fd : uloop_fd;
  listener_conf : config;
  addr : option Sockaddr.sockaddr;
  n_clients : Z
}.

Record client_node := {
  client_fd : uloop_fd;
  rpipe : uloop_fd;
  wpipe : uloop_fd;
  server : ptr;
  servaddr : option Sockaddr.sockaddr;
  peeraddr : Sockaddr.sockaddr;
  timeout_pending : bool;
  proc_pid : Z
}.

(** [uh_listeners], [uh_clients] and the calls made so far. *)
Record registry := {
  uh_listeners : list (ptr * listener);
  uh_clients : list (ptr * client_node);
  trace : list call
}.

(** [serv->n_clients++] and [cur->server->n_clients--]: the listener at
    the address [serv] gets [d] more clients. *)
Definition count_clients (serv : ptr) (d : Z)
  (ls : list (ptr * listener)) : list (ptr * listener) :=
  map (fun e =>
         if (fst e =? serv)%nat
         then (fst e,
               {| listener_fd := listener_fd (snd e);
                  listener_conf := listener_conf (snd e);
                  addr := addr (snd e);
                  n_clients := n_clients (snd e) + d |})
         else e) ls.

(** [uh_listener_add(sock, conf)]; [new] is what [malloc] returns and
    [local] what [getsockname] gives. *)
Definition uh_listener_add (new : option ptr) (local : option Sockaddr.sockaddr)
  (sock : Z) (conf : config) (st : registry) : option ptr * registry :=
  match new with
  | Some p =>
      (Some p,
       {| uh_listeners :=
            (p, {| listener_fd := {| fd := sock; cb := None |};
                   listener_conf := conf; addr := local; n_clients := 0 |})
            :: uh_listeners st;
          uh_clients := uh_clients st;
          trace := trace st |})
  | None => (None, st)
  end.

(** [uh_listener_lookup(sock)] *)
Definition uh_listener_lookup (sock : Z) (st : registry) : option ptr :=
  option_map fst
    (find (fun e => fd (listener_fd (snd e)) =? sock) (uh_listeners st)).

(** [uh_client_add(sock, serv, peer)] *)
Definition uh_client_add (new : option ptr) (local : option Sockaddr.sockaddr)
  (sock : Z) (serv : ptr) (peer : Sockaddr.sockaddr) (st : registry)
  : option ptr * registry :=
  match new with
  | Some p =>
      (Some p,
       {| uh_listeners := count_clients serv 1 (uh_listeners st);
          uh_clients :=
            (p, {| client_fd := {| fd := sock; cb := None |};
                   rpipe := {| fd := -1; cb := None |};
                   wpipe := {| fd := -1; cb := None |};
                   server := serv; servaddr := local; peeraddr := peer;
                   timeout_pending := false; proc_pid := 0 |})
            :: uh_clients st;
          trace := trace st |})
  | None => (None, st)
  end.

(** [uh_client_lookup(sock)] *)
Definition uh_client_lookup (sock : Z) (st : registry) : option ptr :=
  option_map fst
    (find (fun e => fd (client_fd (snd e)) =? sock) (uh_clients st)).

(** The loop of [uh_client_remove]: the first node at the address [cl],
    if there is one, and the list without it. *)
Fixpoint unlink (cl : ptr) (cs : list (ptr * client_node))
  : option client_node * list (ptr * client_node) :=
  match cs with
  | [] => (None, [])
  | e :: rest =>
      if (fst e =? cl)%nat then (Some (snd e), rest)
      else let '(found, rest') := unlink cl rest in (found, e :: rest')
  end.

(** [uh_client_remove(cl)] *)
Definition uh_client_remove (cl : ptr) (st : registry) : registry :=
  match unlink cl (uh_clients st) with
  | (Some cur, rest) =>
      {| uh_listeners := count_clients (server cur) (-1) (uh_listeners st);
         uh_clients := rest;
         trace :=
           trace st
           ++ (if timeout_pending cur then [uloop_timeout_cancel cl] else [])
           ++ (if proc_pid cur =? 0 then []
               else [uloop_process_delete (proc_pid cur)])
           ++ snd (uh_ufd_remove (rpipe cur))
           ++ snd (uh_ufd_remove (wpipe cur))
           ++ snd (uh_ufd_remove (client_fd cur))
           ++ [free cl] |}
  | (None, _) => st
  end.

(** The clients of the list whose listener is at [p]. *)
Definition clients_of (p : ptr) (cs : list (ptr * client_node)) : Z :=
  Z.of_nat (List.length (filter (fun e => (server (snd e) =? p)%nat) cs)).

(** Every listener counts its clients. *)
Definition counted (st : registry) : Prop :=
  forall p l,
    In (p, l) (uh_listeners st) -> n_clients l = clients_of p (uh_clients st).

(** The descriptors that the calls close, in order. *)
Definition closed (calls : list call) : list Z :=
  flat_map (fun c => match c with close d => [d] | _ => [] end) calls.

End Registry.

(** ** Interpreters: [uh_interpreter_add], [uh_interpreter_lookup] *)

Module Cgi.

(** [struct interpreter] *)
Record interpreter := {
  path : bytes;
  extn : bytes
}.

(** The outcome of a lookup: the interpreter found, NULL, or a read
    outside the string of the path. *)
Inductive lookup_result :=
| Found (i : interpreter)
| NotFound
| OutOfBounds.

Section Sizes.

(** The sizes of the arrays [path] and [extn] of [struct interpreter]
    ([uhttpd.h]). *)
Variable PATH_SIZE EXTN_SIZE : nat.

(** [uh_interpreter_add(extn, path)] on the list [uh_interpreters];
    [room] is whether [malloc] succeeds. *)
Definition uh_interpreter_add (room : bool) (extn path : bytes)
  (uh_interpreters : list interpreter)
  : option interpreter * list interpreter :=
  if room then
    let new := {| path := firstn (PATH_SIZE - 1) (cstr path);
                  extn := firstn (EXTN_SIZE - 1) (cstr extn) |} in
    (Some new, new :: uh_interpreters)
  else (None, uh_interpreters).

End Sizes.

(** The loop of [uh_interpreter_lookup] over the list, [path] being the
    string.  [strlen] gives an unsigned number: when the extension is
    longer than the path the difference of the lengths wraps around,
    [max] with [0] leaves it as it is, and [e] points outside the
    string; the model stops there. *)
Fixpoint interpreter_lookup (path : bytes) (uh_interpreters : list interpreter)
  : lookup_result :=
  match uh_interpreters with
  | [] => NotFound
  | cur :: rest =>
      if (List.length (extn cur) <=? List.length path)%nat then
        if bytes_eqb
             (skipn (List.length path - List.length (extn cur)) path)
             (extn cur)
        then Found cur
        else interpreter_lookup path rest
      else OutOfBounds
  end.

(** [uh_interpreter_lookup(path)] *)
Definition uh_interpreter_lookup (path : bytes)
  (uh_interpreters : list interpreter) : lookup_result :=
  interpreter_lookup (cstr path) uh_interpreters.

(** [s] ends with [e]. *)
Definition ends_with (s e : bytes) : Prop := exists stem, s = stem ++ e.

End Cgi.

(* ================================================================== *)
(** * Part II: properties                                              *)
(* ================================================================== *)

(** ** Bytes *)

Lemma byte_eqb_eq (a b : ascii) : byte_eqb a b = true <-> a = b.
Proof. unfold byte_eqb. apply Ascii.eqb_eq. Qed.

Lemma byte_eqb_refl (a : ascii) : byte_eqb a a = true.
Proof. apply byte_eqb_eq. reflexivity. Qed.

Lemma len_app (a b : bytes) : len (a ++ b) = len a + len b.
Proof. unfold len. rewrite length_app. lia. Qed.

Lemma len_nonneg (a : bytes) : 0 <= len a.
Proof. unfold len. lia. Qed.

Lemma len_nil : len [] = 0.
Proof. reflexivity. Qed.

Lemma len_cons (c : ascii) (r : bytes) : len (c :: r) = 1 + len r.
Proof. unfold len. simpl List.length. lia. Qed.

Lemma forallb_app_true {A} (f : A -> bool) (a b : list A) :
  forallb f (a ++ b) = true <-> forallb f a = true /\ forallb f b = true.
Proof. rewrite forallb_app, andb_true_iff. reflexivity. Qed.

(** Case analysis over the 256 values of a byte. *)
Ltac each_byte c := destruct c as [[] [] [] [] [] [] [] []].

(** ** URL codec *)

Module UrlFacts.
Import Url.

Lemma unreserved_not_percent (c : ascii) :
  unreserved c = true -> byte_eqb c "%" = false.
Proof. each_byte c; vm_compute; congruence. Qed.

Lemma urlencode_loop_unreserved (s : bytes) :
  forall blen n buf,
    forallb unreserved s = true -> n + len s <= blen ->
    urlencode_loop blen s n buf = (n + len s, buf ++ s).
Proof.
  induction s as [|c r IH]; intros blen n buf Hs Hb; cbn [urlencode_loop urldecode_loop].
  - rewrite len_nil, Z.add_0_r, app_nil_r. reflexivity.
  - simpl in Hs. apply andb_true_iff in Hs as [Hc Hr].
    rewrite len_cons in *. pose proof (len_nonneg r).
    destruct (Z.ltb_spec n blen); [|lia].
    rewrite Hc, IH by (assumption || lia).
    rewrite <- app_assoc. cbn [app]. f_equal. lia.
Qed.

Lemma urldecode_loop_unreserved (s : bytes) :
  forall blen n buf,
    forallb unreserved s = true -> n + len s <= blen ->
    urldecode_loop blen s n buf = (n + len s, buf ++ s).
Proof.
  induction s as [|c r IH]; intros blen n buf Hs Hb; cbn [urlencode_loop urldecode_loop].
  - rewrite len_nil, Z.add_0_r, app_nil_r. reflexivity.
  - simpl in Hs. apply andb_true_iff in Hs as [Hc Hr].
    rewrite len_cons in *. pose proof (len_nonneg r).
    destruct (Z.ltb_spec n blen); [|lia].
    rewrite (unreserved_not_percent _ Hc), IH by (assumption || lia).
    rewrite <- app_assoc. cbn [app]. f_equal. lia.
Qed.

(** Whatever the outcome, the encoder has written the encodings of the
    first [k] source bytes, for some [k]; on success, of all of them. *)
Lemma urlencode_loop_prefix (s : bytes) :
  forall blen n buf,
    exists k,
      snd (urlencode_loop blen s n buf)
      = buf ++ flat_map encode_byte (firstn k s)
      /\ (0 <= fst (urlencode_loop blen s n buf) -> 0 <= n ->
          firstn k s = s).
Proof.
  induction s as [|c r IH]; intros blen n buf; simpl.
  - exists 0%nat. simpl. rewrite app_nil_r. auto.
  - destruct (Z.ltb_spec n blen).
    + destruct (unreserved c) eqn:Hc.
      * destruct (IH blen (n + 1) (buf ++ [c])) as [k [Hk Hall]].
        exists (S k). simpl. unfold encode_byte at 1. rewrite Hc.
        rewrite Hk, <- app_assoc. split; [reflexivity|].
        intros. f_equal. apply Hall; [assumption|lia].
      * destruct (Z.leb_spec (n + 3) blen).
        -- destruct (IH blen (n + 3)
                      (buf ++ ["%"; hexdigit (Z.land (Z.shiftr (code c) 4) 15);
                               hexdigit (Z.land (code c) 15)]))
             as [k [Hk Hall]].
           exists (S k). simpl. unfold encode_byte at 1. rewrite Hc.
           rewrite Hk, <- app_assoc. split; [reflexivity|].
           intros. f_equal. apply Hall; [assumption|lia].
        -- exists 0%nat. simpl. rewrite app_nil_r. split; [reflexivity|].
           intros; lia.
    + exists 0%nat. simpl. rewrite app_nil_r. split; [reflexivity|].
      intros; lia.
Qed.

Lemma encode_byte_chars (c : ascii) :
  forallb encoded_char (encode_byte c) = true.
Proof. each_byte c; vm_compute; reflexivity. Qed.

Lemma hexdigit_lower (c : ascii) :
  lower_hex (hexdigit (Z.land (Z.shiftr (code c) 4) 15)) = true
  /\ lower_hex (hexdigit (Z.land (code c) 15)) = true.
Proof. each_byte c; vm_compute; split; reflexivity. Qed.

Lemma encode_byte_escapes (c : ascii) (r : bytes) :
  escapes_lower (encode_byte c ++ r) = escapes_lower r.
Proof.
  unfold encode_byte. destruct (unreserved c) eqn:Hc.
  - cbn [app escapes_lower]. rewrite (unreserved_not_percent _ Hc).
    reflexivity.
  - destruct (hexdigit_lower c) as [H1 H2].
    cbn [app escapes_lower]. rewrite byte_eqb_refl, H1, H2. reflexivity.
Qed.

Lemma encoding_chars (s : bytes) :
  forallb encoded_char (flat_map encode_byte s) = true.
Proof.
  induction s as [|c r IH]; simpl; [reflexivity|].
  apply forallb_app_true. split; [apply encode_byte_chars|assumption].
Qed.

Lemma encoding_escapes (s : bytes) :
  escapes_lower (flat_map encode_byte s) = true.
Proof.
  induction s as [|c r IH]; simpl; [reflexivity|].
  rewrite encode_byte_escapes. assumption.
Qed.

(** C7.  The encoder leaves a string of unreserved characters as it is
    and the decoder gives it back (the buffers being large enough for
    it); and whatever the source and the buffer size, the bytes the
    encoder writes are alphanumerics, [-], [_], [.], [~] and [%], every
    [%] being followed by two lowercase hexadecimal digits. *)
Theorem url_codec_roundtrip (s : bytes) (blen : Z) :
  (forallb encoded_char (snd (uh_urlencode blen s)) = true
   /\ escapes_lower (snd (uh_urlencode blen s)) = true)
  /\ (forallb unreserved s = true -> len s <= blen ->
      forall blen', len s <= blen' ->
        uh_urlencode blen s = (len s, s)
        /\ uh_urldecode blen'
             (firstn (Z.to_nat (fst (uh_urlencode blen s)))
                (snd (uh_urlencode blen s)))
           = (len s, s)).
Proof.
  split.
  - unfold uh_urlencode.
    destruct (urlencode_loop_prefix s blen 0 []) as [k [Hk _]].
    rewrite Hk. simpl. split; [apply encoding_chars|apply encoding_escapes].
  - intros Hs Hb blen' Hb'. unfold uh_urlencode, uh_urldecode.
    rewrite urlencode_loop_unreserved by (assumption || lia).
    simpl fst; simpl snd. split; [reflexivity|].
    unfold len at 1. rewrite Nat2Z.id, firstn_all.
    rewrite urldecode_loop_unreserved by (assumption || lia).
    reflexivity.
Qed.

Lemma url_codec_roundtrip_witness :
  uh_urlencode 16 (lit "a-Z_0.~") = (7, lit "a-Z_0.~")
  /\ uh_urldecode 16
       (firstn (Z.to_nat (fst (uh_urlencode 16 (lit "a-Z_0.~"))))
          (snd (uh_urlencode 16 (lit "a-Z_0.~"))))
     = (7, lit "a-Z_0.~").
Proof.
  apply (proj2 (url_codec_roundtrip (lit "a-Z_0.~") 16));
    [reflexivity | vm_compute; congruence | vm_compute; congruence].
Defined.

(** The encoder escapes what is not unreserved, in lowercase. *)
Example urlencode_escape :
  uh_urlencode 16 (lit "a/B ?") = (11, lit "a%2fB%20%3f").
Proof. reflexivity. Qed.

(** The decoder takes both cases of hexadecimal digits and rejects an
    escape that is cut short. *)
Example urldecode_hex_case :
  uh_urldecode 16 (lit "%2F%2f") = (2, lit "//")
  /\ fst (uh_urldecode 16 (lit "a%2")) = -2
  /\ fst (uh_urldecode 2 (lit "abc")) = -1.
Proof. repeat split. Qed.

End UrlFacts.

(** ** Base64 decoder *)

Module B64Facts.
Import B64.

(** The loop only appends, three bytes at a time, keeps [len] equal to
    the number of bytes written and never lets it reach [blen] by
    writing. *)
Lemma b64_loop_inv (blen slen : Z) (src : bytes) :
  forall i cout n buf,
    exists out,
      snd (b64_loop blen slen src i cout n buf) = buf ++ out
      /\ fst (b64_loop blen slen src i cout n buf) = n + len out
      /\ (out = [] \/ n + len out < blen)
      /\ (len out mod 3 = 0).
Proof.
  induction src as [|c r IH]; intros i cout n buf; cbn [b64_loop].
  - exists []. rewrite app_nil_r, len_nil, Z.add_0_r. cbn [fst snd]. repeat split; auto.
  - destruct ((i <=? slen) && negb (byte_eqb c NUL)).
    2:{ exists []. rewrite app_nil_r, len_nil, Z.add_0_r. cbn [fst snd]. repeat split; auto. }
    destruct (b64_value c) as [cin|]; [|apply IH].
    cbv zeta. destruct (i mod 4 =? 3); [|apply IH].
    destruct (Z.ltb_spec (n + 3) blen).
    2:{ exists []. rewrite app_nil_r, len_nil, Z.add_0_r. cbn [fst snd]. repeat split; auto. }
    match goal with
    | |- context [b64_loop _ _ _ ?i' ?c' ?n' ?b'] =>
        destruct (IH i' c' n' b') as [out [Hs [Hf [Hb Hm]]]]
    end.
    eexists (_ :: _ :: _ :: out). rewrite Hs, Hf, <- app_assoc.
    cbn [app]. rewrite !len_cons. pose proof (len_nonneg out).
    repeat split.
    + lia.
    + right. destruct Hb as [->|Hb]; [rewrite len_nil|]; lia.
    + replace (1 + (1 + (1 + len out))) with (len out + 1 * 3) by lia.
      rewrite Z.mod_add by lia. assumption.
Qed.

(** The part of the claim that holds: with room for the terminator
    ([1 <= blen]) at most [blen] bytes are written, the last of them is
    NUL, and the return value counts the decoded bytes and the NUL. *)
Lemma uh_b64decode_bounds (blen slen : Z) (src : bytes) :
  exists out,
    snd (uh_b64decode blen src slen) = out ++ [NUL]
    /\ fst (uh_b64decode blen src slen) = len out + 1
    /\ len out mod 3 = 0
    /\ (1 <= blen -> len (snd (uh_b64decode blen src slen)) <= blen).
Proof.
  unfold uh_b64decode.
  destruct (b64_loop_inv blen slen src 0 0 0 []) as [out [Hs [Hf [Hb Hm]]]].
  destruct (b64_loop blen slen src 0 0 0 []) as [n buf].
  cbn [fst snd] in *. subst. exists out. cbn [app].
  repeat split; auto.
  intros. rewrite len_app, len_cons, len_nil.
  destruct Hb as [->|Hb]; [rewrite len_nil|]; lia.
Qed.

(** With no room at all the terminator is written all the same. *)
Example uh_b64decode_no_room :
  uh_b64decode 0 (lit "QUJD") 4 = (1, [NUL]).
Proof. vm_compute. reflexivity. Qed.

(** A well-formed source: groups of four decode to three bytes each and
    a trailing partial group gives nothing. *)
Example uh_b64decode_groups :
  uh_b64decode 64 (lit "QUJD") 4 = (4, lit "ABC" ++ [NUL])
  /\ uh_b64decode 64 (lit "QUJDRE") 6 = (4, lit "ABC" ++ [NUL])
  /\ uh_b64decode 64 (lit "QUJDREVG") 8 = (7, lit "ABCDEF" ++ [NUL]).
Proof. vm_compute. repeat split. Qed.

(** C10, at the failing input.  The group test is [i % 4 == 3] on the
    source index, and a skipped character advances the index: after one
    leading blank, three bytes are written when only three recognised
    characters have been read, and the four characters ["QUJD"] do not
    decode to ["ABC"]. *)
Theorem uh_b64decode_skipped_char_shifts_groups :
  uh_b64decode 64 (lit " QUJD") 5 = (4, [chr 1; chr 5; chr 9; NUL])
  /\ List.length (filter recognised (firstn 4 (lit " QUJD"))) = 3%nat
  /\ uh_b64decode 64 (lit "QUJ D") 5 = (1, [NUL]).
Proof. vm_compute. repeat split. Qed.

End B64Facts.

(** ** I/O primitives and the chunk encoder *)

Module NetFacts.
Import Net Stream.

(** A write that takes everything completes the send at once. *)
Lemma uh_tcp_send_all (c : config) (r : http_request) (t : bytes)
  (rest : list wr_event) (buf : bytes) (n : Z) :
  0 < n ->
  uh_tcp_send buf n {| conf := c; request := r; tx := t;
                       net := WrAll :: rest |}
  = (n, {| conf := c; request := r; tx := t ++ take n buf; net := rest |}).
Proof.
  intros Hp. unfold uh_tcp_send. cbn [net tx conf raw_send].
  destruct (Z.ltb_spec n 0); [lia|].
  destruct (Z.eqb_spec n 0); [lia|].
  rewrite Z.ltb_irrefl. reflexivity.
Qed.

Lemma take_all (b : bytes) : take (len b) b = b.
Proof. unfold take, len. rewrite Nat2Z.id. apply firstn_all. Qed.

Lemma take_app (a b : bytes) : take (len a) (a ++ b) = a.
Proof.
  unfold take, len. rewrite Nat2Z.id, firstn_app, Nat.sub_diag, firstn_all.
  cbn [firstn]. apply app_nil_r.
Qed.

Lemma drop_app (a b : bytes) : drop (len a) (a ++ b) = b.
Proof.
  unfold drop, len. rewrite Nat2Z.id, skipn_app, Nat.sub_diag, skipn_all.
  reflexivity.
Qed.

(** Three writes that take everything carry one chunk. *)
Lemma uh_http_sendc_steps (cl : client) (data : bytes) (n : Z)
  (rest : list wr_event) :
  net cl = WrAll :: WrAll :: WrAll :: rest -> 0 < n -> n <> -1 ->
  uh_http_sendc data n cl
  = (0, with_io cl
          (tx cl
           ++ take (snd (snprintf 8 (fmt_X n ++ CRLF)))
                (fst (snprintf 8 (fmt_X n ++ CRLF)))
           ++ take n data ++ CRLF) rest).
Proof.
  intros Hn Hp Hm. unfold uh_http_sendc.
  destruct (Z.eqb_spec n (-1)); [lia|].
  destruct (Z.ltb_spec 0 n); [|lia].
  destruct (snprintf 8 (fmt_X n ++ CRLF)) as [chunk clen] eqn:Hc.
  assert (Hclen : 0 < clen).
  { unfold snprintf in Hc. inversion Hc. rewrite len_app.
    pose proof (len_nonneg (fmt_X n)). change (len CRLF) with 2. lia. }
  destruct cl as [c r t nt]. cbn [net tx] in *. subst nt.
  unfold ensure_ret, ret, with_io. cbn [conf request].
  rewrite uh_tcp_send_all by assumption.
  destruct (Z.ltb_spec clen 0); [lia|].
  rewrite uh_tcp_send_all by assumption.
  destruct (Z.ltb_spec n 0); [lia|].
  rewrite uh_tcp_send_all by lia.
  cbn [Z.ltb Z.compare fst snd]. rewrite <- !app_assoc. reflexivity.
Qed.

(** The empty payload is the terminator. *)
Lemma uh_http_sendc_empty (cl : client) (data : bytes)
  (rest : list wr_event) :
  net cl = WrAll :: rest ->
  uh_http_sendc data 0 cl = (0, with_io cl (tx cl ++ terminator) rest).
Proof.
  intros Hn. unfold uh_http_sendc. cbn [Z.eqb Z.ltb Z.compare].
  destruct cl as [c r t nt]. cbn [net tx] in *. subst nt.
  unfold ensure_ret, ret, with_io. cbn [conf request].
  rewrite uh_tcp_send_all by lia. reflexivity.
Qed.

(** C6, at the failing input.  [chunk] has eight bytes: a length of six
    hexadecimal digits leaves no room for the line feed, [snprintf] cuts
    the line to seven characters and the NUL, and all eight bytes are
    sent.  A payload of 1048576 bytes goes out after the size line
    ["100000\r\000"], which is not a chunk-size line. *)
Theorem uh_http_sendc_size_line_cut (cl : client) (data : bytes)
  (rest : list wr_event) :
  net cl = WrAll :: WrAll :: WrAll :: rest ->
  len data = 1048576 ->
  uh_http_sendc data 1048576 cl
  = (0, with_io cl
          (tx cl ++ lit "100000" ++ [CR; NUL] ++ data ++ CRLF) rest).
Proof.
  intros Hn Hd. rewrite (uh_http_sendc_steps cl data _ rest Hn) by lia.
  replace (take 1048576 data) with data
    by (rewrite <- Hd; symmetry; apply take_all).
  assert (E : take (snd (snprintf 8 (fmt_X 1048576 ++ CRLF)))
                (fst (snprintf 8 (fmt_X 1048576 ++ CRLF)))
              = lit "100000" ++ [CR; NUL]) by (vm_compute; reflexivity).
  rewrite E, <- app_assoc. reflexivity.
Qed.

Lemma uh_http_sendc_size_line_cut_witness :
  let cl := {| conf := {| docroot := lit "/www"; realm := lit "r";
                          network_timeout := 30; no_symlinks := false;
                          no_dirlists := false |};
               request := {| method := UH_HTTP_MSG_GET;
                             version := UH_HTTP_VER_1_1;
                             headers := []; req_realm := None |};
               tx := []; net := [WrAll; WrAll; WrAll] |} in
  let data := repeat "x" (Z.to_nat 1048576) in
  uh_http_sendc data 1048576 cl
  = (0, with_io cl
          (tx cl ++ lit "100000" ++ [CR; NUL] ++ data ++ CRLF) []).
Proof.
  intros cl data. apply (uh_http_sendc_size_line_cut cl data []).
  - reflexivity.
  - unfold data, len. rewrite repeat_length, Z2Nat.id; lia.
Defined.

(** *** Within the eight bytes of [chunk]

    For a payload of fewer than [16^5] bytes the size line fits and the
    framing is the one the specification describes; the rest of this
    section reads it back with the reference decoder. *)

Lemma fmt_X_short (n : Z) :
  0 <= n < 1048576 -> (List.length (fmt_X n) <= 5)%nat.
Proof.
  intros Hn. unfold fmt_X. rewrite Z.mod_small by lia.
  cbn [hex_digits].
  repeat match goal with
         | |- context [?a =? 0] => destruct (Z.eqb_spec a 0)
         end; cbn [List.length]; try lia;
    exfalso; Z.to_euclidean_division_equations; lia.
Qed.

Lemma uh_http_sendc_frame (cl : client) (data : bytes)
  (rest : list wr_event) :
  net cl = WrAll :: WrAll :: WrAll :: rest ->
  0 < len data < 1048576 ->
  uh_http_sendc data (len data) cl
  = (0, with_io cl (tx cl ++ frame data) rest).
Proof.
  intros Hn Hd. rewrite (uh_http_sendc_steps cl data _ rest Hn) by lia.
  rewrite take_all. unfold frame, snprintf. cbn [fst snd].
  pose proof (fmt_X_short (len data) ltac:(lia)) as Hs.
  assert (E : firstn 7 (fmt_X (len data) ++ CRLF) = fmt_X (len data) ++ CRLF).
  { apply firstn_all2. rewrite length_app. cbn [List.length CRLF]. lia. }
  rewrite E, take_app. rewrite <- !app_assoc. reflexivity.
Qed.

Lemma send_chunks_wire (ps : list bytes) :
  forall (cl : client) (rest : list wr_event),
    Forall (fun p => 0 < len p < 1048576) ps ->
    net cl = repeat WrAll (3 * List.length ps + 1) ++ rest ->
    send_chunks ps cl
    = (0, with_io cl (tx cl ++ flat_map frame ps ++ terminator) rest).
Proof.
  induction ps as [|p ps IH]; intros cl rest Hps Hn.
  - cbn [send_chunks flat_map app]. apply uh_http_sendc_empty. exact Hn.
  - inversion Hps as [|? ? Hp Hps']; subst.
    cbn [send_chunks]. unfold ensure_ret.
    replace (3 * List.length (p :: ps) + 1)%nat
      with (3 + (3 * List.length ps + 1))%nat in Hn by (cbn [List.length]; lia).
    rewrite repeat_app, <- app_assoc in Hn. cbn [repeat app] in Hn.
    rewrite (uh_http_sendc_frame cl p _ Hn Hp). cbn [Z.ltb Z.compare].
    rewrite (IH (with_io cl (tx cl ++ frame p) _) rest Hps' eq_refl).
    unfold with_io. cbn [conf request tx].
    cbn [flat_map]. rewrite <- !app_assoc. reflexivity.
Qed.

Lemma hexval_table (m : Z) :
  0 <= m < 16 ->
  hexval (nth (Z.to_nat m) (lit "0123456789ABCDEF") NUL) = Some m.
Proof.
  intros Hm.
  assert (H : m = 0 \/ m = 1 \/ m = 2 \/ m = 3 \/ m = 4 \/ m = 5 \/ m = 6
              \/ m = 7 \/ m = 8 \/ m = 9 \/ m = 10 \/ m = 11 \/ m = 12
              \/ m = 13 \/ m = 14 \/ m = 15) by lia.
  repeat (destruct H as [->|H]; [vm_compute; reflexivity|]).
  subst. vm_compute. reflexivity.
Qed.

Lemma hexnum_app (a b : bytes) (z : Z) :
  hexnum (a ++ b) z = hexnum b (hexnum a z).
Proof. unfold hexnum. apply fold_left_app. Qed.

(** [%X] writes digits, at least one, whose value is the number. *)
Lemma hex_digits_value (fuel : nat) :
  forall n acc,
    0 <= n < 16 ^ Z.of_nat (S fuel) ->
    exists ds,
      hex_digits (lit "0123456789ABCDEF") (S fuel) n acc = ds ++ acc
      /\ ds <> [] /\ Forall (fun c => hexval c <> None) ds
      /\ hexnum ds 0 = n.
Proof.
  induction fuel as [|fuel IH]; intros n acc Hn.
  - change (16 ^ Z.of_nat 1) with 16 in Hn. cbn [hex_digits].
    assert (Hd : n / 16 = 0) by (Z.to_euclidean_division_equations; lia).
    rewrite Hd. cbn [Z.eqb].
    exists [nth (Z.to_nat (n mod 16)) (lit "0123456789ABCDEF") NUL].
    pose proof (hexval_table (n mod 16)
                  ltac:(Z.to_euclidean_division_equations; lia)) as Hv.
    repeat split.
    + discriminate.
    + constructor; [congruence|constructor].
    + unfold hexnum. cbn [fold_left]. rewrite Hv.
      Z.to_euclidean_division_equations. lia.
  - cbn [hex_digits].
    pose proof (hexval_table (n mod 16)
                  ltac:(Z.to_euclidean_division_equations; lia)) as Hv.
    destruct (Z.eqb_spec (n / 16) 0) as [Hd|Hd].
    + exists [nth (Z.to_nat (n mod 16)) (lit "0123456789ABCDEF") NUL].
      repeat split.
      * discriminate.
      * constructor; [congruence|constructor].
      * unfold hexnum. cbn [fold_left]. rewrite Hv.
        Z.to_euclidean_division_equations. lia.
    + rewrite Nat2Z.inj_succ, Z.pow_succ_r in Hn by lia.
      destruct (IH (n / 16)
                  (nth (Z.to_nat (n mod 16)) (lit "0123456789ABCDEF") NUL
                   :: acc)) as [ds [He [Hne [Hall Hval]]]].
      { Z.to_euclidean_division_equations. nia. }
      cbn [hex_digits] in He. rewrite He.
      exists (ds ++ [nth (Z.to_nat (n mod 16)) (lit "0123456789ABCDEF") NUL]).
      repeat split.
      * rewrite <- app_assoc. reflexivity.
      * destruct ds; discriminate.
      * apply Forall_app. split; [assumption|].
        constructor; [congruence|constructor].
      * rewrite hexnum_app, Hval. unfold hexnum. cbn [fold_left].
        rewrite Hv. Z.to_euclidean_division_equations. lia.
Qed.

Lemma read_size_digits (ds : bytes) :
  forall acc r,
    Forall (fun c => hexval c <> None) ds ->
    ds <> [] \/ acc <> None ->
    read_size (ds ++ CR :: LF :: r) acc
    = Some (hexnum ds match acc with Some a => a | None => 0 end, r).
Proof.
  induction ds as [|c ds IH]; intros acc r Hall Hne.
  - destruct Hne as [Hne|Hne]; [congruence|].
    destruct acc as [a|]; [|congruence]. reflexivity.
  - inversion Hall as [|? ? Hc Hall']; subst.
    cbn [app read_size]. destruct (hexval c) as [d|] eqn:Hd; [|congruence].
    rewrite IH by (assumption || (right; discriminate)).
    unfold hexnum. cbn [fold_left]. rewrite Hd. reflexivity.
Qed.

Lemma read_size_fmt_X (n : Z) (r : bytes) :
  0 <= n < 2 ^ 32 ->
  read_size (fmt_X n ++ CRLF ++ r) None = Some (n, r).
Proof.
  intros Hn. unfold fmt_X. rewrite Z.mod_small by assumption.
  destruct (hex_digits_value 7 n []) as [ds [He [Hne [Hall Hval]]]].
  { change (16 ^ Z.of_nat 8) with (2 ^ 32). assumption. }
  rewrite He, app_nil_r. unfold CRLF. cbn [app].
  rewrite read_size_digits by (auto). rewrite Hval. reflexivity.
Qed.

Lemma bytes_eqb_refl (b : bytes) : bytes_eqb b b = true.
Proof.
  induction b as [|c b IH]; [reflexivity|].
  cbn [bytes_eqb]. rewrite byte_eqb_refl. assumption.
Qed.

(** The reference decoder reads the frames back. *)
Lemma dechunk_frames (ps : list bytes) :
  Forall (fun p => 0 < len p < 2 ^ 32) ps ->
  dechunk (S (List.length ps)) (flat_map frame ps ++ terminator)
  = Some (concat ps).
Proof.
  induction ps as [|p ps IH]; intros Hps.
  - reflexivity.
  - inversion Hps as [|? ? Hp Hps']; subst.
    cbn [flat_map concat List.length]. unfold frame at 1.
    rewrite <- !app_assoc.
    remember (S (List.length ps)) as fuel.
    remember (flat_map frame ps ++ terminator) as w.
    cbn [dechunk]. rewrite read_size_fmt_X by lia.
    destruct (Z.eqb_spec (len p) 0); [lia|].
    rewrite !len_app. change (len CRLF) with 2.
    pose proof (len_nonneg w).
    destruct (Z.ltb_spec (len p + (2 + len w)) (len p + 2)); [lia|].
    rewrite drop_app, take_app.
    replace (len p + 2) with (len (p ++ CRLF))
      by (rewrite len_app; reflexivity).
    rewrite (app_assoc p CRLF), drop_app.
    change (take 2 (CRLF ++ w)) with CRLF.
    rewrite bytes_eqb_refl, IH by assumption. reflexivity.
Qed.

(** Within the buffer the claim of C6 holds: what a sequence of sends
    and the terminator put on the wire decodes to the payloads. *)
Lemma chunked_roundtrip (ps : list bytes) (cl : client)
  (rest : list wr_event) :
  Forall (fun p => 0 < len p < 1048576) ps ->
  net cl = repeat WrAll (3 * List.length ps + 1) ++ rest ->
  exists wire,
    send_chunks ps cl = (0, with_io cl (tx cl ++ wire) rest)
    /\ dechunk (S (List.length ps)) wire = Some (concat ps).
Proof.
  intros Hps Hn. exists (flat_map frame ps ++ terminator). split.
  - apply send_chunks_wire; assumption.
  - apply dechunk_frames. eapply Forall_impl; [|exact Hps].
    cbn beta. intros; lia.
Qed.

Example chunk_frame_example :
  frame (lit "hello, world") = lit "C" ++ CRLF ++ lit "hello, world" ++ CRLF
  /\ dechunk 3 (frame (lit "hello, ") ++ frame (lit "world") ++ terminator)
     = Some (lit "hello, world").
Proof. vm_compute. split; reflexivity. Qed.

End NetFacts.

(** ** MIME lookup *)

Module MimeFacts.
Import File File.SpecMime MimeRule.

Lemma mime_scan_true (path extn : bytes) (k : nat) :
  mime_scan path extn k = true <->
  exists e, (e < k)%nat /\ is_anchor (nth e path NUL) = true
            /\ strcaseeq (skipn (S e) path) extn = true.
Proof.
  induction k as [|k IH]; cbn [mime_scan].
  - split; [discriminate|]. intros [e [He _]]. lia.
  - fold (is_anchor (nth k path NUL)).
    destruct (is_anchor (nth k path NUL)
              && strcaseeq (skipn (S k) path) extn) eqn:Hk.
    + apply andb_true_iff in Hk as [Ha Hs]. split; [|reflexivity].
      intros _. exists k. auto.
    + rewrite IH. split.
      * intros [e [He Hr]]. exists e. split; [lia|assumption].
      * intros [e [He [Ha Hs]]]. exists e.
        assert (e <> k) by (intros ->; rewrite Ha, Hs in Hk; discriminate).
        split; [lia|auto].
Qed.

Lemma mime_scan_anchored (path extn : bytes) :
  mime_scan path extn (List.length path) = true <-> anchored path extn.
Proof.
  rewrite mime_scan_true. unfold anchored. split.
  - intros [e [He [Ha Hs]]].
    exists (firstn e path), (nth e path NUL), (skipn (S e) path).
    repeat split; try assumption.
    rewrite <- (firstn_skipn e path) at 1. f_equal.
    clear Ha Hs. revert e He.
    induction path as [|c r IH]; intros e He; [cbn in He; lia|].
    destruct e as [|e]; [reflexivity|].
    cbn [skipn nth]. apply IH. cbn in He. lia.
  - intros [pre [c [suf [-> [Ha Hs]]]]]. exists (List.length pre).
    rewrite length_app. cbn [List.length]. split; [lia|].
    rewrite app_nth2, Nat.sub_diag by lia. cbn [nth]. split; [assumption|].
    replace (S (List.length pre)) with (List.length (pre ++ [c]))
      by (rewrite length_app; cbn; lia).
    replace (pre ++ c :: suf) with ((pre ++ [c]) ++ suf)
      by (rewrite <- app_assoc; reflexivity).
    rewrite skipn_app, Nat.sub_diag, skipn_all. assumption.
Qed.

Lemma tolower_anchor (x y : ascii) :
  byte_eqb (tolower x) (tolower y) = true -> is_anchor x = is_anchor y.
Proof.
  intros H. apply byte_eqb_eq in H.
  destruct (is_anchor y) eqn:Hy.
  - apply orb_true_iff in Hy as [Hy|Hy]; apply byte_eqb_eq in Hy; subst y;
      revert H; each_byte x; vm_compute; congruence.
  - destruct (is_anchor x) eqn:Hx; [|reflexivity].
    apply orb_true_iff in Hx as [Hx|Hx]; apply byte_eqb_eq in Hx; subst x;
      revert H Hy; each_byte y; vm_compute; congruence.
Qed.

Lemma strcaseeq_plain (a b : bytes) :
  strcaseeq a b = true ->
  forallb (fun c => negb (is_anchor c)) b = true ->
  forallb (fun c => negb (is_anchor c)) a = true.
Proof.
  revert b. induction a as [|x a IH]; intros [|y b] Heq Hb;
    cbn in *; try congruence.
  apply andb_true_iff in Heq as [Hxy Heq].
  apply andb_true_iff in Hb as [Hy Hb].
  rewrite (tolower_anchor _ _ Hxy), Hy. cbn. eapply IH; eassumption.
Qed.

Lemma last_extension_plain (s : bytes) :
  forallb (fun c => negb (is_anchor c)) s = true -> last_extension s = None.
Proof.
  induction s as [|c r IH]; cbn; [reflexivity|].
  intros H. apply andb_true_iff in H as [Hc Hr]. rewrite (IH Hr).
  fold (is_anchor c). destruct (is_anchor c); [discriminate|reflexivity].
Qed.

Lemma last_extension_app (pre : bytes) (c : ascii) (suf : bytes) :
  is_anchor c = true ->
  forallb (fun c => negb (is_anchor c)) suf = true ->
  last_extension (pre ++ c :: suf) = Some suf.
Proof.
  intros Hc Hs. induction pre as [|x pre IH]; cbn [app last_extension].
  - rewrite (last_extension_plain _ Hs). fold (is_anchor c). rewrite Hc.
    reflexivity.
  - rewrite IH. reflexivity.
Qed.

Lemma last_extension_some (path e : bytes) :
  last_extension path = Some e ->
  exists pre c, path = pre ++ c :: e /\ is_anchor c = true.
Proof.
  revert e. induction path as [|x r IH]; intros e; cbn [last_extension].
  - discriminate.
  - destruct (last_extension r) as [e'|] eqn:Hr.
    + intros [= <-]. destruct (IH _ eq_refl) as [pre [c [-> Hc]]].
      exists (x :: pre), c. auto.
    + fold (is_anchor x). destruct (is_anchor x) eqn:Hx; [|discriminate].
      intros [= <-]. exists [], x. auto.
Qed.

Lemma mime_scan_last_extension (path extn : bytes) :
  forallb (fun c => negb (is_anchor c)) extn = true ->
  mime_scan path extn (List.length path)
  = match last_extension path with
    | Some e => strcaseeq e extn
    | None => false
    end.
Proof.
  intros Hx. apply eq_true_iff_eq. rewrite mime_scan_anchored. split.
  - intros [pre [c [suf [-> [Hc Hs]]]]].
    rewrite (last_extension_app _ _ _ Hc (strcaseeq_plain _ _ Hs Hx)).
    assumption.
  - destruct (last_extension path) as [e|] eqn:He; [|discriminate].
    intros Hs. destruct (last_extension_some _ _ He) as [pre [c [-> Hc]]].
    exists pre, c, e. auto.
Qed.

(** C9, as the code has it.  The type is that of the first entry, in
    the order of the table, whose extension is (up to case) all that
    follows some ['.'] or ['/'] of the path, every one of them being
    tried; it is [application/octet-stream] when there is no such
    entry; and when no extension of the table contains ['.'] or ['/']
    this is the lookup of what follows the last ['.'] or ['/']. *)
Theorem mime_lookup_rule (table : list (bytes * bytes)) (path : bytes) :
  (forall before extn mime after,
      table = before ++ (extn, mime) :: after ->
      Forall (fun e => ~ anchored path (fst e)) before ->
      anchored path extn ->
      uh_file_mime_lookup table path = mime)
  /\ (Forall (fun e => ~ anchored path (fst e)) table ->
      uh_file_mime_lookup table path = lit "application/octet-stream")
  /\ (plain_extensions table ->
      uh_file_mime_lookup table path = mime_by_last_extension table path).
Proof.
  unfold uh_file_mime_lookup. repeat split.
  - intros before extn mime after -> Hb Ha.
    induction before as [|[x m] before IH]; cbn [app mime_lookup].
    + apply mime_scan_anchored in Ha. rewrite Ha. reflexivity.
    + inversion Hb as [|? ? Hx Hb']; subst. cbn [fst] in Hx.
      destruct (mime_scan path x (List.length path)) eqn:Hs.
      * apply mime_scan_anchored in Hs. contradiction.
      * apply IH. assumption.
  - induction table as [|[x m] table IH]; intros Hall; cbn [mime_lookup].
    + reflexivity.
    + inversion Hall as [|? ? Hx Hall']; subst. cbn [fst] in Hx.
      destruct (mime_scan path x (List.length path)) eqn:Hs.
      * apply mime_scan_anchored in Hs. contradiction.
      * apply IH. assumption.
  - unfold mime_by_last_extension, plain_extensions.
    induction table as [|[x m] table IH]; intros Hall; cbn [mime_lookup].
    + destruct (last_extension path); reflexivity.
    + inversion Hall as [|? ? Hx Hall']; subst. cbn [fst] in Hx.
      rewrite (mime_scan_last_extension _ _ Hx), (IH Hall').
      destruct (last_extension path) as [e|]; cbn [assoc_nocase];
        [|reflexivity].
      destruct (strcaseeq e x); reflexivity.
Qed.

Lemma mime_lookup_rule_witness :
  uh_file_mime_lookup
    [(lit "txt", lit "text/plain"); (lit "html", lit "text/html")]
    (lit "/docs/Index.HTML")
  = lit "text/html".
Proof.
  apply (proj1 (mime_lookup_rule
                  [(lit "txt", lit "text/plain"); (lit "html", lit "text/html")]
                  (lit "/docs/Index.HTML"))
           [(lit "txt", lit "text/plain")] (lit "html") (lit "text/html") []).
  - reflexivity.
  - constructor; [|constructor]. cbn [fst].
    intros Ha. apply mime_scan_anchored in Ha. vm_compute in Ha.
    discriminate.
  - apply mime_scan_anchored. vm_compute. reflexivity.
Defined.

(** C9 as the claim words it fails: the scan does not stop at the last
    ['.'], and the order of the table comes before the order of the
    scan.  With an entry for [tar.gz] before the entry for [gz] the path
    [a.tar.gz] gets the type of [tar.gz], while what follows the last
    ['.'] is [gz], which is also the first match from the right. *)
Lemma mime_lookup_goes_past_last_dot :
  let table := [(lit "tar.gz", lit "application/x-compressed-tar");
                (lit "gz", lit "application/x-gzip")] in
  uh_file_mime_lookup table (lit "a.tar.gz")
  = lit "application/x-compressed-tar"
  /\ mime_by_last_extension table (lit "a.tar.gz")
     = lit "application/x-gzip"
  /\ mime_by_rightmost_match table (lit "a.tar.gz")
     = lit "application/x-gzip"
  /\ uh_file_mime_lookup table (lit "a.tar.gz")
     <> mime_by_last_extension table (lit "a.tar.gz")
  /\ uh_file_mime_lookup table (lit "a.tar.gz")
     <> mime_by_rightmost_match table (lit "a.tar.gz").
Proof.
  vm_compute. split; [|split; [|split; [|split]]];
    try reflexivity; discriminate.
Qed.

End MimeFacts.

(** ** Realm matching *)

Module AuthFacts.
Import Net Auth Fixtures.

(** A realm that is kept goes to the head of the list. *)
Lemma uh_auth_add_head (path_size user_size pass_size : nat)
  (shadow : bool) (getspnam getpwnam : bytes -> option (option bytes))
  (room : bool) (path user pass : bytes) (uh_realms : list auth_realm)
  (new : auth_realm) :
  fst (uh_auth_add path_size user_size pass_size shadow getspnam getpwnam
         room path user pass uh_realms) = Some new ->
  snd (uh_auth_add path_size user_size pass_size shadow getspnam getpwnam
         room path user pass uh_realms) = new :: uh_realms.
Proof.
  unfold uh_auth_add. destruct room; [|discriminate].
  set (r := {| realm_path := _ |}).
  destruct (realm_pass r); [discriminate|].
  cbn [fst snd]. intros [= <-]. reflexivity.
Qed.

Lemma first_covering_none (name : bytes) (uh_realms : list auth_realm) :
  first_covering name uh_realms = None <->
  forallb (fun r => negb (covers name r)) uh_realms = true.
Proof.
  induction uh_realms as [|r rest IH]; cbn [first_covering forallb].
  - tauto.
  - destruct (covers name r); cbn [negb andb]; [|exact IH].
    split; discriminate.
Qed.

Lemma first_covering_at (name : bytes) (before : list auth_realm)
  (r : auth_realm) (after : list auth_realm) :
  forallb (fun x => negb (covers name x)) before = true ->
  covers name r = true ->
  first_covering name (before ++ r :: after) = Some r.
Proof.
  intros Hb Hr. induction before as [|x before IH];
    cbn [app first_covering].
  - rewrite Hr. reflexivity.
  - cbn [forallb] in Hb. apply andb_true_iff in Hb as [Hx Hb].
    apply negb_true_iff in Hx. rewrite Hx. apply IH. assumption.
Qed.

Lemma realm_of_user_none (name user : bytes) (uh_realms : list auth_realm) :
  forallb (fun x => negb (AuthRule.opens name user x)) uh_realms = true ->
  realm_of_user name user uh_realms = None.
Proof.
  unfold AuthRule.opens.
  induction uh_realms as [|x rest IH]; cbn [forallb realm_of_user];
    [reflexivity|].
  intros H. apply andb_true_iff in H as [Hx H].
  apply negb_true_iff in Hx. rewrite Hx. apply IH. assumption.
Qed.

Lemma realm_of_user_at (name user : bytes) (before : list auth_realm)
  (m : auth_realm) (after : list auth_realm) :
  forallb (fun x => negb (AuthRule.opens name user x)) before = true ->
  AuthRule.opens name user m = true ->
  realm_of_user name user (before ++ m :: after) = Some m.
Proof.
  unfold AuthRule.opens. intros Hb Hm.
  induction before as [|x before IH]; cbn [app realm_of_user].
  - rewrite Hm. reflexivity.
  - cbn [forallb] in Hb. apply andb_true_iff in Hb as [Hx Hb].
    apply negb_true_iff in Hx. rewrite Hx. apply IH. assumption.
Qed.

(** The challenge leaves the request as it is. *)
Lemma sendf_request (limit : nat) (text : bytes) (cl : client) :
  request (snd (uh_http_sendf limit None text cl)) = request cl.
Proof.
  unfold uh_http_sendf, snprintf.
  match goal with
  | |- context [if ?b then _ else _] => destruct b
  end; [|reflexivity].
  unfold ensure_ret, ret, uh_tcp_send.
  match goal with
  | |- context [raw_send ?a ?b ?c ?d ?e] =>
      destruct (raw_send a b c d e) as [rv' [sent script]]
  end.
  destruct (rv' <? 0); reflexivity.
Qed.

Lemma set_realm_over (r m : auth_realm) (cl : client) :
  set_realm m (set_realm r cl) = set_realm m cl.
Proof. destruct cl. reflexivity. Qed.

Section Check.

Variable REALM_PATH_SIZE REALM_USER_SIZE REALM_PASS_SIZE : nat.
Variable UH_LIMIT_MSGHEAD : nat.
Variable HAVE_SHADOW : bool.
Variable getspnam : bytes -> option (option bytes).
Variable getpwnam : bytes -> option (option bytes).
Variable crypt : bytes -> bytes -> bytes.

(** C3, as the code has it.  The list of realms is scanned from its
    head, where [uh_auth_add] puts each new realm, and the scan stops at
    the first realm whose path is, up to case, a prefix of the name:
    that realm is adopted whatever its length, and with no credentials
    in the request the check fails with it as the realm of the request.
    With credentials [user:pass] the list is scanned again for the
    first realm that covers the name and whose user is [user]: when
    there is none the check fails and the realm of the request stays
    the first covering one; when there is one it becomes the realm of
    the request, and the check passes, with nothing sent, when the
    password matches it and fails when it does not.  When no realm
    covers the name the check passes and nothing is sent or changed. *)
Theorem realm_matching (uh_realms : list auth_realm) (name : bytes)
  (cl : client) :
  (forallb (fun r => negb (covers name r)) uh_realms = true ->
   uh_auth_check UH_LIMIT_MSGHEAD crypt uh_realms name cl = (1, cl))
  /\ (forall before r after,
        uh_realms = before ++ r :: after ->
        forallb (fun x => negb (covers name x)) before = true ->
        covers name r = true ->
        first_covering name uh_realms = Some r
        /\ (credentials UH_LIMIT_MSGHEAD (headers (request cl)) = None ->
            fst (uh_auth_check UH_LIMIT_MSGHEAD crypt uh_realms name cl) = 0
            /\ req_realm
                 (request
                    (snd (uh_auth_check UH_LIMIT_MSGHEAD crypt uh_realms
                            name cl)))
               = Some r)
        /\ (forall user pass,
              credentials UH_LIMIT_MSGHEAD (headers (request cl))
              = Some (user, pass) ->
              (forallb (fun x => negb (AuthRule.opens name user x)) uh_realms
               = true ->
               fst (uh_auth_check UH_LIMIT_MSGHEAD crypt uh_realms name cl)
               = 0
               /\ req_realm
                    (request
                       (snd (uh_auth_check UH_LIMIT_MSGHEAD crypt uh_realms
                               name cl)))
                  = Some r)
              /\ (forall before' m after',
                    uh_realms = before' ++ m :: after' ->
                    forallb (fun x => negb (AuthRule.opens name user x))
                      before' = true ->
                    AuthRule.opens name user m = true ->
                    req_realm
                      (request
                         (snd (uh_auth_check UH_LIMIT_MSGHEAD crypt
                                 uh_realms name cl)))
                    = Some m
                    /\ (AuthRule.pass_ok crypt pass m = true ->
                        uh_auth_check UH_LIMIT_MSGHEAD crypt uh_realms name
                          cl
                        = (1, set_realm m cl))
                    /\ (AuthRule.pass_ok crypt pass m = false ->
                        fst (uh_auth_check UH_LIMIT_MSGHEAD crypt uh_realms
                               name cl) = 0))))
  /\ (forall room path user pass new,
        fst (uh_auth_add REALM_PATH_SIZE REALM_USER_SIZE REALM_PASS_SIZE
               HAVE_SHADOW getspnam getpwnam room path user pass uh_realms)
        = Some new ->
        snd (uh_auth_add REALM_PATH_SIZE REALM_USER_SIZE REALM_PASS_SIZE
               HAVE_SHADOW getspnam getpwnam room path user pass uh_realms)
        = new :: uh_realms).
Proof.
  split; [|split; [|intros; apply uh_auth_add_head; assumption]].
  - intros Hn. apply first_covering_none in Hn.
    unfold uh_auth_check. rewrite Hn. reflexivity.
  - intros before r after E Hb Hr.
    assert (Hf : first_covering name uh_realms = Some r)
      by (rewrite E; apply first_covering_at; assumption).
    clear E Hb.
    assert (Hdeny : forall c : client,
               fst (let '(_, cl') :=
                      uh_http_sendf UH_LIMIT_MSGHEAD None
                        (challenge (version (request c))
                           (cstr (realm (conf c)))) c in
                    (0, cl')) = 0
               /\ request
                    (snd (let '(_, cl') :=
                            uh_http_sendf UH_LIMIT_MSGHEAD None
                              (challenge (version (request c))
                                 (cstr (realm (conf c)))) c in
                          (0, cl')))
                  = request c).
    { intros c.
      pose proof (sendf_request UH_LIMIT_MSGHEAD
                    (challenge (version (request c)) (cstr (realm (conf c))))
                    c) as Hq.
      destruct (uh_http_sendf _ _ _ _) as [rv cl']. cbn [fst snd] in *.
      split; [reflexivity|assumption]. }
    assert (Hh : headers (request (set_realm r cl)) = headers (request cl))
      by (destruct cl; reflexivity).
    split; [assumption|]. split.
    + intros Hc. unfold uh_auth_check. rewrite Hf. cbv zeta.
      rewrite Hh, Hc.
      destruct (Hdeny (set_realm r cl)) as [H0 Hq].
      split; [assumption|]. rewrite Hq. destruct cl; reflexivity.
    + intros user pass Hc. split.
      * intros Hnone. unfold uh_auth_check. rewrite Hf. cbv zeta.
        rewrite Hh, Hc, (realm_of_user_none _ _ _ Hnone).
        destruct (Hdeny (set_realm r cl)) as [H0 Hq].
        split; [assumption|]. rewrite Hq. destruct cl; reflexivity.
      * intros before' m after' E Hb Hm.
        assert (Hu : realm_of_user name user uh_realms = Some m)
          by (rewrite E; apply realm_of_user_at; assumption).
        unfold uh_auth_check. rewrite Hf. cbv zeta.
        rewrite Hh, Hc, Hu.
        fold (AuthRule.pass_ok crypt pass m).
        rewrite set_realm_over.
        destruct (Hdeny (set_realm m cl)) as [H0 Hq].
        destruct (AuthRule.pass_ok crypt pass m).
        -- cbn [snd]. split; [destruct cl; reflexivity|].
           split; [reflexivity|discriminate].
        -- split; [rewrite Hq; destruct cl; reflexivity|].
           split; [discriminate|intros _; assumption].
Qed.

End Check.

Lemma realm_matching_witness :
  uh_auth_check 4096 (fun _ s => s) alice_realms (lit "/x/y") plain_client
  = (1, plain_client)
  /\ fst (uh_auth_check 4096 (fun _ s => s) alice_realms (lit "/A/b/c")
            plain_client) = 0.
Proof.
  split.
  - apply (proj1 (realm_matching 4096 32 128 4096 false (fun _ => None)
                    (fun _ => None) (fun _ s => s) alice_realms
                    (lit "/x/y") plain_client)).
    reflexivity.
  - apply (proj1 (proj2 (realm_matching 4096 32 128 4096 false
                           (fun _ => None) (fun _ => None) (fun _ s => s)
                           alice_realms (lit "/A/b/c") plain_client))
             [] {| realm_path := lit "/a"; realm_user := lit "bob";
                   realm_pass := lit "y" |}
             [ {| realm_path := lit "/a/b"; realm_user := lit "alice";
                  realm_pass := lit "x" |} ]);
      reflexivity.
Defined.

(** C3 as the claim words it fails.  The realm of [/a/b] is added first
    and the realm of [/a] after it; for the name [/a/b/c] both cover,
    [/a/b] is the longer and the earlier one, and the realm adopted is
    [/a], which challenges. *)
Lemma realm_matching_not_longest :
  let add := uh_auth_add 4096 32 128 false (fun _ => None) (fun _ => None)
               true in
  let realms :=
    snd (add (lit "/a") (lit "bob") (lit "y")
           (snd (add (lit "/a/b") (lit "alice") (lit "x") []))) in
  let r := uh_auth_check 4096 (fun _ s => s) realms (lit "/a/b/c")
             plain_client in
  realms = alice_realms
  /\ forallb (covers (lit "/a/b/c")) realms = true
  /\ option_map realm_path (req_realm (request (snd r))) = Some (lit "/a")
  /\ fst r = 0.
Proof. vm_compute. repeat split. Qed.

(** With the credentials of [alice], whose realm is the later one in
    the list, the second scan replaces the realm of the request by
    hers and the check passes; with a wrong password it fails. *)
Example realm_of_credentials :
  let check pass :=
    uh_auth_check 4096 (fun p _ => p) alice_realms (lit "/a/b/c")
      (with_request plain_client
         {| method := UH_HTTP_MSG_GET; version := UH_HTTP_VER_1_1;
            headers := [(lit "Authorization",
                         AuthRule.basic_value (lit "alice") pass)];
            req_realm := None |}) in
  AuthRule.basic_value (lit "alice") (lit "x") = lit "Basic YWxpY2U6eA=="
  /\ fst (check (lit "x")) = 1
  /\ option_map realm_path (req_realm (request (snd (check (lit "x")))))
     = Some (lit "/a/b")
  /\ tx (snd (check (lit "x"))) = tx plain_client
  /\ fst (check (lit "z")) = 0
  /\ option_map realm_path (req_realm (request (snd (check (lit "z")))))
     = Some (lit "/a/b").
Proof. vm_compute. repeat split. Qed.

End AuthFacts.

(** ** Lexical canonicalisation *)

Module CanonFacts.
Import Path PathRule.

Lemma render_app (a b : list bytes) : render (a ++ b) = render a ++ render b.
Proof. unfold render. apply flat_map_app. Qed.

Lemma render_cons (s : bytes) (segs : list bytes) :
  render (s :: segs) = "/" :: s ++ render segs.
Proof. reflexivity. Qed.

Lemma render_split (s : bytes) : render (split_slash s) = "/" :: s.
Proof.
  induction s as [|c r IH]; [reflexivity|]. cbn [split_slash].
  destruct (byte_eqb c "/") eqn:Hc.
  - apply byte_eqb_eq in Hc. subst c. rewrite render_cons, IH. reflexivity.
  - destruct (split_slash r) as [|seg rest]; [discriminate|].
    rewrite render_cons in *. inversion IH. reflexivity.
Qed.

Lemma split_plain (s : bytes) : forallb plain (split_slash s) = true.
Proof.
  induction s as [|c r IH]; [reflexivity|]. cbn [split_slash].
  destruct (byte_eqb c "/") eqn:Hc; [exact IH|].
  destruct (split_slash r) as [|seg rest]; cbn [forallb plain] in *.
  - rewrite Hc. reflexivity.
  - rewrite Hc. exact IH.
Qed.

(** Bytes that are not slashes are copied. *)
Lemma normalize_plain (limit : nat) (seg : bytes) :
  forall i rest res,
    plain seg = true -> (i + List.length seg <= limit)%nat ->
    normalize limit i (seg ++ rest) res
    = normalize limit (i + List.length seg) rest (rev seg ++ res).
Proof.
  induction seg as [|c seg IH]; intros i rest res Hp Hl.
  - cbn [app List.length rev]. rewrite Nat.add_0_r. reflexivity.
  - cbn [plain forallb] in Hp. apply andb_true_iff in Hp as [Hc Hp].
    apply negb_true_iff in Hc. cbn [List.length] in Hl.
    cbn [app normalize].
    destruct (Nat.ltb_spec i limit); [|lia]. rewrite Hc.
    rewrite IH by (assumption || lia).
    cbn [List.length rev]. rewrite <- app_assoc. cbn [app].
    f_equal. lia.
Qed.

Lemma render_head (segs : list bytes) :
  segs = [] \/ exists r, render segs = "/" :: r.
Proof. destruct segs as [|s segs]; [left|right; eexists]; reflexivity. Qed.

Lemma pop_output (s : bytes) (stack : list bytes) :
  plain s = true -> pop_segment (output (s :: stack)) = output stack.
Proof.
  intros Hp. cbn [output flat_map]. fold (output stack).
  rewrite <- app_assoc. cbn [app].
  assert (Hr : forallb (fun c => negb (byte_eqb c "/")) (rev s) = true).
  { apply forallb_forall. intros c Hc. apply in_rev in Hc.
    unfold plain in Hp. rewrite forallb_forall in Hp. auto. }
  induction (rev s) as [|c r IH]; cbn [app pop_segment].
  - reflexivity.
  - cbn [forallb] in Hr. apply andb_true_iff in Hr as [Hc Hr].
    apply negb_true_iff in Hc. rewrite Hc. auto.
Qed.

Lemma pop_output_tl (stack : list bytes) :
  forallb plain stack = true ->
  pop_segment (output stack) = output (tl stack).
Proof.
  destruct stack as [|s stack]; [reflexivity|].
  cbn [forallb tl]. intros H. apply andb_true_iff in H as [Hs _].
  apply pop_output. assumption.
Qed.

Lemma is_dot_eq (seg : bytes) : is_dot seg = true -> seg = ["."].
Proof.
  unfold is_dot. destruct seg as [|a [|b r]]; cbn; try discriminate.
  - rewrite andb_true_r. intros H. apply byte_eqb_eq in H. congruence.
  - rewrite andb_false_r. discriminate.
Qed.

Lemma is_dotdot_eq (seg : bytes) : is_dotdot seg = true -> seg = ["."; "."].
Proof.
  unfold is_dotdot. destruct seg as [|a [|b [|c r]]]; cbn;
    try discriminate.
  - rewrite andb_false_r. discriminate.
  - rewrite andb_true_r. intros H. apply andb_true_iff in H as [Ha Hb].
    apply byte_eqb_eq in Ha, Hb. congruence.
  - rewrite !andb_false_r. discriminate.
Qed.

(** What the loop does with one segment, by kind of segment. *)
Lemma step_slash (limit i : nat) (r res : bytes) :
  (i < limit)%nat ->
  normalize limit i ("/" :: "/" :: r) res
  = normalize limit (i + 1) ("/" :: r) res.
Proof.
  intros Hi. cbn [normalize]. destruct (Nat.ltb_spec i limit); [|lia].
  rewrite !byte_eqb_refl. reflexivity.
Qed.

Lemma step_last_slash (limit i : nat) (res : bytes) :
  (i < limit)%nat -> normalize limit i ["/"] res = "/" :: res.
Proof.
  intros Hi. cbn [normalize]. destruct (Nat.ltb_spec i limit); [|lia].
  rewrite byte_eqb_refl. reflexivity.
Qed.

Lemma step_dot (limit i : nat) (rest res : bytes) :
  (i < limit)%nat -> follows rest ->
  normalize limit i ("/" :: "." :: rest) res
  = normalize limit (i + 2) rest res.
Proof.
  intros Hi Hf. cbn [normalize]. destruct (Nat.ltb_spec i limit); [|lia].
  rewrite byte_eqb_refl.
  change (byte_eqb "." "/") with false. rewrite byte_eqb_refl.
  destruct Hf as [->|[r ->]]; [reflexivity|].
  rewrite byte_eqb_refl. reflexivity.
Qed.

Lemma step_dotdot (limit i : nat) (rest res : bytes) :
  (i < limit)%nat -> follows rest ->
  normalize limit i ("/" :: "." :: "." :: rest) res
  = normalize limit (i + 3) rest (pop_segment res).
Proof.
  intros Hi Hf. cbn [normalize]. destruct (Nat.ltb_spec i limit); [|lia].
  rewrite byte_eqb_refl.
  change (byte_eqb "." "/") with false. rewrite !byte_eqb_refl.
  destruct Hf as [->|[r ->]]; [reflexivity|].
  rewrite byte_eqb_refl. reflexivity.
Qed.

Lemma step_name (limit i : nat) (seg rest res : bytes) :
  plain seg = true -> is_empty seg = false -> is_dot seg = false ->
  is_dotdot seg = false ->
  (i + 1 + List.length seg <= limit)%nat ->
  normalize limit i ("/" :: seg ++ rest) res
  = normalize limit (i + 1 + List.length seg) rest (rev seg ++ "/" :: res).
Proof.
  intros Hp He Hd Hdd Hl.
  assert (Hcopy : normalize limit (i + 1) (seg ++ rest) ("/" :: res)
                  = normalize limit (i + 1 + List.length seg) rest
                      (rev seg ++ "/" :: res))
    by (apply normalize_plain; [assumption|lia]).
  rewrite <- Hcopy. clear Hcopy.
  destruct seg as [|c1 more]; [discriminate|].
  cbn [plain forallb] in Hp. apply andb_true_iff in Hp as [Hc1 Hp].
  apply negb_true_iff in Hc1. cbn [List.length] in Hl.
  cbn [app normalize]. destruct (Nat.ltb_spec i limit); [|lia].
  rewrite byte_eqb_refl, Hc1.
  destruct (byte_eqb c1 ".") eqn:Hd1; [|reflexivity].
  destruct more as [|c2 more2].
  { unfold is_dot in Hd. cbn [bytes_eqb] in Hd. rewrite Hd1 in Hd.
    discriminate. }
  cbn [forallb] in Hp. apply andb_true_iff in Hp as [Hc2 Hp].
  apply negb_true_iff in Hc2. cbn [app]. rewrite Hc2.
  destruct (byte_eqb c2 ".") eqn:Hd2; [|reflexivity].
  destruct more2 as [|c3 more3].
  { unfold is_dotdot in Hdd. cbn [bytes_eqb] in Hdd.
    rewrite Hd1, Hd2 in Hdd. discriminate. }
  cbn [forallb] in Hp. apply andb_true_iff in Hp as [Hc3 Hp].
  apply negb_true_iff in Hc3. cbn [app andb]. rewrite Hc3. reflexivity.
Qed.

Lemma trailing_cons (s s' : bytes) (rest : list bytes) :
  trailing (s :: s' :: rest) = trailing (s' :: rest).
Proof. reflexivity. Qed.

Lemma follows_render (segs : list bytes) : follows (render segs).
Proof.
  destruct segs as [|s segs]; [left|right; eexists]; reflexivity.
Qed.

Lemma output_cons (s : bytes) (stack : list bytes) :
  output (s :: stack) = rev s ++ "/" :: output stack.
Proof.
  unfold output. cbn [flat_map]. rewrite <- app_assoc. reflexivity.
Qed.

(** The loop, segment by segment: within the limit it leaves the
    segments that [resolve] keeps, and a slash after them when the path
    ends with one. *)
Lemma normalize_segments (limit : nat) (segs : list bytes) :
  forall i stack,
    forallb plain segs = true -> forallb plain stack = true ->
    (i + List.length (render segs) <= limit)%nat ->
    normalize limit i (render segs) (output stack)
    = (if trailing segs then ["/"] else []) ++ output (resolve segs stack).
Proof.
  induction segs as [|seg rest IH]; intros i stack Hs Hk Hl.
  - reflexivity.
  - cbn [forallb] in Hs. apply andb_true_iff in Hs as [Hseg Hs].
    rewrite render_cons in *. cbn [List.length] in Hl.
    rewrite length_app in Hl. cbn [resolve].
    assert (Ht : trailing (seg :: rest)
                 = if is_empty seg
                   then match rest with [] => true | _ => trailing rest end
                   else trailing rest).
    { destruct rest as [|s' rest'].
      - cbn. destruct seg; reflexivity.
      - rewrite trailing_cons. destruct seg; reflexivity. }
    destruct (is_empty seg) eqn:He.
    + destruct seg; [|discriminate]. cbn [app orb].
      destruct rest as [|s' rest'].
      * rewrite Ht. cbn [render flat_map resolve].
        apply step_last_slash. lia.
      * rewrite Ht. rewrite render_cons in *. rewrite step_slash by lia.
        apply IH; try assumption.
        cbn [List.length app] in *. lia.
    + cbn [orb]. destruct (is_dot seg) eqn:Hd.
      * apply is_dot_eq in Hd. subst seg. cbn [app].
        rewrite step_dot by (lia || apply follows_render).
        rewrite Ht. apply IH; try assumption. cbn [List.length] in Hl. lia.
      * destruct (is_dotdot seg) eqn:Hdd.
        -- apply is_dotdot_eq in Hdd. subst seg. cbn [app].
           rewrite step_dotdot by (lia || apply follows_render).
           rewrite (pop_output_tl _ Hk), Ht. apply IH; try assumption.
           ++ destruct stack as [|x stack]; [reflexivity|].
              cbn [forallb tl] in *. apply andb_true_iff in Hk. tauto.
           ++ cbn [List.length] in Hl. lia.
        -- rewrite step_name by (assumption || lia).
           rewrite <- output_cons, Ht. apply IH; try assumption.
           ++ cbn [forallb]. rewrite Hseg, Hk. reflexivity.
           ++ lia.
Qed.

Lemma resolve_kept (segs : list bytes) :
  forall stack,
    forallb plain segs = true -> forallb kept stack = true ->
    forallb kept (resolve segs stack) = true.
Proof.
  induction segs as [|seg rest IH]; intros stack Hs Hk; [assumption|].
  cbn [forallb] in Hs. apply andb_true_iff in Hs as [Hseg Hs].
  cbn [resolve].
  destruct (is_empty seg) eqn:He; cbn [orb]; [auto|].
  destruct (is_dot seg) eqn:Hd; [auto|].
  destruct (is_dotdot seg) eqn:Hdd.
  - apply IH; [assumption|]. destruct stack as [|x stack]; [reflexivity|].
    cbn [forallb tl] in *. apply andb_true_iff in Hk. tauto.
  - apply IH; [assumption|]. cbn [forallb]. unfold kept at 1.
    rewrite Hseg, He, Hd, Hdd, Hk. reflexivity.
Qed.

Lemma kept_plain (stack : list bytes) :
  forallb kept stack = true -> forallb plain stack = true.
Proof.
  intros H. apply forallb_forall. intros s Hs.
  rewrite forallb_forall in H. specialize (H s Hs). unfold kept in H.
  rewrite !andb_true_iff in H. tauto.
Qed.

Lemma resolve_of_kept (l : list bytes) :
  forall stack, forallb kept l = true -> resolve l stack = rev l ++ stack.
Proof.
  induction l as [|seg rest IH]; intros stack Hk; [reflexivity|].
  cbn [forallb] in Hk. apply andb_true_iff in Hk as [Hseg Hk].
  unfold kept in Hseg. rewrite !andb_true_iff, !negb_true_iff in Hseg.
  destruct Hseg as [[[_ He] Hd] Hdd].
  cbn [resolve rev]. rewrite He, Hd, Hdd. cbn [orb].
  rewrite IH, <- app_assoc by assumption. reflexivity.
Qed.

Lemma rev_output (stack : list bytes) :
  rev (output stack) = render (rev stack).
Proof.
  induction stack as [|s stack IH]; [reflexivity|].
  rewrite output_cons, rev_app_distr. cbn [rev].
  rewrite <- app_assoc, IH, rev_involutive. cbn [app].
  rewrite render_app. cbn [render flat_map]. rewrite app_nil_r.
  reflexivity.
Qed.

Lemma finish_output (t : bool) (stack : list bytes) :
  forallb kept stack = true ->
  finish ((if t then ["/"] else []) ++ output stack)
  = match stack with [] => ["/"] | _ => output stack end.
Proof.
  intros Hk. destruct stack as [|s stack].
  - destruct t; reflexivity.
  - rewrite output_cons. destruct t; cbn [app finish].
    + rewrite byte_eqb_refl, andb_true_r.
      destruct (Nat.ltb_spec 1
                  (List.length ("/" :: rev s ++ "/" :: output stack)));
        [reflexivity|].
      cbn [List.length] in *. rewrite length_app in *.
      cbn [List.length] in *. lia.
    + cbn [forallb] in Hk. apply andb_true_iff in Hk as [Hs _].
      unfold kept in Hs. rewrite !andb_true_iff, !negb_true_iff in Hs.
      destruct Hs as [[[Hp He] _] _].
      assert (Hr : forallb (fun c => negb (byte_eqb c "/")) (rev s) = true).
      { apply forallb_forall. intros c Hc. apply in_rev in Hc.
        unfold plain in Hp. rewrite forallb_forall in Hp. auto. }
      destruct (rev s) as [|c r] eqn:Hrev.
      { destruct s; [discriminate|]. cbn [rev] in Hrev.
        destruct (rev s); discriminate. }
      cbn [forallb] in Hr. apply andb_true_iff in Hr as [Hc _].
      apply negb_true_iff in Hc. cbn [app finish].
      rewrite Hc, andb_false_r. reflexivity.
Qed.

(** The lexical part of [canonpath], for a path that fits: the segments
    that [resolve] keeps, or the root. *)
Lemma canon_lex_segments (PATH_MAX : nat) (segs : list bytes) :
  forallb plain segs = true ->
  (List.length (render segs) <= PATH_MAX - 2)%nat ->
  canon_lex PATH_MAX (render segs) = canonical segs.
Proof.
  intros Hs Hl. unfold canon_lex, canonical.
  change (@nil ascii) with (output []).
  rewrite normalize_segments by (assumption || reflexivity || lia).
  pose proof (resolve_kept segs [] Hs eq_refl) as Hk.
  rewrite finish_output by assumption.
  cbn [output flat_map].
  destruct (resolve segs []) as [|s stack] eqn:Hr; [reflexivity|].
  apply rev_output.
Qed.

Lemma canon_lex_root (PATH_MAX : nat) : canon_lex PATH_MAX ["/"] = ["/"].
Proof.
  unfold canon_lex. cbn [normalize].
  destruct (0 <? PATH_MAX - 2)%nat; reflexivity.
Qed.

Lemma output_length (segs : list bytes) :
  forall stack,
    (List.length (output (resolve segs stack))
     <= List.length (output stack) + List.length (render segs))%nat.
Proof.
  induction segs as [|seg rest IH]; intros stack; cbn [resolve].
  - lia.
  - rewrite render_cons. cbn [List.length]. rewrite length_app.
    destruct (is_empty seg || is_dot seg).
    + specialize (IH stack). lia.
    + destruct (is_dotdot seg).
      * specialize (IH (tl stack)). destruct stack as [|x stack];
          cbn [tl] in *; [lia|]. rewrite output_cons.
        rewrite length_app. cbn [List.length]. lia.
      * specialize (IH (seg :: stack)). rewrite output_cons in IH.
        rewrite length_app, length_rev in IH. cbn [List.length] in IH. lia.
Qed.

Lemma output_chars (P : ascii -> Prop) (segs : list bytes) :
  forall stack,
    P "/" -> Forall P (render segs) -> Forall P (output stack) ->
    Forall P (output (resolve segs stack)).
Proof.
  induction segs as [|seg rest IH]; intros stack Hslash Hs Hk;
    cbn [resolve]; [assumption|].
  rewrite render_cons in Hs. inversion Hs as [|? ? _ Hs']; subst.
  apply Forall_app in Hs' as [Hseg Hrest].
  destruct (is_empty seg || is_dot seg); [auto|].
  destruct (is_dotdot seg).
  - apply IH; try assumption. destruct stack as [|x stack]; [constructor|].
    rewrite output_cons in Hk. apply Forall_app in Hk as [_ Hk].
    inversion Hk; assumption.
  - apply IH; try assumption. rewrite output_cons. apply Forall_app.
    split; [apply Forall_rev; assumption|constructor; assumption].
Qed.

(** The canonical form is a fixed point of the lexical part. *)
Lemma canon_lex_canonical (PATH_MAX : nat) (segs : list bytes) :
  forallb plain segs = true ->
  (List.length (render segs) <= PATH_MAX - 2)%nat ->
  canon_lex PATH_MAX (canonical segs) = canonical segs
  /\ (List.length (canonical segs) <= Nat.max 1 (List.length (render segs)))%nat
  /\ (no_nul (render segs) -> no_nul (canonical segs))
  /\ exists r, canonical segs = "/" :: r.
Proof.
  intros Hs Hl. unfold canonical.
  pose proof (resolve_kept segs [] Hs eq_refl) as Hk.
  pose proof (output_length segs []) as Hlen.
  destruct (resolve segs []) as [|s stack] eqn:Hr.
  - repeat split.
    + apply canon_lex_root.
    + cbn [List.length]. lia.
    + intros _. constructor; [discriminate|constructor].
    + eexists; reflexivity.
  - assert (Hq : List.length (render (rev (s :: stack)))
                 = List.length (output (s :: stack)))
      by (rewrite <- rev_output, length_rev; reflexivity).
    assert (Hk' : forallb kept (rev (s :: stack)) = true).
    { apply forallb_forall. intros x Hx. apply in_rev in Hx.
      rewrite forallb_forall in Hk. auto. }
    repeat split.
    + rewrite canon_lex_segments.
      * unfold canonical. rewrite resolve_of_kept by assumption.
        rewrite app_nil_r, rev_involutive. reflexivity.
      * apply kept_plain. assumption.
      * change (List.length (output [])) with 0%nat in Hlen. lia.
    + change (List.length (output [])) with 0%nat in Hlen. lia.
    + intros Hn. rewrite <- rev_output. apply Forall_rev.
      rewrite <- Hr. apply output_chars; [discriminate|assumption|constructor].
    + cbn [rev]. destruct (rev stack) as [|x l]; eexists; reflexivity.
Qed.

Lemma cstr_no_nul (b : bytes) : no_nul (cstr b).
Proof.
  induction b as [|c r IH]; cbn [cstr]; [constructor|].
  destruct (byte_eqb c NUL) eqn:Hc; [constructor|].
  constructor; [|assumption]. intros ->. rewrite byte_eqb_refl in Hc.
  discriminate.
Qed.

Lemma cstr_id (b : bytes) : no_nul b -> cstr b = b.
Proof.
  induction 1 as [|c r Hc _ IH]; cbn [cstr]; [reflexivity|].
  destruct (byte_eqb c NUL) eqn:He.
  - apply byte_eqb_eq in He. contradiction.
  - rewrite IH. reflexivity.
Qed.

Lemma no_nul_firstn (n : nat) (b : bytes) : no_nul b -> no_nul (firstn n b).
Proof.
  intros H. unfold no_nul in *. rewrite <- (firstn_skipn n b) in H.
  apply Forall_app in H. tauto.
Qed.

(** [path_copy] is a C string, and absolute when [getcwd] is. *)
Lemma path_copy_shape (PATH_MAX : nat) (fs : filesystem) (p copy : bytes) :
  (2 <= PATH_MAX)%nat -> absolute_cwd fs ->
  path_copy PATH_MAX fs (cstr p) = Some copy ->
  no_nul copy /\ exists r, copy = "/" :: r.
Proof.
  intros Hm Hcwd. unfold path_copy, absolute_cwd in *.
  pose proof (cstr_no_nul p) as Hp.
  assert (Hhead : forall x, (exists r, x = "/" :: r) ->
                            exists r, firstn (PATH_MAX - 1) x = "/" :: r).
  { intros x [r ->]. destruct PATH_MAX as [|[|m]]; [lia|lia|].
    cbn. eexists; reflexivity. }
  destruct (cstr p) as [|c r] eqn:Hc.
  - destruct (fs_getcwd fs) as [cwd|]; [|discriminate].
    destruct Hcwd as [w Hw].
    destruct (PATH_MAX <=? List.length (cstr cwd))%nat; [discriminate|].
    intros [= <-]. split.
    + apply no_nul_firstn. apply Forall_app. split; [apply cstr_no_nul|].
      constructor; [discriminate|constructor].
    + apply Hhead. rewrite Hw. eexists; reflexivity.
  - destruct (byte_eqb c "/") eqn:Hs.
    + apply byte_eqb_eq in Hs. subst c. intros [= <-]. split.
      * apply no_nul_firstn. assumption.
      * apply Hhead. eexists; reflexivity.
    + destruct (fs_getcwd fs) as [cwd|]; [|discriminate].
      destruct Hcwd as [w Hw].
      destruct (PATH_MAX <=? List.length (cstr cwd))%nat; [discriminate|].
      intros [= <-]. split.
      * apply no_nul_firstn. apply Forall_app. split; [apply cstr_no_nul|].
        constructor; [discriminate|assumption].
      * apply Hhead. rewrite Hw. eexists; reflexivity.
Qed.

(** C8, as the code has it.  For a path that the normalising loop reads
    to its end (its absolute form has at most [PATH_MAX - 2] bytes),
    [canonpath] applied to its own result gives the same bytes. *)
Theorem canonpath_idempotent (PATH_MAX : nat) (fs : filesystem)
  (p copy q old old' : bytes) :
  (2 <= PATH_MAX)%nat -> absolute_cwd fs ->
  path_copy PATH_MAX fs (cstr p) = Some copy ->
  (List.length copy <= PATH_MAX - 2)%nat ->
  canonpath PATH_MAX fs p old = (q, true) ->
  canonpath PATH_MAX fs q old' = (q, true).
Proof.
  intros Hm Hcwd Hcopy Hlen Hq.
  destruct (path_copy_shape _ _ _ _ Hm Hcwd Hcopy) as [Hn [r Hr]].
  unfold canonpath in Hq. rewrite Hcopy in Hq.
  assert (Hsegs : copy = render (split_slash r))
    by (rewrite render_split; assumption).
  pose proof (split_plain r) as Hp.
  rewrite Hsegs in Hq, Hlen, Hn.
  rewrite canon_lex_segments in Hq by assumption.
  destruct (canon_lex_canonical PATH_MAX _ Hp Hlen)
    as [Hfix [Hql [Hqn [t Ht]]]].
  inversion Hq as [[Hq1 Hq2]]. rewrite Hq1 in *.
  unfold canonpath. rewrite (cstr_id q (Hqn Hn)).
  assert (Hc : path_copy PATH_MAX fs q = Some q).
  { unfold path_copy. rewrite Ht. rewrite byte_eqb_refl. f_equal.
    apply firstn_all2. rewrite <- Ht. lia. }
  rewrite Hc, Hfix, Hq2. reflexivity.
Qed.

Lemma canonpath_idempotent_witness :
  canonpath 4096 Files.all_directories (lit "/srv/www/b") []
  = (lit "/srv/www/b", true).
Proof.
  apply (canonpath_idempotent 4096 Files.all_directories
           (lit "/srv//www/./a/../b/") (lit "/srv//www/./a/../b/")
           (lit "/srv/www/b") [] []).
  - apply Nat.leb_le. vm_compute. reflexivity.
  - exists []. reflexivity.
  - vm_compute. reflexivity.
  - apply Nat.leb_le. vm_compute. reflexivity.
  - vm_compute. reflexivity.
Defined.

(** C8 as the claim words it fails at the end of the buffer.  The loop
    stops two bytes short of [PATH_MAX]: of a path of [PATH_MAX - 1]
    bytes that ends in [/..x] it copies [/..] and leaves the [x], and
    the result, canonicalised again, loses its last two segments. *)
Lemma canonpath_not_idempotent_at_limit :
  let q := lit "/aa" ++ List.concat (repeat (lit "/a") 2044) ++ lit "/.." in
  let q' := lit "/aa" ++ List.concat (repeat (lit "/a") 2043) in
  List.length long_path = 4095%nat
  /\ canonpath 4096 Files.all_directories long_path [] = (q, true)
  /\ canonpath 4096 Files.all_directories q [] = (q', true)
  /\ q' <> q.
Proof.
  intros q q'. split; [|split; [|split]].
  - vm_compute. reflexivity.
  - vm_compute. reflexivity.
  - vm_compute. reflexivity.
  - intros H. apply (f_equal (@List.length ascii)) in H.
    vm_compute in H. discriminate H.
Qed.

End CanonFacts.

(** ** The array [path_resolved]

    The functions on the array leave in it the string that [canonpath]
    and [uh_realpath] give. *)

Module ArrayFacts.
Import Path PathRule.

Lemma pop_array_fst (res : bytes) :
  forall behind, fst (pop_array res behind) = pop_segment res.
Proof.
  induction res as [|c r IH]; intros behind; cbn [pop_array pop_segment];
    [reflexivity|].
  destruct (byte_eqb c "/"); [reflexivity|apply IH].
Qed.

(** The bytes before [path_res] are the output of [normalize]. *)
Lemma normalize_array_fst (limit n : nat) :
  forall cpy i res behind,
    (List.length cpy <= n)%nat ->
    fst (normalize_array limit i cpy res behind) = normalize limit i cpy res.
Proof.
  induction n as [|n IH]; intros cpy i res behind Hn.
  - destruct cpy; [reflexivity|cbn in Hn; lia].
  - destruct cpy as [|c t1]; [reflexivity|]. cbn [List.length] in Hn.
    cbn [normalize_array normalize].
    destruct (i <? limit)%nat; [|reflexivity].
    destruct (byte_eqb c "/"); [|apply IH; lia].
    destruct t1 as [|c1 t2]; [apply IH; cbn; lia|].
    cbn [List.length] in Hn.
    destruct (byte_eqb c1 "/"); [apply IH; cbn [List.length]; lia|].
    destruct (byte_eqb c1 "."); [|apply IH; cbn [List.length]; lia].
    destruct t2 as [|c2 t3]; [reflexivity|]. cbn [List.length] in Hn.
    destruct (byte_eqb c2 "/"); [apply IH; cbn [List.length]; lia|].
    destruct (_ && _).
    + pose proof (pop_array_fst res behind) as Hp.
      destruct (pop_array res behind) as [res' behind']. cbn [fst] in Hp.
      rewrite IH by lia. rewrite Hp. reflexivity.
    + apply IH. cbn [List.length]. lia.
Qed.

Lemma finish_array_fst (res behind : bytes) :
  fst (finish_array res behind) = finish res.
Proof.
  unfold finish_array, finish. destruct res as [|c r]; [reflexivity|].
  destruct (_ && _); reflexivity.
Qed.

Lemma pop_segment_chars (P : ascii -> Prop) (res : bytes) :
  Forall P res -> Forall P (pop_segment res).
Proof.
  induction 1 as [|c r Hc Hr IH]; cbn [pop_segment]; [constructor|].
  destruct (byte_eqb c "/"); assumption.
Qed.

(** The loop writes bytes of the path only. *)
Lemma normalize_chars (P : ascii -> Prop) (limit n : nat) :
  forall cpy i res,
    (List.length cpy <= n)%nat ->
    Forall P cpy -> Forall P res -> Forall P (normalize limit i cpy res).
Proof.
  induction n as [|n IH]; intros cpy i res Hn Hc Hr.
  - destruct cpy; [assumption|cbn in Hn; lia].
  - destruct cpy as [|c t1]; [assumption|]. cbn [List.length] in Hn.
    inversion Hc as [|? ? Pc Pt1]; subst.
    cbn [normalize].
    destruct (i <? limit)%nat; [|assumption].
    assert (Hpush : forall t k,
               (List.length t <= n)%nat -> Forall P t ->
               Forall P (normalize limit k t (c :: res)))
      by (intros; apply IH; [assumption|assumption|constructor; assumption]).
    destruct (byte_eqb c "/"); [|apply Hpush; [lia|assumption]].
    destruct t1 as [|c1 t2]; [apply Hpush; [cbn; lia|constructor]|].
    cbn [List.length] in Hn. inversion Pt1 as [|? ? Pc1 Pt2]; subst.
    destruct (byte_eqb c1 "/");
      [apply IH; [cbn [List.length]; lia|assumption|assumption]|].
    destruct (byte_eqb c1 ".");
      [|apply Hpush; [cbn [List.length]; lia|assumption]].
    destruct t2 as [|c2 t3]; [assumption|]. cbn [List.length] in Hn.
    inversion Pt2 as [|? ? Pc2 Pt3]; subst.
    destruct (byte_eqb c2 "/");
      [apply IH; [cbn [List.length]; lia|assumption|assumption]|].
    destruct (_ && _).
    + apply IH; [lia|assumption|apply pop_segment_chars; assumption].
    + apply Hpush; [cbn [List.length]; lia|assumption].
Qed.

Lemma path_copy_no_nul (PATH_MAX : nat) (fs : filesystem)
  (p copy : bytes) :
  path_copy PATH_MAX fs (cstr p) = Some copy -> no_nul copy.
Proof.
  unfold path_copy. pose proof (CanonFacts.cstr_no_nul p) as Hp.
  assert (Hcwd : forall cwd t,
             no_nul t ->
             (if (PATH_MAX <=? List.length (cstr cwd))%nat then None
              else Some (firstn (PATH_MAX - 1) (cstr cwd ++ t)))
             = Some copy -> no_nul copy).
  { intros cwd t Ht H. destruct (_ <=? _)%nat; [discriminate|].
    injection H as <-. apply CanonFacts.no_nul_firstn.
    apply Forall_app. split; [apply CanonFacts.cstr_no_nul|assumption]. }
  destruct (cstr p) as [|c r] eqn:E.
  - destruct (fs_getcwd fs) as [cwd|]; [|discriminate].
    apply Hcwd. repeat constructor. discriminate.
  - destruct (byte_eqb c "/").
    + intros [= <-]. apply CanonFacts.no_nul_firstn. assumption.
    + destruct (fs_getcwd fs) as [cwd|]; [|discriminate].
      apply Hcwd. constructor; [discriminate|assumption].
Qed.

Lemma cstr_terminated (a b : bytes) : no_nul a -> cstr (a ++ NUL :: b) = a.
Proof.
  induction 1 as [|c a Hc Ha IH]; cbn [app cstr].
  - rewrite byte_eqb_refl. reflexivity.
  - destruct (byte_eqb c NUL) eqn:E; [apply byte_eqb_eq in E; contradiction|].
    rewrite IH. reflexivity.
Qed.

Lemma canon_lex_no_nul (PATH_MAX : nat) (copy : bytes) :
  no_nul copy -> no_nul (canon_lex PATH_MAX copy).
Proof.
  intros Hc. unfold canon_lex. apply Forall_rev.
  pose proof (normalize_chars (fun c => c <> NUL) (PATH_MAX - 2)
                (List.length copy) copy 0 [] (le_n _) Hc (Forall_nil _))
    as Hn.
  unfold finish. destruct (normalize _ _ _ _) as [|c r];
    [repeat constructor; discriminate|].
  destruct (_ && _); [inversion Hn; assumption|assumption].
Qed.

(** What [canonpath] leaves in the array, read as a string, and what it
    returns. *)
Lemma canonpath_array_string (PATH_MAX : nat) (fs : filesystem)
  (path old : bytes) :
  cstr (fst (canonpath_array PATH_MAX fs path old))
  = fst (canonpath PATH_MAX fs path (cstr old))
  /\ snd (canonpath_array PATH_MAX fs path old)
     = snd (canonpath PATH_MAX fs path (cstr old)).
Proof.
  unfold canonpath_array, canonpath.
  destruct (path_copy PATH_MAX fs (cstr path)) as [copy|] eqn:Hc;
    [|split; reflexivity].
  pose proof (normalize_array_fst (PATH_MAX - 2) (List.length copy) copy 0
                [] old (le_n _)) as Hf.
  destruct (normalize_array _ _ _ _ _) as [res behind]. cbn [fst] in Hf.
  pose proof (finish_array_fst res behind) as Hg.
  destruct (finish_array res behind) as [res' behind']. cbn [fst] in Hg.
  assert (Hs : cstr (rev res' ++ NUL :: tl behind')
               = canon_lex PATH_MAX copy).
  { unfold canon_lex. rewrite <- Hf, <- Hg. apply cstr_terminated.
    rewrite Hg, Hf. apply (canon_lex_no_nul PATH_MAX).
    apply (path_copy_no_nul _ _ _ _ Hc). }
  cbn [fst snd]. rewrite Hs. split; reflexivity.
Qed.

Lemma cstr_zeros (s : bytes) (k : nat) :
  no_nul s -> cstr (s ++ repeat NUL k) = s.
Proof.
  intros Hs. destruct k as [|k]; cbn [repeat].
  - rewrite app_nil_r. apply CanonFacts.cstr_id. assumption.
  - apply cstr_terminated. assumption.
Qed.

Lemma uh_realpath_array_string (PATH_MAX : nat) (fs : filesystem)
  (path old : bytes) :
  cstr (fst (uh_realpath_array PATH_MAX fs path old))
  = fst (uh_realpath PATH_MAX fs path (cstr old))
  /\ snd (uh_realpath_array PATH_MAX fs path old)
     = snd (uh_realpath PATH_MAX fs path (cstr old)).
Proof.
  unfold uh_realpath_array, uh_realpath.
  destruct (fs_realpath fs (cstr path)) as [res|]; [|split; reflexivity].
  destruct (_ <=? _)%nat; [split; reflexivity|]. cbn [fst snd].
  rewrite cstr_zeros by apply CanonFacts.cstr_no_nul. split; reflexivity.
Qed.

End ArrayFacts.

(** ** The static file handler *)

Module FileFacts.
Import Net Path File FileRule.

Lemma hex_digits_length (table : bytes) (fuel : nat) :
  forall n acc,
    (List.length (hex_digits table fuel n acc) <= fuel + List.length acc)%nat.
Proof.
  induction fuel as [|fuel IH]; intros n acc; cbn [hex_digits]; [lia|].
  destruct (n / 16 =? 0).
  - cbn [List.length]. lia.
  - etransitivity; [apply IH|]. cbn [List.length]. lia.
Qed.

Lemma fmt_x_length (n : Z) : (List.length (fmt_x n) <= 8)%nat.
Proof. unfold fmt_x. apply (hex_digits_length _ 8 _ []). Qed.

Lemma uh_file_mktag_length (s : stat_t) :
  (List.length (uh_file_mktag s) <= 28)%nat.
Proof.
  unfold uh_file_mktag. rewrite !length_app.
  pose proof (fmt_x_length (st_ino s)).
  pose proof (fmt_x_length (st_size s)).
  pose proof (fmt_x_length (st_mtime s)).
  cbn [List.length lit String.list_ascii_of_string]. lia.
Qed.

Lemma uh_file_unix2date_length (strftime_gmt : Z -> bytes) (ts : Z) :
  (List.length (uh_file_unix2date strftime_gmt ts) <= 127)%nat.
Proof. unfold uh_file_unix2date. apply firstn_le_length. Qed.

Lemma dec_digits_length (fuel : nat) :
  forall n acc,
    (List.length (dec_digits fuel n acc) <= fuel + List.length acc)%nat.
Proof.
  induction fuel as [|fuel IH]; intros n acc; cbn [dec_digits]; [lia|].
  destruct (n / 10 =? 0).
  - cbn [List.length]. lia.
  - etransitivity; [apply IH|]. cbn [List.length]. lia.
Qed.

Lemma dec_digits_grows (fuel : nat) :
  forall n acc,
    (List.length acc <= List.length (dec_digits fuel n acc))%nat.
Proof.
  induction fuel as [|fuel IH]; intros n acc; cbn [dec_digits]; [lia|].
  destruct (n / 10 =? 0).
  - cbn [List.length]. lia.
  - etransitivity; [|apply IH]. cbn [List.length]. lia.
Qed.

Lemma dec_digits_nonempty (fuel : nat) (n : Z) (acc : bytes) :
  (0 < List.length (dec_digits (S fuel) n acc))%nat.
Proof.
  cbn [dec_digits]. destruct (n / 10 =? 0); [cbn; lia|].
  pose proof (dec_digits_grows fuel (n / 10) (chr (48 + n mod 10) :: acc))
    as Hg.
  cbn [List.length] in Hg. lia.
Qed.

Lemma fmt_i_length (n : Z) : (0 < List.length (fmt_i n) <= 11)%nat.
Proof.
  unfold fmt_i. destruct (int32 n <? 0).
  - pose proof (dec_digits_length 10 (- int32 n) []).
    cbn [List.length] in *. lia.
  - pose proof (dec_digits_length 10 (int32 n) []).
    pose proof (dec_digits_nonempty 9 (int32 n) []).
    cbn [List.length] in *. lia.
Qed.

Lemma http_versions_length (v : http_version) :
  List.length (http_versions v) = 8%nat.
Proof. destruct v; reflexivity. Qed.

Section Env.

Variable UH_LIMIT_MSGHEAD : nat.
Variable strftime_gmt : Z -> bytes.
Variable strptime_gm : bytes -> option Z.
Variable now : Z.

(** A formatted text that fits the buffer goes out in one write. *)
Lemma sendf_all (c : config) (r : http_request) (t : bytes)
  (rest : list wr_event) (text : bytes) :
  (0 < List.length text < UH_LIMIT_MSGHEAD)%nat ->
  uh_http_sendf UH_LIMIT_MSGHEAD None text
    {| conf := c; request := r; tx := t; net := WrAll :: rest |}
  = (0, {| conf := c; request := r; tx := t ++ text; net := rest |}).
Proof.
  intros Hl. unfold uh_http_sendf, snprintf.
  destruct UH_LIMIT_MSGHEAD as [|m]; [lia|].
  rewrite firstn_all2 by lia.
  assert (Hp : 0 < len text) by (unfold len; lia).
  destruct (Z.ltb_spec 0 (len text)); [|lia].
  unfold ensure_ret, ret. rewrite NetFacts.uh_tcp_send_all by assumption.
  destruct (Z.ltb_spec (len text) 0); [lia|].
  rewrite NetFacts.take_app. reflexivity.
Qed.

(** The string [buf], sent with its [strlen]. *)
Lemma send_all (c : config) (r : http_request) (t : bytes)
  (rest : list wr_event) (buf : bytes) :
  PathRule.no_nul buf -> buf <> [] ->
  uh_http_send None buf (-1)
    {| conf := c; request := r; tx := t; net := WrAll :: rest |}
  = (0, {| conf := c; request := r; tx := t ++ buf; net := rest |}).
Proof.
  intros Hn Hb. unfold uh_http_send. cbn [Z.ltb Z.compare].
  rewrite (CanonFacts.cstr_id _ Hn).
  assert (Hp : 0 < len buf)
    by (destruct buf; [congruence|rewrite len_cons; pose proof (len_nonneg buf); lia]).
  destruct (Z.ltb_spec 0 (len buf)); [|lia].
  unfold ensure_ret, ret. rewrite NetFacts.uh_tcp_send_all by assumption.
  destruct (Z.ltb_spec (len buf) 0); [lia|].
  rewrite NetFacts.take_all. reflexivity.
Qed.

Ltac fits :=
  rewrite ?length_app, ?http_versions_length;
  cbn [List.length lit String.list_ascii_of_string CRLF];
  lia.

Hypothesis room : (145 <= UH_LIMIT_MSGHEAD)%nat.

Lemma uh_file_response_ok_hdrs_all (s : option stat_t) (cl : client)
  (rest : list wr_event) :
  net cl
  = repeat WrAll (match s with Some _ => 4 | None => 2 end) ++ rest ->
  uh_file_response_ok_hdrs UH_LIMIT_MSGHEAD strftime_gmt now s cl
  = (0, with_io cl (tx cl ++ block (ok_lines strftime_gmt now s)) rest).
Proof using room.
  intros Hn. destruct cl as [c r t nt]. cbn [net tx] in *. subst nt.
  unfold uh_file_response_ok_hdrs, sendf, ensure_ret, with_io.
  cbn [conf request].
  pose proof (uh_file_unix2date_length strftime_gmt now).
  destruct s as [st|]; cbn [repeat app].
  - pose proof (uh_file_mktag_length st).
    pose proof (uh_file_unix2date_length strftime_gmt (st_mtime st)).
    rewrite sendf_all by fits. cbn [Z.ltb Z.compare].
    rewrite sendf_all by fits. cbn [Z.ltb Z.compare].
    rewrite sendf_all by fits. cbn [Z.ltb Z.compare].
    rewrite sendf_all by fits.
    cbn [block flat_map ok_lines app]. rewrite <- !app_assoc.
    reflexivity.
  - rewrite sendf_all by fits. cbn [Z.ltb Z.compare].
    rewrite sendf_all by fits.
    cbn [block flat_map ok_lines app]. rewrite <- !app_assoc.
    reflexivity.
Qed.

Lemma uh_file_response_200_all (s : option stat_t) (cl : client)
  (rest : list wr_event) :
  net cl
  = repeat WrAll (match s with Some _ => 5 | None => 3 end) ++ rest ->
  uh_file_response_200 UH_LIMIT_MSGHEAD strftime_gmt now s cl
  = (0, with_io cl
          (tx cl ++ block (lines_200 strftime_gmt now
                             (version (request cl)) s)) rest).
Proof using room.
  intros Hn. unfold uh_file_response_200, ensure_ret, sendf.
  destruct cl as [c r t nt]. cbn [net tx request] in *. subst nt.
  replace (repeat WrAll match s with Some _ => 5 | None => 3 end)
    with (WrAll :: repeat WrAll match s with Some _ => 4 | None => 2 end)
    by (destruct s; reflexivity).
  cbn [app]. rewrite sendf_all by fits. cbn [Z.ltb Z.compare].
  rewrite (uh_file_response_ok_hdrs_all s _ rest) by reflexivity.
  unfold with_io. cbn [conf request tx lines_200 block flat_map].
  rewrite <- !app_assoc. reflexivity.
Qed.

Lemma uh_file_response_304_all (st : stat_t) (cl : client)
  (rest : list wr_event) :
  net cl = repeat WrAll 5 ++ rest ->
  uh_file_response_304 UH_LIMIT_MSGHEAD strftime_gmt now (Some st) cl
  = (0, with_io cl
          (tx cl ++ block (lines_304 strftime_gmt now
                             (version (request cl)) st)) rest).
Proof using room.
  intros Hn. unfold uh_file_response_304, ensure_ret, sendf.
  destruct cl as [c r t nt]. cbn [net tx request] in *. subst nt.
  cbn [repeat app]. rewrite sendf_all by fits. cbn [Z.ltb Z.compare].
  rewrite (uh_file_response_ok_hdrs_all (Some st) _ rest) by reflexivity.
  unfold with_io. cbn [conf request tx lines_304 block flat_map].
  rewrite <- !app_assoc. reflexivity.
Qed.

Lemma uh_file_response_412_all (cl : client) (rest : list wr_event) :
  net cl = WrAll :: rest ->
  uh_file_response_412 UH_LIMIT_MSGHEAD cl
  = (0, with_io cl (tx cl ++ block (lines_412 (version (request cl))))
          rest).
Proof using room.
  intros Hn. unfold uh_file_response_412, sendf.
  destruct cl as [c r t nt]. cbn [net tx request] in *. subst nt.
  rewrite sendf_all by fits.
  unfold with_io. cbn [conf request tx lines_412 block flat_map].
  rewrite <- !app_assoc. reflexivity.
Qed.

(** The checks read the request and leave its version and method. *)
Lemma with_request_id (cl : client) : with_request cl (request cl) = cl.
Proof. destruct cl. reflexivity. Qed.

Lemma strcaseeq_length (a : bytes) :
  forall b, strcaseeq a b = true -> List.length a = List.length b.
Proof.
  induction a as [|x a IH]; intros [|y b] H; cbn [strcaseeq] in H;
    try discriminate; [reflexivity|].
  apply andb_true_iff in H as [_ H]. cbn [List.length]. f_equal.
  apply IH. assumption.
Qed.

(** A value stored under one name is not the value of a name of another
    length, and no header appears or disappears. *)
Lemma header_lookup_store_other (hs : list (bytes * bytes))
  (n v m : bytes) :
  List.length n <> List.length m ->
  header_lookup (header_store hs n v) m = header_lookup hs m.
Proof.
  intros Hl. induction hs as [|[n0 x] hs IH];
    cbn [header_store header_lookup]; [reflexivity|].
  destruct (strcaseeq n0 n) eqn:Hn; cbn [header_lookup].
  - destruct (strcaseeq n0 m) eqn:Hm; [|reflexivity].
    apply strcaseeq_length in Hn, Hm. congruence.
  - destruct (strcaseeq n0 m); [reflexivity|exact IH].
Qed.

Lemma header_lookup_store_present (hs : list (bytes * bytes))
  (n v m : bytes) :
  match header_lookup (header_store hs n v) m with
  | Some _ => true
  | None => false
  end
  = match header_lookup hs m with Some _ => true | None => false end.
Proof.
  induction hs as [|[n0 x] hs IH]; cbn [header_store header_lookup];
    [reflexivity|].
  destruct (strcaseeq n0 n); cbn [header_lookup];
    destruct (strcaseeq n0 m); try reflexivity. exact IH.
Qed.

(** What [If-Match] leaves does not change what the later checks
    find. *)
Lemma fails_after_if_match (s : stat_t) (req : http_request)
  (c : conditional) :
  c <> If_Modified_Since -> c <> If_Match ->
  fails strptime_gm s (after_check s req If_Match) c
  = fails strptime_gm s req c.
Proof.
  intros H1 H2. unfold after_check.
  destruct (header_lookup (headers req) (lit "If-Match")) as [hdr|];
    [|reflexivity].
  destruct c; try congruence; cbn [fails store_header headers].
  - apply header_lookup_store_present.
  - rewrite header_lookup_store_other by (cbn; lia). reflexivity.
  - rewrite header_lookup_store_other by (cbn; lia). reflexivity.
Qed.

Lemma after_check_version (s : stat_t) (req : http_request)
  (c : conditional) :
  version (after_check s req c) = version req
  /\ method (after_check s req c) = method req.
Proof.
  unfold after_check. destruct c; try (split; reflexivity).
  - destruct (header_lookup _ _); split; reflexivity.
  - destruct (header_lookup _ _); split; reflexivity.
Qed.

(** A failure response on a client whose request has been rewritten. *)
Lemma emit_304 (st : stat_t) (cl : client) (rest : list wr_event) :
  net cl = repeat WrAll 5 ++ rest ->
  emit (uh_file_response_304 UH_LIMIT_MSGHEAD strftime_gmt now (Some st)) cl
  = ((0, 0),
     with_io cl
       (tx cl ++ block (lines_304 strftime_gmt now (version (request cl)) st))
       (skipn 5 (net cl))).
Proof using room.
  intros Hn. unfold emit. rewrite (uh_file_response_304_all st cl rest Hn), Hn.
  reflexivity.
Qed.

Lemma emit_412 (cl : client) (rest : list wr_event) :
  net cl = repeat WrAll 5 ++ rest ->
  emit (uh_file_response_412 UH_LIMIT_MSGHEAD) cl
  = ((0, 0),
     with_io cl (tx cl ++ block (lines_412 (version (request cl))))
       (skipn 1 (net cl))).
Proof using room.
  intros Hn. unfold emit.
  rewrite (uh_file_response_412_all cl (repeat WrAll 4 ++ rest) Hn), Hn.
  reflexivity.
Qed.

(** Each check passes in silence or sends its failure response; the
    two checks of entity tags leave their header rewritten. *)
Lemma check_of_spec (c : conditional) (s : stat_t) (cl : client)
  (rest : list wr_event) :
  net cl = repeat WrAll 5 ++ rest ->
  check_of strftime_gmt strptime_gm now UH_LIMIT_MSGHEAD c s cl
  = if fails strptime_gm s (request cl) c
    then ((0, 0),
          with_io (with_request cl (after_check s (request cl) c))
            (tx cl ++ block (failure_lines strftime_gmt now s (request cl) c))
            (skipn (failure_writes (request cl) c) (net cl)))
    else ((1, 1), with_request cl (after_check s (request cl) c)).
Proof using room.
  intros Hn.
  pose proof (emit_304 s cl rest Hn) as H304.
  pose proof (emit_412 cl rest Hn) as H412.
  destruct c; cbn [check_of fails failure_lines failure_writes after_check];
    rewrite ?with_request_id.
  - unfold uh_file_if_modified_since, uh_file_header_lookup.
    destruct (header_lookup (headers (request cl)) (lit "If-Modified-Since"));
      [|reflexivity].
    destruct (st_mtime s <=? _); [exact H304|reflexivity].
  - unfold uh_file_if_match, uh_file_header_lookup.
    destruct (header_lookup (headers (request cl)) (lit "If-Match"))
      as [hdr|]; [|rewrite with_request_id; reflexivity].
    cbn zeta.
    destruct (some_token_matches _ _); cbn [negb]; [reflexivity|].
    rewrite (emit_412 _ rest) by exact Hn. reflexivity.
  - unfold uh_file_if_range, uh_file_header_lookup.
    destruct (header_lookup (headers (request cl)) (lit "If-Range"));
      [exact H412|reflexivity].
  - unfold uh_file_if_unmodified_since, uh_file_header_lookup.
    destruct (header_lookup (headers (request cl))
                (lit "If-Unmodified-Since")); [|reflexivity].
    destruct (_ <=? st_mtime s); [exact H412|reflexivity].
  - unfold uh_file_if_none_match, uh_file_header_lookup.
    destruct (header_lookup (headers (request cl)) (lit "If-None-Match"))
      as [hdr|]; [|rewrite with_request_id; reflexivity].
    cbn zeta.
    destruct (some_token_matches _ _); [|reflexivity].
    destruct (method (request cl));
      [rewrite (emit_304 s _ rest) by exact Hn
      |rewrite (emit_304 s _ rest) by exact Hn
      |rewrite (emit_412 _ rest) by exact Hn
      |rewrite (emit_412 _ rest) by exact Hn]; reflexivity.
Qed.

(** A check on the client whose request the earlier checks have left
    as [r]. *)
Lemma check_step (c : conditional) (s : stat_t) (cl : client)
  (r : http_request) (rest : list wr_event) :
  net cl = repeat WrAll 5 ++ rest ->
  version r = version (request cl) -> method r = method (request cl) ->
  check_of strftime_gmt strptime_gm now UH_LIMIT_MSGHEAD c s
    (with_request cl r)
  = if fails strptime_gm s r c
    then ((0, 0),
          with_io (with_request cl (after_check s r c))
            (tx cl ++ block (failure_lines strftime_gmt now s (request cl) c))
            (skipn (failure_writes (request cl) c) (net cl)))
    else ((1, 1), with_request cl (after_check s r c)).
Proof using room.
  intros Hn Hv Hm.
  rewrite (check_of_spec c s (with_request cl r) rest) by exact Hn.
  unfold with_request, with_io. cbn [conf request tx net].
  destruct c; cbn [failure_lines failure_writes]; rewrite ?Hv, ?Hm;
    reflexivity.
Qed.

(** The conditional engine: the checks run in [evaluation_order], the
    first that fails sends its response and the later ones are not
    run; the request is left as the checks that ran have rewritten
    it. *)
Lemma preconditions_first_failure (s : stat_t) (cl : client)
  (rest : list wr_event) :
  net cl = repeat WrAll 5 ++ rest ->
  preconditions UH_LIMIT_MSGHEAD strftime_gmt strptime_gm now s cl
  = match find (fails strptime_gm s (request cl)) evaluation_order with
    | Some c =>
        (Some 0,
         with_io (with_request cl (after_checks s (request cl) (through c)))
           (tx cl ++ block (failure_lines strftime_gmt now s (request cl) c))
           (skipn (failure_writes (request cl) c) (net cl)))
    | None =>
        (Some 1,
         with_request cl (after_checks s (request cl) evaluation_order))
    end.
Proof using room.
  intros Hn. unfold preconditions, evaluation_order.
  set (r0 := request cl).
  set (r1 := after_check s r0 If_Match).
  destruct (after_check_version s r0 If_Match) as [Hv1 Hm1].
  fold r1 in Hv1, Hm1.
  pose proof (fun c r Hv Hm => check_step c s cl r rest Hn Hv Hm) as Hc.
  fold r0 in Hc.
  cbn [after_checks fold_left through after_check]. fold r0. fold r1.
  rewrite <- (with_request_id cl) at 1. fold r0.
  unfold precondition at 1. cbn [Z.eqb].
  rewrite (Hc If_Modified_Since r0 eq_refl eq_refl
           : uh_file_if_modified_since _ _ _ _ _ _ = _).
  cbn [find after_check].
  destruct (fails strptime_gm s r0 If_Modified_Since);
    [reflexivity|]. cbn [Z.ltb Z.compare].
  unfold precondition at 1. cbn [Z.eqb].
  rewrite (Hc If_Match r0 eq_refl eq_refl : uh_file_if_match _ _ _ = _).
  fold r1.
  destruct (fails strptime_gm s r0 If_Match);
    [reflexivity|]. cbn [Z.ltb Z.compare].
  unfold precondition at 1. cbn [Z.eqb].
  rewrite (Hc If_Range r1 Hv1 Hm1 : uh_file_if_range _ _ _ = _).
  unfold r1 at 1. rewrite fails_after_if_match by discriminate. fold r1.
  cbn [after_check].
  destruct (fails strptime_gm s r0 If_Range);
    [reflexivity|]. cbn [Z.ltb Z.compare].
  unfold precondition at 1. cbn [Z.eqb].
  rewrite (Hc If_Unmodified_Since r1 Hv1 Hm1
           : uh_file_if_unmodified_since _ _ _ _ = _).
  unfold r1 at 1. rewrite fails_after_if_match by discriminate. fold r1.
  cbn [after_check].
  destruct (fails strptime_gm s r0 If_Unmodified_Since);
    [reflexivity|]. cbn [Z.ltb Z.compare].
  unfold precondition at 1. cbn [Z.eqb].
  rewrite (Hc If_None_Match r1 Hv1 Hm1
           : uh_file_if_none_match _ _ _ _ _ = _).
  unfold r1 at 1. rewrite fails_after_if_match by discriminate. fold r1.
  destruct (fails strptime_gm s r0 If_None_Match); reflexivity.
Qed.

End Env.

(** *** Nothing is taken back from the wire *)

Lemma raw_send_appends (script : list wr_event) :
  forall buf n sec sent,
    exists more, fst (snd (raw_send script buf n sec sent)) = sent ++ more.
Proof.
  induction script as [|ev script IH]; intros buf n sec sent;
    cbn [raw_send].
  - exists []. rewrite app_nil_r. reflexivity.
  - assert (Hstop : forall rv : Z,
               exists more,
                 fst (snd (rv, (sent, script))) = sent ++ more)
      by (intros; exists []; rewrite app_nil_r; reflexivity).
    assert (Hw : forall rv : Z,
               exists more,
                 fst (snd
                   (if rv <? 0 then (-1, (sent, script))
                    else if rv =? 0 then (0, (sent, script))
                    else if rv <? n
                    then raw_send script (drop rv buf) (n - rv) sec
                           (sent ++ take rv buf)
                    else (rv, (sent ++ take rv buf, script))))
                 = sent ++ more).
    { intros rv. destruct (rv <? 0); [apply Hstop|].
      destruct (rv =? 0); [apply Hstop|]. destruct (rv <? n).
      - destruct (IH (drop rv buf) (n - rv) sec (sent ++ take rv buf))
          as [more Hm].
        exists (take rv buf ++ more). rewrite Hm, app_assoc. reflexivity.
      - eexists. reflexivity. }
    destruct ev as [|k| |ready|]; try apply Hw; try apply IH;
      try apply Hstop.
    destruct (0 <? sec); [|apply Hstop].
    destruct ready; [apply IH|apply Hstop].
Qed.

Lemma appends_tcp_send (buf : bytes) (n : Z) : appends (uh_tcp_send buf n).
Proof.
  intros cl. unfold uh_tcp_send.
  destruct (raw_send_appends (net cl) buf n (network_timeout (conf cl))
              (tx cl)) as [more Hm].
  destruct (raw_send _ _ _ _ _) as [rv [sent script]].
  exists more. exact Hm.
Qed.

Lemma appends_ret {A} (a : A) : appends (ret a).
Proof. intros cl. exists []. rewrite app_nil_r. reflexivity. Qed.

Lemma appends_ensure_ret (x k : io Z) :
  appends x -> appends k -> appends (ensure_ret x k).
Proof.
  intros Hx Hk cl. unfold ensure_ret. destruct (Hx cl) as [m1 H1].
  destruct (x cl) as [rv cl1]. cbn [snd] in H1.
  destruct (rv <? 0).
  - exists m1. exact H1.
  - destruct (Hk cl1) as [m2 H2]. exists (m1 ++ m2).
    rewrite H2, H1, app_assoc. reflexivity.
Qed.

Lemma appends_ensure_out (x : io Z) (k : io bool) :
  appends x -> appends k -> appends (ensure_out x k).
Proof.
  intros Hx Hk cl. unfold ensure_out. destruct (Hx cl) as [m1 H1].
  destruct (x cl) as [rv cl1]. cbn [snd] in H1.
  destruct (rv <? 0).
  - exists m1. exact H1.
  - destruct (Hk cl1) as [m2 H2]. exists (m1 ++ m2).
    rewrite H2, H1, app_assoc. reflexivity.
Qed.

Create HintDb appends.

#[local] Hint Resolve appends_tcp_send appends_ret appends_ensure_ret
  appends_ensure_out : appends.

Lemma appends_sendc (data : bytes) (n : Z) : appends (uh_http_sendc data n).
Proof.
  unfold uh_http_sendc. destruct (0 <? _); [|auto with appends].
  destruct (snprintf 8 _). auto 6 with appends.
Qed.

#[local] Hint Resolve appends_sendc : appends.

Lemma appends_sendf (m : nat) (req : option http_version) (text : bytes) :
  appends (uh_http_sendf m req text).
Proof.
  unfold uh_http_sendf. destruct (snprintf m text).
  destruct req as [v|]; [destruct (after_1_0 v)|];
    try destruct (0 <? _); auto with appends.
Qed.

Lemma appends_send (req : option http_version) (buf : bytes) (n : Z) :
  appends (uh_http_send req buf n).
Proof.
  unfold uh_http_send.
  destruct req as [v|]; [destruct (after_1_0 v)|];
    try destruct (0 <? _); auto with appends.
Qed.

#[local] Hint Resolve appends_sendf appends_send : appends.

Section Request.

Variable PATH_MAX : nat.
Variable UH_LIMIT_MSGHEAD : nat.
Variable fs : filesystem.
Variable uh_mime_types : list (bytes * bytes).
Variable strftime_gmt : Z -> bytes.
Variable strptime_gm : bytes -> option Z.
Variable now : Z.
Variable scandir : bytes -> option (list bytes).
Variable fmt_kbyte : Z -> bytes.

Lemma appends_list_entries (subdirs : bool) (v : http_version)
  (pi : path_info) (files : list bytes) :
  forall k,
    appends k ->
    appends (list_entries PATH_MAX UH_LIMIT_MSGHEAD fs uh_mime_types
               strftime_gmt fmt_kbyte subdirs v pi files k).
Proof.
  induction files as [|f files IH]; intros k Hk; cbn [list_entries];
    [assumption|].
  destruct (fs_stat fs _); [|auto].
  destruct subdirs; destruct (_ && _); unfold sendf; auto with appends.
Qed.

Lemma appends_dirlist (pi : path_info) :
  appends (uh_file_dirlist PATH_MAX UH_LIMIT_MSGHEAD fs uh_mime_types
             strftime_gmt scandir fmt_kbyte pi).
Proof.
  intros cl. unfold uh_file_dirlist.
  apply appends_ensure_out; unfold sendf; auto with appends.
  repeat apply appends_list_entries. auto 6 with appends.
Qed.

(** C2.  When [If-Modified-Since] says that the file is not modified,
    whatever [If-None-Match] says and in particular when it matches the
    entity tag, the handler sends one response head, that of [304], and
    the empty line; and the engine evaluates the five conditional
    headers in the order [If-Modified-Since], [If-Match], [If-Range],
    [If-Unmodified-Since], [If-None-Match], sending the response of the
    first that fails and stopping there; the request keeps what the
    checks of entity tags that ran have written into their header. *)
Theorem conditional_precedence (pi : path_info) (cl : client)
  (rest : list wr_event) (ims inm : bytes) :
  (145 <= UH_LIMIT_MSGHEAD)%nat ->
  has_bit (st_mode (stat pi)) S_IFREG = true ->
  0 < fs_open fs (phys pi) ->
  net cl = repeat WrAll 6 ++ rest ->
  header_lookup (headers (request cl)) (lit "If-None-Match") = Some inm ->
  some_token_matches (cstr inm) (uh_file_mktag (stat pi)) = true ->
  header_lookup (headers (request cl)) (lit "If-Modified-Since")
  = Some ims ->
  st_mtime (stat pi) <= uh_file_date2unix strptime_gm (cstr ims) ->
  uh_file_request PATH_MAX UH_LIMIT_MSGHEAD fs uh_mime_types strftime_gmt
    strptime_gm now scandir fmt_kbyte pi cl
  = (false,
     with_io cl
       (tx cl
        ++ block (lines_304 strftime_gmt now (version (request cl))
                    (stat pi))
        ++ CRLF) rest)
  /\ (forall cl' rest',
        net cl' = repeat WrAll 5 ++ rest' ->
        preconditions UH_LIMIT_MSGHEAD strftime_gmt strptime_gm now
          (stat pi) cl'
        = match find (fails strptime_gm (stat pi) (request cl'))
                  evaluation_order with
          | Some c =>
              (Some 0,
               with_io
                 (with_request cl'
                    (after_checks (stat pi) (request cl') (through c)))
                 (tx cl'
                  ++ block (failure_lines strftime_gmt now (stat pi)
                              (request cl') c))
                 (skipn (failure_writes (request cl') c) (net cl')))
          | None =>
              (Some 1,
               with_request cl'
                 (after_checks (stat pi) (request cl') evaluation_order))
          end).
Proof.
  intros Hroom Hreg Hfd Hn Hinm Hmatch Hims Hdate. split.
  - unfold uh_file_request. rewrite Hreg.
    destruct (Z.ltb_spec 0 (fs_open fs (phys pi))); [|lia]. cbn [andb].
    rewrite (preconditions_first_failure _ _ _ _ Hroom _ _ (WrAll :: rest))
      by (rewrite Hn; reflexivity).
    unfold evaluation_order. cbn [find fails]. rewrite Hims.
    destruct (Z.leb_spec (st_mtime (stat pi))
                (uh_file_date2unix strptime_gm (cstr ims))); [|lia].
    cbn [Z.ltb Z.compare failure_lines failure_writes through after_checks
         fold_left after_check].
    rewrite with_request_id, Hn.
    destruct cl as [c r t nt]. unfold with_io, ensure_out, ret.
    cbn [conf request tx net repeat app skipn].
    rewrite send_all.
    + cbn [Z.ltb Z.compare]. rewrite <- app_assoc. reflexivity.
    + repeat constructor; discriminate.
    + discriminate.
  - intros cl' rest' Hn'.
    apply (preconditions_first_failure _ _ _ _ Hroom _ _ rest' Hn').
Qed.

Lemma appends_pump (v : http_version) (pieces : list bytes) :
  forall k, appends k -> appends (pump UH_LIMIT_MSGHEAD v pieces k).
Proof.
  induction pieces as [|piece pieces IH]; intros k Hk; cbn [pump];
    [assumption|].
  destruct (0 <? _); unfold send; auto with appends.
Qed.

Lemma has_header_ok (s : option stat_t) (status : bytes) :
  has_header (lit "Connection") (status :: ok_lines strftime_gmt now s)
  = true
  /\ has_header (lit "Date") (status :: ok_lines strftime_gmt now s) = true
  /\ has_header (lit "ETag") (status :: ok_lines strftime_gmt now s)
     = match s with Some _ => true | None => false end
  /\ has_header (lit "Last-Modified")
       (status :: ok_lines strftime_gmt now s)
     = match s with Some _ => true | None => false end.
Proof.
  unfold has_header, ok_lines. cbn [tl].
  generalize (uh_file_unix2date strftime_gmt now). intros d.
  destruct s as [st|].
  - generalize (uh_file_mktag st),
      (uh_file_unix2date strftime_gmt (st_mtime st)).
    intros tag lm. repeat split.
  - repeat split.
Qed.

Lemma after_checks_version (s : stat_t) (cs : list conditional) :
  forall req,
    version (after_checks s req cs) = version req
    /\ method (after_checks s req cs) = method req.
Proof.
  unfold after_checks. induction cs as [|c cs IH]; intros req;
    cbn [fold_left]; [split; reflexivity|].
  destruct (IH (after_check s req c)) as [Hv Hm].
  destruct (after_check_version s req c) as [Hv' Hm'].
  split; congruence.
Qed.

(** The head of the response to a request for a regular file whose
    preconditions pass, up to the empty line, on a connection whose
    writes succeed; what follows is the body. *)
Lemma uh_file_request_head (pi : path_info) (cl : client)
  (rest : list wr_event) :
  (145 <= UH_LIMIT_MSGHEAD)%nat ->
  has_bit (st_mode (stat pi)) S_IFREG = true ->
  0 < fs_open fs (phys pi) ->
  find (fails strptime_gm (stat pi) (request cl)) evaluation_order = None ->
  (List.length (uh_file_mime_lookup uh_mime_types (name pi)) + 16
   < UH_LIMIT_MSGHEAD)%nat ->
  net cl
  = repeat WrAll (8 + (if ServeRule.chunked (request cl) then 1 else 0))
    ++ rest ->
  uh_file_request PATH_MAX UH_LIMIT_MSGHEAD fs uh_mime_types strftime_gmt
    strptime_gm now scandir fmt_kbyte pi cl
  = (if method_eqb (method (request cl)) UH_HTTP_MSG_HEAD then ret false
     else pump UH_LIMIT_MSGHEAD (version (request cl))
            (fs_read fs (phys pi))
            (ensure_out (send (Some (version (request cl))) [] 0)
               (ret false)))
      (with_io
         (with_request cl
            (after_checks (stat pi) (request cl) evaluation_order))
         (tx cl
          ++ block (ServeRule.file_head strftime_gmt now
                      (uh_file_mime_lookup uh_mime_types (name pi))
                      (request cl) (stat pi))
          ++ CRLF)
         rest).
Proof.
  intros Hroom Hreg Hfd Hfind Hmime Hn.
  assert (Hn5 : net cl
                = repeat WrAll 5
                  ++ WrAll :: WrAll
                     :: repeat WrAll
                          (if ServeRule.chunked (request cl) then 1 else 0)
                     ++ WrAll :: rest).
  { rewrite Hn.
    replace (8 + (if ServeRule.chunked (request cl) then 1 else 0))%nat
      with (5 + (2 + ((if ServeRule.chunked (request cl) then 1 else 0)
                      + 1)))%nat by lia.
    rewrite !repeat_app, <- !app_assoc. reflexivity. }
  clear Hn.
  unfold uh_file_request. rewrite Hreg.
  destruct (Z.ltb_spec 0 (fs_open fs (phys pi))); [|lia]. cbn [andb].
  rewrite (preconditions_first_failure _ _ _ _ Hroom _ _ _ Hn5), Hfind.
  cbn [Z.ltb Z.compare].
  destruct (after_checks_version (stat pi) evaluation_order (request cl))
    as [Hv Hm].
  set (r5 := after_checks (stat pi) (request cl) evaluation_order) in *.
  unfold ensure_out at 1.
  rewrite (uh_file_response_200_all _ _ _ Hroom (Some (stat pi))
             (with_request cl r5) _ Hn5).
  cbn [Z.ltb Z.compare].
  destruct cl as [c r t nt].
  unfold with_request, with_io in *. cbn [net tx request conf] in *.
  subst nt. rewrite Hv.
  pose proof (fmt_i_length (st_size (stat pi))) as Hi.
  unfold ensure_out at 1. unfold sendf.
  rewrite sendf_all
    by (rewrite !length_app;
        cbn [List.length lit String.list_ascii_of_string CRLF]; lia).
  cbn [Z.ltb Z.compare]. unfold ensure_out at 1.
  rewrite sendf_all
    by (rewrite !length_app;
        cbn [List.length lit String.list_ascii_of_string CRLF]; lia).
  cbn [Z.ltb Z.compare].
  unfold ServeRule.file_head, ServeRule.chunked, ServeRule.is_head.
  cbn [version method].
  destruct (after_1_0 (version r)
            && negb (method_eqb (method r) UH_HTTP_MSG_HEAD)).
  - cbn [repeat app]. unfold ensure_out at 1. unfold send at 1.
    rewrite send_all
      by (try discriminate; repeat constructor; discriminate).
    cbn [Z.ltb Z.compare]. unfold ensure_out at 1. unfold send at 1.
    rewrite send_all
      by (try discriminate; repeat constructor; discriminate).
    cbn [Z.ltb Z.compare]. f_equal. f_equal.
    unfold lines_200. cbn [block flat_map app].
    rewrite !flat_map_app. cbn [flat_map]. rewrite <- !app_assoc.
    reflexivity.
  - cbn [repeat app]. unfold ensure_out at 1. unfold send at 1.
    rewrite send_all
      by (try discriminate; repeat constructor; discriminate).
    cbn [Z.ltb Z.compare]. f_equal. f_equal.
    unfold lines_200. cbn [block flat_map app].
    rewrite !flat_map_app. cbn [flat_map]. rewrite <- !app_assoc.
    reflexivity.
Qed.

Lemma has_header_app (name : bytes) (status : bytes) (a b : list bytes) :
  has_header name (status :: a ++ b)
  = has_header name (status :: a) || existsb (starts_with (name ++ lit ": ")) b.
Proof. unfold has_header. cbn [tl]. apply existsb_app. Qed.

(** C5, as the code has it.  The head of a response, up to its empty
    line, is a list of lines.  The [200] of a regular file and every
    [304] carry [Connection: close], [ETag], [Last-Modified] and [Date];
    every [412] carries [Connection: close] and none of the other three;
    the [200] of a directory listing, which is sent without the [stat]
    of the directory, carries [Connection: close] and [Date] and
    neither [ETag] nor [Last-Modified].  These are the heads that
    [uh_file_request] sends, on a connection whose writes succeed: for
    a regular file the head of the first conditional header that fails
    and the empty line, or the [200] head, the empty line and the body;
    for a directory the [200] head, the empty line and the listing. *)
Theorem response_header_sets (st : stat_t) (pi : path_info) (cl : client)
  (rest : list wr_event) :
  (145 <= UH_LIMIT_MSGHEAD)%nat ->
  let v := version (request cl) in
  let mime := uh_file_mime_lookup uh_mime_types (name pi) in
  let sent :=
    tx (snd (uh_file_request PATH_MAX UH_LIMIT_MSGHEAD fs uh_mime_types
               strftime_gmt strptime_gm now scandir fmt_kbyte pi cl)) in
  let four (lines : list bytes) (present : bool) :=
    has_header (lit "Connection") lines = true
    /\ has_header (lit "Date") lines = present
    /\ has_header (lit "ETag") lines = present
    /\ has_header (lit "Last-Modified") lines = present in
  (* the heads of the responses *)
  (net cl = repeat WrAll 5 ++ rest ->
   uh_file_response_200 UH_LIMIT_MSGHEAD strftime_gmt now (Some st) cl
   = (0, with_io cl
           (tx cl ++ block (lines_200 strftime_gmt now v (Some st))) rest)
   /\ uh_file_response_304 UH_LIMIT_MSGHEAD strftime_gmt now (Some st) cl
      = (0, with_io cl
              (tx cl ++ block (lines_304 strftime_gmt now v st)) rest))
  /\ (net cl = WrAll :: rest ->
      uh_file_response_412 UH_LIMIT_MSGHEAD cl
      = (0, with_io cl (tx cl ++ block (lines_412 v)) rest))
  /\ four (lines_200 strftime_gmt now v (Some st)) true
  /\ four (lines_304 strftime_gmt now v st) true
  /\ four (lines_412 v) false
  (* a regular file *)
  /\ (has_bit (st_mode (stat pi)) S_IFREG = true ->
      0 < fs_open fs (phys pi) ->
      (List.length mime + 16 < UH_LIMIT_MSGHEAD)%nat ->
      net cl = repeat WrAll 9 ++ rest ->
      match find (fails strptime_gm (stat pi) (request cl))
              evaluation_order with
      | Some c =>
          sent
          = tx cl
            ++ block (failure_lines strftime_gmt now (stat pi) (request cl)
                        c)
            ++ CRLF
          /\ (failure_lines strftime_gmt now (stat pi) (request cl) c
              = lines_304 strftime_gmt now v (stat pi)
              \/ failure_lines strftime_gmt now (stat pi) (request cl) c
                 = lines_412 v)
      | None =>
          exists body,
            sent
            = tx cl
              ++ block (ServeRule.file_head strftime_gmt now mime
                          (request cl) (stat pi))
              ++ CRLF ++ body
      end)
  /\ four (ServeRule.file_head strftime_gmt now mime (request cl) (stat pi))
       true
  (* a directory listing *)
  /\ (has_bit (st_mode (stat pi)) S_IFREG && (0 <? fs_open fs (phys pi))
      = false ->
      has_bit (st_mode (stat pi)) S_IFDIR = true ->
      no_dirlists (conf cl) = false ->
      net cl = repeat WrAll 5 ++ rest ->
      exists listing,
        sent
        = tx cl
          ++ block (ServeRule.dir_head strftime_gmt now (request cl))
          ++ CRLF ++ listing)
  /\ has_header (lit "Connection")
       (ServeRule.dir_head strftime_gmt now (request cl)) = true
  /\ has_header (lit "Date")
       (ServeRule.dir_head strftime_gmt now (request cl)) = true
  /\ has_header (lit "ETag")
       (ServeRule.dir_head strftime_gmt now (request cl)) = false
  /\ has_header (lit "Last-Modified")
       (ServeRule.dir_head strftime_gmt now (request cl)) = false.
Proof.
  intros Hroom v mime sent four.
  assert (Hfile := has_header_ok (Some st)).
  assert (Hdir := has_header_ok None).
  split; [|split; [|split; [|split; [|split; [|split; [|split; [|split]]]]]]].
  - intros Hn. split.
    + apply (uh_file_response_200_all _ _ _ Hroom (Some st) cl rest Hn).
    + apply (uh_file_response_304_all _ _ _ Hroom st cl rest Hn).
  - intros Hn. apply (uh_file_response_412_all _ Hroom cl rest Hn).
  - unfold four, lines_200. specialize (Hfile (http_versions v ++ lit " 200 OK")).
    tauto.
  - unfold four, lines_304.
    specialize (Hfile (http_versions v ++ lit " 304 Not Modified")). tauto.
  - unfold four, lines_412, has_header. cbn [tl]. repeat split.
  - intros Hreg Hfd Hmime Hn.
    destruct (find (fails strptime_gm (stat pi) (request cl))
                evaluation_order) as [c|] eqn:Hfind.
    + split.
      * unfold sent, uh_file_request. rewrite Hreg.
        destruct (Z.ltb_spec 0 (fs_open fs (phys pi))); [|lia]. cbn [andb].
        rewrite (preconditions_first_failure _ _ _ _ Hroom _ _
                   (repeat WrAll 4 ++ rest))
          by (rewrite Hn; reflexivity).
        rewrite Hfind. cbn [Z.ltb Z.compare]. rewrite Hn.
        assert (Hk : exists k, (k <= 4)%nat
                     /\ skipn (failure_writes (request cl) c)
                          (repeat WrAll 9 ++ rest)
                        = WrAll :: repeat WrAll (3 + k) ++ rest).
        { unfold failure_writes.
          destruct c; try destruct (method (request cl));
            try (exists 0%nat; split; [lia|reflexivity]);
            exists 4%nat; split; try lia; reflexivity. }
        destruct Hk as [k [_ ->]].
        destruct cl as [c0 r t nt]. unfold with_io, with_request, ensure_out, ret.
        cbn [conf request tx net].
        rewrite send_all
          by (try discriminate; repeat constructor; discriminate).
        cbn [Z.ltb Z.compare snd tx]. rewrite <- app_assoc. reflexivity.
      * unfold failure_lines, v.
        destruct c; try destruct (method (request cl)); auto.
    + unfold sent.
      rewrite (uh_file_request_head pi cl
                 (repeat WrAll
                    (if ServeRule.chunked (request cl) then 0 else 1)
                  ++ rest) Hroom Hreg Hfd Hfind Hmime)
        by (rewrite Hn; destruct (ServeRule.chunked (request cl));
            reflexivity).
      match goal with
      | |- context [snd (?k (with_io ?c0 ?t ?n))] =>
          assert (Hk : appends k)
      end.
      { destruct (method_eqb _ _); auto with appends.
        apply appends_pump. unfold send. auto with appends. }
      match goal with
      | |- context [snd (?k ?c0)] => destruct (Hk c0) as [more Hm]
      end.
      exists more. rewrite Hm. unfold with_io. cbn [tx].
      rewrite <- !app_assoc. reflexivity.
  - unfold four, ServeRule.file_head, lines_200. cbn [app].
    rewrite !has_header_app.
    destruct (has_header_ok (Some (stat pi))
                (http_versions (version (request cl)) ++ lit " 200 OK"))
      as [H1 [H2 [H3 H4]]].
    rewrite H1, H2, H3, H4. repeat split.
  - intros Hnot Hisdir Hlist Hn. unfold sent, uh_file_request.
    rewrite Hnot, Hisdir, Hlist. cbn [andb negb]. unfold ensure_out at 1.
    rewrite (uh_file_response_200_all _ _ _ Hroom None cl
               (repeat WrAll 2 ++ rest) Hn).
    cbn [Z.ltb Z.compare].
    assert (Hd : appends
                   (fun cl0 : client =>
                      (false,
                       snd (uh_file_dirlist PATH_MAX UH_LIMIT_MSGHEAD fs
                              uh_mime_types strftime_gmt scandir fmt_kbyte
                              pi cl0)))).
    { intros cl0. apply appends_dirlist. }
    destruct cl as [c0 r t nt]. unfold with_io. cbn [conf request tx net].
    unfold ServeRule.dir_head. cbn [version].
    destruct (after_1_0 (version r)); cbn [repeat app].
    + unfold ensure_out at 1. unfold send at 1.
      rewrite send_all
        by (try discriminate; repeat constructor; discriminate).
      cbn [Z.ltb Z.compare]. unfold ensure_out at 1. unfold send at 1.
      rewrite send_all
        by (try discriminate; repeat constructor; discriminate).
      cbn [Z.ltb Z.compare].
      match goal with
      | |- context [snd (uh_file_dirlist _ _ _ _ _ _ _ _ ?c1)] =>
          destruct (Hd c1) as [more Hm]
      end.
      exists more. cbn [snd] in *. rewrite Hm. cbn [tx].
      unfold lines_200. cbn [block flat_map app].
      rewrite !flat_map_app. cbn [flat_map]. rewrite <- !app_assoc.
      reflexivity.
    + unfold ensure_out at 1. unfold send at 1.
      rewrite send_all
        by (try discriminate; repeat constructor; discriminate).
      cbn [Z.ltb Z.compare].
      match goal with
      | |- context [snd (uh_file_dirlist _ _ _ _ _ _ _ _ ?c1)] =>
          destruct (Hd c1) as [more Hm]
      end.
      exists more. cbn [snd] in *. rewrite Hm. cbn [tx].
      unfold lines_200. cbn [block flat_map app].
      rewrite !flat_map_app. cbn [flat_map]. rewrite <- !app_assoc.
      reflexivity.
  - unfold ServeRule.dir_head, lines_200, has_header, ok_lines. cbn [tl].
    generalize (uh_file_unix2date strftime_gmt now). intros d.
    destruct (after_1_0 (version (request cl))); repeat split.
Qed.

End Request.

Lemma conditional_precedence_witness :
  uh_file_request 4096 4096 Files.small_site [] Files.date_text
    (fun _ => Some 1597752000) 1597754096 (fun _ => None)
    (fun _ => lit "0.00") Files.index_html Files.conditional_get
  = (false,
     with_io Files.conditional_get
       (block [lit "HTTP/1.0 304 Not Modified";
               lit "Connection: close";
               lit "ETag: " ++ [chr 34] ++ lit "1a-200-7d0" ++ [chr 34];
               lit "Last-Modified: Thu, 01 Jan 1970 00:33:20 GMT";
               lit "Date: Tue, 18 Aug 2020 12:34:56 GMT"]
        ++ CRLF) []).
Proof.
  refine (proj1 (conditional_precedence 4096 4096 Files.small_site []
                   Files.date_text (fun _ => Some 1597752000) 1597754096
                   (fun _ => None) (fun _ => lit "0.00") Files.index_html
                   Files.conditional_get []
                   (lit "Tue, 18 Aug 2020 12:00:00 GMT")
                   ([chr 34] ++ lit "1a-200-7d0" ++ [chr 34])
                   _ _ _ _ _ _ _ _)).
  - apply Nat.leb_le. vm_compute. reflexivity.
  - vm_compute. reflexivity.
  - vm_compute. reflexivity.
  - vm_compute. reflexivity.
  - vm_compute. reflexivity.
  - vm_compute. reflexivity.
  - vm_compute. reflexivity.
  - apply Z.leb_le. vm_compute. reflexivity.
Defined.

Lemma response_header_sets_witness :
  uh_file_response_412 4096 Files.conditional_get
  = (0, with_io Files.conditional_get
          (block [lit "HTTP/1.0 412 Precondition Failed";
                  lit "Connection: close"])
          (repeat WrAll 5)).
Proof.
  refine (proj1 (proj2 (response_header_sets 4096 4096 Files.small_site []
                          Files.date_text (fun _ => None) 1597754096
                          (fun _ => None) (fun _ => lit "0.00")
                          Files.regular Files.index_html
                          Files.conditional_get (repeat WrAll 5) _)) _).
  - apply Nat.leb_le. vm_compute. reflexivity.
  - vm_compute. reflexivity.
Defined.

(** C5 as the claim words it fails: the [200] that opens a directory
    listing has no [ETag] and no [Last-Modified]. *)
Lemma directory_200_without_etag :
  let r := uh_file_request 4096 4096 Files.small_site [] Files.date_text
             (fun _ => None) 1597754096 (fun _ => None)
             (fun _ => lit "0.00") Files.dir_listing Files.plain_get in
  starts_with
    (block [lit "HTTP/1.0 200 OK"; lit "Connection: close";
            lit "Date: Tue, 18 Aug 2020 12:34:56 GMT";
            lit "Content-Type: text/html"] ++ CRLF) (tx (snd r)) = true
  /\ contains (lit "ETag") (tx (snd r)) = false
  /\ contains (lit "Last-Modified") (tx (snd r)) = false.
Proof. vm_compute. split; [|split]; reflexivity. Qed.

End FileFacts.

(** ** The path resolver *)

Module LookupFacts.
Import Net Path PathRule.

Lemma index_files_after_rev (names : list bytes) :
  index_files_after names = rev names.
Proof.
  unfold index_files_after.
  assert (H : forall l,
             fold_left (fun l f => uh_index_add true (Some f) l) names l
             = rev names ++ l).
  { induction names as [|f names IH]; intros l; cbn [fold_left rev].
    - reflexivity.
    - rewrite IH, <- app_assoc. reflexivity. }
  rewrite H. apply app_nil_r.
Qed.

(** *** Strings in the array *)

Lemma firstn_zeros (m j : nat) :
  exists i, firstn m (repeat NUL j) = repeat NUL i.
Proof.
  revert j. induction m as [|m IH]; intros j; [exists 0%nat; reflexivity|].
  destruct j as [|j]; [exists 0%nat; reflexivity|].
  destruct (IH j) as [i Hi]. exists (S i). cbn [repeat firstn].
  rewrite Hi. reflexivity.
Qed.

Lemma cstr_firstn_zeros (n : nat) (a : bytes) (j : nat) :
  no_nul a -> cstr (firstn n (a ++ repeat NUL j)) = firstn n a.
Proof.
  intros Ha. rewrite firstn_app.
  destruct (firstn_zeros (n - List.length a) j) as [i ->].
  apply ArrayFacts.cstr_zeros. apply CanonFacts.no_nul_firstn. assumption.
Qed.

Lemma poke_app (a : bytes) (c x : ascii) (r : bytes) :
  poke (List.length a) c (a ++ x :: r) = a ++ c :: r.
Proof.
  induction a as [|y a IH]; cbn [List.length app poke]; [reflexivity|].
  rewrite IH. reflexivity.
Qed.

Lemma with_slash_no_nul (s : bytes) : no_nul s -> no_nul (with_slash s).
Proof.
  intros Hs. unfold with_slash. destruct (byte_eqb _ _); [assumption|].
  apply Forall_app. split; [assumption|]. repeat constructor. discriminate.
Qed.

Lemma with_slash_last (s : bytes) : last (with_slash s) NUL = "/"%char.
Proof.
  unfold with_slash. destruct (byte_eqb (last s NUL) "/") eqn:E.
  - apply byte_eqb_eq. assumption.
  - apply last_last.
Qed.

(** "ensure trailing slash" in an array that holds the string [s] and
    nothing behind it. *)
Lemma ensure_slash_clean (s : bytes) (k : nat) :
  no_nul s ->
  exists j, ensure_slash (s ++ repeat NUL (S k)) = with_slash s ++ repeat NUL j.
Proof.
  intros Hs. unfold ensure_slash, with_slash.
  rewrite ArrayFacts.cstr_zeros by assumption.
  destruct (byte_eqb (last s NUL) "/").
  - exists (S k). reflexivity.
  - exists k. cbn [repeat]. rewrite poke_app, <- app_assoc. reflexivity.
Qed.

(** The bit tests of the code on a directory. *)
Lemma directory_bits (st : stat_t) :
  is_directory st = true ->
  has_bit (st_mode st) S_IFREG = false /\ has_bit (st_mode st) S_IFDIR = true.
Proof.
  unfold is_directory, has_bit. intros H. apply Z.eqb_eq in H.
  assert (Hr : Z.land (st_mode st) S_IFREG
               = Z.land (Z.land (st_mode st) S_IFMT) S_IFREG)
    by (rewrite <- Z.land_assoc; reflexivity).
  assert (Hd : Z.land (st_mode st) S_IFDIR
               = Z.land (Z.land (st_mode st) S_IFMT) S_IFDIR)
    by (rewrite <- Z.land_assoc; reflexivity).
  rewrite Hr, Hd, H. split; reflexivity.
Qed.

Section Limits.

Variable PATH_MAX : nat.
Variable UH_LIMIT_MSGHEAD : nat.
Variable fs : filesystem.

(** The loop over the index files, for names that fit the buffers. *)
Lemma try_index_find (dir : bytes) (st : stat_t) (idxs : list bytes) :
  Forall (fun f =>
            (List.length dir + List.length (cstr f) < UH_LIMIT_MSGHEAD)%nat
            /\ (List.length dir + List.length (cstr f) <= PATH_MAX)%nat)
    idxs ->
  try_index PATH_MAX UH_LIMIT_MSGHEAD fs idxs
    (firstn (UH_LIMIT_MSGHEAD - 1) dir) dir st
  = match find (regular_at fs dir) idxs with
    | Some f => (dir ++ cstr f, stat_at fs (dir ++ cstr f) st)
    | None => (dir, st)
    end.
Proof.
  induction 1 as [|f idxs [Hm Hp] _ IH]; cbn [try_index find];
    [reflexivity|].
  rewrite (firstn_all2 (n := UH_LIMIT_MSGHEAD - 1) dir) in * by lia.
  rewrite (firstn_all2 (n := UH_LIMIT_MSGHEAD - List.length dir - 1)
             (cstr f)) by lia.
  unfold regular_at at 1.
  destruct (fs_stat fs (dir ++ cstr f)) as [s|] eqn:Hs; [|exact IH].
  destruct (has_bit (st_mode s) S_IFREG); [|exact IH].
  unfold stat_at. rewrite Hs.
  rewrite firstn_all2 by (rewrite length_app; lia). reflexivity.
Qed.

(** Where no candidate is a socket the bit test finds the regular
    files. *)
Lemma find_regular (dir : bytes) (idxs : list bytes) :
  Forall (fun f => no_socket_at fs (dir ++ cstr f)) idxs ->
  find (regular_at fs dir) idxs = find (regular_file_at fs dir) idxs.
Proof.
  induction 1 as [|f idxs Hf _ IH]; cbn [find]; [reflexivity|].
  unfold no_socket_at in Hf.
  unfold regular_at at 1. unfold regular_file_at at 1.
  destruct (fs_stat fs (dir ++ cstr f)) as [s|]; [|exact IH].
  rewrite Hf, IH. reflexivity.
Qed.

(** C4, as the code has it.  [uh_index_add] puts each name at the head
    of the list, so the list is the names in the reverse of the order
    in which they were added; for a directory requested with a trailing
    slash the names are tried in the order of the list, the one added
    last first, and the first that is a regular file replaces [phys]
    and [stat]; when there is none the result is the directory.
    (Canonicalisation has left nothing in [path_phys] behind the path of
    the directory, as it does by [canon_walk_clean] whenever the path is
    absolute and has no [/..] or symbolic links are resolved by
    [realpath]; the names fit the buffers and no candidate is a
    socket.) *)
Theorem index_fallback_order (names : list bytes) (url : bytes)
  (cl : client) (buffer : bytes) (q : option bytes) (path_phys : bytes)
  (k : nat) (st : stat_t) :
  let root := cstr (docroot (conf cl)) in
  let dir := with_slash path_phys in
  decode_url UH_LIMIT_MSGHEAD root (cstr url) = Some (buffer, q) ->
  last buffer NUL = "/"%char ->
  canon_walk PATH_MAX fs (no_symlinks (conf cl)) buffer
    (S (List.length buffer)) (repeat NUL PATH_MAX) []
  = (path_phys ++ repeat NUL (S k), []) ->
  no_nul path_phys ->
  within_docroot root path_phys = true ->
  fs_stat fs path_phys = Some st ->
  is_directory st = true ->
  Forall (fun f =>
            (List.length dir + List.length (cstr f) < UH_LIMIT_MSGHEAD)%nat
            /\ (List.length dir + List.length (cstr f) <= PATH_MAX)%nat
            /\ no_socket_at fs (dir ++ cstr f))
    names ->
  index_files_after names = rev names
  /\ uh_path_lookup PATH_MAX UH_LIMIT_MSGHEAD fs (index_files_after names)
       (Some url) cl
     = (Some
          (match find (regular_file_at fs dir) (rev names) with
           | Some f =>
               {| root := root; phys := dir ++ cstr f;
                  name := skipn (List.length root) (dir ++ cstr f);
                  info := None; query := q; redirected := false;
                  stat := stat_at fs (dir ++ cstr f) st |}
           | None =>
               {| root := root; phys := dir;
                  name := skipn (List.length root) dir;
                  info := None; query := q; redirected := false;
                  stat := st |}
           end), cl).
Proof.
  intros root dir Hdec Hslash Hwalk Hnul Hjail Hstat Hisdir Hfit.
  split; [apply index_files_after_rev|].
  destruct (directory_bits st Hisdir) as [Hreg Hdir].
  destruct (ensure_slash_clean path_phys k Hnul) as [j Hj].
  rewrite index_files_after_rev. unfold uh_path_lookup.
  fold root. rewrite Hdec, Hslash, Hwalk.
  rewrite (ArrayFacts.cstr_zeros _ _ Hnul), Hjail. cbn [negb].
  rewrite Hstat, Hreg, Hdir, byte_eqb_refl.
  cbn [List.length Nat.eqb andb negb]. rewrite Hj.
  rewrite (cstr_firstn_zeros _ _ _ (with_slash_no_nul _ Hnul)).
  rewrite (ArrayFacts.cstr_zeros _ _ (with_slash_no_nul _ Hnul)).
  fold dir.
  rewrite try_index_find
    by (apply Forall_rev; eapply Forall_impl; [|exact Hfit];
        cbn beta; intros f [H1 [H2 _]]; split; assumption).
  rewrite find_regular
    by (apply Forall_rev; eapply Forall_impl; [|exact Hfit];
        cbn beta; intros f [_ [_ H3]]; exact H3).
  destruct (find (regular_file_at fs dir) (rev names)); reflexivity.
Qed.

End Limits.

Lemma index_fallback_order_witness :
  option_map phys
    (fst (uh_path_lookup 4096 4096 Files.site
            (index_files_after [lit "index.htm"; lit "index.html"])
            (Some (lit "/dir/")) Files.plain_get))
  = Some (lit "/srv/www/dir/index.html").
Proof.
  destruct (index_fallback_order 4096 4096 Files.site
              [lit "index.htm"; lit "index.html"] (lit "/dir/")
              Files.plain_get (lit "/srv/www/dir/") None
              (lit "/srv/www/dir") 4083 Files.directory) as [_ H].
  - vm_compute. reflexivity.
  - vm_compute. reflexivity.
  - vm_compute. reflexivity.
  - repeat (constructor; [discriminate|]). constructor.
  - vm_compute. reflexivity.
  - vm_compute. reflexivity.
  - vm_compute. reflexivity.
  - apply Forall_cons; [|apply Forall_cons; [|apply Forall_nil]];
      (split; [apply Nat.ltb_lt; vm_compute; reflexivity|];
       split; [apply Nat.leb_le; vm_compute; reflexivity|];
       vm_compute; reflexivity).
  - rewrite H. vm_compute. reflexivity.
Defined.

(** C4 as the claim words it fails: [index.html] is configured first
    and [default.htm] second, both are regular files of the directory,
    and the file adopted is [default.htm]. *)
Lemma index_order_is_reversed :
  let idxs := index_files_after [lit "index.html"; lit "default.htm"] in
  regular_file_at Files.site (lit "/srv/www/dir/") (lit "index.html") = true
  /\ regular_file_at Files.site (lit "/srv/www/dir/") (lit "default.htm")
     = true
  /\ option_map phys
       (fst (uh_path_lookup 4096 4096 Files.site idxs (Some (lit "/dir/"))
               Files.plain_get))
     = Some (lit "/srv/www/dir/default.htm").
Proof. vm_compute. split; [|split]; reflexivity. Qed.

(** What is left behind the path is taken for a part of it: after
    [/dir/zz/../] the array holds [/srv/www/dir], the terminator and
    [zz], the slash goes over the terminator, and the index file is
    looked for under [/srv/www/dir/zz]. *)
Example lookup_after_collapse :
  option_map phys
    (fst (uh_path_lookup 4096 4096 Files.site [lit "index.html"]
            (Some (lit "/dir/zz/../")) Files.plain_get))
  = Some (lit "/srv/www/dir/zz")
  /\ option_map phys
       (fst (uh_path_lookup 4096 4096 Files.site [lit "index.html"]
               (Some (lit "/dir/zz/..")) Files.plain_get))
     = Some (lit "/srv/www/dir/zz").
Proof. vm_compute. split; reflexivity. Qed.

(** *** The check "within docroot" *)

Lemma pop_segment_length (res : bytes) :
  (List.length (pop_segment res) <= List.length res)%nat.
Proof.
  induction res as [|c r IH]; cbn [pop_segment List.length]; [lia|].
  destruct (byte_eqb c "/"); lia.
Qed.

(** The loop writes at most one byte per turn and stops at the limit. *)
Lemma normalize_length (limit n : nat) :
  forall cpy i res,
    (List.length cpy <= n)%nat ->
    (List.length (normalize limit i cpy res)
     <= List.length res + (limit - i))%nat.
Proof.
  induction n as [|n IH]; intros cpy i res Hn.
  - destruct cpy; [cbn; lia|cbn in Hn; lia].
  - destruct cpy as [|c t1]; [cbn; lia|]. cbn [List.length] in Hn.
    cbn [normalize]. destruct (Nat.ltb_spec i limit); [|lia].
    assert (Hpush : forall t k,
               (List.length t <= n)%nat -> (k >= i + 1)%nat ->
               (List.length (normalize limit k t (c :: res))
                <= List.length res + (limit - i))%nat).
    { intros t k Ht Hk. etransitivity; [apply IH; assumption|].
      cbn [List.length]. lia. }
    assert (Hskip : forall t k r,
               (List.length t <= n)%nat -> (k >= i)%nat ->
               (List.length r <= List.length res)%nat ->
               (List.length (normalize limit k t r)
                <= List.length res + (limit - i))%nat).
    { intros t k r Ht Hk Hr. etransitivity; [apply IH; assumption|]. lia. }
    destruct (byte_eqb c "/"); [|apply Hpush; lia].
    destruct t1 as [|c1 t2]; [apply Hpush; cbn; lia|].
    cbn [List.length] in Hn.
    destruct (byte_eqb c1 "/"); [apply Hskip; cbn [List.length]; lia|].
    destruct (byte_eqb c1 "."); [|apply Hpush; cbn [List.length]; lia].
    destruct t2 as [|c2 t3]; [lia|]. cbn [List.length] in Hn.
    destruct (byte_eqb c2 "/"); [apply Hskip; cbn [List.length]; lia|].
    destruct (_ && _).
    + apply Hskip; [lia|lia|apply pop_segment_length].
    + apply Hpush; cbn [List.length]; lia.
Qed.

Section Limits.

Variable PATH_MAX : nat.
Variable UH_LIMIT_MSGHEAD : nat.
Variable fs : filesystem.

Hypothesis PATH_MAX_min : (2 <= PATH_MAX)%nat.

Lemma canon_lex_length (copy : bytes) :
  (List.length (canon_lex PATH_MAX copy) <= PATH_MAX - 1)%nat.
Proof using PATH_MAX_min.
  unfold canon_lex. rewrite length_rev.
  pose proof (normalize_length (PATH_MAX - 2) (List.length copy) copy 0 []
                (le_n _)) as Hl.
  cbn [List.length] in Hl.
  destruct (normalize (PATH_MAX - 2) 0 copy []) as [|c r]; cbn [finish].
  - cbn [List.length]. lia.
  - destruct (_ && _); cbn [List.length] in *; lia.
Qed.

(** The string in [path_phys] keeps room for its terminator through
    the walk, and the array keeps a terminator. *)
Lemma canon_walk_length (no_sym : bool) (buffer : bytes) (k : nat) :
  forall path_phys path_info,
    (List.length (cstr path_phys) <= PATH_MAX - 1)%nat ->
    (List.length
       (cstr (fst (canon_walk PATH_MAX fs no_sym buffer k path_phys
                     path_info))) <= PATH_MAX - 1)%nat.
Proof using PATH_MAX_min.
  induction k as [|i IH]; intros path_phys path_info Hl;
    cbn [canon_walk]; [assumption|].
  destruct (_ || _); [|apply IH; assumption].
  set (candidate := firstn _ buffer).
  assert (Hstep : (List.length
                     (cstr
                        (fst (if no_sym
                              then uh_realpath_array PATH_MAX fs candidate
                                     path_phys
                              else canonpath_array PATH_MAX fs candidate
                                     path_phys)))
                   <= PATH_MAX - 1)%nat).
  { destruct no_sym.
    - rewrite (proj1 (ArrayFacts.uh_realpath_array_string _ _ _ _)).
      unfold uh_realpath. destruct (fs_realpath fs _) as [res|];
        [|assumption].
      destruct (Nat.leb_spec PATH_MAX (List.length (cstr res)));
        cbn [fst]; [assumption|lia].
    - rewrite (proj1 (ArrayFacts.canonpath_array_string _ _ _ _)).
      unfold canonpath. destruct (path_copy PATH_MAX fs _);
        [apply canon_lex_length|assumption]. }
  destruct (if no_sym then _ else _) as [path_phys' found].
  cbn [fst] in Hstep. destruct found; [assumption|].
  apply IH. assumption.
Qed.

Lemma cstr_before_nul (a b : bytes) :
  (List.length (cstr (a ++ NUL :: b)) <= List.length a)%nat.
Proof.
  induction a as [|c a IH]; cbn [app cstr].
  - rewrite byte_eqb_refl. cbn. lia.
  - destruct (byte_eqb c NUL); cbn [List.length]; lia.
Qed.

Lemma canon_walk_terminated (no_sym : bool) (buffer : bytes) (k : nat) :
  forall path_phys path_info,
    (List.length (cstr path_phys) < List.length path_phys)%nat ->
    let raw := fst (canon_walk PATH_MAX fs no_sym buffer k path_phys
                      path_info) in
    (List.length (cstr raw) < List.length raw)%nat.
Proof.
  induction k as [|i IH]; intros path_phys path_info Hl;
    cbn [canon_walk]; [assumption|].
  destruct (_ || _); [|apply IH; assumption].
  set (candidate := firstn _ buffer).
  assert (Hstep :
    let raw := fst (if no_sym
                    then uh_realpath_array PATH_MAX fs candidate path_phys
                    else canonpath_array PATH_MAX fs candidate path_phys) in
    (List.length (cstr raw) < List.length raw)%nat).
  { destruct no_sym; cbn zeta.
    - unfold uh_realpath_array. destruct (fs_realpath fs _) as [res|];
        [|assumption].
      destruct (Nat.leb_spec PATH_MAX (List.length (cstr res)));
        cbn [fst]; [assumption|].
      rewrite ArrayFacts.cstr_zeros by apply CanonFacts.cstr_no_nul.
      rewrite length_app, repeat_length. lia.
    - unfold canonpath_array. destruct (path_copy PATH_MAX fs _);
        [|assumption].
      destruct (normalize_array _ _ _ _ _) as [res behind].
      destruct (finish_array res behind) as [res' behind']. cbn [fst].
      pose proof (cstr_before_nul (rev res') (tl behind')).
      rewrite length_app. cbn [List.length]. lia. }
  destruct (if no_sym then _ else _) as [path_phys' found].
  cbn [fst] in Hstep. cbn zeta in *. destruct found; [assumption|].
  apply IH. assumption.
Qed.

(** *** What the walk leaves behind the string *)

Lemma has_dotdot_tail (c : ascii) (t : bytes) :
  has_dotdot (c :: t) = false -> has_dotdot t = false.
Proof.
  cbn [has_dotdot]. intros H. apply orb_false_iff in H as [_ H]. exact H.
Qed.

Lemma has_dotdot_prefix (a : bytes) :
  forall b, has_dotdot (a ++ b) = false -> has_dotdot a = false.
Proof.
  induction a as [|c a IH]; intros b H; [reflexivity|].
  cbn [app has_dotdot] in *. apply orb_false_iff in H as [H1 H2].
  rewrite (IH _ H2), orb_false_r.
  destruct (byte_eqb c "/"); [|reflexivity]. cbn [andb] in *.
  destruct a as [|c1 [|c2 a]]; try reflexivity. exact H1.
Qed.

Lemma cstr_prefix (b : bytes) : exists rest, b = cstr b ++ rest.
Proof.
  induction b as [|c b [rest IH]]; [exists []; reflexivity|].
  cbn [cstr]. destruct (byte_eqb c NUL).
  - exists (c :: b). reflexivity.
  - exists rest. cbn [app]. rewrite <- IH. reflexivity.
Qed.

Lemma tl_zeros (j : nat) : tl (repeat NUL j) = repeat NUL (j - 1).
Proof. destruct j; [reflexivity|]. cbn. rewrite Nat.sub_0_r. reflexivity. Qed.

(** Without a [/..] in the path the loop never steps back: behind
    [path_res] the array is as it was. *)
Lemma normalize_array_clean (limit n : nat) :
  forall cpy i res j,
    (List.length cpy <= n)%nat ->
    has_dotdot cpy = false ->
    exists j',
      snd (normalize_array limit i cpy res (repeat NUL j)) = repeat NUL j'.
Proof.
  induction n as [|n IH]; intros cpy i res j Hn Hd.
  - destruct cpy; [exists j; reflexivity|cbn in Hn; lia].
  - destruct cpy as [|c t1]; [exists j; reflexivity|].
    cbn [List.length] in Hn.
    pose proof (has_dotdot_tail _ _ Hd) as Hd1.
    cbn [normalize_array].
    destruct (i <? limit)%nat; [|exists j; reflexivity].
    assert (Hpush : exists j',
               snd (normalize_array limit (i + 1) t1 (c :: res)
                      (tl (repeat NUL j))) = repeat NUL j')
      by (rewrite tl_zeros; apply IH; [lia|assumption]).
    destruct (byte_eqb c "/") eqn:Ec; [|exact Hpush].
    destruct t1 as [|c1 t2]; [exact Hpush|].
    cbn [List.length] in Hn.
    destruct (byte_eqb c1 "/"); [apply IH; [cbn [List.length]; lia|assumption]|].
    destruct (byte_eqb c1 ".") eqn:E1; [|exact Hpush].
    destruct t2 as [|c2 t3]; [exists j; reflexivity|].
    cbn [List.length] in Hn.
    pose proof (has_dotdot_tail _ _ Hd1) as Hd2.
    destruct (byte_eqb c2 "/");
      [apply IH; [cbn [List.length]; lia|assumption]|].
    destruct (byte_eqb c2 ".") eqn:E2; cbn [andb]; [|exact Hpush].
    cbn [has_dotdot] in Hd. rewrite Ec, E1, E2 in Hd. discriminate.
Qed.

(** A path_info that is not empty stays so through the loop. *)
Lemma canon_walk_info (no_sym : bool) (buffer : bytes) (k : nat) :
  forall path_phys path_info,
    (k <= List.length buffer)%nat ->
    (0 < List.length path_info)%nat ->
    (0 < List.length
           (snd (canon_walk PATH_MAX fs no_sym buffer k path_phys
                   path_info)))%nat.
Proof using PATH_MAX_min.
  induction k as [|i IH]; intros path_phys path_info Hk Hi;
    cbn [canon_walk]; [assumption|].
  destruct (_ || _); [|apply IH; [lia|assumption]].
  destruct (if no_sym then _ else _) as [path_phys' found].
  destruct found.
  - cbn [snd]. rewrite length_firstn, length_skipn. lia.
  - apply IH; [lia|]. rewrite length_firstn. lia.
Qed.

(** When the loop ends with an empty [path_info], and the path it was
    given is absolute and has no [/..], or symbolic links are resolved
    by [realpath], the array holds the string and nothing behind it. *)
Lemma canon_walk_clean (no_sym : bool) (buffer path_phys : bytes) :
  (no_sym = false -> hd NUL buffer = "/"%char /\ has_dotdot buffer = false) ->
  canon_walk PATH_MAX fs no_sym buffer (S (List.length buffer))
    (repeat NUL PATH_MAX) []
  = (path_phys, []) ->
  exists s k, path_phys = s ++ repeat NUL (S k) /\ no_nul s.
Proof using PATH_MAX_min.
  intros Hb. cbn [canon_walk]. rewrite Nat.eqb_refl. cbn [orb].
  set (candidate := firstn _ buffer).
  assert (Hlater : forall arr,
             (0 < List.length candidate)%nat ->
             canon_walk PATH_MAX fs no_sym buffer (List.length buffer) arr
               candidate <> (path_phys, [])).
  { intros arr Hc E.
    pose proof (canon_walk_info no_sym buffer (List.length buffer) arr
                  candidate (le_n _) Hc) as Hi.
    rewrite E in Hi. cbn in Hi. lia. }
  assert (Hzeros : repeat NUL PATH_MAX = [] ++ repeat NUL (S (PATH_MAX - 1)))
    by (cbn [app]; f_equal; lia).
  destruct no_sym.
  - unfold uh_realpath_array.
    destruct (fs_realpath fs (cstr candidate)) as [res|].
    + destruct (Nat.leb_spec PATH_MAX (List.length (cstr res))).
      * destruct buffer as [|b0 buffer'].
        -- cbn [List.length canon_walk]. intros [= <-].
           exists [], (PATH_MAX - 1)%nat. split; [assumption|constructor].
        -- intros E. apply Hlater in E; [contradiction|].
           unfold candidate. rewrite length_firstn. cbn [List.length]. lia.
      * intros [= <- _]. exists (cstr res).
        exists (PATH_MAX - List.length (cstr res) - 1)%nat.
        split; [f_equal; f_equal; lia|apply CanonFacts.cstr_no_nul].
    + destruct buffer as [|b0 buffer'].
      * cbn [List.length canon_walk]. intros [= <-].
        exists [], (PATH_MAX - 1)%nat. split; [assumption|constructor].
      * intros E. apply Hlater in E; [contradiction|].
        unfold candidate. rewrite length_firstn. cbn [List.length]. lia.
  - destruct (Hb eq_refl) as [Hhd Hdd].
    destruct buffer as [|b0 buffer']; [discriminate|].
    cbn [hd] in Hhd. subst b0.
    assert (Hc : (0 < List.length candidate)%nat)
      by (unfold candidate; rewrite length_firstn; cbn [List.length]; lia).
    assert (Hcs : exists t, cstr candidate = "/"%char :: t).
    { unfold candidate.
      destruct (Nat.min (List.length ("/"%char :: buffer') + 1) (PATH_MAX - 1))
        as [|m] eqn:Em; [cbn [List.length] in Em; lia|].
      cbn [firstn cstr byte_eqb]. eexists. reflexivity. }
    destruct Hcs as [t Ht].
    assert (Hcd : has_dotdot (cstr candidate) = false).
    { destruct (cstr_prefix candidate) as [rest Hr].
      apply (has_dotdot_prefix _ rest). rewrite <- Hr.
      unfold candidate.
      apply (has_dotdot_prefix _ (skipn (Nat.min
                                           (List.length ("/"%char :: buffer')
                                            + 1) (PATH_MAX - 1))
                                    ("/"%char :: buffer'))).
      rewrite firstn_skipn. assumption. }
    unfold canonpath_array.
    assert (Hpc : path_copy PATH_MAX fs (cstr candidate)
                  = Some (firstn (PATH_MAX - 1) (cstr candidate)))
      by (unfold path_copy; rewrite Ht; reflexivity).
    rewrite Hpc.
    set (copy := firstn (PATH_MAX - 1) (cstr candidate)).
    assert (Hcopy : has_dotdot copy = false).
    { apply (has_dotdot_prefix _ (skipn (PATH_MAX - 1) (cstr candidate))).
      unfold copy. rewrite firstn_skipn. assumption. }
    assert (Hnn : no_nul copy)
      by (apply CanonFacts.no_nul_firstn, CanonFacts.cstr_no_nul).
    pose proof (ArrayFacts.normalize_array_fst (PATH_MAX - 2)
                  (List.length copy) copy 0 [] (repeat NUL PATH_MAX)
                  (le_n _)) as Hf.
    destruct (normalize_array_clean (PATH_MAX - 2) (List.length copy) copy 0
                [] PATH_MAX (le_n _) Hcopy) as [j Hs].
    destruct (normalize_array _ _ _ _ _) as [res behind].
    cbn [fst snd] in Hf, Hs. subst behind.
    pose proof (ArrayFacts.finish_array_fst res (repeat NUL j)) as Hg.
    assert (Htl : exists j',
               tl (snd (finish_array res (repeat NUL j))) = repeat NUL j').
    { unfold finish_array. destruct res as [|c r].
      - cbn [snd]. rewrite !tl_zeros. eexists. reflexivity.
      - destruct (_ && _); cbn [snd tl].
        + eexists. reflexivity.
        + rewrite tl_zeros. eexists. reflexivity. }
    destruct (finish_array res (repeat NUL j)) as [res' behind'].
    cbn [fst snd] in Hg, Htl. destruct Htl as [j' ->].
    destruct (readable _ _).
    + intros [= <- _]. exists (rev res'), j'. split; [reflexivity|].
      rewrite Hg, Hf. apply (ArrayFacts.canon_lex_no_nul PATH_MAX).
      assumption.
    + intros E. apply Hlater in E; [contradiction|assumption].
Qed.

Lemma strneq_prefix (b : bytes) :
  forall a, strneq (List.length b) a b = true -> exists r, a = b ++ r.
Proof.
  induction b as [|y b IH]; intros a H; cbn [List.length strneq] in H.
  - exists a. reflexivity.
  - destruct a as [|x a]; [discriminate|].
    apply andb_true_iff in H as [Hxy H]. apply byte_eqb_eq in Hxy.
    subst y. destruct (IH a H) as [r ->]. exists r. reflexivity.
Qed.

Lemma try_index_cases (idxs : list bytes) (buffer path_phys : bytes)
  (st : stat_t) :
  fst (try_index PATH_MAX UH_LIMIT_MSGHEAD fs idxs buffer path_phys st)
  = path_phys
  \/ exists idx,
      fst (try_index PATH_MAX UH_LIMIT_MSGHEAD fs idxs buffer path_phys st)
      = firstn PATH_MAX
          (buffer
           ++ firstn (UH_LIMIT_MSGHEAD - List.length buffer - 1) (cstr idx)).
Proof.
  induction idxs as [|idx idxs IH]; cbn [try_index]; [left; reflexivity|].
  destruct (fs_stat fs _) as [s|]; [|exact IH].
  destruct (has_bit _ _); [|exact IH].
  right. exists idx. reflexivity.
Qed.

Lemma within_docroot_shape (root path_phys : bytes) :
  within_docroot root path_phys = true ->
  exists r0,
    path_phys = root ++ r0
    /\ (nth 0 r0 NUL = NUL \/ nth 0 r0 NUL = "/"%char).
Proof.
  unfold within_docroot. intros H. apply andb_true_iff in H as [Hp Hc].
  destruct (strneq_prefix _ _ Hp) as [r0 ->]. exists r0.
  split; [reflexivity|].
  rewrite app_nth2, Nat.sub_diag in Hc by lia.
  apply orb_true_iff in Hc as [Hc|Hc]; apply byte_eqb_eq in Hc; auto.
Qed.

Lemma cstr_firstn (b : bytes) :
  forall n, cstr (firstn n b) = firstn n (cstr b).
Proof.
  induction b as [|c b IH]; intros [|n]; cbn [firstn cstr];
    try reflexivity.
  destruct (byte_eqb c NUL); [reflexivity|]. cbn [firstn].
  rewrite IH. reflexivity.
Qed.

Lemma cstr_app (a b : bytes) : no_nul a -> cstr (a ++ b) = a ++ cstr b.
Proof.
  induction 1 as [|c a Hc Ha IH]; cbn [app cstr]; [reflexivity|].
  destruct (byte_eqb c NUL) eqn:E; [apply byte_eqb_eq in E; contradiction|].
  rewrite IH. reflexivity.
Qed.

Lemma terminated_split (raw : bytes) :
  (List.length (cstr raw) < List.length raw)%nat ->
  exists rest, raw = cstr raw ++ NUL :: rest.
Proof.
  induction raw as [|c raw IH]; cbn [cstr List.length]; [lia|].
  destruct (byte_eqb c NUL) eqn:E.
  - intros _. apply byte_eqb_eq in E. subst c. exists raw. reflexivity.
  - cbn [List.length]. intros H. destruct IH as [rest Hr]; [lia|].
    exists rest. cbn [app]. rewrite <- Hr. reflexivity.
Qed.

(** "ensure trailing slash": the string afterwards is the string
    before, then the slash if it did not end with one, then what the
    array held behind the terminator, up to the next NUL. *)
Lemma ensure_slash_string (raw : bytes) :
  (List.length (cstr raw) < List.length raw)%nat ->
  exists behind,
    raw = cstr raw ++ NUL :: behind
    /\ cstr (ensure_slash raw)
       = if byte_eqb (last (cstr raw) NUL) "/" then cstr raw
         else cstr raw ++ "/" :: cstr behind.
Proof.
  intros Ht. destruct (terminated_split raw Ht) as [behind Hr].
  exists behind. split; [assumption|]. unfold ensure_slash.
  destruct (byte_eqb (last (cstr raw) NUL) "/"); [reflexivity|].
  rewrite Hr at 2. rewrite poke_app.
  rewrite cstr_app by apply CanonFacts.cstr_no_nul.
  cbn [cstr]. reflexivity.
Qed.

Lemma ensure_slash_shape (root r0 raw : bytes) :
  (List.length (cstr raw) < List.length raw)%nat ->
  cstr raw = root ++ r0 ->
  nth 0 r0 NUL = NUL \/ nth 0 r0 NUL = "/"%char ->
  exists r', cstr (ensure_slash raw) = root ++ r' /\ slash_first root r'.
Proof.
  intros Ht Hc Hh. destruct (ensure_slash_string raw Ht) as [behind [_ Hs]].
  rewrite Hs, Hc. clear Hs.
  destruct (byte_eqb (last (root ++ r0) NUL) "/") eqn:Hl.
  - exists r0. split; [reflexivity|]. intros Hroot.
    destruct r0 as [|h t].
    + rewrite app_nil_r in Hl. apply byte_eqb_eq in Hl. contradiction.
    + exists h, t. auto.
  - exists (r0 ++ "/" :: cstr behind).
    split; [symmetry; apply app_assoc|]. intros _.
    destruct r0 as [|h t].
    + exists "/"%char, (cstr behind). auto.
    + exists h, (t ++ "/" :: cstr behind). auto.
Qed.

Lemma jailed_slash_first (root r : bytes) :
  slash_first root r -> jailed root (root ++ r).
Proof.
  intros Hs. split; [exists r; reflexivity|]. intros Hroot.
  destruct (Hs Hroot) as [h [t [-> Hh]]].
  rewrite app_nth2, Nat.sub_diag by lia. exact Hh.
Qed.

Lemma jailed_candidate (root r x : bytes) :
  (List.length root <= PATH_MAX - 1)%nat ->
  (PATH_MAX <= UH_LIMIT_MSGHEAD)%nat ->
  slash_first root r ->
  jailed root
    (firstn PATH_MAX
       (firstn (UH_LIMIT_MSGHEAD - 1) (root ++ r)
        ++ firstn
             (UH_LIMIT_MSGHEAD
              - List.length (firstn (UH_LIMIT_MSGHEAD - 1) (root ++ r)) - 1)
             x)).
Proof using PATH_MAX_min.
  intros Hl Hm Hs.
  rewrite (firstn_app (UH_LIMIT_MSGHEAD - 1) root r).
  rewrite (firstn_all2 (n := UH_LIMIT_MSGHEAD - 1) root) by lia.
  rewrite <- app_assoc, firstn_app.
  rewrite (firstn_all2 (n := PATH_MAX) root) by lia.
  split; [eexists; reflexivity|]. intros Hroot.
  destruct (Hs Hroot) as [h [t [-> Hh]]].
  rewrite app_nth2, Nat.sub_diag by lia.
  destruct (UH_LIMIT_MSGHEAD - 1 - List.length root)%nat as [|b] eqn:Hb.
  - cbn [firstn app]. rewrite length_app. cbn [List.length].
    replace (UH_LIMIT_MSGHEAD - (List.length root + 0) - 1)%nat with 0%nat
      by lia.
    cbn [firstn]. rewrite firstn_nil. auto.
  - destruct (PATH_MAX - List.length root)%nat as [|a] eqn:Ha; [lia|].
    cbn [firstn app nth]. exact Hh.
Qed.

(** X30.  What the check "within docroot" does ensure.  Whatever the
    URL, the result is NULL or a path that begins with the document
    root; and unless the document root itself ends with a slash, the
    byte after it is a slash or the end of the string. *)
Theorem docroot_prefix (uh_index_files : list bytes) (url : option bytes)
  (cl : client) :
  (PATH_MAX <= UH_LIMIT_MSGHEAD)%nat ->
  match fst (uh_path_lookup PATH_MAX UH_LIMIT_MSGHEAD fs uh_index_files
               url cl) with
  | None => True
  | Some p => jailed (cstr (docroot (conf cl))) (phys p)
  end.
Proof using PATH_MAX_min.
  intros Hmax. unfold uh_path_lookup.
  set (root := cstr (docroot (conf cl))).
  destruct url as [url|]; [|exact I].
  destruct (decode_url _ _ _) as [[buffer q]|]; [|exact I].
  assert (Hz : cstr (repeat NUL PATH_MAX) = [])
    by exact (ArrayFacts.cstr_zeros [] PATH_MAX (Forall_nil _)).
  pose proof (canon_walk_length (no_symlinks (conf cl)) buffer
                (S (List.length buffer)) (repeat NUL PATH_MAX) []) as Hlen.
  rewrite Hz in Hlen. specialize (Hlen (Nat.le_0_l _)).
  pose proof (canon_walk_terminated (no_symlinks (conf cl)) buffer
                (S (List.length buffer)) (repeat NUL PATH_MAX) []) as Hterm.
  rewrite Hz, repeat_length in Hterm. cbn [List.length] in Hterm.
  specialize (Hterm ltac:(lia)). cbn zeta in Hterm.
  destruct (canon_walk _ _ _ _ _ _ _) as [path_phys path_info].
  cbn [fst] in Hlen, Hterm.
  destruct (within_docroot root (cstr path_phys)) eqn:Hjail; [|exact I].
  cbn [negb].
  destruct (within_docroot_shape _ _ Hjail) as [r0 [Hc Hh]].
  rewrite Hc in Hlen. rewrite length_app in Hlen.
  destruct (fs_stat fs _) as [st|]; [|exact I].
  destruct (has_bit (st_mode st) S_IFREG).
  { cbn [fst phys]. rewrite Hc. split; [exists r0; reflexivity|]. intros _.
    rewrite app_nth2, Nat.sub_diag by lia. exact Hh. }
  destruct (_ && _); [|exact I].
  destruct (ensure_slash_shape root r0 path_phys Hterm Hc Hh)
    as [r' [Hdir Hs]].
  rewrite cstr_firstn, Hdir.
  destruct (negb _).
  - destruct (uh_http_sendf _ _ _ _) as [rv cl1]. cbn [fst phys].
    apply jailed_slash_first. assumption.
  - pose proof (try_index_cases uh_index_files
                  (firstn (UH_LIMIT_MSGHEAD - 1) (root ++ r')) (root ++ r')
                  st) as Hidx.
    destruct (try_index _ _ _ _ _ _ _) as [ph st']. cbn [fst phys] in *.
    destruct Hidx as [->|[idx ->]].
    + apply jailed_slash_first. assumption.
    + apply jailed_candidate; [lia|assumption|assumption].
Qed.

End Limits.

Lemma docroot_prefix_witness :
  jailed (lit "/srv/www") (lit "/srv/www/dir/index.html").
Proof.
  assert (Hmin : (2 <= 4096)%nat)
    by (apply Nat.leb_le; vm_compute; reflexivity).
  assert (Hmax : (4096 <= 4096)%nat) by apply le_n.
  assert (H := docroot_prefix 4096 4096 Files.site Hmin [lit "index.html"]
                 (Some (lit "/dir/")) Files.plain_get Hmax).
  vm_compute in H. vm_compute. exact H.
Defined.

(** C1.  The path that the jail lets through at the limit of the
    buffers.  The document root and the URL fill [buffer]; the loop of
    [canonpath] stops two bytes before the end of [path_copy], so that
    of the last segment [..x] it copies [..] without collapsing it; the
    result [/srv/www/example.org/pub/..] begins with the document root
    followed by a slash and passes the check, [stat] follows [..] to
    the directory above the document root, and that directory, with a
    slash after it, is the [phys] of the result. *)
Theorem jail_escape_at_limit :
  let r := uh_path_lookup 4096 4096 Files.pub_site [lit "index.html"]
             (Some Files.filling_url) Files.pub_get in
  List.length (cstr (docroot (conf Files.pub_get)) ++ Files.filling_url)
  = 4095%nat
  /\ option_map phys (fst r) = Some (lit "/srv/www/example.org/pub/../")
  /\ option_map name (fst r) = Some (lit "/../")
  /\ option_map stat (fst r) = Some Files.parent_directory
  /\ fs_stat Files.pub_site (lit "/srv/www/example.org")
     = Some Files.parent_directory
  /\ jailed (cstr (docroot (conf Files.pub_get)))
       (lit "/srv/www/example.org/pub/../")
  /\ tx (snd r)
     = lit "HTTP/1.1 302 Found" ++ CRLF ++ lit "Location: /../" ++ CRLF
       ++ lit "Connection: close" ++ CRLF ++ CRLF.
Proof.
  cbv zeta.
  split; [vm_compute; reflexivity|].
  split; [vm_compute; reflexivity|].
  split; [vm_compute; reflexivity|].
  split; [vm_compute; reflexivity|].
  split; [vm_compute; reflexivity|].
  split; [|vm_compute; reflexivity].
  split; [exists (lit "/../"); vm_compute; reflexivity|].
  intros _. right. vm_compute. reflexivity.
Qed.

(** With the document root [/] the byte after the root is not a slash:
    the request of [/] with a trailing slash is answered with the index
    file of the root directory, whose path begins with the document root
    and goes on with the first letter of the file name. *)
Example jail_byte_after_root_directory :
  let r := uh_path_lookup 4096 4096 Files.site [lit "index.html"]
             (Some (lit "/")) Files.root_get in
  option_map phys (fst r) = Some (lit "/index.html")
  /\ option_map (fun p => nth (List.length (cstr (docroot (conf Files.root_get))))
                            (phys p) NUL) (fst r)
     = Some "i"%char.
Proof. vm_compute. split; reflexivity. Qed.

(** The scenarios of the specification: a path that leaves the
    document root and a sibling whose name begins like it are refused; a
    directory without the trailing slash is redirected, the query kept;
    an encoded slash is a slash. *)
Example lookup_escape_refused :
  fst (uh_path_lookup 4096 4096 Files.all_directories []
         (Some (lit "/../etc/passwd")) Files.plain_get) = None
  /\ fst (uh_path_lookup 4096 4096 Files.all_directories []
            (Some (lit "/../www2/secret")) Files.plain_get) = None.
Proof. vm_compute. split; reflexivity. Qed.

Example lookup_directory_redirect :
  let r := uh_path_lookup 4096 4096 Files.site [lit "index.html"]
             (Some (lit "/dir?x=1")) Files.plain_get in
  option_map redirected (fst r) = Some true
  /\ tx (snd r)
     = lit "HTTP/1.1 302 Found" ++ CRLF ++ lit "Location: /dir/?x=1" ++ CRLF
       ++ lit "Connection: close" ++ CRLF ++ CRLF.
Proof. vm_compute. split; reflexivity. Qed.

Example lookup_encoded_slash :
  let r := uh_path_lookup 4096 4096 Files.site []
             (Some (lit "/dir%2findex.html/more?q")) Files.plain_get in
  option_map phys (fst r) = Some (lit "/srv/www/dir/index.html")
  /\ option_map name (fst r) = Some (lit "/dir/index.html")
  /\ option_map info (fst r) = Some (Some (lit "/more"))
  /\ option_map query (fst r) = Some (Some (lit "q"))
  /\ fst (uh_path_lookup 4096 4096 Files.site [] (Some (lit "/dir%2"))
            Files.plain_get) = None.
Proof. vm_compute. split; [|split; [|split; [|split]]]; reflexivity. Qed.

End LookupFacts.

(** ** Whole responses *)

Module Scenarios.
Import Net Path File FileRule.

(** [GET /index.html HTTP/1.1]: the head, then the body in one chunk
    and the terminator. *)
Example get_file_chunked :
  tx (snd (uh_file_request 4096 4096 Files.small_site
             [(lit "html", lit "text/html")] Files.date_text
             (fun _ => None) 1597754096 (fun _ => None)
             (fun _ => lit "0.00") Files.index_html
             (Files.bare_request UH_HTTP_MSG_GET UH_HTTP_VER_1_1)))
  = block [lit "HTTP/1.1 200 OK"; lit "Connection: close";
           lit "ETag: " ++ [chr 34] ++ lit "1a-200-7d0" ++ [chr 34];
           lit "Last-Modified: Thu, 01 Jan 1970 00:33:20 GMT";
           lit "Date: Tue, 18 Aug 2020 12:34:56 GMT";
           lit "Content-Type: text/html"; lit "Content-Length: 512";
           lit "Transfer-Encoding: chunked"]
    ++ CRLF ++ lit "D" ++ CRLF ++ lit "<html></html>" ++ CRLF
    ++ lit "0" ++ CRLF ++ CRLF.
Proof. vm_compute. reflexivity. Qed.

(** [HEAD] suppresses the chunking and the body; HTTP/1.0 gets the body
    as it is. *)
Example head_file_not_chunked :
  tx (snd (uh_file_request 4096 4096 Files.small_site
             [(lit "html", lit "text/html")] Files.date_text
             (fun _ => None) 1597754096 (fun _ => None)
             (fun _ => lit "0.00") Files.index_html
             (Files.bare_request UH_HTTP_MSG_HEAD UH_HTTP_VER_1_1)))
  = block [lit "HTTP/1.1 200 OK"; lit "Connection: close";
           lit "ETag: " ++ [chr 34] ++ lit "1a-200-7d0" ++ [chr 34];
           lit "Last-Modified: Thu, 01 Jan 1970 00:33:20 GMT";
           lit "Date: Tue, 18 Aug 2020 12:34:56 GMT";
           lit "Content-Type: text/html"; lit "Content-Length: 512"]
    ++ CRLF
  /\ tx (snd (uh_file_request 4096 4096 Files.small_site
                [(lit "html", lit "text/html")] Files.date_text
                (fun _ => None) 1597754096 (fun _ => None)
                (fun _ => lit "0.00") Files.index_html
                (Files.bare_request UH_HTTP_MSG_GET UH_HTTP_VER_1_0)))
     = block [lit "HTTP/1.0 200 OK"; lit "Connection: close";
              lit "ETag: " ++ [chr 34] ++ lit "1a-200-7d0" ++ [chr 34];
              lit "Last-Modified: Thu, 01 Jan 1970 00:33:20 GMT";
              lit "Date: Tue, 18 Aug 2020 12:34:56 GMT";
              lit "Content-Type: text/html"; lit "Content-Length: 512"]
       ++ CRLF ++ lit "<html></html>".
Proof. vm_compute. split; reflexivity. Qed.

(** The token loop compares the rest of the header value with the tag
    before it has cut the value at a separator, and leaves at the first
    separator: a value that is the tag or [*] matches, a list does
    not. *)
Example token_loop_whole_value :
  some_token_matches (lit "W/1") (lit "W/1") = true
  /\ some_token_matches (lit "*") (lit "W/1") = true
  /\ some_token_matches (lit "W/1, W/2") (lit "W/1") = false
  /\ some_token_matches (lit "W/2, W/1") (lit "W/1") = false.
Proof. vm_compute. split; [|split; [|split]]; reflexivity. Qed.

(** A protected resource without credentials: the challenge, whose body
    has 23 bytes. *)
Example challenge_without_credentials :
  let r := Auth.uh_auth_check 4096 (fun _ s => s) Fixtures.alice_realms
             (lit "/a/b/") (Files.bare_request UH_HTTP_MSG_GET
                              UH_HTTP_VER_1_1) in
  fst r = 0
  /\ tx (snd r)
     = block [lit "HTTP/1.1 401 Authorization Required";
              lit "WWW-Authenticate: Basic realm=" ++ [chr 34]
              ++ lit "Protected Area" ++ [chr 34];
              lit "Content-Type: text/plain"; lit "Content-Length: 23"]
       ++ CRLF ++ lit "Authorization Required" ++ [LF]
  /\ List.length (lit "Authorization Required" ++ [LF]) = 23%nat.
Proof. vm_compute. split; [|split]; reflexivity. Qed.

(** Credentials that match the realm of the user pass the check:
    [Ym9iOnk=] is [bob:y]. *)
Example credentials_accepted :
  let cl := with_request
              (Files.bare_request UH_HTTP_MSG_GET UH_HTTP_VER_1_1)
              {| method := UH_HTTP_MSG_GET; version := UH_HTTP_VER_1_1;
                 headers := [(lit "authorization", lit "Basic Ym9iOnk=")];
                 req_realm := None |} in
  let r := Auth.uh_auth_check 4096 (fun _ s => s) Fixtures.alice_realms
             (lit "/a/b/") cl in
  fst r = 1 /\ tx (snd r) = []
  /\ option_map realm_user (req_realm (request (snd r))) = Some (lit "bob").
Proof. vm_compute. split; [|split]; reflexivity. Qed.

End Scenarios.

(** ** Bytes and their codes *)

Module ByteFacts.

Lemma chr_code (c : ascii) : chr (code c) = c.
Proof.
  unfold chr, code.
  assert (H : (N_of_ascii c < 256)%N) by apply N_ascii_bounded.
  rewrite Z.mod_small by lia.
  rewrite N2Z.id. apply ascii_N_embedding.
Qed.

Lemma code_range (c : ascii) : 0 <= code c < 256.
Proof.
  unfold code. pose proof (N_ascii_bounded c). lia.
Qed.

Lemma code_chr (z : Z) : code (chr z) = z mod 256.
Proof.
  unfold code, chr.
  assert (H : 0 <= z mod 256 < 256) by (apply Z.mod_pos_bound; lia).
  rewrite N_ascii_embedding by lia. lia.
Qed.

Lemma chr_mod (z : Z) : chr (z mod 256) = chr z.
Proof. unfold chr. rewrite Z.mod_mod by lia. reflexivity. Qed.

End ByteFacts.

Module UrlMore.
Import Url UrlRule ByteFacts.

(** A digit that [hexval] reads is one that [isxdigit] takes, and the
    [hex] macro gives it the same value. *)
Lemma hexval_hex (h : ascii) (v : Z) :
  Net.hexval h = Some v -> isxdigit h = true /\ hex (code h) = v.
Proof.
  revert v. each_byte h; vm_compute; intros v E; try discriminate;
    inversion E; split; reflexivity.
Qed.

Lemma urldecode_loop_inv (k : nat) :
  forall src blen n buf,
    (List.length src <= k)%nat -> 0 <= n ->
    exists out,
      snd (urldecode_loop blen src n buf) = buf ++ out
      /\ n + len out <= Z.max n blen
      /\ len out <= len src
      /\ (fst (urldecode_loop blen src n buf) = n + len out
          \/ fst (urldecode_loop blen src n buf) = -1
          \/ fst (urldecode_loop blen src n buf) = -2).
Proof.
  induction k as [|k IH]; intros src blen n buf Hk Hn.
  - destruct src; [|cbn in Hk; lia]. exists []. cbn [urldecode_loop fst snd].
    rewrite app_nil_r, len_nil. repeat split; lia.
  - assert (Hstop : forall rv : Z, rv = -1 \/ rv = -2 ->
               exists out,
                 snd (rv, buf) = buf ++ out
                 /\ n + len out <= Z.max n blen
                 /\ len out <= len src
                 /\ (fst (rv, buf) = n + len out \/ fst (rv, buf) = -1
                     \/ fst (rv, buf) = -2)).
    { intros rv Hrv. exists []. cbn [fst snd].
      rewrite app_nil_r, len_nil. pose proof (len_nonneg src).
      repeat split; lia. }
    destruct src as [|c rest].
    { exists []. cbn [urldecode_loop fst snd].
      rewrite app_nil_r, len_nil. repeat split; lia. }
    cbn [List.length] in Hk. cbn [urldecode_loop].
    destruct (Z.ltb_spec n blen); [|apply Hstop; auto].
    assert (Hstep : forall (x : ascii) (r : bytes),
               (List.length r <= k)%nat -> len r + 1 <= len (c :: rest) ->
               exists out,
                 snd (urldecode_loop blen r (n + 1) (buf ++ [x])) = buf ++ out
                 /\ n + len out <= Z.max n blen
                 /\ len out <= len (c :: rest)
                 /\ (fst (urldecode_loop blen r (n + 1) (buf ++ [x]))
                     = n + len out
                     \/ fst (urldecode_loop blen r (n + 1) (buf ++ [x])) = -1
                     \/ fst (urldecode_loop blen r (n + 1) (buf ++ [x])) = -2)).
    { intros x r Hr Hl.
      destruct (IH r blen (n + 1) (buf ++ [x]) Hr ltac:(lia))
        as [out [Hs [Hb [Ho Hf]]]].
      exists (x :: out). rewrite Hs, <- app_assoc. cbn [app].
      rewrite len_cons. repeat split; lia. }
    destruct (byte_eqb c "%").
    + destruct rest as [|h1 [|h2 rest']]; try (apply Hstop; auto).
      destruct (isxdigit h1 && isxdigit h2); [|apply Hstop; auto].
      apply Hstep; [cbn [List.length] in Hk; lia|].
      rewrite !len_cons. lia.
    + apply Hstep; [lia|]. rewrite !len_cons. lia.
Qed.

(** X1.  [uh_urldecode] never writes past the [blen] bytes of [buf];
    its result is the number of bytes written, which is at most the
    length of the source, or one of the error codes [-1] and [-2]. *)
Theorem uh_urldecode_bounds (blen : Z) (src : bytes) :
  len (snd (uh_urldecode blen src)) <= Z.max 0 blen
  /\ len (snd (uh_urldecode blen src)) <= len src
  /\ (fst (uh_urldecode blen src) = len (snd (uh_urldecode blen src))
      \/ fst (uh_urldecode blen src) = -1
      \/ fst (uh_urldecode blen src) = -2).
Proof.
  unfold uh_urldecode.
  destruct (urldecode_loop_inv (List.length src) src blen 0 []
              (le_n _) (Z.le_refl 0)) as [out [Hs [Hb [Ho Hf]]]].
  rewrite Hs. cbn [app]. repeat split; lia.
Qed.

Lemma urldecode_loop_room (k : nat) :
  forall src blen n buf,
    (List.length src <= k)%nat -> n + len src <= blen ->
    (well_escaped src = true ->
     n <= fst (urldecode_loop blen src n buf))
    /\ (well_escaped src = false ->
        fst (urldecode_loop blen src n buf) = -2).
Proof.
  induction k as [|k IH]; intros src blen n buf Hk Hb.
  - destruct src; [|cbn in Hk; lia]. cbn. split; [lia|discriminate].
  - destruct src as [|c rest]; [cbn; split; [lia|discriminate]|].
    cbn [List.length] in Hk. rewrite len_cons in Hb.
    pose proof (len_nonneg rest).
    cbn [urldecode_loop well_escaped].
    destruct (Z.ltb_spec n blen); [|lia].
    destruct (byte_eqb c "%").
    + destruct rest as [|h1 [|h2 rest']];
        try (cbn [fst]; split; [discriminate|reflexivity]).
      rewrite !len_cons in Hb. cbn [List.length] in Hk.
      destruct (isxdigit h1 && isxdigit h2); cbn [andb fst];
        [|split; [discriminate|reflexivity]].
      destruct (IH rest' blen (n + 1)
                  (buf ++ [chr (16 * hex (code h1) + hex (code h2))])
                  ltac:(lia) ltac:(lia)) as [H1 H2].
      split; [intros E; specialize (H1 E); lia|exact H2].
    + destruct (IH rest blen (n + 1) (buf ++ [c]) ltac:(lia) ltac:(lia))
        as [H1 H2].
      split; [intros E; specialize (H1 E); lia|exact H2].
Qed.

(** X2.  With a buffer as large as the source, [uh_urldecode] never
    reports an overflow: it fails, with [-2], exactly when some ['%'] of
    the source is not followed by two hexadecimal digits. *)
Theorem uh_urldecode_malformed (blen : Z) (src : bytes) :
  len src <= blen ->
  if well_escaped src then 0 <= fst (uh_urldecode blen src)
  else fst (uh_urldecode blen src) = -2.
Proof.
  intros Hb. unfold uh_urldecode.
  destruct (urldecode_loop_room (List.length src) src blen 0 [] (le_n _)
              ltac:(lia)) as [H1 H2].
  destruct (well_escaped src); auto.
Qed.

Lemma uh_urldecode_malformed_witness :
  0 <= fst (uh_urldecode 8 (lit "a%2Fb")) /\ fst (uh_urldecode 8 (lit "a%2")) = -2.
Proof.
  split.
  - apply (uh_urldecode_malformed 8 (lit "a%2Fb")). vm_compute. congruence.
  - apply (uh_urldecode_malformed 8 (lit "a%2")). vm_compute. congruence.
Defined.

Lemma urldecode_loop_spells (text s : bytes) :
  spells text s ->
  forall blen n buf,
    n + len s <= blen ->
    urldecode_loop blen text n buf = (n + len s, buf ++ s).
Proof.
  induction 1 as [|c text s Hc _ IH|c h1 h2 text s H1 H2 _ IH];
    intros blen n buf Hb.
  - cbn [urldecode_loop]. rewrite len_nil, Z.add_0_r, app_nil_r.
    reflexivity.
  - rewrite len_cons in Hb. pose proof (len_nonneg s).
    cbn [urldecode_loop]. destruct (Z.ltb_spec n blen); [|lia].
    destruct (byte_eqb c "%") eqn:E; [apply byte_eqb_eq in E; contradiction|].
    rewrite IH by lia. rewrite <- app_assoc, len_cons. cbn [app].
    f_equal. lia.
  - rewrite len_cons in Hb. pose proof (len_nonneg s).
    cbn [urldecode_loop]. destruct (Z.ltb_spec n blen); [|lia].
    rewrite byte_eqb_refl.
    destruct (hexval_hex _ _ H1) as [X1 V1].
    destruct (hexval_hex _ _ H2) as [X2 V2].
    rewrite X1, X2, V1, V2. cbn [andb].
    replace (16 * (code c / 16) + code c mod 16) with (code c)
      by (Z.to_euclidean_division_equations; lia).
    rewrite chr_code, IH by lia. rewrite <- app_assoc, len_cons.
    cbn [app]. f_equal. lia.
Qed.

(** X3.  [uh_urldecode] reads every percent-spelling of a string back
    to that string, whichever bytes are escaped and whichever case the
    hexadecimal digits have, when the buffer holds the string. *)
Theorem uh_urldecode_spelling (text s : bytes) (blen : Z) :
  spells text s -> len s <= blen ->
  uh_urldecode blen text = (len s, s).
Proof.
  intros Hs Hb. unfold uh_urldecode.
  rewrite (urldecode_loop_spells _ _ Hs) by lia. reflexivity.
Qed.

Lemma uh_urldecode_spelling_witness :
  uh_urldecode 4 (lit "%41b%2f%2F") = (4, lit "Ab//").
Proof.
  apply (uh_urldecode_spelling (lit "%41b%2f%2F") (lit "Ab//") 4).
  - apply (spells_escape "A" "4" "1"); [reflexivity|reflexivity|].
    apply spells_plain; [discriminate|].
    apply (spells_escape "/" "2" "f"); [reflexivity|reflexivity|].
    apply (spells_escape "/" "2" "F"); [reflexivity|reflexivity|].
    apply spells_nil.
  - vm_compute. congruence.
Defined.

Lemma hexval_hexdigit (c : ascii) :
  Net.hexval (hexdigit (Z.land (Z.shiftr (code c) 4) 15)) = Some (code c / 16)
  /\ Net.hexval (hexdigit (Z.land (code c) 15)) = Some (code c mod 16).
Proof. each_byte c; vm_compute; split; reflexivity. Qed.

Lemma encoding_spells (s : bytes) : spells (flat_map encode_byte s) s.
Proof.
  induction s as [|c s IH]; cbn [flat_map]; [constructor|].
  unfold encode_byte. destruct (unreserved c) eqn:Hc; cbn [app].
  - apply spells_plain; [|assumption].
    intros ->. vm_compute in Hc. discriminate.
  - destruct (hexval_hexdigit c). apply spells_escape; assumption.
Qed.

Lemma encode_byte_length (c : ascii) :
  1 <= len (encode_byte c) <= 3.
Proof. unfold encode_byte. destruct (unreserved c); vm_compute; split; congruence. Qed.

Lemma encoding_length (s : bytes) :
  len s <= len (flat_map encode_byte s) <= 3 * len s.
Proof.
  induction s as [|c s IH]; cbn [flat_map].
  - rewrite len_nil. lia.
  - rewrite len_app, len_cons. pose proof (encode_byte_length c). lia.
Qed.

Lemma urlencode_loop_room (s : bytes) :
  forall blen n buf,
    0 <= n -> n + len (flat_map encode_byte s) <= blen ->
    urlencode_loop blen s n buf
    = (n + len (flat_map encode_byte s), buf ++ flat_map encode_byte s).
Proof.
  induction s as [|c s IH]; intros blen n buf Hn Hb; cbn [flat_map] in *.
  - cbn [urlencode_loop]. rewrite len_nil, Z.add_0_r, app_nil_r. reflexivity.
  - rewrite len_app in *. pose proof (encoding_length s) as Hl.
    pose proof (len_nonneg s). pose proof (encode_byte_length c) as Hc.
    cbn [urlencode_loop]. destruct (Z.ltb_spec n blen); [|lia].
    unfold encode_byte in *. destruct (unreserved c).
    + change (len [c]) with 1 in *. rewrite IH by lia.
      rewrite <- app_assoc. f_equal. lia.
    + match type of Hb with
      | context [len ?l] =>
          match l with
          | [_; _; _] => change (len l) with 3 in *
          end
      end.
      destruct (Z.leb_spec (n + 3) blen); [|lia].
      rewrite IH by lia. rewrite <- app_assoc. f_equal. lia.
Qed.

(** X4.  A buffer of three bytes for each source byte is always enough
    for [uh_urlencode]: it succeeds, writes the encoding of every byte
    and returns its length, which lies between the length of the source
    and three times that length. *)
Theorem uh_urlencode_room (blen : Z) (s : bytes) :
  3 * len s <= blen ->
  uh_urlencode blen s
  = (len (flat_map encode_byte s), flat_map encode_byte s)
  /\ len s <= fst (uh_urlencode blen s) <= 3 * len s.
Proof.
  intros Hb. pose proof (encoding_length s) as Hl. unfold uh_urlencode.
  rewrite urlencode_loop_room by lia. cbn [fst app]. split; [reflexivity|].
  lia.
Qed.

Lemma uh_urlencode_room_witness :
  uh_urlencode 9 (lit "a b")
  = (len (flat_map encode_byte (lit "a b")), flat_map encode_byte (lit "a b"))
  /\ len (lit "a b") <= fst (uh_urlencode 9 (lit "a b")) <= 3 * len (lit "a b").
Proof.
  apply (uh_urlencode_room 9 (lit "a b")). vm_compute. congruence.
Defined.

Lemma urlencode_loop_ok (s : bytes) :
  forall blen n buf,
    0 <= n -> 0 <= fst (urlencode_loop blen s n buf) ->
    urlencode_loop blen s n buf
    = (n + len (flat_map encode_byte s), buf ++ flat_map encode_byte s).
Proof.
  induction s as [|c s IH]; intros blen n buf Hn Hok; cbn [flat_map].
  - cbn [urlencode_loop]. rewrite len_nil, Z.add_0_r, app_nil_r. reflexivity.
  - cbn [urlencode_loop] in *. rewrite len_app.
    destruct (Z.ltb_spec n blen); [|cbn [fst] in Hok; lia].
    change (encode_byte c)
      with (if unreserved c then [c]
            else ["%"; hexdigit (Z.land (Z.shiftr (code c) 4) 15);
                  hexdigit (Z.land (code c) 15)]).
    destruct (unreserved c).
    + rewrite IH by (lia || assumption). rewrite <- app_assoc.
      change (len [c]) with 1. f_equal. lia.
    + destruct (Z.leb_spec (n + 3) blen); [|cbn [fst] in Hok; lia].
      rewrite IH by (lia || assumption). rewrite <- app_assoc.
      match goal with
      | |- context [len [?a; ?b; ?d]] => change (len [a; b; d]) with 3
      end.
      f_equal. lia.
Qed.

(** X5.  Decoding undoes encoding, for every string of bytes: when
    [uh_urlencode] succeeds, [uh_urldecode] applied to the bytes it has
    written gives the source back, in any buffer that holds it. *)
Theorem url_roundtrip_all_bytes (s : bytes) (blen blen' : Z) :
  0 <= fst (uh_urlencode blen s) -> len s <= blen' ->
  uh_urldecode blen'
    (firstn (Z.to_nat (fst (uh_urlencode blen s)))
       (snd (uh_urlencode blen s)))
  = (len s, s).
Proof.
  intros Hok Hb.
  unfold uh_urlencode in *.
  rewrite (urlencode_loop_ok s blen 0 [] (Z.le_refl 0) Hok).
  cbn [fst snd app]. rewrite Z.add_0_l.
  unfold len at 1. rewrite Nat2Z.id, firstn_all.
  unfold uh_urldecode.
  rewrite (urldecode_loop_spells _ _ (encoding_spells s)) by lia.
  reflexivity.
Qed.

Lemma url_roundtrip_all_bytes_witness :
  uh_urldecode 8
    (firstn (Z.to_nat (fst (uh_urlencode 16 (lit "a/b c?"))))
       (snd (uh_urlencode 16 (lit "a/b c?"))))
  = (len (lit "a/b c?"), lit "a/b c?").
Proof.
  apply (url_roundtrip_all_bytes (lit "a/b c?") 16 8);
    vm_compute; congruence.
Defined.

End UrlMore.

Module B64More.
Import B64 B64Rule ByteFacts.

Lemma b64_value_char_nat (n : nat) :
  (n < 64)%nat ->
  b64_value (nth n alphabet NUL) = Some (Z.of_nat n)
  /\ byte_eqb (nth n alphabet NUL) NUL = false.
Proof.
  intros Hn.
  do 64 (destruct n as [|n]; [vm_compute; split; reflexivity|]).
  lia.
Qed.

Lemma b64_value_char (v : Z) :
  0 <= v < 64 ->
  b64_value (b64_char v) = Some v /\ byte_eqb (b64_char v) NUL = false.
Proof.
  intros Hv. unfold b64_char.
  destruct (b64_value_char_nat (Z.to_nat v) ltac:(lia)) as [H1 H2].
  rewrite H1, H2, Z2Nat.id by lia. auto.
Qed.

(** The six new bits go below the old ones. *)
Lemma lor_shiftl_6 (x v : Z) :
  0 <= x -> 0 <= v < 64 -> Z.lor (Z.shiftl x 6) v = x * 64 + v.
Proof.
  intros Hx Hv.
  assert (Hand : Z.land (Z.shiftl x 6) v = 0).
  { apply Z.bits_inj'. intros n Hn. rewrite Z.land_spec, Z.bits_0.
    destruct (Z.ltb_spec n 6).
    - rewrite Z.shiftl_spec_low by lia. reflexivity.
    - rewrite (Z.bits_above_log2 v n), andb_false_r; [reflexivity|lia|].
      destruct (Z.eqb_spec v 0) as [->|Hz]; [cbn; lia|].
      apply Z.log2_lt_pow2; [lia|].
      apply Z.lt_le_trans with (2 ^ 6); [lia|].
      apply Z.pow_le_mono_r; lia. }
  rewrite <- Z.lxor_lor, <- Z.add_nocarry_lxor by assumption.
  rewrite Z.shiftl_mul_pow2 by lia. reflexivity.
Qed.

Lemma u32_range (z : Z) : 0 <= u32 z < 2 ^ 32.
Proof. unfold u32. apply Z.mod_pos_bound. lia. Qed.

(** One turn of the loop for a recognised character that does not end a
    group. *)
Lemma b64_loop_shift (blen slen : Z) (c : ascii) (rest : bytes)
  (i cout n v : Z) (buf : bytes) :
  b64_value c = Some v -> byte_eqb c NUL = false ->
  i <= slen -> i mod 4 <> 3 ->
  b64_loop blen slen (c :: rest) i cout n buf
  = b64_loop blen slen rest (i + 1) (u32 (Z.lor (Z.shiftl cout 6) v)) n buf.
Proof.
  intros Hv Hc Hi Hm. cbn [b64_loop]. rewrite Hv, Hc.
  destruct (Z.leb_spec i slen); [|lia]. cbn [andb negb].
  destruct (Z.eqb_spec (i mod 4) 3); [contradiction|reflexivity].
Qed.

Lemma b64_loop_emit (blen slen : Z) (c : ascii) (rest : bytes)
  (i cout n v : Z) (buf : bytes) :
  b64_value c = Some v -> byte_eqb c NUL = false ->
  i <= slen -> i mod 4 = 3 -> n + 3 < blen ->
  b64_loop blen slen (c :: rest) i cout n buf
  = b64_loop blen slen rest (i + 1) (u32 (Z.lor (Z.shiftl cout 6) v))
      (n + 3)
      (buf ++ [chr (Z.shiftr (u32 (Z.lor (Z.shiftl cout 6) v)) 16);
               chr (Z.shiftr (u32 (Z.lor (Z.shiftl cout 6) v)) 8);
               chr (u32 (Z.lor (Z.shiftl cout 6) v))]).
Proof.
  intros Hv Hc Hi Hm Hb. cbn [b64_loop]. rewrite Hv, Hc.
  destruct (Z.leb_spec i slen); [|lia]. cbn [andb negb]. cbv zeta.
  destruct (Z.eqb_spec (i mod 4) 3); [|contradiction].
  destruct (Z.ltb_spec (n + 3) blen); [reflexivity|lia].
Qed.

(** Four sextets, shifted in one after the other, leave the three bytes
    they spell in the low 24 bits, whatever was there before. *)
Lemma sextets_bytes (cout v1 v2 v3 v4 : Z) :
  0 <= cout -> 0 <= v1 < 64 -> 0 <= v2 < 64 -> 0 <= v3 < 64 ->
  0 <= v4 < 64 ->
  let c1 := u32 (Z.lor (Z.shiftl cout 6) v1) in
  let c2 := u32 (Z.lor (Z.shiftl c1 6) v2) in
  let c3 := u32 (Z.lor (Z.shiftl c2 6) v3) in
  let c4 := u32 (Z.lor (Z.shiftl c3 6) v4) in
  Z.shiftr c4 16 mod 256 = v1 * 4 + v2 / 16
  /\ Z.shiftr c4 8 mod 256 = v2 mod 16 * 16 + v3 / 4
  /\ c4 mod 256 = v3 mod 4 * 64 + v4.
Proof.
  intros H0 H1 H2 H3 H4 c1 c2 c3 c4.
  pose proof (u32_range (Z.lor (Z.shiftl cout 6) v1)) as R1.
  pose proof (u32_range (Z.lor (Z.shiftl c1 6) v2)) as R2.
  pose proof (u32_range (Z.lor (Z.shiftl c2 6) v3)) as R3.
  fold c1 in R1. fold c2 in R2. fold c3 in R3.
  assert (E1 : c1 = (cout * 64 + v1) mod 2 ^ 32)
    by (unfold c1; rewrite lor_shiftl_6 by lia; reflexivity).
  assert (E2 : c2 = (c1 * 64 + v2) mod 2 ^ 32)
    by (unfold c2; rewrite lor_shiftl_6 by lia; reflexivity).
  assert (E3 : c3 = (c2 * 64 + v3) mod 2 ^ 32)
    by (unfold c3; rewrite lor_shiftl_6 by lia; reflexivity).
  assert (E4 : c4 = (c3 * 64 + v4) mod 2 ^ 32)
    by (unfold c4; rewrite lor_shiftl_6 by lia; reflexivity).
  clearbody c1 c2 c3 c4.
  rewrite !Z.shiftr_div_pow2 by lia.
  change (2 ^ 32) with 4294967296 in *. change (2 ^ 16) with 65536.
  change (2 ^ 8) with 256.
  repeat split; Z.to_euclidean_division_equations; lia.
Qed.

(** One group of four recognised characters, read from an index that is
    a multiple of four, writes the three bytes that the sextets spell. *)
Lemma b64_loop_group (blen slen : Z) (c1 c2 c3 c4 : ascii) (rest : bytes)
  (i cout n v1 v2 v3 v4 : Z) (buf : bytes) :
  b64_value c1 = Some v1 -> b64_value c2 = Some v2 ->
  b64_value c3 = Some v3 -> b64_value c4 = Some v4 ->
  byte_eqb c1 NUL = false -> byte_eqb c2 NUL = false ->
  byte_eqb c3 NUL = false -> byte_eqb c4 NUL = false ->
  0 <= v1 < 64 -> 0 <= v2 < 64 -> 0 <= v3 < 64 -> 0 <= v4 < 64 ->
  0 <= cout -> 0 <= i -> i mod 4 = 0 -> i + 3 <= slen -> n + 3 < blen ->
  exists cout',
    0 <= cout'
    /\ b64_loop blen slen (c1 :: c2 :: c3 :: c4 :: rest) i cout n buf
       = b64_loop blen slen rest (i + 4) cout' (n + 3)
           (buf ++ [chr (v1 * 4 + v2 / 16); chr (v2 mod 16 * 16 + v3 / 4);
                    chr (v3 mod 4 * 64 + v4)]).
Proof.
  intros V1 V2 V3 V4 N1 N2 N3 N4 R1 R2 R3 R4 Hc Hi Hm Hs Hb.
  destruct (sextets_bytes cout v1 v2 v3 v4 Hc R1 R2 R3 R4) as [B1 [B2 B3]].
  cbv zeta in B1, B2, B3.
  rewrite (b64_loop_shift _ _ _ _ _ _ _ _ _ V1 N1)
    by (Z.to_euclidean_division_equations; lia).
  rewrite (b64_loop_shift _ _ _ _ _ _ _ _ _ V2 N2)
    by (Z.to_euclidean_division_equations; lia).
  rewrite (b64_loop_shift _ _ _ _ _ _ _ _ _ V3 N3)
    by (Z.to_euclidean_division_equations; lia).
  rewrite (b64_loop_emit _ _ _ _ _ _ _ _ _ V4 N4)
    by (Z.to_euclidean_division_equations; lia).
  eexists. split; [apply u32_range|].
  rewrite <- (chr_mod (Z.shiftr _ 16)), B1.
  rewrite <- (chr_mod (Z.shiftr _ 8)), B2.
  rewrite <- (chr_mod (u32 _)), B3.
  f_equal. lia.
Qed.

Lemma padding_cons3 (a b c : ascii) (r : bytes) :
  padding (a :: b :: c :: r) = padding r.
Proof.
  unfold padding. cbn [List.length].
  replace (S (S (S (List.length r)))) with (List.length r + 1 * 3)%nat by lia.
  rewrite Nat.Div0.mod_add. reflexivity.
Qed.

Lemma b64_loop_encoded (k : nat) :
  forall s blen slen i cout n buf,
    (List.length s <= k)%nat -> 0 <= cout -> 0 <= i -> i mod 4 = 0 ->
    i + len (b64_encode s) <= slen + 1 ->
    n + len s + Z.of_nat (padding s) < blen ->
    b64_loop blen slen (b64_encode s) i cout n buf
    = (n + len s + Z.of_nat (padding s), buf ++ s ++ repeat NUL (padding s)).
Proof.
  induction k as [|k IH]; intros s blen slen i cout n buf Hk Hc Hi Hm Hs Hb.
  - destruct s; [|cbn in Hk; lia]. cbn. rewrite app_nil_r. f_equal. lia.
  - destruct s as [|a [|b [|c r]]].
    + cbn. rewrite app_nil_r. f_equal. lia.
    + pose proof (code_range a).
      change (b64_encode [a])
        with [b64_char (code a / 4); b64_char (code a mod 4 * 16);
              "="; "="] in *.
      change (len [a]) with 1 in *. change (padding [a]) with 2%nat in *.
      match type of Hs with context [len ?l] => change (len l) with 4 in Hs end.
      destruct (b64_value_char (code a / 4)
                  ltac:(Z.to_euclidean_division_equations; lia)) as [V1 N1].
      destruct (b64_value_char (code a mod 4 * 16)
                  ltac:(Z.to_euclidean_division_equations; lia)) as [V2 N2].
      destruct (b64_loop_group blen slen _ _ "=" "=" [] i cout n _ _ 0 0 buf
                  V1 V2 eq_refl eq_refl N1 N2 eq_refl eq_refl)
        as [cout' [_ E]];
        try (Z.to_euclidean_division_equations; lia).
      rewrite E. cbn [b64_loop repeat app].
      replace (code a / 4 * 4 + code a mod 4 * 16 / 16) with (code a)
        by (Z.to_euclidean_division_equations; lia).
      replace (code a mod 4 * 16 mod 16 * 16 + 0 / 4) with 0
        by (Z.to_euclidean_division_equations; lia).
      rewrite chr_code. f_equal. lia.
    + pose proof (code_range a). pose proof (code_range b).
      change (b64_encode [a; b])
        with [b64_char (code a / 4);
              b64_char (code a mod 4 * 16 + code b / 16);
              b64_char (code b mod 16 * 4); "="] in *.
      change (len [a; b]) with 2 in *. change (padding [a; b]) with 1%nat in *.
      match type of Hs with context [len ?l] => change (len l) with 4 in Hs end.
      destruct (b64_value_char (code a / 4)
                  ltac:(Z.to_euclidean_division_equations; lia)) as [V1 N1].
      destruct (b64_value_char (code a mod 4 * 16 + code b / 16)
                  ltac:(Z.to_euclidean_division_equations; lia)) as [V2 N2].
      destruct (b64_value_char (code b mod 16 * 4)
                  ltac:(Z.to_euclidean_division_equations; lia)) as [V3 N3].
      destruct (b64_loop_group blen slen _ _ _ "=" [] i cout n _ _ _ 0 buf
                  V1 V2 V3 eq_refl N1 N2 N3 eq_refl)
        as [cout' [_ E]];
        try (Z.to_euclidean_division_equations; lia).
      rewrite E. cbn [b64_loop repeat app].
      replace (code a / 4 * 4 + (code a mod 4 * 16 + code b / 16) / 16)
        with (code a) by (Z.to_euclidean_division_equations; lia).
      replace ((code a mod 4 * 16 + code b / 16) mod 16 * 16
               + code b mod 16 * 4 / 4)
        with (code b) by (Z.to_euclidean_division_equations; lia).
      replace (code b mod 16 * 4 mod 4 * 64 + 0) with 0
        by (Z.to_euclidean_division_equations; lia).
      rewrite !chr_code. f_equal. lia.
    + pose proof (code_range a). pose proof (code_range b).
      pose proof (code_range c).
      change (b64_encode (a :: b :: c :: r))
        with (b64_char (code a / 4)
              :: b64_char (code a mod 4 * 16 + code b / 16)
              :: b64_char (code b mod 16 * 4 + code c / 64)
              :: b64_char (code c mod 64) :: b64_encode r) in *.
      rewrite padding_cons3 in *. rewrite !len_cons in *.
      pose proof (len_nonneg (b64_encode r)). pose proof (len_nonneg r).
      cbn [List.length] in Hk.
      destruct (b64_value_char (code a / 4)
                  ltac:(Z.to_euclidean_division_equations; lia)) as [V1 N1].
      destruct (b64_value_char (code a mod 4 * 16 + code b / 16)
                  ltac:(Z.to_euclidean_division_equations; lia)) as [V2 N2].
      destruct (b64_value_char (code b mod 16 * 4 + code c / 64)
                  ltac:(Z.to_euclidean_division_equations; lia)) as [V3 N3].
      destruct (b64_value_char (code c mod 64)
                  ltac:(Z.to_euclidean_division_equations; lia)) as [V4 N4].
      destruct (b64_loop_group blen slen _ _ _ _ (b64_encode r) i cout n
                  _ _ _ _ buf V1 V2 V3 V4 N1 N2 N3 N4)
        as [cout' [Hc' E]];
        try (Z.to_euclidean_division_equations; lia).
      rewrite E.
      replace (code a / 4 * 4 + (code a mod 4 * 16 + code b / 16) / 16)
        with (code a) by (Z.to_euclidean_division_equations; lia).
      replace ((code a mod 4 * 16 + code b / 16) mod 16 * 16
               + (code b mod 16 * 4 + code c / 64) / 4)
        with (code b) by (Z.to_euclidean_division_equations; lia).
      replace ((code b mod 16 * 4 + code c / 64) mod 4 * 64 + code c mod 64)
        with (code c) by (Z.to_euclidean_division_equations; lia).
      rewrite !chr_code.
      rewrite IH; try lia.
      * rewrite <- app_assoc. cbn [app]. f_equal. lia.
      * Z.to_euclidean_division_equations; lia.
Qed.

Lemma cstr_app_nul (s r : bytes) :
  PathRule.no_nul s -> cstr (s ++ NUL :: r) = s.
Proof.
  induction 1 as [|c s Hc _ IH]; cbn [app cstr].
  - reflexivity.
  - destruct (byte_eqb c NUL) eqn:E; [apply byte_eqb_eq in E; contradiction|].
    rewrite IH. reflexivity.
Qed.

(** The decoder on the encoding of a string. *)
Lemma b64decode_of_encode (s : bytes) (blen : Z) :
  len s + Z.of_nat (padding s) < blen ->
  uh_b64decode blen (b64_encode s) (len (b64_encode s))
  = (len s + Z.of_nat (padding s) + 1, s ++ repeat NUL (padding s) ++ [NUL]).
Proof.
  intros Hb. unfold uh_b64decode.
  rewrite (b64_loop_encoded (List.length s)) by (lia || reflexivity).
  cbn [app]. rewrite <- !app_assoc. f_equal.
Qed.

Lemma cstr_of_decoded (s : bytes) (n : nat) :
  PathRule.no_nul s -> cstr (s ++ repeat NUL n ++ [NUL]) = s.
Proof.
  intros Hn. destruct n; cbn [repeat app]; apply cstr_app_nul; assumption.
Qed.

(** X6.  A well-formed source: for the Base64 text of any string of
    bytes, [uh_b64decode] writes the bytes back, then one zero byte for
    each ['='] of the padding, then the terminator, and returns their
    number; read as a C string the buffer holds the string itself when
    it has no zero byte.  The buffer must be larger than three bytes
    for each group. *)
Theorem uh_b64decode_encoded (s : bytes) (blen : Z) :
  len s + Z.of_nat (padding s) < blen ->
  uh_b64decode blen (b64_encode s) (len (b64_encode s))
  = (len s + Z.of_nat (padding s) + 1, s ++ repeat NUL (padding s) ++ [NUL])
  /\ (PathRule.no_nul s ->
      cstr (snd (uh_b64decode blen (b64_encode s) (len (b64_encode s))))
      = s).
Proof.
  intros Hb. split; [apply b64decode_of_encode; assumption|].
  intros Hn. rewrite b64decode_of_encode by assumption. cbn [snd].
  apply cstr_of_decoded. assumption.
Qed.

Lemma uh_b64decode_encoded_witness :
  uh_b64decode 16 (b64_encode (lit "bob:y")) (len (b64_encode (lit "bob:y")))
  = (len (lit "bob:y") + Z.of_nat (padding (lit "bob:y")) + 1,
     lit "bob:y" ++ repeat NUL (padding (lit "bob:y")) ++ [NUL]).
Proof.
  apply (proj1 (uh_b64decode_encoded (lit "bob:y") 16 eq_refl)).
Defined.

End B64More.

Module SendFacts.
Import Net Stream SendRule.





(** A short write is followed by another, and the value returned is
    that of the last. *)
Example uh_tcp_send_short_write :
  let cl := {| conf := conf Fixtures.plain_client;
               request := request Fixtures.plain_client;
               tx := []; net := [WrSome 2; WrEINTR; WrAll] |} in
  fst (uh_tcp_send (lit "hello") 5 cl) = 3
  /\ tx (snd (uh_tcp_send (lit "hello") 5 cl)) = lit "hello".
Proof. vm_compute. split; reflexivity. Qed.

Lemma len_take (n : Z) (l : bytes) : 0 <= n <= len l -> len (take n l) = n.
Proof.
  intros H. unfold len, take in *. rewrite firstn_length_le by lia. lia.
Qed.

(** A chunk cut out of a larger buffer. *)
Lemma uh_http_sendc_take (cl : client) (data : bytes) (n : Z)
  (rest : list wr_event) :
  net cl = WrAll :: WrAll :: WrAll :: rest ->
  0 < n < 1048576 -> n <= len data ->
  uh_http_sendc data n cl
  = (0, with_io cl (tx cl ++ frame (take n data)) rest).
Proof.
  intros Hn Hd Hl.
  rewrite (NetFacts.uh_http_sendc_steps cl data _ rest Hn) by lia.
  unfold frame, snprintf. cbn [fst snd]. rewrite len_take by lia.
  pose proof (NetFacts.fmt_X_short n ltac:(lia)) as Hs.
  assert (E : firstn 7 (fmt_X n ++ CRLF) = fmt_X n ++ CRLF).
  { apply firstn_all2. rewrite length_app. cbn [List.length CRLF]. lia. }
  rewrite E, NetFacts.take_app. rewrite <- !app_assoc. reflexivity.
Qed.

Section Limits.

Variable UH_LIMIT_MSGHEAD : nat.

(** The response of [uh_http_sendhf] when every write takes what it is
    given and the head and the text fit the buffer. *)
Lemma uh_http_sendhf_all (code : Z) (summary text : bytes) (cl : client)
  (rest : list wr_event) :
  net cl = repeat WrAll 5 ++ rest ->
  (List.length (plain_head code summary) < UH_LIMIT_MSGHEAD)%nat ->
  (0 < List.length text < UH_LIMIT_MSGHEAD)%nat ->
  len text < 1048576 ->
  uh_http_sendhf UH_LIMIT_MSGHEAD code summary text cl
  = (0, with_io cl
          (tx cl ++ plain_head code summary ++ frame text ++ terminator)
          rest).
Proof.
  intros Hn Hh Ht Hc. unfold uh_http_sendhf. fold (plain_head code summary).
  unfold snprintf. destruct UH_LIMIT_MSGHEAD as [|m]; [lia|].
  rewrite !firstn_all2 by lia.
  destruct cl as [c r t nt]. cbn [net tx] in *. subst nt.
  cbn [repeat app]. unfold ensure_ret at 1.
  assert (Hpos : 0 < len (plain_head code summary)).
  { unfold plain_head. rewrite len_app.
    pose proof (len_nonneg (fmt_03i code ++ lit " " ++ summary ++ CRLF
      ++ lit "Connection: close" ++ CRLF
      ++ lit "Content-Type: text/plain" ++ CRLF
      ++ lit "Transfer-Encoding: chunked" ++ CRLF ++ CRLF)).
    change (len (lit "HTTP/1.1 ")) with 9. lia. }
  rewrite NetFacts.uh_tcp_send_all by assumption.
  destruct (Z.ltb_spec (len (plain_head code summary)) 0); [lia|].
  rewrite NetFacts.take_app.
  unfold ensure_ret at 1.
  rewrite uh_http_sendc_take with (rest := WrAll :: rest);
    [|reflexivity|unfold len in *; lia
     |unfold len in *; rewrite length_app; cbn [List.length]; lia].
  cbn [Z.ltb Z.compare]. rewrite NetFacts.take_app.
  unfold ensure_ret, with_io. cbn [conf request tx].
  rewrite NetFacts.uh_http_sendc_empty with (rest := rest);
    [|reflexivity].
  cbn [Z.ltb Z.compare ret with_io conf request tx].
  rewrite <- !app_assoc. reflexivity.
Qed.

(** [%03i] is a width at least: a code of one digit gets two zeros, a
    code of four digits keeps them all, and the sign counts in the
    width. *)
Example fmt_03i_minimum_width :
  fmt_03i 7 = lit "007" /\ fmt_03i 403 = lit "403"
  /\ fmt_03i 1000 = lit "1000" /\ fmt_03i (-5) = lit "-05"
  /\ fmt_03i (-1234) = lit "-1234" /\ fmt_03i (2 ^ 31) = lit "-2147483648".
Proof. vm_compute. repeat split. Qed.

(** X8.  On a connection whose writes succeed, [uh_http_sendhf] sends a
    complete HTTP/1.1 response whatever the version of the request: the
    status line with the code in three digits at least and the summary,
    [Connection: close], [Content-Type: text/plain],
    [Transfer-Encoding: chunked],
    the empty line, then the text as one chunk and the last chunk; the
    body decodes to the text.  (The head and the text fit the buffer of
    [UH_LIMIT_MSGHEAD] bytes, and the text is not empty.) *)
Theorem uh_http_sendhf_response (code : Z) (summary text : bytes)
  (cl : client) (rest : list wr_event) :
  net cl = repeat WrAll 5 ++ rest ->
  (List.length (plain_head code summary) < UH_LIMIT_MSGHEAD)%nat ->
  (0 < List.length text < UH_LIMIT_MSGHEAD)%nat ->
  len text < 1048576 ->
  uh_http_sendhf UH_LIMIT_MSGHEAD code summary text cl
  = (0, with_io cl
          (tx cl ++ plain_head code summary ++ frame text ++ terminator)
          rest)
  /\ dechunk 2 (frame text ++ terminator) = Some text.
Proof.
  intros Hn Hh Ht Hc. split; [apply uh_http_sendhf_all; assumption|].
  pose proof (NetFacts.dechunk_frames [text]) as Hd.
  cbn [flat_map concat List.length app] in Hd.
  rewrite !app_nil_r in Hd. apply Hd.
  constructor; [|constructor]. unfold len in *. lia.
Qed.

End Limits.

Lemma uh_http_sendhf_response_witness :
  uh_http_sendhf 4096 404 (lit "Not Found") (lit "No such file or directory")
    (Files.bare_request UH_HTTP_MSG_GET UH_HTTP_VER_1_0)
  = (0, with_io (Files.bare_request UH_HTTP_MSG_GET UH_HTTP_VER_1_0)
          (lit "HTTP/1.1 404 Not Found" ++ CRLF
           ++ lit "Connection: close" ++ CRLF
           ++ lit "Content-Type: text/plain" ++ CRLF
           ++ lit "Transfer-Encoding: chunked" ++ CRLF ++ CRLF
           ++ lit "19" ++ CRLF ++ lit "No such file or directory" ++ CRLF
           ++ lit "0" ++ CRLF ++ CRLF)
          (repeat WrAll 11)).
Proof.
  refine (proj1 (uh_http_sendhf_response 4096 404 (lit "Not Found")
                   (lit "No such file or directory")
                   (Files.bare_request UH_HTTP_MSG_GET UH_HTTP_VER_1_0)
                   (repeat WrAll 11) _ _ _ _)).
  - reflexivity.
  - apply Nat.ltb_lt. vm_compute. reflexivity.
  - split; apply Nat.ltb_lt; vm_compute; reflexivity.
  - vm_compute. reflexivity.
Defined.

End SendFacts.

Module TagFacts.
Import Net Path File FileRule TagRule.

Lemma bytes_eqb_eq (a b : bytes) : bytes_eqb a b = true <-> a = b.
Proof.
  revert b. induction a as [|x a IH]; intros [|y b]; cbn [bytes_eqb];
    try (split; [discriminate|congruence]); [tauto|].
  rewrite andb_true_iff, byte_eqb_eq, IH. split; [intros [-> ->]|intros [= -> ->]]; auto.
Qed.

Lemma put_nul_cstr_length (hdr : bytes) :
  forall i, (List.length (cstr (put_nul i hdr)) <= i)%nat.
Proof.
  induction hdr as [|c hdr IH]; intros i; [destruct i; cbn; lia|].
  destruct i as [|i]; cbn [put_nul cstr].
  - rewrite byte_eqb_refl. cbn. lia.
  - destruct (byte_eqb c NUL); cbn [List.length]; [lia|].
    specialize (IH i). lia.
Qed.

Lemma token_loop_S (fuel : nat) (hdr : bytes) (i p : nat) (tag : bytes) :
  token_loop (S fuel) hdr i p tag
  = if (i <? List.length (cstr hdr))%nat then
      if byte_eqb (nth i hdr NUL) " " || byte_eqb (nth i hdr NUL) ","
      then token_loop fuel (put_nul i hdr) (i + 2) (i + 1) tag
      else if token_matches hdr p tag then (true, hdr)
           else token_loop fuel hdr (i + 1) p tag
    else (false, hdr).
Proof. reflexivity. Qed.

(** After the cut the loop leaves: the string ends where it has been
    cut, and the index is already beyond. *)
Lemma token_loop_after_cut (fuel : nat) (hdr : bytes) (i p : nat)
  (tag : bytes) :
  token_loop fuel (put_nul i hdr) (i + 2) p tag = (false, put_nul i hdr).
Proof.
  destruct fuel as [|fuel]; cbn [token_loop]; [reflexivity|].
  pose proof (put_nul_cstr_length hdr i).
  destruct (Nat.ltb_spec (i + 2) (List.length (cstr (put_nul i hdr))));
    [lia|reflexivity].
Qed.

(** Before the cut every turn makes the same comparison. *)
Lemma token_loop_no_match (fuel : nat) (hdr tag : bytes) :
  forall i,
    token_matches hdr 0 tag = false ->
    fst (token_loop fuel hdr i 0 tag) = false.
Proof.
  induction fuel as [|fuel IH]; intros i Hm; cbn [token_loop];
    [reflexivity|].
  destruct (_ <? _)%nat; [|reflexivity].
  destruct (_ || _); [rewrite token_loop_after_cut; reflexivity|].
  rewrite Hm. apply IH. assumption.
Qed.

Lemma token_matches_whole (hdr tag : bytes) :
  PathRule.no_nul hdr ->
  token_matches hdr 0 tag = bytes_eqb hdr (lit "*") || bytes_eqb hdr tag.
Proof.
  intros Hn. unfold token_matches. cbn [skipn].
  rewrite (CanonFacts.cstr_id _ Hn). reflexivity.
Qed.

Lemma token_loop_whole (hdr tag : bytes) :
  PathRule.no_nul hdr ->
  some_token_matches hdr tag = whole_value_matches hdr tag.
Proof.
  intros Hn. unfold some_token_matches, whole_value_matches.
  destruct hdr as [|c hdr]; [reflexivity|].
  rewrite token_loop_S, (CanonFacts.cstr_id _ Hn).
  cbn [List.length Nat.ltb Nat.leb nth].
  fold (is_separator c). destruct (is_separator c); cbn [negb andb].
  - rewrite (token_loop_after_cut _ (c :: hdr) 0). reflexivity.
  - rewrite <- (token_matches_whole _ _ Hn).
    destruct (token_matches (c :: hdr) 0 tag) eqn:Hm; [reflexivity|].
    apply token_loop_no_match. assumption.
Qed.

(** *** What the loop leaves in the header *)

Lemma put_nul_app (pre : bytes) (c : ascii) (r : bytes) :
  put_nul (List.length pre) (pre ++ c :: r) = pre ++ NUL :: r.
Proof.
  induction pre as [|x pre IH]; cbn [List.length app put_nul];
    [reflexivity|]. rewrite IH. reflexivity.
Qed.

Lemma cut_id (s : bytes) : existsb is_separator s = false -> cut s = s.
Proof.
  induction s as [|c r IH]; cbn [existsb cut]; [reflexivity|].
  intros H. apply orb_false_iff in H as [Hc Hr]. rewrite Hc.
  destruct (byte_eqb c NUL); [reflexivity|]. rewrite IH by assumption.
  reflexivity.
Qed.

Lemma cstr_skipn (b : bytes) : cstr b ++ skipn (List.length (cstr b)) b = b.
Proof.
  induction b as [|c r IH]; cbn [cstr]; [reflexivity|].
  destruct (byte_eqb c NUL); [reflexivity|].
  cbn [List.length skipn app]. rewrite IH. reflexivity.
Qed.

Lemma cut_cstr (hdr : bytes) :
  cut (cstr hdr) ++ skipn (List.length (cstr hdr)) hdr = cut hdr.
Proof.
  induction hdr as [|c r IH]; cbn [cstr cut]; [reflexivity|].
  destruct (byte_eqb c NUL) eqn:Hc; [reflexivity|].
  cbn [cut List.length skipn]. rewrite Hc.
  destruct (is_separator c); cbn [app].
  - rewrite cstr_skipn. reflexivity.
  - rewrite IH. reflexivity.
Qed.

Lemma existsb_separator_app (a b : bytes) :
  existsb is_separator (a ++ b) = false -> existsb is_separator b = false.
Proof.
  rewrite existsb_app. intros H. apply orb_false_iff in H. tauto.
Qed.

(** From the index [List.length pre] on, the bytes before it being no
    separators: the loop cuts at the first separator of [post], or
    leaves the value as it is. *)
Lemma token_loop_leaves (tag : bytes) (fuel : nat) :
  forall pre post,
    PathRule.no_nul (pre ++ post) ->
    (List.length post < fuel)%nat ->
    (token_matches (pre ++ post) 0 tag = true ->
     existsb is_separator (pre ++ post) = false) ->
    snd (token_loop fuel (pre ++ post) (List.length pre) 0 tag)
    = pre ++ cut post.
Proof.
  induction fuel as [|fuel IH]; intros pre post Hn Hf Hm; [lia|].
  rewrite token_loop_S, (CanonFacts.cstr_id _ Hn).
  destruct post as [|c r].
  - rewrite app_nil_r.
    destruct (Nat.ltb_spec (List.length pre) (List.length pre)); [lia|].
    cbn [snd cut]. rewrite app_nil_r. reflexivity.
  - assert (Hc : byte_eqb c NUL = false).
    { apply Forall_app in Hn as [_ Hn]. inversion Hn; subst.
      destruct (byte_eqb c NUL) eqn:E; [|reflexivity].
      apply byte_eqb_eq in E. contradiction. }
    destruct (Nat.ltb_spec (List.length pre)
                (List.length (pre ++ c :: r)));
      [|rewrite length_app in *; cbn [List.length] in *; lia].
    rewrite app_nth2, Nat.sub_diag by lia. cbn [nth].
    fold (is_separator c).
    assert (Hcut : is_separator c = false -> cut (c :: r) = c :: cut r)
      by (intros E; cbn [cut]; rewrite Hc, E; reflexivity).
    destruct (is_separator c) eqn:Hs.
    + rewrite token_loop_after_cut, put_nul_app. cbn [snd cut].
      rewrite Hc, Hs. reflexivity.
    + destruct (token_matches (pre ++ c :: r) 0 tag) eqn:Ht.
      * cbn [snd]. specialize (Hm eq_refl).
        apply existsb_separator_app in Hm. rewrite (cut_id _ Hm).
        reflexivity.
      * rewrite (Hcut eq_refl). clear Hcut.
        change (pre ++ c :: r) with (pre ++ [c] ++ r) in *.
        rewrite app_assoc in *.
        replace (List.length pre + 1)%nat with (List.length (pre ++ [c]))
          by (rewrite length_app; reflexivity).
        rewrite IH; [rewrite <- app_assoc; reflexivity|assumption| |].
        -- cbn [List.length] in Hf. lia.
        -- congruence.
Qed.

(** The loop of the two checks puts a NUL in the place of the first
    blank or comma of the value and writes nothing else. *)
Lemma tokens_left_cut (hdr tag : bytes) :
  Forall (fun c => is_separator c = false) tag ->
  tokens_left hdr tag = cut hdr.
Proof.
  intros Htag. unfold tokens_left.
  pose proof (CanonFacts.cstr_no_nul hdr) as Hn.
  rewrite (token_loop_leaves tag _ [] (cstr hdr)); [apply cut_cstr| | |].
  - exact Hn.
  - lia.
  - cbn [app]. rewrite (token_matches_whole _ _ Hn). intros H.
    apply orb_true_iff in H as [H|H]; apply bytes_eqb_eq in H; rewrite H.
    + reflexivity.
    + apply not_true_is_false. intros E. apply existsb_exists in E.
      destruct E as [x [Hin Hx]]. rewrite Forall_forall in Htag.
      rewrite (Htag x Hin) in Hx. discriminate.
Qed.

(** X9.  The token loop of [If-Match] and [If-None-Match] does not
    look at the tokens of a list: it compares the whole header value
    with [*] and with the tag, and leaves at the first separator.  The
    header matches exactly when its value, which must not begin with a
    blank or a comma, is [*] or the tag itself. *)
Theorem some_token_matches_whole_value (hdr tag : bytes) :
  PathRule.no_nul hdr ->
  some_token_matches hdr tag = true
  <-> (exists c r, hdr = c :: r /\ is_separator c = false)
      /\ (hdr = lit "*" \/ hdr = tag).
Proof.
  intros Hn. rewrite (token_loop_whole _ _ Hn).
  unfold whole_value_matches. destruct hdr as [|c r].
  - split; [discriminate|]. intros [[c [r [E _]]] _]. discriminate.
  - rewrite andb_true_iff, negb_true_iff, orb_true_iff, !bytes_eqb_eq.
    split.
    + intros [Hs Hm]. split; [exists c, r; auto|assumption].
    + intros [[c' [r' [[= <- <-] Hs]]] Hm]. auto.
Qed.

Lemma some_token_matches_whole_value_witness :
  some_token_matches (lit "W/1") (lit "W/1") = true.
Proof.
  apply (some_token_matches_whole_value (lit "W/1") (lit "W/1")).
  - repeat (constructor; [discriminate|]). constructor.
  - split; [exists "W"%char, (lit "/1"); split; reflexivity|].
    right. reflexivity.
Defined.

Lemma hex_digits_chars (P : ascii -> Prop) (table : bytes) (fuel : nat) :
  (forall m, 0 <= m < 16 -> P (nth (Z.to_nat m) table NUL)) ->
  forall n acc,
    Forall P acc -> Forall P (hex_digits table fuel n acc).
Proof.
  intros Ht. induction fuel as [|fuel IH]; intros n acc Ha;
    cbn [hex_digits]; [assumption|].
  assert (Hd : P (nth (Z.to_nat (n mod 16)) table NUL))
    by (apply Ht; Z.to_euclidean_division_equations; lia).
  destruct (n / 16 =? 0); [constructor; assumption|].
  apply IH. constructor; assumption.
Qed.

Lemma fmt_x_no_separator (n : Z) :
  Forall (fun c => is_separator c = false) (fmt_x n).
Proof.
  unfold fmt_x. apply hex_digits_chars; [|constructor].
  intros m Hm.
  assert (H : m = 0 \/ m = 1 \/ m = 2 \/ m = 3 \/ m = 4 \/ m = 5 \/ m = 6
              \/ m = 7 \/ m = 8 \/ m = 9 \/ m = 10 \/ m = 11 \/ m = 12
              \/ m = 13 \/ m = 14 \/ m = 15) by lia.
  repeat (destruct H as [->|H]; [vm_compute; reflexivity|]).
  subst. vm_compute. reflexivity.
Qed.

Lemma uh_file_mktag_no_separator (s : stat_t) :
  Forall (fun c => is_separator c = false) (uh_file_mktag s).
Proof.
  unfold uh_file_mktag.
  repeat (apply Forall_app; split); try apply fmt_x_no_separator;
    repeat constructor.
Qed.

Section Env.

Variable UH_LIMIT_MSGHEAD : nat.
Variable strftime_gmt : Z -> bytes.
Variable strptime_gm : bytes -> option Z.
Variable now : Z.

(** X10.  A header that lists several entity tags never matches the
    tag of the file, whichever tags it lists: with such an
    [If-None-Match] the check passes and no [304] is sent, and with such
    an [If-Match] the check fails with [412].  In both cases the check
    leaves the value of the header cut at its first blank or comma, and
    nothing else of the request is changed. *)
Theorem tag_list_never_matches (s : stat_t) (cl : client) (hdr : bytes) :
  existsb is_separator (cstr hdr) = true ->
  (header_lookup (headers (request cl)) (lit "If-None-Match") = Some hdr ->
   uh_file_if_none_match UH_LIMIT_MSGHEAD strftime_gmt now s cl
   = ((1, 1),
      with_request cl
        (store_header (lit "If-None-Match") (cut hdr) (request cl))))
  /\ (header_lookup (headers (request cl)) (lit "If-Match") = Some hdr ->
      uh_file_if_match UH_LIMIT_MSGHEAD s cl
      = emit (uh_file_response_412 UH_LIMIT_MSGHEAD)
          (with_request cl
             (store_header (lit "If-Match") (cut hdr) (request cl)))).
Proof.
  intros Hsep.
  assert (Hno : some_token_matches (cstr hdr) (uh_file_mktag s) = false).
  { rewrite token_loop_whole by apply CanonFacts.cstr_no_nul.
    unfold whole_value_matches.
    destruct (cstr hdr) as [|c r] eqn:Hc; [reflexivity|].
    destruct (is_separator c) eqn:Hs; [reflexivity|]. cbn [negb andb].
    apply orb_false_iff. split.
    - cbn [existsb] in Hsep. rewrite Hs in Hsep. cbn [orb] in Hsep.
      destruct r as [|c' r']; [discriminate|].
      cbn [bytes_eqb lit String.list_ascii_of_string].
      apply andb_false_r.
    - destruct (bytes_eqb (c :: r) (uh_file_mktag s)) eqn:He; [|reflexivity].
      apply bytes_eqb_eq in He.
      pose proof (uh_file_mktag_no_separator s) as Hall.
      rewrite <- He in Hall. apply existsb_exists in Hsep.
      destruct Hsep as [x [Hin Hx]].
      rewrite Forall_forall in Hall. specialize (Hall x Hin). congruence. }
  pose proof (tokens_left_cut hdr _ (uh_file_mktag_no_separator s)) as Hcut.
  split; intros Hl.
  - unfold uh_file_if_none_match, uh_file_header_lookup. rewrite Hl.
    cbn zeta. rewrite Hno, Hcut. reflexivity.
  - unfold uh_file_if_match, uh_file_header_lookup. rewrite Hl.
    cbn zeta. rewrite Hno, Hcut. reflexivity.
Qed.

(** X11.  A date that [strptime] does not read counts as the epoch.
    With such a date [If-Unmodified-Since] fails the request with [412]
    for every file that is not older than the epoch, and
    [If-Modified-Since] is passed over for every file that is younger
    than the epoch. *)
Theorem unparsable_date (s : stat_t) (cl : client) (hdr : bytes) :
  strptime_gm (cstr hdr) = None ->
  (header_lookup (headers (request cl)) (lit "If-Unmodified-Since")
   = Some hdr ->
   0 <= st_mtime s ->
   uh_file_if_unmodified_since UH_LIMIT_MSGHEAD strptime_gm s cl
   = emit (uh_file_response_412 UH_LIMIT_MSGHEAD) cl)
  /\ (header_lookup (headers (request cl)) (lit "If-Modified-Since")
      = Some hdr ->
      0 < st_mtime s ->
      uh_file_if_modified_since UH_LIMIT_MSGHEAD strftime_gmt strptime_gm
        now s cl
      = ((1, 1), cl)).
Proof.
  intros Hd. split; intros Hl Hm.
  - unfold uh_file_if_unmodified_since, uh_file_header_lookup,
      uh_file_date2unix.
    rewrite Hl, Hd. destruct (Z.leb_spec 0 (st_mtime s)); [reflexivity|lia].
  - unfold uh_file_if_modified_since, uh_file_header_lookup,
      uh_file_date2unix.
    rewrite Hl, Hd. destruct (Z.leb_spec (st_mtime s) 0); [lia|reflexivity].
Qed.

End Env.

Lemma tag_list_never_matches_witness :
  uh_file_if_none_match 4096 Files.date_text 1597754096 Files.regular
    (with_request Files.plain_get
       {| method := UH_HTTP_MSG_GET; version := UH_HTTP_VER_1_0;
          headers :=
            [(lit "If-None-Match",
              lit "W/0, " ++ uh_file_mktag Files.regular)];
          req_realm := None |})
  = ((1, 1),
     with_request Files.plain_get
       {| method := UH_HTTP_MSG_GET; version := UH_HTTP_VER_1_0;
          headers :=
            [(lit "If-None-Match",
              lit "W/0" ++ NUL :: lit " " ++ uh_file_mktag Files.regular)];
          req_realm := None |}).
Proof.
  exact (proj1 (tag_list_never_matches 4096 Files.date_text 1597754096
                  Files.regular
                  (with_request Files.plain_get
                     {| method := UH_HTTP_MSG_GET;
                        version := UH_HTTP_VER_1_0;
                        headers :=
                          [(lit "If-None-Match",
                            lit "W/0, " ++ uh_file_mktag Files.regular)];
                        req_realm := None |})
                  (lit "W/0, " ++ uh_file_mktag Files.regular) eq_refl)
           eq_refl).
Defined.

Lemma unparsable_date_witness :
  uh_file_if_unmodified_since 4096 (fun _ => None) Files.regular
    (with_request Files.plain_get
       {| method := UH_HTTP_MSG_GET; version := UH_HTTP_VER_1_0;
          headers := [(lit "If-Unmodified-Since", lit "yesterday")];
          req_realm := None |})
  = emit (uh_file_response_412 4096)
      (with_request Files.plain_get
         {| method := UH_HTTP_MSG_GET; version := UH_HTTP_VER_1_0;
            headers := [(lit "If-Unmodified-Since", lit "yesterday")];
            req_realm := None |}).
Proof.
  apply (proj1 (unparsable_date 4096 Files.date_text (fun _ => None)
                  1597754096 Files.regular _ (lit "yesterday") eq_refl)).
  - reflexivity.
  - vm_compute. congruence.
Defined.

End TagFacts.

Module ServeFacts.
Import Net Stream Path File FileRule ServeRule SendRule.

Section Env.

Variable PATH_MAX : nat.
Variable UH_LIMIT_MSGHEAD : nat.
Variable fs : filesystem.
Variable uh_mime_types : list (bytes * bytes).
Variable strftime_gmt : Z -> bytes.
Variable strptime_gm : bytes -> option Z.
Variable now : Z.
Variable scandir : bytes -> option (list bytes).
Variable fmt_kbyte : Z -> bytes.

(** One piece of the file: a chunk for HTTP/1.1, the bytes otherwise. *)
Lemma send_piece (v : http_version) (p : bytes) (c : config)
  (r : http_request) (t : bytes) (rest : list wr_event) :
  0 < len p < 1048576 ->
  uh_http_send (Some v) p (len p)
    {| conf := c; request := r; tx := t;
       net := repeat WrAll (if after_1_0 v then 3 else 1) ++ rest |}
  = (0, {| conf := c; request := r;
           tx := t ++ (if after_1_0 v then frame p else p);
           net := rest |}).
Proof.
  intros Hp. unfold uh_http_send.
  destruct (Z.ltb_spec (len p) 0); [lia|].
  destruct (after_1_0 v); cbn [repeat app]; unfold ensure_ret, ret.
  - rewrite NetFacts.uh_http_sendc_frame with (rest := rest);
      [|reflexivity|assumption].
    reflexivity.
  - destruct (Z.ltb_spec 0 (len p)); [|lia].
    rewrite NetFacts.uh_tcp_send_all by lia.
    destruct (Z.ltb_spec (len p) 0); [lia|].
    rewrite NetFacts.take_all. reflexivity.
Qed.

Lemma pump_all (v : http_version) (pieces : list bytes) :
  forall (k : io bool) c r t rest,
    Forall (piece_ok UH_LIMIT_MSGHEAD) pieces ->
    pump UH_LIMIT_MSGHEAD v pieces k
      {| conf := c; request := r; tx := t;
         net := repeat WrAll
                  (if after_1_0 v then 3 * List.length pieces
                   else List.length pieces) ++ rest |}
    = k {| conf := c; request := r;
           tx := t ++ (if after_1_0 v then flat_map frame pieces
                       else concat pieces);
           net := rest |}.
Proof.
  induction pieces as [|p pieces IH]; intros k c r t rest Hall.
  - cbn [pump]. destruct (after_1_0 v); cbn [List.length Nat.mul repeat app
      flat_map concat]; rewrite app_nil_r; reflexivity.
  - inversion Hall as [|? ? [Hp Hc] Hall']; subst. cbn [pump].
    rewrite firstn_all2 by (unfold len in Hp; lia).
    destruct (Z.ltb_spec 0 (len p)); [|lia].
    unfold ensure_out, send.
    replace (repeat WrAll (if after_1_0 v then 3 * List.length (p :: pieces)
                           else List.length (p :: pieces)) ++ rest)
      with (repeat WrAll (if after_1_0 v then 3 else 1)
            ++ repeat WrAll (if after_1_0 v then 3 * List.length pieces
                             else List.length pieces) ++ rest).
    2:{ rewrite app_assoc, <- repeat_app. f_equal. f_equal.
        destruct (after_1_0 v); cbn [List.length]; lia. }
    rewrite send_piece by lia. cbn [Z.ltb Z.compare].
    rewrite IH by assumption. f_equal. f_equal.
    destruct (after_1_0 v); cbn [flat_map concat];
      rewrite <- app_assoc; reflexivity.
Qed.

(** The response to a request for a regular file whose preconditions
    pass, on a connection whose writes succeed. *)
Lemma uh_file_request_ok (pi : path_info) (cl : client)
  (rest : list wr_event) :
  (145 <= UH_LIMIT_MSGHEAD)%nat ->
  has_bit (st_mode (stat pi)) S_IFREG = true ->
  0 < fs_open fs (phys pi) ->
  find (fails strptime_gm (stat pi) (request cl)) evaluation_order = None ->
  (List.length (uh_file_mime_lookup uh_mime_types (name pi)) + 16
   < UH_LIMIT_MSGHEAD)%nat ->
  Forall (piece_ok UH_LIMIT_MSGHEAD) (fs_read fs (phys pi)) ->
  net cl
  = repeat WrAll (8 + (if chunked (request cl) then 1 else 0)
                  + body_writes (request cl) (fs_read fs (phys pi)))
    ++ rest ->
  uh_file_request PATH_MAX UH_LIMIT_MSGHEAD fs uh_mime_types strftime_gmt
    strptime_gm now scandir fmt_kbyte pi cl
  = (false,
     with_io
       (with_request cl
          (after_checks (stat pi) (request cl) evaluation_order))
       (tx cl
        ++ block (file_head strftime_gmt now
                    (uh_file_mime_lookup uh_mime_types (name pi))
                    (request cl) (stat pi))
        ++ CRLF ++ file_body (request cl) (fs_read fs (phys pi)))
       rest).
Proof.
  intros Hroom Hreg Hfd Hfind Hmime Hpieces Hn.
  rewrite FileFacts.uh_file_request_head
    with (rest := repeat WrAll (body_writes (request cl)
                                  (fs_read fs (phys pi))) ++ rest);
    try assumption;
    [|rewrite Hn, repeat_app, <- app_assoc; reflexivity].
  set (r5 := after_checks (stat pi) (request cl) evaluation_order).
  destruct cl as [c r t nt].
  unfold with_io, with_request. cbn [conf request tx net].
  unfold body_writes, file_body, is_head.
  destruct (method_eqb (method r) UH_HTTP_MSG_HEAD).
  - cbn [repeat app]. unfold ret. rewrite !app_nil_r. reflexivity.
  - pose proof (pump_all (version r) (fs_read fs (phys pi))) as Hp.
    destruct (after_1_0 (version r)) eqn:Hv.
    + rewrite repeat_app, <- app_assoc. rewrite Hp by assumption.
      unfold ensure_out, send, uh_http_send. cbn [Z.ltb Z.compare].
      rewrite Hv. unfold ensure_ret, ret. cbn [repeat app].
      rewrite NetFacts.uh_http_sendc_empty with (rest := rest);
        [|reflexivity].
      cbn [Z.ltb Z.compare with_io conf request tx].
      rewrite <- !app_assoc. reflexivity.
    + rewrite Hp by assumption.
      unfold ensure_out, send, uh_http_send. cbn [Z.ltb Z.compare].
      rewrite Hv. unfold ret. cbn [Z.ltb Z.compare].
      rewrite <- !app_assoc. reflexivity.
Qed.

(** X12.  A request for a regular file that opens and whose
    preconditions pass, on a connection whose writes succeed, is
    answered with the [200] head, [Content-Type], [Content-Length] and,
    for HTTP/1.1 and a method other than [HEAD], [Transfer-Encoding:
    chunked]; then the empty line; then the body: nothing for [HEAD],
    the bytes that [read] delivers, piece by piece, for HTTP/1.0 and
    0.9, and for HTTP/1.1 one chunk for each piece and the last chunk,
    which decode to the bytes of the file.  The request is left as the
    checks of the conditional headers have rewritten it. *)
Theorem uh_file_request_delivers (pi : path_info) (cl : client)
  (rest : list wr_event) :
  (145 <= UH_LIMIT_MSGHEAD)%nat ->
  has_bit (st_mode (stat pi)) S_IFREG = true ->
  0 < fs_open fs (phys pi) ->
  find (fails strptime_gm (stat pi) (request cl)) evaluation_order = None ->
  (List.length (uh_file_mime_lookup uh_mime_types (name pi)) + 16
   < UH_LIMIT_MSGHEAD)%nat ->
  Forall (piece_ok UH_LIMIT_MSGHEAD) (fs_read fs (phys pi)) ->
  net cl
  = repeat WrAll (8 + (if chunked (request cl) then 1 else 0)
                  + body_writes (request cl) (fs_read fs (phys pi)))
    ++ rest ->
  uh_file_request PATH_MAX UH_LIMIT_MSGHEAD fs uh_mime_types strftime_gmt
    strptime_gm now scandir fmt_kbyte pi cl
  = (false,
     with_io
       (with_request cl
          (after_checks (stat pi) (request cl) evaluation_order))
       (tx cl
        ++ block (file_head strftime_gmt now
                    (uh_file_mime_lookup uh_mime_types (name pi))
                    (request cl) (stat pi))
        ++ CRLF ++ file_body (request cl) (fs_read fs (phys pi)))
       rest)
  /\ (chunked (request cl) = true ->
      dechunk (S (List.length (fs_read fs (phys pi))))
        (file_body (request cl) (fs_read fs (phys pi)))
      = Some (concat (fs_read fs (phys pi))))
  /\ (after_1_0 (version (request cl)) = false ->
      is_head (request cl) = false ->
      file_body (request cl) (fs_read fs (phys pi))
      = concat (fs_read fs (phys pi))).
Proof.
  intros Hroom Hreg Hfd Hfind Hmime Hpieces Hn.
  split; [apply uh_file_request_ok; assumption|]. split.
  - unfold chunked, file_body. intros Hc.
    apply andb_true_iff in Hc as [Hv Hh]. apply negb_true_iff in Hh.
    rewrite Hv, Hh. apply NetFacts.dechunk_frames.
    eapply Forall_impl; [|exact Hpieces]. unfold piece_ok. cbn beta.
    intros; lia.
  - unfold file_body. intros -> ->. reflexivity.
Qed.

(** X13.  What is neither a regular file that opens nor a directory
    that may be listed is refused: on a connection whose writes succeed
    the answer is the [403] response of [uh_http_sendhf] and nothing
    else.  This is the answer for a directory when [no_dirlists] is set
    and for a regular file when [open] fails or gives the descriptor
    [0]. *)
Theorem uh_file_request_forbidden (pi : path_info) (cl : client)
  (rest : list wr_event) :
  (136 <= UH_LIMIT_MSGHEAD)%nat ->
  has_bit (st_mode (stat pi)) S_IFREG && (0 <? fs_open fs (phys pi))
  = false ->
  has_bit (st_mode (stat pi)) S_IFDIR && negb (no_dirlists (conf cl))
  = false ->
  net cl = repeat WrAll 5 ++ rest ->
  uh_file_request PATH_MAX UH_LIMIT_MSGHEAD fs uh_mime_types strftime_gmt
    strptime_gm now scandir fmt_kbyte pi cl
  = (false,
     with_io cl
       (tx cl ++ plain_head 403 (lit "Forbidden")
        ++ frame (lit "Access to this resource is forbidden")
        ++ terminator) rest).
Proof.
  intros Hroom Hfile Hdir Hn. unfold uh_file_request.
  rewrite Hfile, Hdir. unfold ensure_out.
  rewrite (SendFacts.uh_http_sendhf_all _ _ _ _ cl rest Hn).
  - reflexivity.
  - apply Nat.lt_le_trans with (2 := Hroom).
    apply Nat.ltb_lt. vm_compute. reflexivity.
  - split; [apply Nat.ltb_lt; vm_compute; reflexivity|].
    apply Nat.lt_le_trans with (2 := Hroom).
    apply Nat.ltb_lt. vm_compute. reflexivity.
  - vm_compute. reflexivity.
Qed.

End Env.

Lemma uh_file_request_delivers_witness :
  uh_file_request 4096 4096 Files.small_site [(lit "html", lit "text/html")]
    Files.date_text (fun _ => None) 1597754096 (fun _ => None)
    (fun _ => lit "0.00") Files.index_html
    (Files.bare_request UH_HTTP_MSG_GET UH_HTTP_VER_1_1)
  = (false,
     with_io (Files.bare_request UH_HTTP_MSG_GET UH_HTTP_VER_1_1)
       (block [lit "HTTP/1.1 200 OK"; lit "Connection: close";
               lit "ETag: " ++ [chr 34] ++ lit "1a-200-7d0" ++ [chr 34];
               lit "Last-Modified: Thu, 01 Jan 1970 00:33:20 GMT";
               lit "Date: Tue, 18 Aug 2020 12:34:56 GMT";
               lit "Content-Type: text/html"; lit "Content-Length: 512";
               lit "Transfer-Encoding: chunked"]
        ++ CRLF ++ lit "D" ++ CRLF ++ lit "<html></html>" ++ CRLF
        ++ lit "0" ++ CRLF ++ CRLF)
       (repeat WrAll 3)).
Proof.
  refine (proj1 (uh_file_request_delivers 4096 4096 Files.small_site
                   [(lit "html", lit "text/html")] Files.date_text
                   (fun _ => None) 1597754096 (fun _ => None)
                   (fun _ => lit "0.00") Files.index_html
                   (Files.bare_request UH_HTTP_MSG_GET UH_HTTP_VER_1_1)
                   (repeat WrAll 3) _ _ _ _ _ _ _)).
  - apply Nat.leb_le. vm_compute. reflexivity.
  - vm_compute. reflexivity.
  - vm_compute. reflexivity.
  - vm_compute. reflexivity.
  - apply Nat.ltb_lt. vm_compute. reflexivity.
  - constructor; [|constructor]. split; [split|]; vm_compute; congruence.
  - vm_compute. reflexivity.
Defined.

Lemma uh_file_request_forbidden_witness :
  uh_file_request 4096 4096 Files.all_directories [] Files.date_text
    (fun _ => None) 1597754096 (fun _ => None) (fun _ => lit "0.00")
    Files.index_html (Files.bare_request UH_HTTP_MSG_GET UH_HTTP_VER_1_0)
  = (false,
     with_io (Files.bare_request UH_HTTP_MSG_GET UH_HTTP_VER_1_0)
       (lit "HTTP/1.1 403 Forbidden" ++ CRLF
        ++ lit "Connection: close" ++ CRLF
        ++ lit "Content-Type: text/plain" ++ CRLF
        ++ lit "Transfer-Encoding: chunked" ++ CRLF ++ CRLF
        ++ lit "24" ++ CRLF ++ lit "Access to this resource is forbidden"
        ++ CRLF ++ lit "0" ++ CRLF ++ CRLF)
       (repeat WrAll 11)).
Proof.
  refine (uh_file_request_forbidden 4096 4096 Files.all_directories []
            Files.date_text (fun _ => None) 1597754096 (fun _ => None)
            (fun _ => lit "0.00") Files.index_html
            (Files.bare_request UH_HTTP_MSG_GET UH_HTTP_VER_1_0)
            (repeat WrAll 11) _ _ _ _).
  - apply Nat.leb_le. vm_compute. reflexivity.
  - vm_compute. reflexivity.
  - vm_compute. reflexivity.
  - vm_compute. reflexivity.
Defined.

End ServeFacts.

Module LookupMore.
Import Net Path PathRule.

Section Limits.

Variable PATH_MAX : nat.
Variable UH_LIMIT_MSGHEAD : nat.
Variable fs : filesystem.

(** The client after [uh_path_lookup], by what it returns. *)
Lemma uh_path_lookup_quiet (uh_index_files : list bytes)
  (url : option bytes) (cl : client) :
  match fst (uh_path_lookup PATH_MAX UH_LIMIT_MSGHEAD fs uh_index_files
               url cl) with
  | Some p =>
      redirected p = false ->
      snd (uh_path_lookup PATH_MAX UH_LIMIT_MSGHEAD fs uh_index_files
             url cl) = cl
  | None =>
      snd (uh_path_lookup PATH_MAX UH_LIMIT_MSGHEAD fs uh_index_files
             url cl) = cl
  end.
Proof.
  unfold uh_path_lookup.
  destruct url as [url|]; [|exact eq_refl].
  destruct (decode_url _ _ _) as [[buffer q]|]; [|exact eq_refl].
  destruct (canon_walk _ _ _ _ _ _ _) as [path_phys path_info].
  destruct (negb _); [exact eq_refl|].
  destruct (fs_stat fs _) as [st|]; [|exact eq_refl].
  destruct (has_bit (st_mode st) S_IFREG); [intros _; exact eq_refl|].
  destruct (_ && _); [|exact eq_refl].
  destruct (negb _).
  - destruct (uh_http_sendf _ _ _ _) as [rv cl1]. cbn [fst redirected].
    discriminate.
  - destruct (try_index _ _ _ _ _ _ _) as [ph st']. intros _.
    exact eq_refl.
Qed.

(** X14.  [uh_path_lookup] writes to the connection in one case only,
    the redirection of a directory requested without its trailing
    slash: whenever it returns NULL or a path that is not marked
    [redirected], the connection is as it was. *)
Theorem uh_path_lookup_silent (uh_index_files : list bytes)
  (url : option bytes) (cl : client) :
  (forall p,
      fst (uh_path_lookup PATH_MAX UH_LIMIT_MSGHEAD fs uh_index_files
             url cl) = Some p ->
      redirected p = false) ->
  snd (uh_path_lookup PATH_MAX UH_LIMIT_MSGHEAD fs uh_index_files url cl)
  = cl.
Proof.
  intros H. pose proof (uh_path_lookup_quiet uh_index_files url cl) as Q.
  destruct (fst (uh_path_lookup PATH_MAX UH_LIMIT_MSGHEAD fs uh_index_files
                   url cl)) as [p|].
  - apply Q, H. reflexivity.
  - exact Q.
Qed.

(** X15.  The redirection.  A path marked [redirected] is a directory
    without [info]; its [name] is its [phys] after the document root;
    its [phys] is the string that "ensure trailing slash" leaves in
    the array [path_phys], whose string before that step is the path
    that [stat] has found a directory; when that array held nothing
    behind its string, [phys] is that path with a slash at its end;
    and when the write succeeds what has been sent is the [302]
    response whose [Location] is that name, followed by ['?'] and the
    query string when the request has one. *)
Theorem uh_path_lookup_redirect (uh_index_files : list bytes)
  (url : option bytes) (cl cl' : client) (p : path_info)
  (rest : list wr_event) :
  uh_path_lookup PATH_MAX UH_LIMIT_MSGHEAD fs uh_index_files url cl
  = (Some p, cl') ->
  redirected p = true ->
  has_bit (st_mode (stat p)) S_IFDIR = true
  /\ info p = None
  /\ name p = skipn (List.length (cstr (docroot (conf cl)))) (phys p)
  /\ (exists buffer q path_phys,
        option_map (decode_url UH_LIMIT_MSGHEAD (cstr (docroot (conf cl))))
          (option_map cstr url)
        = Some (Some (buffer, q))
        /\ canon_walk PATH_MAX fs (no_symlinks (conf cl)) buffer
             (S (List.length buffer)) (repeat NUL PATH_MAX) []
           = (path_phys, [])
        /\ last buffer NUL <> "/"%char
        /\ fs_stat fs (cstr path_phys) = Some (stat p)
        /\ phys p = cstr (ensure_slash path_phys)
        /\ (forall s k,
              path_phys = s ++ repeat NUL (S k) -> no_nul s ->
              phys p = with_slash s /\ last (phys p) NUL = "/"%char))
  /\ (net cl = WrAll :: rest ->
      (List.length (redirect_text (name p) (query p)) < UH_LIMIT_MSGHEAD)%nat ->
      cl' = with_io cl (tx cl ++ redirect_text (name p) (query p)) rest).
Proof.
  unfold uh_path_lookup.
  destruct url as [url|]; [|discriminate].
  destruct (decode_url _ _ _) as [[buffer q]|] eqn:Hd; [|discriminate].
  destruct (canon_walk _ _ _ _ _ _ _) as [path_phys path_info] eqn:Hw.
  destruct (negb _); [discriminate|].
  destruct (fs_stat fs _) as [st|] eqn:Hst; [|discriminate].
  destruct (has_bit (st_mode st) S_IFREG);
    [intros [= <- <-]; discriminate|].
  destruct (has_bit (st_mode st) S_IFDIR) eqn:Hdir; [|discriminate].
  destruct (_ =? _)%nat eqn:Hi; [|discriminate]. cbn [andb].
  apply Nat.eqb_eq, length_zero_iff_nil in Hi. subst path_info.
  destruct (byte_eqb (last buffer NUL) "/") eqn:Hslash; cbn [negb].
  { destruct (try_index _ _ _ _ _ _ _) as [ph st'].
    intros [= <- <-]. discriminate. }
  destruct (uh_http_sendf _ _ _ _) as [rv cl1] eqn:Hs.
  intros [= <- <-] _. cbn [phys stat info name query].
  split; [assumption|]. split; [reflexivity|]. split; [reflexivity|].
  split.
  { exists buffer, q, path_phys. cbn [option_map]. rewrite Hd.
    split; [reflexivity|]. split; [assumption|].
    split; [intros E; rewrite E, byte_eqb_refl in Hslash; discriminate|].
    split; [assumption|]. split; [reflexivity|].
    intros s k -> Hno.
    destruct (LookupFacts.ensure_slash_clean s k Hno) as [j ->].
    rewrite ArrayFacts.cstr_zeros
      by (apply LookupFacts.with_slash_no_nul; assumption).
    split; [reflexivity|apply LookupFacts.with_slash_last]. }
  intros Hn Hl. destruct cl as [c r t nt]. cbn [net tx conf] in *. subst nt.
  rewrite FileFacts.sendf_all in Hs.
  - inversion Hs. reflexivity.
  - split; [|assumption]. unfold redirect_text.
    rewrite length_app. cbn [List.length lit String.list_ascii_of_string].
    lia.
Qed.

End Limits.

Lemma uh_path_lookup_silent_witness :
  snd (uh_path_lookup 4096 4096 Files.site [lit "index.html"]
         (Some (lit "/dir/")) Files.plain_get)
  = Files.plain_get.
Proof.
  apply (uh_path_lookup_silent 4096 4096 Files.site [lit "index.html"]
           (Some (lit "/dir/")) Files.plain_get).
  intros p E. vm_compute in E. inversion E. reflexivity.
Defined.

Lemma uh_path_lookup_redirect_witness :
  snd (uh_path_lookup 4096 4096 Files.site [lit "index.html"]
         (Some (lit "/dir?x=1")) Files.plain_get)
  = with_io Files.plain_get
      (lit "HTTP/1.1 302 Found" ++ CRLF ++ lit "Location: /dir/?x=1" ++ CRLF
       ++ lit "Connection: close" ++ CRLF ++ CRLF)
      (repeat WrAll 15).
Proof.
  destruct (uh_path_lookup 4096 4096 Files.site [lit "index.html"]
              (Some (lit "/dir?x=1")) Files.plain_get) as [[p|] cl']
    eqn:E; [|vm_compute in E; discriminate].
  assert (Hp : p = {| root := lit "/srv/www"; phys := lit "/srv/www/dir/";
                      name := lit "/dir/"; info := None;
                      query := Some (lit "x=1"); redirected := true;
                      stat := Files.directory |})
    by (vm_compute in E; inversion E; reflexivity).
  destruct (uh_path_lookup_redirect 4096 4096 Files.site [lit "index.html"]
              (Some (lit "/dir?x=1")) Files.plain_get cl' p
              (repeat WrAll 15) E)
    as [_ [_ [_ [_ H]]]].
  - rewrite Hp. reflexivity.
  - cbn [snd]. rewrite H.
    + rewrite Hp. reflexivity.
    + reflexivity.
    + rewrite Hp. apply Nat.ltb_lt. vm_compute. reflexivity.
Defined.

End LookupMore.

Module AuthMore.
Import Net Auth AuthRule B64Rule.

Lemma split_colon_app (user pass : bytes) :
  no_colon user = true ->
  split_colon (user ++ ":" :: pass) = Some (user, pass).
Proof.
  induction user as [|c user IH]; cbn [app split_colon no_colon forallb].
  - reflexivity.
  - intros H. apply andb_true_iff in H as [Hc Hu].
    apply negb_true_iff in Hc. rewrite Hc. fold (no_colon user) in Hu.
    rewrite (IH Hu). reflexivity.
Qed.

Lemma set_realm_twice (a b : auth_realm) (cl : client) :
  set_realm a (set_realm b cl) = set_realm a cl.
Proof. reflexivity. Qed.

Section Env.

Variable REALM_PATH_SIZE REALM_USER_SIZE REALM_PASS_SIZE : nat.
Variable UH_LIMIT_MSGHEAD : nat.
Variable HAVE_SHADOW : bool.
Variable getspnam : bytes -> option (option bytes).
Variable getpwnam : bytes -> option (option bytes).
Variable crypt : bytes -> bytes -> bytes.

(** The credentials that the header of a user and a password carries. *)
Lemma credentials_basic (hs : list (bytes * bytes)) (user pass : bytes) :
  PathRule.no_nul user -> PathRule.no_nul pass -> no_colon user = true ->
  len (user ++ ":" :: pass)
  + Z.of_nat (padding (user ++ ":" :: pass))
  < Z.of_nat UH_LIMIT_MSGHEAD - 1 ->
  basic_header hs = Some (basic_value user pass) ->
  credentials UH_LIMIT_MSGHEAD hs = Some (user, pass).
Proof.
  intros Hu Hp Hc Hl Hh. unfold credentials. rewrite Hh.
  unfold basic_value.
  change (skipn 6 (lit "Basic " ++ b64_encode (user ++ ":" :: pass)))
    with (b64_encode (user ++ ":" :: pass)).
  replace (len (lit "Basic " ++ b64_encode (user ++ ":" :: pass)) - 6)
    with (len (b64_encode (user ++ ":" :: pass)))
    by (rewrite len_app; change (len (lit "Basic ")) with 6; lia).
  rewrite B64More.b64decode_of_encode by assumption. cbn [snd].
  rewrite B64More.cstr_of_decoded.
  - apply split_colon_app. assumption.
  - apply Forall_app. split; [assumption|].
    constructor; [discriminate|assumption].
Qed.

Lemma system_pass_no_nul (account : bytes) :
  PathRule.no_nul (system_pass REALM_PASS_SIZE HAVE_SHADOW getspnam getpwnam
                     account).
Proof.
  unfold system_pass.
  assert (Hpw : PathRule.no_nul
                  match getpwnam account with
                  | Some (Some pw_passwd) =>
                      match cstr pw_passwd with
                      | [] => []
                      | c :: _ =>
                          if byte_eqb c "!" then []
                          else firstn (REALM_PASS_SIZE - 1) (cstr pw_passwd)
                      end
                  | _ => []
                  end).
  { destruct (getpwnam account) as [[h|]|]; try constructor.
    pose proof (CanonFacts.cstr_no_nul h) as Hh.
    destruct (cstr h) as [|c r]; [constructor|].
    destruct (byte_eqb c "!"); [constructor|].
    apply CanonFacts.no_nul_firstn. assumption. }
  destruct (if HAVE_SHADOW then getspnam account else None) as [[h|]|];
    try exact Hpw.
  apply CanonFacts.no_nul_firstn, CanonFacts.cstr_no_nul.
Qed.

(** What [uh_auth_add] keeps: C strings, the password not empty. *)
Lemma uh_auth_add_kept (room : bool) (path user pass : bytes)
  (uh_realms : list auth_realm) (new : auth_realm) :
  fst (uh_auth_add REALM_PATH_SIZE REALM_USER_SIZE REALM_PASS_SIZE
         HAVE_SHADOW getspnam getpwnam room path user pass uh_realms)
  = Some new ->
  snd (uh_auth_add REALM_PATH_SIZE REALM_USER_SIZE REALM_PASS_SIZE
         HAVE_SHADOW getspnam getpwnam room path user pass uh_realms)
  = new :: uh_realms
  /\ PathRule.no_nul (realm_user new) /\ PathRule.no_nul (realm_pass new)
  /\ realm_pass new <> [].
Proof.
  unfold uh_auth_add. destruct room; [|discriminate].
  set (r := {| realm_path := _ |}).
  assert (Hu : PathRule.no_nul (realm_user r))
    by apply CanonFacts.no_nul_firstn, CanonFacts.cstr_no_nul.
  assert (Hp : PathRule.no_nul (realm_pass r)).
  { unfold r. cbn [realm_pass]. destruct (_ && _).
    - apply system_pass_no_nul.
    - apply CanonFacts.no_nul_firstn, CanonFacts.cstr_no_nul. }
  destruct (realm_pass r) eqn:E; [discriminate|].
  cbn [fst snd]. intros [= <-]. rewrite E. repeat split; auto.
  discriminate.
Qed.

(** X16.  What [uh_auth_add] has added, [uh_auth_check] admits: for a
    name that the new realm covers, a request whose [Authorization]
    header is [Basic] and the Base64 text of the user, a colon and the
    password, as the realm holds them, passes the check; nothing is
    sent, and the realm of the request is the new realm. *)
Theorem uh_auth_add_then_check (room : bool) (path user pass : bytes)
  (uh_realms : list auth_realm) (new : auth_realm) (name : bytes)
  (cl : client) :
  fst (uh_auth_add REALM_PATH_SIZE REALM_USER_SIZE REALM_PASS_SIZE
         HAVE_SHADOW getspnam getpwnam room path user pass uh_realms)
  = Some new ->
  covers name new = true ->
  no_colon (realm_user new) = true ->
  basic_header (headers (request cl))
  = Some (basic_value (realm_user new) (realm_pass new)) ->
  len (realm_user new ++ ":" :: realm_pass new)
  + Z.of_nat (padding (realm_user new ++ ":" :: realm_pass new))
  < Z.of_nat UH_LIMIT_MSGHEAD - 1 ->
  uh_auth_check UH_LIMIT_MSGHEAD crypt
    (snd (uh_auth_add REALM_PATH_SIZE REALM_USER_SIZE REALM_PASS_SIZE
            HAVE_SHADOW getspnam getpwnam room path user pass uh_realms))
    name cl
  = (1, set_realm new cl).
Proof.
  intros Hadd Hcov Hcolon Hhdr Hfit.
  destruct (uh_auth_add_kept _ _ _ _ _ _ Hadd) as [-> [Hu [Hp _]]].
  unfold uh_auth_check. cbn [first_covering]. rewrite Hcov.
  cbn [set_realm with_request request headers].
  rewrite (credentials_basic _ _ _ Hu Hp Hcolon Hfit Hhdr).
  cbn [realm_of_user]. rewrite Hcov, NetFacts.bytes_eqb_refl.
  cbn [andb]. rewrite NetFacts.bytes_eqb_refl. reflexivity.
Qed.

Lemma challenge_nonempty (v : http_version) (realm_name : bytes) :
  (0 < List.length (challenge v realm_name))%nat.
Proof.
  unfold challenge. rewrite length_app.
  destruct v; cbn [http_versions List.length lit
    String.list_ascii_of_string]; lia.
Qed.

(** X17.  The outcome of [uh_auth_check] is [1] or [0].  When it is
    [1] nothing has been written to the connection.  When it is [0]
    some realm covers the name, and on a connection whose write succeeds
    what has been sent is the [401] challenge, with the version of the
    request and the realm name of the configuration, and nothing
    else. *)
Theorem uh_auth_check_outcome (uh_realms : list auth_realm) (name : bytes)
  (cl : client) (rest : list wr_event) :
  (fst (uh_auth_check UH_LIMIT_MSGHEAD crypt uh_realms name cl) = 0
   \/ fst (uh_auth_check UH_LIMIT_MSGHEAD crypt uh_realms name cl) = 1)
  /\ (fst (uh_auth_check UH_LIMIT_MSGHEAD crypt uh_realms name cl) = 1 ->
      tx (snd (uh_auth_check UH_LIMIT_MSGHEAD crypt uh_realms name cl))
      = tx cl
      /\ net (snd (uh_auth_check UH_LIMIT_MSGHEAD crypt uh_realms name cl))
         = net cl)
  /\ (fst (uh_auth_check UH_LIMIT_MSGHEAD crypt uh_realms name cl) = 0 ->
      first_covering name uh_realms <> None
      /\ (net cl = WrAll :: rest ->
          (List.length (challenge (version (request cl))
                          (cstr (realm (conf cl))))
           < UH_LIMIT_MSGHEAD)%nat ->
          tx (snd (uh_auth_check UH_LIMIT_MSGHEAD crypt uh_realms name cl))
          = tx cl ++ challenge (version (request cl)) (cstr (realm (conf cl)))
          /\ net (snd (uh_auth_check UH_LIMIT_MSGHEAD crypt uh_realms name
                         cl))
             = rest)).
Proof.
  unfold uh_auth_check.
  destruct (first_covering name uh_realms) as [covering|];
    [|cbn [fst snd]; repeat split; auto; discriminate].
  assert (Hdeny : forall ra : auth_realm,
    let r := (let '(_, cl') :=
                uh_http_sendf UH_LIMIT_MSGHEAD None
                  (challenge (version (request (set_realm ra cl)))
                     (cstr (realm (conf (set_realm ra cl)))))
                  (set_realm ra cl) in (0, cl')) in
    (fst r = 0 \/ fst r = 1)
    /\ (fst r = 1 -> tx (snd r) = tx cl /\ net (snd r) = net cl)
    /\ (fst r = 0 ->
        Some covering <> None
        /\ (net cl = WrAll :: rest ->
            (List.length (challenge (version (request cl))
                            (cstr (realm (conf cl))))
             < UH_LIMIT_MSGHEAD)%nat ->
            tx (snd r)
            = tx cl ++ challenge (version (request cl))
                         (cstr (realm (conf cl)))
            /\ net (snd r) = rest))).
  { intros ra r. subst r. destruct cl as [c rq t nt].
    cbn [conf request version set_realm with_request tx net].
    split.
    - destruct (uh_http_sendf _ _ _ _). left. reflexivity.
    - split.
      + destruct (uh_http_sendf _ _ _ _). cbn [fst]. discriminate.
      + intros _. split; [discriminate|]. intros -> Hl.
        pose proof (challenge_nonempty (version rq) (cstr (realm c))).
        unfold set_realm, with_request. cbn [conf request tx net].
        rewrite FileFacts.sendf_all by lia. cbn [snd tx net]. auto. }
  cbn [set_realm with_request request headers].
  destruct (credentials _ _) as [[user pass]|]; [|apply (Hdeny covering)].
  destruct (realm_of_user name user uh_realms) as [matching|];
    [|apply (Hdeny covering)].
  destruct (_ || _).
  - cbn [fst snd tx net]. repeat split; auto; discriminate.
  - apply (Hdeny matching).
Qed.

(** X18.  A realm whose [$p$] password names an account without a
    usable verifier is not added: [uh_auth_add] returns NULL and the
    list of realms is as before, so that a name which no realm of the
    list covers passes the check without credentials. *)
Theorem uh_auth_add_without_verifier (room : bool)
  (path user account : bytes) (uh_realms : list auth_realm) :
  account <> [] -> PathRule.no_nul account ->
  no_verifier HAVE_SHADOW getspnam getpwnam account ->
  uh_auth_add REALM_PATH_SIZE REALM_USER_SIZE REALM_PASS_SIZE HAVE_SHADOW
    getspnam getpwnam room path user (lit "$p$" ++ account) uh_realms
  = (None, uh_realms)
  /\ (forall name cl,
        first_covering name uh_realms = None ->
        uh_auth_check UH_LIMIT_MSGHEAD crypt
          (snd (uh_auth_add REALM_PATH_SIZE REALM_USER_SIZE REALM_PASS_SIZE
                  HAVE_SHADOW getspnam getpwnam room path user
                  (lit "$p$" ++ account) uh_realms))
          name cl
        = (1, cl)).
Proof.
  intros Hne Hn [Hsp Hpw].
  assert (E : uh_auth_add REALM_PATH_SIZE REALM_USER_SIZE REALM_PASS_SIZE
                HAVE_SHADOW getspnam getpwnam room path user
                (lit "$p$" ++ account) uh_realms
              = (None, uh_realms)).
  { unfold uh_auth_add. destruct room; [|reflexivity].
    assert (Hc : cstr (lit "$p$" ++ account) = lit "$p$" ++ account).
    { apply CanonFacts.cstr_id. apply Forall_app. split; [|assumption].
      repeat (constructor; [discriminate|]). constructor. }
    rewrite Hc. cbn [realm_pass].
    destruct account as [|a account]; [contradiction|].
    cbn [lit String.list_ascii_of_string app List.length Nat.ltb Nat.leb
         strneq byte_eqb andb skipn].
    rewrite !byte_eqb_refl. cbn [andb].
    assert (Hs : system_pass REALM_PASS_SIZE HAVE_SHADOW getspnam getpwnam
                   (a :: account) = []).
    { unfold system_pass.
      assert (Hq : match getpwnam (a :: account) with
                   | Some (Some pw_passwd) =>
                       match cstr pw_passwd with
                       | [] => []
                       | c :: _ =>
                           if byte_eqb c "!" then []
                           else firstn (REALM_PASS_SIZE - 1) (cstr pw_passwd)
                       end
                   | _ => []
                   end = @nil ascii).
      { destruct (getpwnam (a :: account)) as [[h|]|]; try reflexivity.
        destruct Hpw as [->|[r ->]]; [reflexivity|].
        rewrite byte_eqb_refl. reflexivity. }
      destruct HAVE_SHADOW; [|exact Hq].
      destruct (Hsp eq_refl) as [->| ->]; exact Hq. }
    rewrite Hs. reflexivity. }
  split; [exact E|]. intros name cl Hcov. rewrite E. cbn [snd].
  unfold uh_auth_check. rewrite Hcov. reflexivity.
Qed.

End Env.

Lemma uh_auth_add_then_check_witness :
  let cl := with_request
              (Files.bare_request UH_HTTP_MSG_GET UH_HTTP_VER_1_1)
              {| method := UH_HTTP_MSG_GET; version := UH_HTTP_VER_1_1;
                 headers := [(lit "Authorization",
                              basic_value (lit "bob") (lit "y"))];
                 req_realm := None |} in
  uh_auth_check 4096 (fun _ s => s)
    (snd (uh_auth_add 4096 32 128 false (fun _ => None) (fun _ => None)
            true (lit "/a") (lit "bob") (lit "y") []))
    (lit "/a/b") cl
  = (1, set_realm {| realm_path := lit "/a"; realm_user := lit "bob";
                     realm_pass := lit "y" |} cl).
Proof.
  intros cl.
  apply (uh_auth_add_then_check 4096 32 128 4096 false (fun _ => None)
           (fun _ => None) (fun _ s => s) true (lit "/a") (lit "bob")
           (lit "y") []
           {| realm_path := lit "/a"; realm_user := lit "bob";
              realm_pass := lit "y" |} (lit "/a/b") cl);
    reflexivity.
Defined.

Lemma uh_auth_check_outcome_witness :
  tx (snd (uh_auth_check 4096 (fun _ s => s) Fixtures.alice_realms
             (lit "/a/b/") (Files.bare_request UH_HTTP_MSG_GET
                              UH_HTTP_VER_1_1)))
  = challenge UH_HTTP_VER_1_1 (lit "Protected Area").
Proof.
  destruct (uh_auth_check_outcome 4096 (fun _ s => s) Fixtures.alice_realms
              (lit "/a/b/")
              (Files.bare_request UH_HTTP_MSG_GET UH_HTTP_VER_1_1)
              (repeat WrAll 15)) as [_ [_ H]].
  destruct (H eq_refl) as [_ H'].
  destruct H' as [H' _]; [reflexivity|apply Nat.ltb_lt; vm_compute; reflexivity|].
  exact H'.
Defined.

Lemma uh_auth_add_without_verifier_witness :
  uh_auth_add 4096 32 128 true (fun _ => None) (fun _ => Some (Some (lit "!")))
    true (lit "/admin") (lit "root") (lit "$p$" ++ lit "root") []
  = (None, []).
Proof.
  apply (proj1 (uh_auth_add_without_verifier 4096 32 128 4096 true
                  (fun _ => None) (fun _ => Some (Some (lit "!")))
                  (fun _ s => s) true (lit "/admin") (lit "root")
                  (lit "root") [] ltac:(discriminate)
                  ltac:(repeat (constructor; [discriminate|]); constructor)
                  (conj (fun _ => or_introl eq_refl)
                        (or_intror (ex_intro _ [] eq_refl))))).
Defined.

End AuthMore.

Module CanonMore.
Import Path PathRule.

(** X19.  What [canonpath] leaves in [path_resolved], for a path
    whose absolute form the loop reads to its end, is the root [/] or a
    sequence of segments, each after a slash, none of them empty, [.]
    or [..] and none with a slash inside; there is no slash at the end.
    This holds whether or not the access test then succeeds. *)
Theorem canonpath_no_dot_segments (PATH_MAX : nat) (fs : filesystem)
  (p copy old : bytes) :
  (2 <= PATH_MAX)%nat -> absolute_cwd fs ->
  path_copy PATH_MAX fs (cstr p) = Some copy ->
  (List.length copy <= PATH_MAX - 2)%nat ->
  fst (canonpath PATH_MAX fs p old) = ["/"]
  \/ exists segs,
      segs <> [] /\ forallb kept segs = true
      /\ fst (canonpath PATH_MAX fs p old) = render segs.
Proof.
  intros Hm Hcwd Hcopy Hlen.
  destruct (CanonFacts.path_copy_shape _ _ _ _ Hm Hcwd Hcopy) as [_ [r Hr]].
  unfold canonpath. rewrite Hcopy. cbn [fst].
  assert (Hsegs : copy = render (split_slash r))
    by (rewrite CanonFacts.render_split; assumption).
  pose proof (CanonFacts.split_plain r) as Hp.
  rewrite Hsegs in Hlen |- *.
  rewrite CanonFacts.canon_lex_segments by assumption.
  unfold canonical.
  pose proof (CanonFacts.resolve_kept (split_slash r) [] Hp eq_refl) as Hk.
  destruct (resolve (split_slash r) []) as [|s stack]; [left; reflexivity|].
  right. exists (rev (s :: stack)). split; [|split; [|reflexivity]].
  - cbn [rev]. destruct (rev stack); discriminate.
  - apply forallb_forall. intros x Hx. apply in_rev in Hx.
    rewrite forallb_forall in Hk. auto.
Qed.

Lemma canonpath_no_dot_segments_witness :
  fst (canonpath 4096 Files.all_directories (lit "/srv//www/./a/../../b/") [])
  = ["/"%char]
  \/ exists segs,
      segs <> [] /\ forallb kept segs = true
      /\ fst (canonpath 4096 Files.all_directories
                (lit "/srv//www/./a/../../b/") [])
         = render segs.
Proof.
  apply (canonpath_no_dot_segments 4096 Files.all_directories
           (lit "/srv//www/./a/../../b/") (lit "/srv//www/./a/../../b/") []).
  - apply Nat.leb_le. vm_compute. reflexivity.
  - exists []. reflexivity.
  - vm_compute. reflexivity.
  - apply Nat.leb_le. vm_compute. reflexivity.
Defined.

(** The example above, computed: the result is [/srv/b]. *)
Example canonpath_example :
  canonpath 4096 Files.all_directories (lit "/srv//www/./a/../../b/") []
  = (lit "/srv/b", true)
  /\ canonpath 4096 Files.all_directories (lit "/../../x/..") []
     = (lit "/", true).
Proof. vm_compute. split; reflexivity. Qed.

(** X20.  Neither [canonpath] nor [uh_realpath] puts more than
    [PATH_MAX - 1] bytes before the terminator into the result buffer,
    whatever the length of the path. *)
Theorem resolved_path_fits (PATH_MAX : nat) (fs : filesystem)
  (path old : bytes) :
  (2 <= PATH_MAX)%nat -> (List.length old <= PATH_MAX - 1)%nat ->
  (List.length (fst (canonpath PATH_MAX fs path old)) <= PATH_MAX - 1)%nat
  /\ (List.length (fst (uh_realpath PATH_MAX fs path old)) <= PATH_MAX - 1)%nat.
Proof.
  intros Hm Ho. split.
  - unfold canonpath. destruct (path_copy PATH_MAX fs _); [|assumption].
    apply LookupFacts.canon_lex_length. assumption.
  - unfold uh_realpath. destruct (fs_realpath fs _) as [res|]; [|assumption].
    destruct (Nat.leb_spec PATH_MAX (List.length (cstr res)));
      cbn [fst]; [assumption|lia].
Qed.

Lemma resolved_path_fits_witness :
  (List.length (fst (canonpath 8 Files.all_directories
                       (lit "/a/very/long/path/name") [])) <= 8 - 1)%nat
  /\ (List.length (fst (uh_realpath 8 Files.all_directories
                          (lit "/a/very/long/path/name") [])) <= 8 - 1)%nat.
Proof.
  apply (resolved_path_fits 8 Files.all_directories
           (lit "/a/very/long/path/name") []).
  - apply Nat.leb_le. reflexivity.
  - apply Nat.le_0_l.
Defined.

End CanonMore.

Module StrFacts.
Import Str.

Lemma nth_skipn_add (i j : nat) (l : bytes) :
  nth j (skipn i l) NUL = nth (i + j) l NUL.
Proof.
  revert l. induction i as [|i IH]; intros l; [reflexivity|].
  destruct l as [|x l]; cbn [skipn Nat.add nth].
  - destruct j; reflexivity.
  - apply IH.
Qed.

(** Two lists with [m] bytes each begin alike when they agree at every
    index below [m]. *)
Lemma firstn_eq_nth (m : nat) :
  forall a b : bytes,
    (m <= List.length a)%nat -> (m <= List.length b)%nat ->
    (firstn m a = firstn m b
     <-> forall j, (j < m)%nat -> nth j a NUL = nth j b NUL).
Proof.
  induction m as [|m IH]; intros a b Ha Hb.
  - cbn [firstn]. split; [intros _ j Hj; lia|reflexivity].
  - destruct a as [|x a]; [cbn in Ha; lia|].
    destruct b as [|y b]; [cbn in Hb; lia|].
    cbn [List.length] in Ha, Hb. cbn [firstn]. split.
    + intros [= -> E] j Hj. destruct j as [|j]; [reflexivity|].
      cbn [nth]. apply (proj1 (IH a b ltac:(lia) ltac:(lia)) E). lia.
    + intros H. f_equal.
      * apply (H 0%nat). lia.
      * apply IH; try lia. intros j Hj. apply (H (S j)). lia.
Qed.

(** What the inner loop has compared when it leaves with [match] set. *)
Lemma strfind_compare_spec (haystack needle : bytes) (hslen ndlen i : Z)
  (turns : nat) :
  forall j,
    ndlen - j <= Z.of_nat turns ->
    (strfind_compare haystack needle hslen ndlen i turns j = true
     <-> forall k, j <= k < ndlen -> i + k < hslen ->
                   nth (Z.to_nat (i + k)) haystack NUL
                   = nth (Z.to_nat k) needle NUL).
Proof.
  induction turns as [|turns IH]; intros j Hj; cbn [strfind_compare].
  - split; [intros _ k Hk; lia|reflexivity].
  - destruct (Z.ltb_spec j ndlen); cbn [andb].
    2:{ split; [intros _ k Hk; lia|reflexivity]. }
    destruct (Z.ltb_spec (i + j) hslen).
    2:{ split; [intros _ k Hk Hb; lia|reflexivity]. }
    destruct (byte_eqb _ _) eqn:E.
    + apply byte_eqb_eq in E. rewrite IH by lia. split.
      * intros Hall k Hk Hb. destruct (Z.eq_dec k j) as [->|Hne];
          [assumption|]. apply Hall; lia.
      * intros Hall k Hk Hb. apply Hall; lia.
    + split; [discriminate|]. intros Hall.
      rewrite (Hall j ltac:(lia) ltac:(lia)), byte_eqb_refl in E.
      discriminate.
Qed.

(** The test of one index: the needle stands there. *)
Lemma strfind_test (haystack needle : bytes) (hslen ndlen i : Z) :
  1 <= ndlen <= len needle -> 0 <= i < hslen -> hslen <= len haystack ->
  byte_eqb (nth (Z.to_nat i) haystack NUL) (nth 0 needle NUL)
  && (((ndlen =? 1) || (i + ndlen <=? hslen))
      && strfind_compare haystack needle hslen ndlen i (Z.to_nat ndlen) 1)
  = true
  <-> occurs_at haystack hslen needle ndlen i.
Proof.
  intros Hn Hi Hh. unfold occurs_at, len in *.
  rewrite !andb_true_iff, orb_true_iff, byte_eqb_eq, Z.eqb_eq, Z.leb_le.
  rewrite strfind_compare_spec by lia.
  split.
  - intros [H0 [Hfit Hall]].
    assert (Hle : i + ndlen <= hslen) by lia.
    split; [lia|]. split; [assumption|].
    apply firstn_eq_nth; [rewrite length_skipn; lia|lia|].
    intros j Hj. rewrite nth_skipn_add.
    destruct j as [|j]; [rewrite Nat.add_0_r; assumption|].
    specialize (Hall (Z.of_nat (S j)) ltac:(lia) ltac:(lia)).
    rewrite Nat2Z.id in Hall. rewrite <- Hall. f_equal. lia.
  - intros [_ [Hle Hall]].
    rewrite firstn_eq_nth in Hall by (rewrite ?length_skipn; lia).
    split; [|split; [right; assumption|]].
    + specialize (Hall 0%nat ltac:(lia)). rewrite nth_skipn_add in Hall.
      rewrite Nat.add_0_r in Hall. assumption.
    + intros k Hk Hb. specialize (Hall (Z.to_nat k) ltac:(lia)).
      rewrite nth_skipn_add in Hall. rewrite <- Hall. f_equal. lia.
Qed.

Lemma strfind_scan_spec (haystack needle : bytes) (hslen ndlen : Z)
  (turns : nat) :
  1 <= ndlen <= len needle -> hslen <= len haystack ->
  forall i,
    0 <= i -> hslen - i <= Z.of_nat turns ->
    match strfind_scan haystack needle hslen ndlen turns i with
    | Some r =>
        i <= r /\ occurs_at haystack hslen needle ndlen r
        /\ forall k, i <= k < r -> ~ occurs_at haystack hslen needle ndlen k
    | None =>
        forall k, i <= k -> ~ occurs_at haystack hslen needle ndlen k
    end.
Proof.
  intros Hn Hh. induction turns as [|turns IH]; intros i Hi Ht;
    cbn [strfind_scan].
  - intros k Hk [_ [Hle _]]. lia.
  - destruct (Z.ltb_spec i hslen).
    2:{ intros k Hk [_ [Hle _]]. lia. }
    pose proof (strfind_test haystack needle hslen ndlen i Hn
                  ltac:(lia) Hh) as Htest.
    assert (Hnext :
      ~ occurs_at haystack hslen needle ndlen i ->
      match strfind_scan haystack needle hslen ndlen turns (i + 1) with
      | Some r =>
          i <= r /\ occurs_at haystack hslen needle ndlen r
          /\ forall k, i <= k < r ->
                       ~ occurs_at haystack hslen needle ndlen k
      | None =>
          forall k, i <= k -> ~ occurs_at haystack hslen needle ndlen k
      end).
    { intros Hno. specialize (IH (i + 1) ltac:(lia) ltac:(lia)).
      destruct (strfind_scan haystack needle hslen ndlen turns (i + 1))
        as [r|].
      - destruct IH as [Hr [Ho Hfirst]]. split; [lia|]. split; [assumption|].
        intros k Hk. destruct (Z.eq_dec k i) as [->|Hne]; [assumption|].
        apply Hfirst. lia.
      - intros k Hk. destruct (Z.eq_dec k i) as [->|Hne]; [assumption|].
        apply IH. lia. }
    destruct (byte_eqb (nth (Z.to_nat i) haystack NUL) (nth 0 needle NUL)).
    + cbn [andb] in Htest.
      destruct (((ndlen =? 1) || (i + ndlen <=? hslen))
                && strfind_compare haystack needle hslen ndlen i
                     (Z.to_nat ndlen) 1).
      * split; [lia|]. split; [apply Htest; reflexivity|].
        intros k Hk. lia.
      * apply Hnext. intros Ho. apply Htest in Ho. discriminate.
    + apply Hnext. intros Ho. apply Htest in Ho. discriminate.
Qed.

(** X21.  [strfind] finds the first place where the needle stands in
    the haystack: its result is the least index at which the [ndlen]
    bytes of the needle stand within the first [hslen] bytes of the
    haystack, and it is NULL exactly when there is no such index.  (The
    needle has at least one byte.) *)
Theorem strfind_first_occurrence (haystack needle : bytes)
  (hslen ndlen : Z) :
  1 <= ndlen <= len needle -> hslen <= len haystack ->
  match strfind haystack hslen needle ndlen with
  | Some r =>
      occurs_at haystack hslen needle ndlen r
      /\ forall k, k < r -> ~ occurs_at haystack hslen needle ndlen k
  | None => forall k, ~ occurs_at haystack hslen needle ndlen k
  end.
Proof.
  intros Hn Hh. unfold strfind.
  pose proof (strfind_scan_spec haystack needle hslen ndlen
                (Z.to_nat hslen) Hn Hh 0 (Z.le_refl 0) ltac:(lia)) as H.
  destruct (strfind_scan _ _ _ _ _ _) as [r|].
  - destruct H as [Hr [Ho Hfirst]]. split; [assumption|].
    intros k Hk. destruct (Z.le_gt_cases 0 k) as [H0|H0].
    + apply Hfirst. lia.
    + intros [Hk0 _]. lia.
  - intros k. destruct (Z.le_gt_cases 0 k) as [H0|H0].
    + apply H. assumption.
    + intros [Hk0 _]. lia.
Qed.

Lemma strfind_first_occurrence_witness :
  occurs_at (lit "HTTP/1.1 200 OK") 15 (lit "1.") 2 5.
Proof.
  assert (H := strfind_first_occurrence (lit "HTTP/1.1 200 OK") (lit "1.")
                 15 2).
  change (strfind (lit "HTTP/1.1 200 OK") 15 (lit "1.") 2) with (Some 5) in H.
  apply H; [split; vm_compute; congruence|vm_compute; congruence].
Defined.

(** The header end in a buffer that is longer than what has been read;
    a needle that would pass the end is not found. *)
Example strfind_examples :
  strfind (lit "GET / HTTP/1.0" ++ CRLF ++ CRLF ++ lit "junk") 18
    (CRLF ++ CRLF) 4 = Some 14
  /\ strfind (lit "GET / HTTP/1.0" ++ CRLF ++ CRLF ++ lit "junk") 17
       (CRLF ++ CRLF) 4 = None
  /\ strfind (lit "abc") 3 (lit "c") 1 = Some 2.
Proof. vm_compute. split; [|split]; reflexivity. Qed.

End StrFacts.

Module SockaddrFacts.
Import Sockaddr ByteFacts.

(** X22.  [sa_rfc1918] answers [1] exactly for the IPv4 addresses of
    the three private blocks, [10.0.0.0/8], [172.16.0.0/12] and
    [192.168.0.0/16], and [0] for every other address and for every
    IPv6 address. *)
Theorem sa_rfc1918_blocks (sa : sockaddr) (b0 b1 b2 b3 : ascii) :
  sin_addr sa = [b0; b1; b2; b3] ->
  (sa_rfc1918 sa = 1 \/ sa_rfc1918 sa = 0)
  /\ (sa_rfc1918 sa = 1
      <-> sin_family sa = AF_INET
          /\ (code b0 = 10
              \/ (code b0 = 172 /\ 16 <= code b1 <= 31)
              \/ (code b0 = 192 /\ code b1 = 168))).
Proof.
  intros Ha. unfold sa_rfc1918, htonl_s_addr. rewrite Ha. cbn [nth].
  pose proof (code_range b0). pose proof (code_range b1).
  pose proof (code_range b2). pose proof (code_range b3).
  destruct (sin_family sa).
  2:{ split; [right; reflexivity|]. split; [discriminate|].
      intros [Hf _]. discriminate. }
  match goal with
  | |- context [if ?c then 1 else 0] =>
      assert (Hc : c = true
                   <-> (code b0 = 10
                        \/ (code b0 = 172 /\ 16 <= code b1 <= 31)
                        \/ (code b0 = 192 /\ code b1 = 168)));
      [|destruct c]
  end.
  - rewrite !orb_true_iff, !andb_true_iff, !Z.leb_le. lia.
  - split; [left; reflexivity|]. split; [|reflexivity].
    intros _. split; [reflexivity|]. apply Hc. reflexivity.
  - split; [right; reflexivity|]. split; [discriminate|].
    intros [_ Hb]. apply Hc in Hb. discriminate.
Qed.

Lemma sa_rfc1918_blocks_witness :
  sa_rfc1918 {| sin_family := AF_INET; sin_port := (chr 0, chr 80);
                sin_addr := [chr 172; chr 31; chr 255; chr 255] |} = 1.
Proof.
  apply (proj2 (sa_rfc1918_blocks
                  {| sin_family := AF_INET; sin_port := (chr 0, chr 80);
                     sin_addr := [chr 172; chr 31; chr 255; chr 255] |}
                  (chr 172) (chr 31) (chr 255) (chr 255) eq_refl)).
  split; [reflexivity|]. right. left. vm_compute.
  split; [reflexivity|split; congruence].
Defined.

Example sa_rfc1918_edges :
  sa_rfc1918 {| sin_family := AF_INET; sin_port := (chr 0, chr 80);
                sin_addr := [chr 172; chr 32; chr 0; chr 0] |} = 0
  /\ sa_rfc1918 {| sin_family := AF_INET; sin_port := (chr 0, chr 80);
                   sin_addr := [chr 192; chr 168; chr 1; chr 1] |} = 1
  /\ sa_rfc1918 {| sin_family := AF_INET6; sin_port := (chr 0, chr 80);
                   sin_addr := [chr 10; chr 0; chr 0; chr 1] |} = 0.
Proof. vm_compute. split; [|split]; reflexivity. Qed.

(** [%i] of a number below [10^k] and not negative: at most [k]
    digits, at least one, whose value is the number. *)
Lemma dec_digits_value (k : nat) :
  forall fuel n acc,
    (k <= fuel)%nat -> 0 <= n < 10 ^ Z.of_nat (S k) ->
    exists ds,
      Net.dec_digits (S fuel) n acc = ds ++ acc
      /\ (1 <= List.length ds <= S k)%nat
      /\ Forall (fun c => isdigit c = true) ds
      /\ decnum ds = n.
Proof.
  assert (Hdigit : forall n, 0 <= n ->
            isdigit (chr (48 + n mod 10)) = true
            /\ code (chr (48 + n mod 10)) - code "0" = n mod 10).
  { intros n Hn.
    assert (Hm : 0 <= n mod 10 < 10) by (apply Z.mod_pos_bound; lia).
    unfold isdigit, in_range. rewrite code_chr.
    rewrite (Z.mod_small (48 + n mod 10)) by lia.
    change (code "0") with 48. change (code "9") with 57.
    split; [|lia].
    apply andb_true_iff. split; apply Z.leb_le; lia. }
  induction k as [|k IH]; intros fuel n acc Hf Hn.
  - change (10 ^ Z.of_nat 1) with 10 in Hn. cbn [Net.dec_digits].
    assert (Hd : n / 10 = 0) by (Z.to_euclidean_division_equations; lia).
    rewrite Hd. cbn [Z.eqb].
    destruct (Hdigit n ltac:(lia)) as [H1 H2].
    exists [chr (48 + n mod 10)]. repeat split.
    + cbn. lia.
    + cbn. lia.
    + constructor; [assumption|constructor].
    + unfold decnum. cbn [fold_left]. rewrite H2.
      Z.to_euclidean_division_equations. lia.
  - cbn [Net.dec_digits].
    destruct (Hdigit n ltac:(lia)) as [H1 H2].
    destruct (Z.eqb_spec (n / 10) 0) as [Hd|Hd].
    + exists [chr (48 + n mod 10)]. repeat split.
      * cbn. lia.
      * cbn. lia.
      * constructor; [assumption|constructor].
      * unfold decnum. cbn [fold_left]. rewrite H2.
        Z.to_euclidean_division_equations. lia.
    + destruct fuel as [|fuel]; [lia|].
      rewrite Nat2Z.inj_succ, Z.pow_succ_r in Hn by lia.
      destruct (IH fuel (n / 10) (chr (48 + n mod 10) :: acc)
                  ltac:(lia)) as [ds [He [Hl [Hall Hval]]]].
      { Z.to_euclidean_division_equations. nia. }
      rewrite He. exists (ds ++ [chr (48 + n mod 10)]). repeat split.
      * rewrite <- app_assoc. reflexivity.
      * rewrite length_app. cbn [List.length]. lia.
      * rewrite length_app. cbn [List.length]. lia.
      * apply Forall_app. split; [assumption|].
        constructor; [assumption|constructor].
      * unfold decnum in *. rewrite fold_left_app, Hval. cbn [fold_left].
        rewrite H2. Z.to_euclidean_division_equations. lia.
Qed.

(** X23.  [sa_port] is a number of sixteen bits, and the six bytes of
    [sa_strport] hold all of its decimal digits: one to five digits,
    whose value is the port, and the terminator. *)
Theorem sa_strport_decimal (sa : sockaddr) :
  0 <= sa_port sa < 65536
  /\ exists ds,
      sa_strport sa = ds ++ [NUL]
      /\ (1 <= List.length ds <= 5)%nat
      /\ Forall (fun c => isdigit c = true) ds
      /\ decnum ds = sa_port sa.
Proof.
  assert (Hp : 0 <= sa_port sa < 65536).
  { unfold sa_port, ntohs. pose proof (code_range (fst (sin_port sa))).
    pose proof (code_range (snd (sin_port sa))). lia. }
  split; [exact Hp|].
  unfold sa_strport, Net.snprintf, Net.fmt_i. cbn [fst].
  assert (Hv : Net.int32 (sa_port sa) = sa_port sa).
  { unfold Net.int32. rewrite Z.mod_small; lia. }
  rewrite Hv. destruct (Z.ltb_spec (sa_port sa) 0); [lia|].
  destruct (dec_digits_value 4 9 (sa_port sa) [] ltac:(lia))
    as [ds [He [Hl [Hall Hval]]]].
  { change (10 ^ Z.of_nat 5) with 100000. lia. }
  rewrite He, app_nil_r. exists ds.
  rewrite firstn_all2 by lia. auto.
Qed.

Example sa_strport_example :
  sa_strport {| sin_family := AF_INET6; sin_port := (chr 31, chr 144);
                sin_addr := [] |} = lit "8080" ++ [NUL]
  /\ sa_strport {| sin_family := AF_INET; sin_port := (chr 255, chr 255);
                   sin_addr := [] |} = lit "65535" ++ [NUL].
Proof. vm_compute. split; reflexivity. Qed.

End SockaddrFacts.

Module RegistryFacts.
Import Registry.

Lemma in_count_clients (serv : ptr) (d : Z) (ls : list (ptr * listener))
  (p : ptr) (l : listener) :
  In (p, l) (count_clients serv d ls) ->
  exists l0,
    In (p, l0) ls
    /\ n_clients l = n_clients l0 + (if (p =? serv)%nat then d else 0).
Proof.
  unfold count_clients. rewrite in_map_iff. intros [[q l0] [E Hin]].
  cbn [fst snd] in E. destruct (Nat.eqb_spec q serv) as [->|Hne].
  - inversion E; subst. exists l0. rewrite Nat.eqb_refl. cbn [n_clients].
    auto.
  - inversion E; subst. exists l. destruct (Nat.eqb_spec p serv); [contradiction|].
    split; [assumption|lia].
Qed.

Lemma unlink_count (cl : ptr) (p : ptr) (cs : list (ptr * client_node)) :
  match unlink cl cs with
  | (Some cur, rest) =>
      clients_of p rest
      = clients_of p cs - (if (p =? server cur)%nat then 1 else 0)
  | (None, rest) => rest = cs
  end.
Proof.
  induction cs as [|e cs IH]; cbn [unlink]; [reflexivity|].
  destruct (Nat.eqb_spec (fst e) cl).
  - unfold clients_of. cbn [filter].
    rewrite (Nat.eqb_sym p). destruct (server (snd e) =? p)%nat;
      cbn [List.length]; lia.
  - destruct (unlink cl cs) as [[cur|] rest].
    + unfold clients_of in *. cbn [filter].
      destruct (server (snd e) =? p)%nat; cbn [List.length]; lia.
    + rewrite IH. reflexivity.
Qed.

(** X24.  Every listener counts its clients: when [n_clients] of
    each listener of [uh_listeners] is the number of clients of
    [uh_clients] that point to it, this is so again after
    [uh_client_add] and after [uh_client_remove], whatever their
    arguments; and after [uh_listener_add] when no client points to the
    new address. *)
Theorem n_clients_counted (st : registry) :
  counted st ->
  (forall new local sock serv peer,
      counted (snd (uh_client_add new local sock serv peer st)))
  /\ (forall cl, counted (uh_client_remove cl st))
  /\ (forall local sock conf p,
        clients_of p (uh_clients st) = 0 ->
        counted (snd (uh_listener_add (Some p) local sock conf st))).
Proof.
  intros Hc. split; [|split].
  - intros [p|] local sock serv peer; [|exact Hc].
    cbn [uh_client_add snd]. intros q l Hin.
    cbn [uh_listeners uh_clients] in *.
    destruct (in_count_clients _ _ _ _ _ Hin) as [l0 [Hin0 Hn]].
    rewrite Hn, (Hc q l0 Hin0). unfold clients_of. cbn [filter snd server].
    rewrite (Nat.eqb_sym q). destruct (serv =? q)%nat; cbn [List.length]; lia.
  - intros cl. unfold uh_client_remove.
    destruct (unlink cl (uh_clients st)) as [[cur|] rest] eqn:E; [|exact Hc].
    intros q l Hin. cbn [uh_listeners uh_clients] in *.
    destruct (in_count_clients _ _ _ _ _ Hin) as [l0 [Hin0 Hn]].
    rewrite Hn, (Hc q l0 Hin0).
    pose proof (unlink_count cl q (uh_clients st)) as Hu. rewrite E in Hu.
    rewrite Hu. destruct (q =? server cur)%nat; lia.
  - intros local sock conf p Hp q l Hin.
    cbn [uh_listener_add snd uh_listeners uh_clients] in *.
    destruct Hin as [[= <- <-]|Hin]; [cbn [n_clients]; lia|].
    apply Hc. assumption.
Qed.

Lemma n_clients_counted_witness :
  counted
    (uh_client_remove 7%nat
       (snd (uh_client_add (Some 7%nat) None 4 1%nat
               {| Sockaddr.sin_family := Sockaddr.AF_INET;
                  Sockaddr.sin_port := (chr 0, chr 80);
                  Sockaddr.sin_addr := [chr 10; chr 0; chr 0; chr 1] |}
               (snd (uh_listener_add (Some 1%nat) None 3
                       (conf Fixtures.plain_client)
                       {| uh_listeners := []; uh_clients := [];
                          trace := [] |}))))).
Proof.
  apply (proj1 (proj2 (n_clients_counted _
    (proj1 (n_clients_counted _
      (proj2 (proj2 (n_clients_counted
                       {| uh_listeners := []; uh_clients := []; trace := [] |}
                       (fun p l (H : In (p, l) []) => match H with end)))
         None 3 (conf Fixtures.plain_client) 1%nat eq_refl))
      (Some 7%nat) None 4 1%nat _)))).
Defined.

Lemma count_clients_back (serv : ptr) (ls : list (ptr * listener)) :
  count_clients serv (-1) (count_clients serv 1 ls) = ls.
Proof.
  unfold count_clients. rewrite map_map. rewrite <- (map_id ls) at 2.
  apply map_ext. intros [q l]. cbn [fst snd].
  destruct (Nat.eqb_spec q serv) as [->|Hne]; cbn [fst snd].
  - rewrite Nat.eqb_refl. destruct l as [f c a n].
    cbn [listener_fd listener_conf addr n_clients]. f_equal. f_equal. lia.
  - destruct (Nat.eqb_spec q serv); [contradiction|reflexivity].
Qed.

(** X25.  A client that [uh_client_add] has put into the list is the
    one [uh_client_lookup] finds for its socket, the lookup of every
    other socket being as before; and [uh_client_remove] of that client
    gives back the two lists as they were, closes its socket once (its
    two pipes are not open) and frees the node. *)
Theorem client_add_lookup_remove (st : registry) (p : ptr)
  (local : option Sockaddr.sockaddr) (sock : Z) (serv : ptr)
  (peer : Sockaddr.sockaddr) :
  let st1 := snd (uh_client_add (Some p) local sock serv peer st) in
  uh_client_lookup sock st1 = Some p
  /\ (forall sock', sock' <> sock ->
                    uh_client_lookup sock' st1 = uh_client_lookup sock' st)
  /\ uh_clients (uh_client_remove p st1) = uh_clients st
  /\ uh_listeners (uh_client_remove p st1) = uh_listeners st
  /\ trace (uh_client_remove p st1)
     = trace st ++ (if -1 <? sock then [close sock] else []) ++ [free p].
Proof.
  intros st1. subst st1. cbn [uh_client_add snd].
  unfold uh_client_lookup, uh_client_remove.
  cbn [uh_clients uh_listeners trace find unlink fst snd client_fd fd].
  rewrite Z.eqb_refl, Nat.eqb_refl.
  cbn [option_map fst uh_clients uh_listeners trace server timeout_pending
       proc_pid rpipe wpipe client_fd Z.eqb].
  split; [reflexivity|]. split.
  - intros sock' Hne. destruct (Z.eqb_spec sock sock'); [congruence|].
    reflexivity.
  - split; [reflexivity|]. split; [apply count_clients_back|].
    unfold uh_ufd_remove. cbn [cb fd Z.ltb Z.compare app snd].
    destruct (-1 <? sock); reflexivity.
Qed.

Lemma unlink_absent (cl : ptr) (cs : list (ptr * client_node)) :
  ~ In cl (map fst cs) -> unlink cl cs = (None, cs).
Proof.
  induction cs as [|e cs IH]; cbn [unlink map]; [reflexivity|].
  intros Hn. destruct (Nat.eqb_spec (fst e) cl) as [E|E].
  - exfalso. apply Hn. left. assumption.
  - rewrite IH; [reflexivity|]. intros Hin. apply Hn. right. assumption.
Qed.

Lemma filter_keeps_all {A} (f : A -> bool) (l : list A) :
  (forall x, In x l -> f x = true) -> filter f l = l.
Proof.
  induction l as [|x l IH]; intros H; cbn [filter]; [reflexivity|].
  rewrite (H x (or_introl eq_refl)), IH; [reflexivity|].
  intros y Hy. apply H. right. assumption.
Qed.

Lemma unlink_found (cl : ptr) (cs : list (ptr * client_node)) :
  NoDup (map fst cs) ->
  match unlink cl cs with
  | (Some cur, rest) =>
      In (cl, cur) cs /\ ~ In cl (map fst rest)
      /\ rest = filter (fun e => negb (fst e =? cl)%nat) cs
  | (None, rest) => ~ In cl (map fst cs)
  end.
Proof.
  induction cs as [|e cs IH]; cbn [unlink map filter]; intros Hd.
  - intros [].
  - inversion Hd as [|? ? Hnot Hd']; subst.
    destruct (Nat.eqb_spec (fst e) cl) as [E|E]; cbn [negb].
    + subst cl. cbn [negb].
      split; [left; destruct e; reflexivity|].
      split; [assumption|]. symmetry. apply filter_keeps_all.
      intros x Hx. cbn beta.
      destruct (Nat.eqb_spec (fst x) (fst e)) as [Ex|Ex]; [|reflexivity].
      exfalso. apply Hnot. rewrite <- Ex. apply in_map. assumption.
    + specialize (IH Hd'). destruct (unlink cl cs) as [[cur|] rest].
      * destruct IH as [Hin [Hout Hrest]]. split; [right; assumption|].
        split.
        -- cbn [map]. intros [H|H]; [contradiction|auto].
        -- rewrite Hrest. reflexivity.
      * intros [H|H]; [contradiction|auto].
Qed.

(** X26.  [uh_client_remove] takes out the node at the given address
    and no other: the other clients stay, in their order.  It does
    nothing at all, and frees nothing, when no client of the list is at
    that address; so removing a client a second time changes nothing.
    (The nodes of the list are at different addresses.) *)
Theorem uh_client_remove_once (st : registry) (cl : ptr) :
  NoDup (map fst (uh_clients st)) ->
  uh_clients (uh_client_remove cl st)
  = filter (fun e => negb (fst e =? cl)%nat) (uh_clients st)
  /\ (~ In cl (map fst (uh_clients st)) -> uh_client_remove cl st = st)
  /\ uh_client_remove cl (uh_client_remove cl st) = uh_client_remove cl st.
Proof.
  intros Hd. pose proof (unlink_found cl (uh_clients st) Hd) as Hu.
  assert (Habsent : forall st0,
             ~ In cl (map fst (uh_clients st0)) ->
             uh_client_remove cl st0 = st0).
  { intros st0 Hn. unfold uh_client_remove.
    rewrite (unlink_absent _ _ Hn). reflexivity. }
  split; [|split].
  - unfold uh_client_remove.
    destruct (unlink cl (uh_clients st)) as [[cur|] rest] eqn:E.
    + destruct Hu as [_ [_ Hrest]]. exact Hrest.
    + symmetry. apply filter_keeps_all.
      intros x Hx. cbn beta.
      destruct (Nat.eqb_spec (fst x) cl) as [Ex|Ex]; [|reflexivity].
      exfalso. apply Hu. rewrite <- Ex. apply in_map. assumption.
  - apply Habsent.
  - apply Habsent. unfold uh_client_remove.
    destruct (unlink cl (uh_clients st)) as [[cur|] rest] eqn:E.
    + cbn [uh_clients]. apply Hu.
    + exact Hu.
Qed.

Lemma uh_client_remove_once_witness :
  let peer := {| Sockaddr.sin_family := Sockaddr.AF_INET;
                 Sockaddr.sin_port := (chr 0, chr 80);
                 Sockaddr.sin_addr := [chr 10; chr 0; chr 0; chr 1] |} in
  let st := snd (uh_client_add (Some 8%nat) None 5 1%nat peer
                   (snd (uh_client_add (Some 7%nat) None 4 1%nat peer
                           {| uh_listeners := []; uh_clients := [];
                              trace := [] |}))) in
  uh_client_remove 7%nat (uh_client_remove 7%nat st)
  = uh_client_remove 7%nat st.
Proof.
  intros peer st.
  apply (proj2 (proj2 (uh_client_remove_once st 7%nat
    ltac:(repeat constructor; cbn; intuition congruence)))).
Defined.

(** X27.  After [uh_ufd_remove] the descriptor has no handler and is
    not open, and a second [uh_ufd_remove] makes no call: a descriptor
    is taken from the event loop and closed once at most.  A descriptor
    that [uh_ufd_add] has given to the event loop is deleted from it
    before it is closed. *)
Theorem uh_ufd_remove_once (u : uloop_fd) :
  cb (fst (uh_ufd_remove u)) = None
  /\ fd (fst (uh_ufd_remove u)) <= -1
  /\ uh_ufd_remove (fst (uh_ufd_remove u)) = (fst (uh_ufd_remove u), [])
  /\ closed (snd (uh_ufd_remove u)) = (if -1 <? fd u then [fd u] else [])
  /\ (forall h ev,
        snd (uh_ufd_remove (fst (uh_ufd_add u (Some h) ev)))
        = uloop_fd_delete (fd u)
          :: (if -1 <? fd u then [close (fd u)] else [])).
Proof.
  destruct u as [d cbk].
  assert (Hm : (-1 <? -1) = false) by reflexivity.
  destruct (-1 <? d) eqn:Hd; destruct cbk as [h|];
    unfold uh_ufd_remove, uh_ufd_add; cbn [cb fd fst snd];
    rewrite ?Hd; cbn [cb fd fst snd closed flat_map app];
    rewrite ?Hd, ?Hm; cbn [cb fd fst snd closed flat_map app];
    repeat split; try reflexivity; try lia;
    try (apply Z.ltb_ge in Hd; lia);
    intros; rewrite ?Hd; reflexivity.
Qed.

End RegistryFacts.

Module CgiFacts.
Import Cgi.

Lemma bytes_eqb_true (a b : bytes) : bytes_eqb a b = true <-> a = b.
Proof.
  revert b. induction a as [|x a IH]; intros [|y b]; cbn [bytes_eqb];
    try (split; [discriminate|congruence]); [tauto|].
  rewrite andb_true_iff, byte_eqb_eq, IH.
  split; [intros [-> ->]|intros [= -> ->]]; auto.
Qed.

(** The comparison of one turn, when the extension is not longer than
    the path. *)
Lemma suffix_test (s e : bytes) :
  (List.length e <= List.length s)%nat ->
  bytes_eqb (skipn (List.length s - List.length e) s) e = true
  <-> ends_with s e.
Proof.
  intros Hl. rewrite bytes_eqb_true. unfold ends_with. split.
  - intros E. exists (firstn (List.length s - List.length e) s).
    pose proof (firstn_skipn (List.length s - List.length e) s) as F.
    rewrite E in F. symmetry. exact F.
  - intros [stem ->]. rewrite length_app.
    replace (List.length stem + List.length e - List.length e)%nat
      with (List.length stem) by lia.
    rewrite skipn_app, Nat.sub_diag, skipn_all. reflexivity.
Qed.

Lemma ends_with_length (s e : bytes) :
  ends_with s e -> (List.length e <= List.length s)%nat.
Proof. intros [stem ->]. rewrite length_app. lia. Qed.

(** X28.  [uh_interpreter_lookup] goes through the list from its
    head and returns the first interpreter whose extension the path
    ends with, NULL when there is none, as long as the extensions it
    passes are not longer than the path; an extension that is longer
    than the path, met before a match, makes it read outside the
    string. *)
Theorem uh_interpreter_lookup_suffix (s : bytes)
  (before : list interpreter) :
  PathRule.no_nul s ->
  Forall (fun i => (List.length (extn i) <= List.length s)%nat
                   /\ ~ ends_with s (extn i)) before ->
  (forall cur after,
      ends_with s (extn cur) ->
      uh_interpreter_lookup s (before ++ cur :: after) = Found cur)
  /\ uh_interpreter_lookup s before = NotFound
  /\ (forall cur after,
        (List.length s < List.length (extn cur))%nat ->
        uh_interpreter_lookup s (before ++ cur :: after) = OutOfBounds).
Proof.
  intros Hn Hb. unfold uh_interpreter_lookup.
  rewrite (CanonFacts.cstr_id _ Hn).
  induction Hb as [|i before [Hl Hno] _ IH]; cbn [app interpreter_lookup].
  - split; [|split; [reflexivity|]].
    + intros cur after He. pose proof (ends_with_length _ _ He) as Hl.
      destruct (Nat.leb_spec (List.length (extn cur)) (List.length s));
        [|lia].
      apply suffix_test in He; [|assumption]. rewrite He. reflexivity.
    + intros cur after Hl.
      destruct (Nat.leb_spec (List.length (extn cur)) (List.length s));
        [lia|reflexivity].
  - destruct (Nat.leb_spec (List.length (extn i)) (List.length s)); [|lia].
    destruct (bytes_eqb _ (extn i)) eqn:E.
    + apply suffix_test in E; [contradiction|assumption].
    + exact IH.
Qed.

Lemma uh_interpreter_lookup_suffix_witness :
  uh_interpreter_lookup (lit "/cgi-bin/test.php")
    [ {| path := lit "/usr/bin/lua"; extn := lit ".lua" |};
      {| path := lit "/usr/bin/php-cgi"; extn := lit ".php" |} ]
  = Found {| path := lit "/usr/bin/php-cgi"; extn := lit ".php" |}.
Proof.
  apply (proj1 (uh_interpreter_lookup_suffix (lit "/cgi-bin/test.php")
                  [ {| path := lit "/usr/bin/lua"; extn := lit ".lua" |} ]
                  ltac:(repeat (constructor; [discriminate|]); constructor)
                  ltac:(constructor; [|constructor]; split;
                        [apply Nat.leb_le; reflexivity
                        |intros He; apply suffix_test in He;
                         [discriminate He|apply Nat.leb_le; reflexivity]]))
           {| path := lit "/usr/bin/php-cgi"; extn := lit ".php" |} []).
  exists (lit "/cgi-bin/test"). reflexivity.
Defined.

Section Sizes.

Variable PATH_SIZE EXTN_SIZE : nat.

(** X29.  What [uh_interpreter_add] has added, [uh_interpreter_lookup]
    finds: the new interpreter is the one returned for every path that
    ends with its extension, whatever the list held before.  (The
    extension fits its array.) *)
Theorem uh_interpreter_add_then_lookup (e p s : bytes)
  (uh_interpreters : list interpreter) :
  (List.length (cstr e) < EXTN_SIZE)%nat ->
  PathRule.no_nul s -> ends_with s (cstr e) ->
  exists new,
    uh_interpreter_add PATH_SIZE EXTN_SIZE true e p uh_interpreters
    = (Some new, new :: uh_interpreters)
    /\ extn new = cstr e
    /\ uh_interpreter_lookup s
         (snd (uh_interpreter_add PATH_SIZE EXTN_SIZE true e p
                 uh_interpreters))
       = Found new.
Proof.
  intros Hfit Hn He.
  assert (Hf : firstn (EXTN_SIZE - 1) (cstr e) = cstr e)
    by (apply firstn_all2; lia).
  unfold uh_interpreter_add. cbn [snd].
  eexists. split; [reflexivity|]. cbn [extn].
  split; [exact Hf|].
  unfold uh_interpreter_lookup. rewrite (CanonFacts.cstr_id _ Hn).
  cbn [interpreter_lookup extn]. rewrite Hf.
  pose proof (ends_with_length _ _ He) as Hl.
  destruct (Nat.leb_spec (List.length (cstr e)) (List.length s)); [|lia].
  apply suffix_test in He; [|assumption]. rewrite He. reflexivity.
Qed.

End Sizes.

Lemma uh_interpreter_add_then_lookup_witness :
  exists new,
    uh_interpreter_add 4096 32 true (lit ".php") (lit "/usr/bin/php-cgi")
      [ {| path := lit "/bin/sh"; extn := lit "p" |} ]
    = (Some new, [new; {| path := lit "/bin/sh"; extn := lit "p" |}])
    /\ extn new = cstr (lit ".php")
    /\ uh_interpreter_lookup (lit "/a.php")
         (snd (uh_interpreter_add 4096 32 true (lit ".php")
                 (lit "/usr/bin/php-cgi")
                 [ {| path := lit "/bin/sh"; extn := lit "p" |} ]))
       = Found new.
Proof.
  apply (uh_interpreter_add_then_lookup 4096 32 (lit ".php")
           (lit "/usr/bin/php-cgi") (lit "/a.php")
           [ {| path := lit "/bin/sh"; extn := lit "p" |} ]).
  - apply Nat.ltb_lt. reflexivity.
  - repeat (constructor; [discriminate|]). constructor.
  - exists (lit "/a"). reflexivity.
Defined.

(** A path that is shorter than the extension of the first
    interpreter. *)
Example uh_interpreter_lookup_short_path :
  uh_interpreter_lookup (lit "/a")
    [ {| path := lit "/usr/bin/php-cgi"; extn := lit ".php" |} ]
  = OutOfBounds.
Proof. reflexivity. Qed.

End CgiFacts.
